(** * SongLines: music-metadata graph assembly, matching and track cache

    A shallow embedding of the TypeScript services
    [src/services/trackCache.ts], [src/services/musicbrainz.ts] and
    [src/services/discogs.ts], with the properties of the specification
    stated and settled against it.

    Conventions of the embedding.
    - A JavaScript string is a [string]: a sequence of 8-bit code units
      (the code units below 256 of the UTF-16 sequence).  Characters of
      the source's patterns outside that range (the en and em dash of one
      character class) cannot occur in such a string.
    - JavaScript numbers that are scores, counters and epoch milliseconds
      are integers [Z].
    - [localStorage] is a finite map from keys to stored values; the JSON
      text of a value is represented by the value it parses to.
    - An optional argument or field is an [option]; a JavaScript [Set] or
      array is a [list] in insertion order.
    - [console] output is not modelled. *)

From Stdlib Require Import ZArith List Ascii String Bool Lia DecimalString.
From Stdlib Require Import Permutation Sorted.
From Stdlib Require DecimalZ.
From stdpp Require Import base option list strings gmap.

Local Open Scope Z_scope.
Local Open Scope list_scope.

(** ** JavaScript string primitives *)

Module JS.

Definition chars (s : string) : list ascii := list_ascii_of_string s.
Definition str (l : list ascii) : string := string_of_list_ascii l.

Definition code (c : ascii) : N := N_of_ascii c.

Definition between (lo hi : N) (c : ascii) : bool :=
  (N.leb lo (code c) && N.leb (code c) hi)%bool.

(** [\d], [\w] and [\s] of a regular expression without the unicode flag. *)
Definition isDigit (c : ascii) : bool := between 48 57 c.

Definition isWord (c : ascii) : bool :=
  (between 97 122 c || between 65 90 c || isDigit c || N.eqb (code c) 95)%bool.

Definition isSpace (c : ascii) : bool :=
  (between 9 13 c || N.eqb (code c) 32 || N.eqb (code c) 160)%bool.

(** Line terminators, which [.] does not match. *)
Definition isLineTerminator (c : ascii) : bool :=
  (N.eqb (code c) 10 || N.eqb (code c) 13)%bool.

(** [String.prototype.toLowerCase] on one code unit below 256. *)
Definition lowerChar (c : ascii) : ascii :=
  if (between 65 90 c || between 192 214 c || between 216 222 c)%bool
  then ascii_of_N (code c + 32)
  else c.

(** Case folding of a case-insensitive pattern: only ASCII letters fold. *)
Definition foldChar (c : ascii) : ascii :=
  if between 65 90 c then ascii_of_N (code c + 32) else c.

Definition eqChar (a b : ascii) : bool := N.eqb (code a) (code b).

Definition toLowerCase (s : string) : string := str (map lowerChar (chars s)).

Fixpoint dropSpaces (l : list ascii) : list ascii :=
  match l with
  | c :: l' => if isSpace c then dropSpaces l' else l
  | [] => []
  end.

(** [String.prototype.trim] *)
Definition trimChars (l : list ascii) : list ascii :=
  rev (dropSpaces (rev (dropSpaces l))).

Definition trim (s : string) : string := str (trimChars (chars s)).

(** [a === b] on strings *)
Definition eqs (a b : string) : bool := String.eqb a b.

Fixpoint startsWithChars (p l : list ascii) : bool :=
  match p, l with
  | [], _ => true
  | x :: p', y :: l' => (eqChar x y && startsWithChars p' l')%bool
  | _ :: _, [] => false
  end.

Fixpoint includesChars (needle hay : list ascii) : bool :=
  (startsWithChars needle hay ||
   match hay with
   | [] => false
   | _ :: hay' => includesChars needle hay'
   end)%bool.

(** [hay.includes(needle)] *)
Definition includes (hay needle : string) : bool :=
  includesChars (chars needle) (chars hay).

(** [s.split(sep)] for a separator of one character. *)
Fixpoint splitChars (sep : ascii) (cur : list ascii) (l : list ascii)
  : list (list ascii) :=
  match l with
  | [] => [rev cur]
  | c :: l' =>
      if eqChar c sep then rev cur :: splitChars sep [] l'
      else splitChars sep (c :: cur) l'
  end.

Definition split (sep : ascii) (s : string) : list string :=
  map str (splitChars sep [] (chars s)).

(** [parts.join(sep)] *)
Fixpoint join (sep : string) (parts : list string) : string :=
  match parts with
  | [] => ""
  | [p] => p
  | p :: rest => p +:+ sep +:+ join sep rest
  end.

(** [s.slice(0, n)] *)
Definition sliceTo (n : nat) (s : string) : string := str (firstn n (chars s)).

(** Truthiness of a string: the empty string is falsy. *)
Definition truthy (s : string) : bool := negb (eqs s "").

(** Truthiness of an optional string ([undefined] and [""] are falsy). *)
Definition given (o : option string) : bool :=
  match o with
  | Some s => truthy s
  | None => false
  end.

(** [xs.includes(x)] on an array of strings, [set.has(x)] on a [Set]. *)
Definition has (xs : list string) (x : string) : bool := existsb (eqs x) xs.

(** No string occurs twice in the list. *)
Fixpoint distinct (xs : list string) : bool :=
  match xs with
  | [] => true
  | x :: xs' => (negb (has xs' x) && distinct xs')%bool
  end.

(** [set.add(x)] on a [Set] kept in insertion order. *)
Definition add (xs : list string) (x : string) : list string :=
  if has xs x then xs else xs ++ [x].

(** *** Regular expressions

    The patterns of the source are values of [regex]; [rmatch] is the
    backtracking matcher of the language: alternatives are tried left to
    right, a greedy star tries one more iteration first, a lazy star tries
    to stop first, and an iteration that consumes nothing is rejected. *)

Inductive regex : Type :=
| Eps : regex
| Cls : (ascii -> bool) -> regex
| Cat : regex -> regex -> regex
| Alt : regex -> regex -> regex
| Star : regex -> regex
| LazyStar : regex -> regex
| Eos : regex.

Definition orElse {A : Type} (a b : option A) : option A :=
  match a with
  | Some x => Some x
  | None => b
  end.

(** The loop of a starred pattern whose body is matched by [m]: [n] bounds
    the number of iterations by the length of the input, and an iteration
    must consume input.  The greedy loop tries one more iteration before
    it tries to go on, the lazy loop the other way round. *)
Fixpoint greedyLoop (m : list ascii -> (list ascii -> option (list ascii))
                        -> option (list ascii))
    (k : list ascii -> option (list ascii)) (n : nat) (s : list ascii)
  : option (list ascii) :=
  match n with
  | O => k s
  | S n' =>
      orElse
        (m s (fun s' =>
                if (length s' <? length s)%nat then greedyLoop m k n' s'
                else None))
        (k s)
  end.

Fixpoint lazyLoop (m : list ascii -> (list ascii -> option (list ascii))
                      -> option (list ascii))
    (k : list ascii -> option (list ascii)) (n : nat) (s : list ascii)
  : option (list ascii) :=
  match n with
  | O => k s
  | S n' =>
      orElse
        (k s)
        (m s (fun s' =>
                if (length s' <? length s)%nat then lazyLoop m k n' s'
                else None))
  end.

(** [rmatch r s k]: match [r] at the start of [s], then continue with [k]
    on the rest; the result is what is left of the input after the whole
    match. *)
Fixpoint rmatch (r : regex) (s : list ascii)
    (k : list ascii -> option (list ascii)) {struct r} : option (list ascii) :=
  match r with
  | Eps => k s
  | Cls p =>
      match s with
      | c :: s' => if p c then k s' else None
      | [] => None
      end
  | Cat a b => rmatch a s (fun s' => rmatch b s' k)
  | Alt a b => orElse (rmatch a s k) (rmatch b s k)
  | Star a => greedyLoop (rmatch a) k (S (length s)) s
  | LazyStar a => lazyLoop (rmatch a) k (S (length s)) s
  | Eos =>
      match s with
      | [] => k s
      | _ :: _ => None
      end
  end.

(** Pattern syntax of the source. *)
Definition anyChar : regex := Cls (fun c => negb (isLineTerminator c)).  (* . *)
Definition space : regex := Cls isSpace.                              (* \s *)
Definition digit : regex := Cls isDigit.                              (* \d *)
Definition oneOf (cs : string) : regex :=                              (* [...] *)
  Cls (fun c => existsb (eqChar c) (chars cs)).
Definition noneOf (cs : string) : regex :=                             (* [^...] *)
  Cls (fun c => negb (existsb (eqChar c) (chars cs))).
Definition plus (r : regex) : regex := Cat r (Star r).                 (* r+ *)
Definition opt (r : regex) : regex := Alt r Eps.                       (* r? *)

Fixpoint cats (rs : list regex) : regex :=
  match rs with
  | [] => Eps
  | [r] => r
  | r :: rs' => Cat r (cats rs')
  end.

Fixpoint alts (rs : list regex) : regex :=
  match rs with
  | [] => Cls (fun _ => false)
  | [r] => r
  | r :: rs' => Alt r (alts rs')
  end.

(** A literal of a pattern with the [i] flag. *)
Definition lit_i (w : string) : regex :=
  cats (map (fun x => Cls (fun c => eqChar (foldChar c) (foldChar x))) (chars w)).

(** A literal of a pattern without the [i] flag. *)
Definition lit (w : string) : regex :=
  cats (map (fun x => Cls (eqChar x)) (chars w)).

(** A sufficient test that a pattern cannot match an input that starts
    with the character [c]: the pattern has to read a first character and
    accepts none that is [c]. *)
Fixpoint firstRejects (r : regex) (c : ascii) : bool :=
  match r with
  | Eps => false
  | Cls p => negb (p c)
  | Cat a _ => firstRejects a c
  | Alt a b => (firstRejects a c && firstRejects b c)%bool
  | Star _ | LazyStar _ => false
  | Eos => true
  end.

(** [re.test(s)]: is there a match starting at some position? *)
Fixpoint test (r : regex) (s : list ascii) : bool :=
  match rmatch r s Some with
  | Some _ => true
  | None =>
      match s with
      | [] => false
      | _ :: s' => test r s'
      end
  end.

(** [s.replace(re, rep)] for a pattern without the [g] flag: the leftmost
    match is replaced. *)
Fixpoint replaceFirst (r : regex) (rep : list ascii) (s : list ascii)
  : list ascii :=
  match rmatch r s Some with
  | Some rest => rep ++ rest
  | None =>
      match s with
      | [] => []
      | c :: s' => c :: replaceFirst r rep s'
      end
  end.

(** [s.replace(re, rep)] for a pattern with the [g] flag: matches are
    replaced from left to right; after an empty match the next character
    is copied.  [n] bounds the number of steps by the length of the
    input. *)
Fixpoint replaceAllFrom (n : nat) (r : regex) (rep : list ascii)
    (s : list ascii) : list ascii :=
  match n with
  | O => s
  | S n' =>
      match rmatch r s Some with
      | Some rest =>
          if (length rest <? length s)%nat
          then rep ++ replaceAllFrom n' r rep rest
          else
            match s with
            | [] => rep
            | c :: s' => rep ++ c :: replaceAllFrom n' r rep s'
            end
      | None =>
          match s with
          | [] => []
          | c :: s' => c :: replaceAllFrom n' r rep s'
          end
      end
  end.

Definition replaceAll (r : regex) (rep : string) (s : string) : string :=
  str (replaceAllFrom (S (length (chars s))) r (chars rep) (chars s)).

Definition replace1 (r : regex) (rep : string) (s : string) : string :=
  str (replaceFirst r (chars rep) (chars s)).

Definition matches (r : regex) (s : string) : bool := test r (chars s).

End JS.

(** ** The data model ([src/types/music.ts]) *)

Module Music.

Inductive EntityType : Type := artist | track | album | label.

Inductive ReleaseType : Type := Album | Single | EP | Other.

Inductive RoleType : Type :=
| primary_artist | featured | remixer
| producer | executive_producer | co_producer | vocal_producer
| additional_producer
| songwriter | composer | lyricist | arranger
| engineer | mixing | mastering | recording | programming
| vocals | background_vocals | choir
| guitar | bass | violin | cello | strings
| drums | percussion
| keyboards | piano | organ | synthesizer
| saxophone | trumpet | horns | flute | woodwinds
| harmonica | turntables | other_instrument
| member_of | signed_to | released_on | contains.

(** The string a role is at run time; it is what a template literal
    interpolates. *)
Definition roleName (r : RoleType) : string :=
  match r with
  | primary_artist => "primary_artist" | featured => "featured"
  | remixer => "remixer"
  | producer => "producer" | executive_producer => "executive_producer"
  | co_producer => "co_producer" | vocal_producer => "vocal_producer"
  | additional_producer => "additional_producer"
  | songwriter => "songwriter" | composer => "composer"
  | lyricist => "lyricist" | arranger => "arranger"
  | engineer => "engineer" | mixing => "mixing" | mastering => "mastering"
  | recording => "recording" | programming => "programming"
  | vocals => "vocals" | background_vocals => "background_vocals"
  | choir => "choir"
  | guitar => "guitar" | bass => "bass" | violin => "violin"
  | cello => "cello" | strings => "strings"
  | drums => "drums" | percussion => "percussion"
  | keyboards => "keyboards" | piano => "piano" | organ => "organ"
  | synthesizer => "synthesizer"
  | saxophone => "saxophone" | trumpet => "trumpet" | horns => "horns"
  | flute => "flute" | woodwinds => "woodwinds"
  | harmonica => "harmonica" | turntables => "turntables"
  | other_instrument => "other_instrument"
  | member_of => "member_of" | signed_to => "signed_to"
  | released_on => "released_on" | contains => "contains"
  end.

(** [a === b] on roles: comparison of the two strings. *)
Definition eqRole (a b : RoleType) : bool := JS.eqs (roleName a) (roleName b).

Definition eqEntityType (a b : EntityType) : bool :=
  match a, b with
  | artist, artist | track, track | album, album | label, label => true
  | _, _ => false
  end.

Record MusicEntity : Type := mkEntity {
  e_id : string;
  e_name : string;
  e_type : EntityType;
  e_image : option string;
  e_mbid : option string;
  e_releaseType : option ReleaseType;
  e_isExpanded : option bool;
  e_isHidden : option bool;
  e_childrenLoaded : option bool
}.

Record Relationship : Type := mkRel {
  r_id : string;
  r_source : string;
  r_target : string;
  r_role : RoleType
}.

End Music.

(** ** The track cache ([src/services/trackCache.ts]) *)

Module TrackCache.
Import JS Music.

Record CachedTrack : Type := mkCached {
  entities : list MusicEntity;
  relationships : list Relationship;
  timestamp : Z;
  lastAccess : Z;
  hitCount : Z
}.

Record CacheIndex : Type := mkIndex {
  keys : list string;
  version : Z
}.

(** What the text stored under a key parses to: an index or a track as
    the cache writes them; [StoredTouched index hitCount], an index to
    which a [getCachedTrack] that read it as a track has added
    [lastAccess] and [hitCount] ([None] is the [null] that the text has for
    a [hitCount] that is not a number); [StoredOther], a JSON number,
    string or boolean; [StoredInvalid], the empty text or a text
    [JSON.parse] rejects.  Texts that parse to [null], to an array or to
    another object are not described. *)
Inductive stored : Type :=
| StoredIndex : CacheIndex -> stored
| StoredTrack : CachedTrack -> stored
| StoredOther : stored
| StoredInvalid : stored
| StoredTouched : CacheIndex -> option Z -> stored.

(** A number of the statistics: [NaN] is what arithmetic with the
    [undefined] field of a value that is not a track gives. *)
Inductive number : Type :=
| Finite : Z -> number
| NaN : number.

(** [Math.min], [Math.max] and [+] *)
Definition mathMin (a b : number) : number :=
  match a, b with
  | Finite x, Finite y => Finite (Z.min x y)
  | _, _ => NaN
  end.

Definition mathMax (a b : number) : number :=
  match a, b with
  | Finite x, Finite y => Finite (Z.max x y)
  | _, _ => NaN
  end.

Definition plusNumber (a b : number) : number :=
  match a, b with
  | Finite x, Finite y => Finite (x + y)
  | _, _ => NaN
  end.

(** What [getCachedTrack] returns: [null], an object with the entities
    and relationships of the entry, or, for a stored value that has no
    such fields, an object in which both are [undefined]. *)
Inductive lookup : Type :=
| Miss : lookup
| Hit : list MusicEntity -> list Relationship -> lookup
| HitWithoutFields : lookup.

Abbreviation storage := (gmap string stored).

Definition CACHE_PREFIX : string := "musicgraph-track-".
Definition INDEX_KEY : string := "musicgraph-track-index".
Definition CACHE_VERSION : Z := 1.
Definition MAX_CACHE_SIZE : nat := 150.
Definition TTL_MS : Z := 7 * 24 * 60 * 60 * 1000.

Definition normalizeForKey (s : string) : string :=
  sliceTo 50
    (trim
       (replaceAll (plus space) "_"
          (replaceAll (Cls (fun c => negb (isWord c || isSpace c))) ""
             (toLowerCase s)))).

Definition generateCacheKey (trackName artistName : string)
    (albumName : option string) : string :=
  let parts := [normalizeForKey artistName; normalizeForKey trackName] in
  let parts :=
    match albumName with
    | Some a => if truthy a then parts ++ [normalizeForKey a] else parts
    | None => parts
    end in
  join "::" parts.

Definition emptyIndex : CacheIndex := {| keys := []; version := CACHE_VERSION |}.

(** [keys.indexOf(key)] *)
Fixpoint indexOf (key : string) (l : list string) : option nat :=
  match l with
  | [] => None
  | x :: l' => if eqs x key then Some O else S <$> indexOf key l'
  end.

(** [keys.pop()]: the array without its last element, and that element. *)
Definition pop (l : list string) : list string * option string :=
  (removelast l, last l).

(** [localStorage.removeItem(CACHE_PREFIX + key)], guarded by [if (key)]. *)
Definition removeEntry (key : option string) (ls : storage) : storage :=
  match key with
  | Some k => if truthy k then delete (CACHE_PREFIX +:+ k) ls else ls
  | None => ls
  end.

Definition isExpired (now : Z) (entry : CachedTrack) : bool :=
  now - timestamp entry >? TTL_MS.

(** [existingIndex = keys.indexOf(key)] followed by
    [if (existingIndex >= 0) keys.splice(existingIndex, 1)]. *)
Definition removeKey (key : string) (ks : list string) : list string :=
  match indexOf key ks with
  | Some i => delete i ks
  | None => ks
  end.

(** The entry [setCachedTrack] builds. *)
Definition newEntry (now : Z) (ents : list MusicEntity)
    (rels : list Relationship) : CachedTrack :=
  {| entities := ents; relationships := rels;
     timestamp := now; lastAccess := now; hitCount := 0 |}.

Section WithQuota.

(** The quota of the browser: [fits ls] tells whether the contents [ls]
    are within it.  A [setItem] that would exceed it throws
    [QuotaExceededError] and leaves the storage unchanged. *)
Variable fits : storage -> bool.

Definition setItem (k : string) (v : stored) (ls : storage) : option storage :=
  if fits (<[k:=v]> ls) then Some (<[k:=v]> ls) else None.

Definition saveIndex (index : CacheIndex) (ls : storage) : storage :=
  match setItem INDEX_KEY (StoredIndex index) ls with
  | Some ls' => ls'
  | None => ls
  end.

(** [getIndex] and [clearCache] call each other.  The first argument is
    the number of frames left on the call stack: a call with none left
    throws [RangeError], which is [None] here.  [getIndex] catches what its
    body throws and answers the empty index. *)
Fixpoint getIndex (d : nat) (ls : storage) {struct d}
  : option (CacheIndex * storage) :=
  match d with
  | O => None
  | S d' =>
      Some
        match ls !! INDEX_KEY with
        | Some (StoredIndex index) | Some (StoredTouched index _) =>
            if version index =? CACHE_VERSION then (index, ls)
            else (emptyIndex, default ls (clearCache d' ls))
        | Some (StoredTrack _) | Some StoredOther =>
            (emptyIndex, default ls (clearCache d' ls))
        | Some StoredInvalid | None => (emptyIndex, ls)
        end
  end
with clearCache (d : nat) (ls : storage) {struct d} : option storage :=
  match d with
  | O => None
  | S d' =>
      match getIndex d' ls with
      | None => None
      | Some (index, ls1) =>
          Some (delete INDEX_KEY
                  (foldl (fun acc key => delete (CACHE_PREFIX +:+ key) acc)
                     ls1 (keys index)))
      end
  end.

Definition removeCachedTrack (d : nat) (key : string) (ls : storage)
  : option storage :=
  match d with
  | O => None
  | S d' =>
      let ls1 := delete (CACHE_PREFIX +:+ key) ls in
      Some
        match getIndex d' ls1 with
        | None => ls1
        | Some (index, ls2) =>
            match indexOf key (keys index) with
            | Some i =>
                saveIndex {| keys := delete i (keys index);
                             version := version index |} ls2
            | None => ls2
            end
        end
  end.

(** The eviction loop of [setCachedTrack]:
    [while (index.keys.length >= MAX_CACHE_SIZE) { ... pop ... }]. *)
Fixpoint evictWhileFull (n : nat) (ks : list string) (ls : storage)
  : list string * storage :=
  match n with
  | O => (ks, ls)
  | S n' =>
      if (MAX_CACHE_SIZE <=? length ks)%nat
      then let '(ks', oldest) := pop ks in
           evictWhileFull n' ks' (removeEntry oldest ls)
      else (ks, ls)
  end.

(** The loop of [evictOldEntries]:
    [for (i = 0; i < count && index.keys.length > 0; i++) { ... pop ... }]. *)
Fixpoint evictCount (count : nat) (ks : list string) (ls : storage)
  : list string * storage :=
  match count with
  | O => (ks, ls)
  | S count' =>
      match ks with
      | [] => (ks, ls)
      | _ :: _ =>
          let '(ks', oldest) := pop ks in
          evictCount count' ks' (removeEntry oldest ls)
      end
  end.

Definition evictOldEntries (d : nat) (count : nat) (ls : storage)
  : option storage :=
  match d with
  | O => None
  | S d' =>
      match getIndex d' ls with
      | None => None
      | Some (index, ls1) =>
          let '(ks, ls2) := evictCount count (keys index) ls1 in
          Some (saveIndex {| keys := ks; version := version index |} ls2)
      end
  end.

(** [getCachedTrack].  A stored index has no [timestamp]: the comparison
    of [isExpired] is then with [NaN] and false, so the value is served
    like a fresh entry, with [hitCount++] on a missing field giving
    [NaN], written as [null], and on [null] giving 1.  On a number, string
    or boolean the assignment of [lastAccess] throws (the module is
    strict code), which the [catch] turns into [null]. *)
Definition getCachedTrack (d : nat) (now : Z) (trackName artistName : string)
    (albumName : option string) (ls : storage) : option (lookup * storage) :=
  match d with
  | O => None
  | S d' =>
      let key := generateCacheKey trackName artistName albumName in
      let fullKey := CACHE_PREFIX +:+ key in
      let served (rewritten : stored) (answer : lookup) :=
        match setItem fullKey rewritten ls with
        | None => (Miss, ls)
        | Some ls1 =>
            match getIndex d' ls1 with
            | None => (Miss, ls1)
            | Some (index, ls2) =>
                let ls3 :=
                  match indexOf key (keys index) with
                  | Some (S i) =>
                      saveIndex
                        {| keys := key :: delete (S i) (keys index);
                           version := version index |} ls2
                  | _ => ls2
                  end in
                (answer, ls3)
            end
        end in
      Some
        match ls !! fullKey with
        | Some (StoredTrack entry) =>
            if isExpired now entry then
              match removeCachedTrack d' key ls with
              | Some ls' => (Miss, ls')
              | None => (Miss, ls)
              end
            else
              served
                (StoredTrack
                   {| entities := entities entry;
                      relationships := relationships entry;
                      timestamp := timestamp entry;
                      lastAccess := now;
                      hitCount := hitCount entry + 1 |})
                (Hit (entities entry) (relationships entry))
        | Some (StoredIndex index) =>
            served (StoredTouched index None) HitWithoutFields
        | Some (StoredTouched index hits) =>
            served (StoredTouched index (Some (default 0 hits + 1)))
              HitWithoutFields
        | Some StoredOther | Some StoredInvalid | None => (Miss, ls)
        end
  end.

Definition setCachedTrack (d : nat) (now : Z) (trackName artistName : string)
    (albumName : option string) (ents : list MusicEntity)
    (rels : list Relationship) (ls : storage) : option storage :=
  match d with
  | O => None
  | S d' =>
      let key := generateCacheKey trackName artistName albumName in
      let fullKey := CACHE_PREFIX +:+ key in
      match ents with
      | [] => Some ls
      | _ :: _ =>
          let entry := newEntry now ents rels in
          match getIndex d' ls with
          | None => Some ls
          | Some (index, ls1) =>
              let ks1 := removeKey key (keys index) in
              let '(ks2, ls2) := evictWhileFull (length ks1) ks1 ls1 in
              let ls3 :=
                saveIndex {| keys := key :: ks2; version := version index |}
                  ls2 in
              match setItem fullKey (StoredTrack entry) ls3 with
              | Some ls4 => Some ls4
              | None =>
                  match evictOldEntries d' 10 ls3 with
                  | None => None
                  | Some ls5 =>
                      match setItem fullKey (StoredTrack entry) ls5 with
                      | Some ls6 => Some ls6
                      | None => Some ls5
                      end
                  end
              end
          end
      end
  end.

Record CacheStats : Type := mkStats {
  trackCount : nat;
  oldestEntry : option Z;
  newestEntry : option Z;
  totalHits : number
}.

(** [entry.timestamp] and [entry.hitCount] as numbers, for a value that
    [JSON.parse] accepts: a field that is missing is [undefined], which
    arithmetic takes for [NaN], and [null] counts as 0. *)
Definition timestampOf (v : stored) : number :=
  match v with
  | StoredTrack entry => Finite (timestamp entry)
  | _ => NaN
  end.

Definition hitCountOf (v : stored) : number :=
  match v with
  | StoredTrack entry => Finite (hitCount entry)
  | StoredTouched _ hits => Finite (default 0 hits)
  | _ => NaN
  end.

(** The loop of [getCacheStats]; [None] as oldest timestamp is
    [Infinity].  A key with no text or with a text that does not parse
    is skipped. *)
Definition statsStep (ls : storage) (acc : option number * number * number)
    (key : string) : option number * number * number :=
  let '(oldest, newest, hits) := acc in
  match ls !! (CACHE_PREFIX +:+ key) with
  | Some StoredInvalid | None => acc
  | Some entry =>
      (Some match oldest with
            | Some o => mathMin o (timestampOf entry)
            | None => timestampOf entry
            end,
       mathMax newest (timestampOf entry),
       plusNumber hits (hitCountOf entry))
  end.

Definition getCacheStats (d : nat) (ls : storage)
  : option (CacheStats * storage) :=
  match d with
  | O => None
  | S d' =>
      match getIndex d' ls with
      | None => None
      | Some (index, ls1) =>
          let '(oldest, newest, hits) :=
            foldl (statsStep ls1) (None, Finite 0, Finite 0) (keys index) in
          Some ({| trackCount := length (keys index);
                   oldestEntry :=
                     match oldest with
                     | Some (Finite o) => Some o
                     | Some NaN | None => None
                     end;
                   newestEntry :=
                     match newest with
                     | Finite n => if n >? 0 then Some n else None
                     | NaN => None
                     end;
                   totalHits := hits |}, ls1)
      end
  end.

(** A caller's request to store one resolved track, and a sequence of
    such requests served one after the other. *)
Record put : Type := mkPut {
  p_now : Z;
  p_track : string;
  p_artist : string;
  p_album : option string;
  p_entities : list MusicEntity;
  p_relationships : list Relationship
}.

Definition putKey (p : put) : string :=
  generateCacheKey (p_track p) (p_artist p) (p_album p).

Fixpoint putAll (d : nat) (ps : list put) (ls : storage) : option storage :=
  match ps with
  | [] => Some ls
  | p :: ps' =>
      match setCachedTrack d (p_now p) (p_track p) (p_artist p) (p_album p)
              (p_entities p) (p_relationships p) ls with
      | Some ls' => putAll d ps' ls'
      | None => None
      end
  end.

(** The test of the first loop of [cleanupExpiredEntries]: is the key
    pushed on [keysToRemove]?  A missing or unreadable entry is, an entry
    that parses to something without a [timestamp] is not. *)
Definition staleKey (now : Z) (ls : storage) (key : string) : bool :=
  match ls !! (CACHE_PREFIX +:+ key) with
  | Some (StoredTrack entry) => isExpired now entry
  | Some (StoredIndex _) | Some (StoredTouched _ _) | Some StoredOther => false
  | Some StoredInvalid | None => true
  end.

(** The second loop of [cleanupExpiredEntries]. *)
Fixpoint removeAll (d : nat) (keysToRemove : list string) (ls : storage)
  : option storage :=
  match keysToRemove with
  | [] => Some ls
  | key :: rest =>
      match removeCachedTrack d key ls with
      | Some ls' => removeAll d rest ls'
      | None => None
      end
  end.

Definition cleanupExpiredEntries (d : nat) (now : Z) (ls : storage)
  : option (nat * storage) :=
  match d with
  | O => None
  | S d' =>
      match getIndex d' ls with
      | None => None
      | Some (index, ls1) =>
          let keysToRemove := List.filter (staleKey now ls1) (keys index) in
          match removeAll d' keysToRemove ls1 with
          | Some ls2 => Some (length keysToRemove, ls2)
          | None => None
          end
      end
  end.

End WithQuota.

(** Descriptions of a storage used in the statements below. *)

(** The index stored under [INDEX_KEY] is one [getIndex] accepts. *)
Definition indexed (ks : list string) (ls : storage) : Prop :=
  ls !! INDEX_KEY = Some (StoredIndex {| keys := ks; version := CACHE_VERSION |}).

(** The stored index is one [getIndex] answers with a clearing of the
    cache: a version that is not the current one, or no version at all. *)
Definition mismatched (ls : storage) : Prop :=
  match ls !! INDEX_KEY with
  | Some (StoredIndex index) | Some (StoredTouched index _) =>
      version index <> CACHE_VERSION
  | Some (StoredTrack _) | Some StoredOther => True
  | Some StoredInvalid | None => False
  end.

(** What one [setCachedTrack] does to the list of keys, and what a run of
    them does. *)
Definition putKeys (key : string) (ks : list string) : list string :=
  key :: firstn 149 (removeKey key ks).

Definition keysAfter (ks : list string) (ps : list put) : list string :=
  foldl (fun ks p => putKeys (putKey p) ks) ks ps.

(** Sample data: a store whose index names one entry and carries a
    version that is not the current one; 151 requests with distinct keys;
    a store whose index is at capacity. *)
Definition sampleEntity : MusicEntity :=
  mkEntity "track-r1" "Song" track None (Some "r1") None
    (Some false) (Some false) (Some true).

Definition staleStorage : storage :=
  <[INDEX_KEY := StoredIndex {| keys := ["artist::song"]; version := 0 |}]>
    (<[CACHE_PREFIX +:+ "artist::song" :=
         StoredTrack (newEntry 1000 [sampleEntity] [])]> ∅).

Definition samplePut (n : nat) : put :=
  mkPut (Z.of_nat n)
    (str (repeat "t"%char (1 + n mod 16)))
    (str (repeat "a"%char (1 + n / 16)))
    None [sampleEntity] [].

Definition samplePuts : list put := map samplePut (seq 0 151).

Definition fullKeys : list string := rev (map putKey (map samplePut (seq 0 150))).

Definition fullStorage : storage :=
  <[INDEX_KEY := StoredIndex {| keys := fullKeys; version := CACHE_VERSION |}]> ∅.

(** The characters of a normalized key component: a to z, 0 to 9 and the
    underscore. *)
Definition keyChar (c : ascii) : bool :=
  (between 97 122 c || isDigit c || N.eqb (code c) 95)%bool.

(** The hit count of the entry of a key, 0 when the key has no text that
    parses or the value has a [hitCount] that is [null]. *)
Definition hitsOf (ls : storage) (key : string) : Z :=
  match ls !! (CACHE_PREFIX +:+ key) with
  | Some (StoredTrack entry) => hitCount entry
  | Some (StoredTouched _ hits) => default 0 hits
  | _ => 0
  end.

(** The key holds a value that parses and has no [timestamp], or no
    [hitCount]: a value that is not a track. *)
Definition noTimestamp (ls : storage) (key : string) : bool :=
  match ls !! (CACHE_PREFIX +:+ key) with
  | Some (StoredIndex _) | Some (StoredTouched _ _) | Some StoredOther => true
  | Some (StoredTrack _) | Some StoredInvalid | None => false
  end.

Definition noHitCount (ls : storage) (key : string) : bool :=
  match ls !! (CACHE_PREFIX +:+ key) with
  | Some (StoredIndex _) | Some StoredOther => true
  | Some (StoredTouched _ _) | Some (StoredTrack _) | Some StoredInvalid
  | None => false
  end.


(** The storage with the index [ks] saved in it, and with an entry stored
    in it. *)
Definition withIndex (ks : list string) (ls : storage) : storage :=
  <[INDEX_KEY := StoredIndex {| keys := ks; version := CACHE_VERSION |}]> ls.

Definition withEntry (key : string) (entry : CachedTrack) (ls : storage)
  : storage :=
  <[CACHE_PREFIX +:+ key := StoredTrack entry]> ls.

(** What [evictOldEntries(10)] makes of a storage whose index lists [ks],
    when the index it writes is within the quota. *)
Definition afterEviction (ks : list string) (ls : storage) : storage :=
  withIndex (evictCount 10 ks ls).1 (evictCount 10 ks ls).2.

(** A quota of two items, and a store that holds them: the index and the
    one entry it lists. *)
Definition twoItems (ls : storage) : bool := (size ls <=? 2)%nat.

Definition smallStorage : storage :=
  <[INDEX_KEY := StoredIndex {| keys := ["artist::song"];
                                version := CACHE_VERSION |}]>
    (<[CACHE_PREFIX +:+ "artist::song" :=
         StoredTrack (newEntry 1000 [sampleEntity] [])]> ∅).

(** The store at capacity with the entries of its two most recent keys,
    both stored at time 1000. *)
Definition fullStorage1 : storage :=
  <[CACHE_PREFIX +:+ "a::t" := StoredTrack (newEntry 1000 [sampleEntity] [])]>
    (<[CACHE_PREFIX +:+ "a::tt" := StoredTrack (newEntry 1000 [sampleEntity] [])]>
       fullStorage).

(** The same store with a number in the place of the entry of the most
    recent key. *)
Definition fullStorageWithNumber : storage :=
  <[CACHE_PREFIX +:+ "a::t" := StoredOther]> fullStorage1.

End TrackCache.

(** ** Outbound calls ([fetchMB], [fetchDiscogs]) *)

Module Net.

(** A request: the endpoint and the query parameters. *)
Record request : Type := mkRequest {
  endpoint : string;
  params : list (string * string)
}.

(** What the upstream answers to one request. *)
Record reply (T : Type) : Type := mkReply {
  status : Z;
  body : T
}.
Arguments mkReply {T} _ _.
Arguments status {T} _.
Arguments body {T} _.

(** [response.ok] *)
Definition ok {T : Type} (r : reply T) : bool :=
  (200 <=? status r) && (status r <=? 299).

(** A source as the caller sees it: the logical clock in milliseconds, the
    [lastRequestTime] of the source's [RateLimiter], the answers the
    upstream will give to the coming requests, in order, and the requests
    sent so far with the times at which they were sent.  The functions
    below take a source from the start of a call to its end: they
    describe calls made one after the other, each awaited before the
    next is started.  Calls started together are described by
    [startedTogether]. *)
Record source (T : Type) : Type := mkSource {
  clock : Z;
  lastRequestTime : Z;
  upstream : list (reply T);
  sent : list (Z * request)
}.
Arguments mkSource {T} _ _ _ _.
Arguments clock {T} _.
Arguments lastRequestTime {T} _.
Arguments upstream {T} _.
Arguments sent {T} _.

(** How a call ends: with the parsed body, with a thrown
    [Error("... API error: <status>")], or, when the upstream has no
    answer left, not at all. *)
Inductive outcome (T : Type) : Type :=
| Returned : T -> outcome T
| Thrown : Z -> outcome T
| Waiting : outcome T.
Arguments Returned {T} _.
Arguments Thrown {T} _.
Arguments Waiting {T}.

Definition minInterval : Z := 1100.

(** [RateLimiter.throttle]: the clock after the wait; it is also the new
    [lastRequestTime]. *)
Definition throttle (clock lastRequestTime : Z) : Z :=
  let elapsed := clock - lastRequestTime in
  if elapsed <? minInterval then clock + (minInterval - elapsed) else clock.

(** [fetchMB] *)
Definition fetchMB {T : Type} (q : request) (s : source T)
  : outcome T * source T :=
  let t := throttle (clock s) (lastRequestTime s) in
  match upstream s with
  | [] => (Waiting, mkSource t t [] (sent s ++ [(t, q)]))
  | r :: rest =>
      let s' := mkSource t t rest (sent s ++ [(t, q)]) in
      if ok r then (Returned (body r), s') else (Thrown (status r), s')
  end.

Definition rateLimitBackoff : Z := 60000.

(** [fetchDiscogs]; the recursive call of the source is the recursive
    call here, on the answers that are left. *)
Fixpoint fetchDiscogsFrom {T : Type} (q : request) (answers : list (reply T))
    (clock lastRequestTime : Z) (sent : list (Z * request))
  : outcome T * source T :=
  let t := throttle clock lastRequestTime in
  match answers with
  | [] => (Waiting, mkSource t t [] (sent ++ [(t, q)]))
  | r :: rest =>
      if ok r then (Returned (body r), mkSource t t rest (sent ++ [(t, q)]))
      else if status r =? 429
      then fetchDiscogsFrom q rest (t + rateLimitBackoff) t (sent ++ [(t, q)])
      else (Thrown (status r), mkSource t t rest (sent ++ [(t, q)]))
  end.

Definition fetchDiscogs {T : Type} (q : request) (s : source T)
  : outcome T * source T :=
  fetchDiscogsFrom q (upstream s) (clock s) (lastRequestTime s) (sent s).

(** The specification's policy for a rate-limited call, in its words: a
    call whose first answer is 429 is retried exactly once, and what the
    retry gets is what the call ends with. *)
Definition retriedOnceThenPropagated {T : Type}
    (fetch : request -> source T -> outcome T * source T) : Prop :=
  forall (q : request) (c l : Z) (b : T) (second : reply T)
         (rest : list (reply T)),
    let s := mkSource c l (mkReply 429 b :: second :: rest) [] in
    length (sent (fetch q s).2) = 2%nat /\
    (fetch q s).1 =
      (if ok second then Returned (body second) else Thrown (status second)).

(** Sample data: a request for a Discogs release. *)
Definition sampleRequest : request := mkRequest "/releases/42" [].

(** The times are in order and at least [minInterval] apart. *)
Fixpoint spaced (times : list Z) : Prop :=
  match times with
  | [] => True
  | t :: rest =>
      match rest with
      | [] => True
      | t' :: _ => t + minInterval <= t'
      end /\ spaced rest
  end.

(** The log of a source is spaced, and the rate limiter remembers a time
    that is not before any request of the log. *)
Definition paced {T : Type} (s : source T) : Prop :=
  spaced (map fst (sent s)) /\
  Forall (fun t => t <= lastRequestTime s) (map fst (sent s)).

(** [RateLimiter.throttle] up to its [await]: the time the call waits
    for.  A call that does not wait sets [lastRequestTime] before it
    returns; a call that waits sets it when its timer has fired. *)
Definition throttleStart (now lastRequestTime : Z) : option Z :=
  let elapsed := now - lastRequestTime in
  if elapsed <? minInterval then Some (minInterval - elapsed) else None.

(** Calls of [throttle] started in the same turn of the event loop, at
    time [now], as the calls of [fetchArtistAliases] that
    [buildGraphFromTrack] starts for the credited artists before it
    awaits any of them: the time at which each returns, which is when its
    request is sent.  Every call runs up to its [await] before any timer
    fires, so a call that waits leaves [lastRequestTime] as it found
    it for the calls started after it. *)
Fixpoint startedTogether (now lastRequestTime : Z) (calls : nat) : list Z :=
  match calls with
  | O => []
  | S calls' =>
      match throttleStart now lastRequestTime with
      | Some wait => now + wait :: startedTogether now lastRequestTime calls'
      | None => now :: startedTogether now now calls'
      end
  end.

End Net.

(** ** Discogs credits ([src/services/discogs.ts]) *)

Module Discogs.
Import JS Music.

(** The fields of the Discogs API types that the code reads. *)
Record DiscogsArtist : Type := mkArtist {
  a_id : Z;
  a_name : string;
  a_role : option string;
  a_tracks : option string
}.

Record DiscogsTrack : Type := mkTrack {
  t_position : string;
  t_title : string;
  t_extraartists : option (list DiscogsArtist)
}.

Record DiscogsRelease : Type := mkRelease {
  rl_id : Z;
  rl_title : string;
  rl_tracklist : list DiscogsTrack;
  rl_extraartists : option (list DiscogsArtist)
}.

Record DiscogsCredits : Type := mkCredits {
  entities : list MusicEntity;
  relationships : list Relationship
}.

(** A number interpolated in a template literal. *)
Definition numberToString (n : Z) : string :=
  NilZero.string_of_int (Z.to_int n).

Definition mapDiscogsRole (role : string) : RoleType :=
  let lowerRole := toLowerCase role in
  let inc := includes lowerRole in
  if inc "executive producer" then executive_producer
  else if inc "co-producer" then co_producer
  else if inc "vocal producer" then vocal_producer
  else if inc "additional producer" then additional_producer
  else if (inc "producer" || inc "produced by")%bool then producer
  else if (inc "written by" || inc "written-by")%bool then songwriter
  else if (inc "lyrics by" || inc "lyrics")%bool then songwriter
  else if (inc "music by" || inc "composed by")%bool then songwriter
  else if (inc "songwriter" || inc "composer")%bool then songwriter
  else if (inc "mixed by" || inc "mixing")%bool then engineer
  else if (inc "mastered by" || inc "mastering")%bool then engineer
  else if (inc "recorded by" || inc "recording")%bool then engineer
  else if inc "engineer" then engineer
  else if (inc "vocal" || inc "voice")%bool then vocals
  else if (inc "backing vocal" || inc "background vocal")%bool then vocals
  else if (inc "featuring" || inc "feat")%bool then featured
  else if inc "guitar" then guitar
  else if inc "bass" then bass
  else if (inc "drum" || inc "percussion")%bool then drums
  else if (inc "keyboard" || inc "piano" || inc "synth")%bool then keyboards
  else featured.

(** [name.replace(/\s*\(\d+\)\s*$/, '').trim()] *)
Definition cleanArtistName (name : string) : string :=
  trim (replace1
          (cats [Star space; lit "("; plus digit; lit ")"; Star space; Eos])
          "" name).

Definition normalizeForComparison (s : string) : string :=
  trim
    (replaceAll (plus space) " "
       (replaceAll (Cls (fun c => negb (isWord c || isSpace c))) ""
          (toLowerCase s))).

(** [release.tracklist.find(...)] of [getTrackCredits]. *)
Definition findMatchingTrack (trackName : string) (tracklist : list DiscogsTrack)
  : option DiscogsTrack :=
  let normalizedTrackName := normalizeForComparison trackName in
  find (fun t =>
          (includes (normalizeForComparison (t_title t)) normalizedTrackName ||
           includes normalizedTrackName (normalizeForComparison (t_title t)))%bool)
       tracklist.

(** The state of the two loops: [entities], [relationships] and
    [seenArtists]. *)
Record credits : Type := mkState {
  c_entities : list MusicEntity;
  c_relationships : list Relationship;
  c_seenArtists : list string
}.

Definition artistIdOf (artist : DiscogsArtist) : string :=
  "artist-discogs-" +:+ numberToString (a_id artist).

(** [artist.role || 'performer'] *)
Definition roleOrPerformer (artist : DiscogsArtist) : string :=
  match a_role artist with
  | Some r => if truthy r then r else "performer"
  | None => "performer"
  end.

Definition relId (trackId artistId : string) (role : RoleType) : string :=
  "rel-discogs-" +:+ trackId +:+ "-" +:+ artistId +:+ "-" +:+ roleName role.

Definition creditRelationship (trackId : string) (artist : DiscogsArtist)
  : Relationship :=
  let role := mapDiscogsRole (roleOrPerformer artist) in
  {| r_id := relId trackId (artistIdOf artist) role;
     r_source := trackId;
     r_target := artistIdOf artist;
     r_role := role |}.

Definition creditEntity (artist : DiscogsArtist) : MusicEntity :=
  {| e_id := artistIdOf artist;
     e_name := cleanArtistName (a_name artist);
     e_type := Music.artist;
     e_image := None; e_mbid := None; e_releaseType := None;
     e_isExpanded := Some false; e_isHidden := Some false;
     e_childrenLoaded := Some false |}.

(** The part of both loop bodies after the scope test. *)
Definition addCredit (trackId : string) (st : credits) (artist : DiscogsArtist)
  : credits :=
  let artistId := artistIdOf artist in
  let seen := has (c_seenArtists st) artistId in
  {| c_entities :=
       if seen then c_entities st else c_entities st ++ [creditEntity artist];
     c_relationships := c_relationships st ++ [creditRelationship trackId artist];
     c_seenArtists := add (c_seenArtists st) artistId |}.

(** [artist.tracks.split(',').map(t => t.trim())] *)
Definition trackPositions (tracks : string) : list string :=
  map trim (split "," tracks).

(** The test of the release-level loop that ends in [continue]. *)
Definition skipsCredit (matchingTrack : option DiscogsTrack)
    (artist : DiscogsArtist) : bool :=
  match a_tracks artist, matchingTrack with
  | Some tracks, Some t =>
      (truthy tracks &&
       (negb (has (trackPositions tracks) (t_position t)) &&
        negb (has (trackPositions tracks) "")))%bool
  | _, _ => false
  end.

Definition addReleaseCredit (trackId : string)
    (matchingTrack : option DiscogsTrack) (st : credits)
    (artist : DiscogsArtist) : credits :=
  if skipsCredit matchingTrack artist then st else addCredit trackId st artist.

(** [existingTrackId || `track-discogs-${release.id}`] *)
Definition trackIdFor (existingTrackId : option string)
    (release : DiscogsRelease) : string :=
  match existingTrackId with
  | Some i => if truthy i then i
              else "track-discogs-" +:+ numberToString (rl_id release)
  | None => "track-discogs-" +:+ numberToString (rl_id release)
  end.

(** The credits attached to the matching track itself. *)
Definition trackArtists (matchingTrack : option DiscogsTrack)
  : list DiscogsArtist :=
  match matchingTrack with
  | Some t => default [] (t_extraartists t)
  | None => []
  end.

(** [getTrackCredits], from the release [findBestRelease] answered. *)
Definition getTrackCredits (configured : bool) (trackName : string)
    (existingTrackId : option string) (found : option DiscogsRelease)
  : DiscogsCredits :=
  if negb configured then mkCredits [] [] else
  match found with
  | None => mkCredits [] []
  | Some release =>
      let trackId := trackIdFor existingTrackId release in
      let matchingTrack := findMatchingTrack trackName (rl_tracklist release) in
      let st0 := mkState [] [] [] in
      let st1 :=
        match matchingTrack with
        | Some t =>
            match t_extraartists t with
            | Some artists => foldl (addCredit trackId) st0 artists
            | None => st0
            end
        | None => st0
        end in
      let st2 :=
        match rl_extraartists release with
        | Some artists => foldl (addReleaseCredit trackId matchingTrack) st1 artists
        | None => st1
        end in
      mkCredits (c_entities st2) (c_relationships st2)
  end.

(** Names that [cleanArtistName] has nothing to remove from but white
    space at the start: no opening parenthesis, and no white space at the
    end. *)
Definition nameChar (c : ascii) : bool := negb (isSpace c || eqChar c "(").

Fixpoint tidy (l : list ascii) : bool :=
  match l with
  | [] => true
  | c :: l' =>
      ((nameChar c || (isSpace c && match l' with [] => false | _ => true end))
       && tidy l')%bool
  end.

(** What the two loops of [getTrackCredits] keep true of their state:
    [seenArtists] holds the ids of the entities, no id twice; every entity
    is an artist; every relationship points at an entity, and every entity
    is pointed at. *)
Definition consistent (st : credits) : Prop :=
  c_seenArtists st = map e_id (c_entities st) /\
  NoDup (map e_id (c_entities st)) /\
  Forall (fun e => e_type e = Music.artist) (c_entities st) /\
  Forall (fun r => In (r_target r) (map e_id (c_entities st)))
         (c_relationships st) /\
  Forall (fun e => exists r, In r (c_relationships st) /\ r_target r = e_id e)
         (c_entities st).

(** The specification's rule for a release-level credit, in its words:
    an unscoped credit applies to every track, a scoped one only when the
    position of the current track is among the listed positions. *)
Definition specIncludesCredit (position : string) (artist : DiscogsArtist)
  : bool :=
  match a_tracks artist with
  | Some tracks =>
      if truthy tracks then has (trackPositions tracks) position else true
  | None => true
  end.

(** Sample data: a release whose fifth track is the current one, with a
    release-level credit scoped to track 2, one scoped by a list that
    ends in a comma, and one for the whole release. *)
Definition sampleRelease (scoped : list DiscogsArtist) : DiscogsRelease :=
  mkRelease 42 "Album"
    [mkTrack "2" "Other Song" None; mkTrack "5" "Here I Am" None]
    (Some scoped).

Definition engineerOn2 : DiscogsArtist :=
  mkArtist 7 "Ann Engineer" (Some "Mixed By") (Some "2").

Definition engineerOn2Comma : DiscogsArtist :=
  mkArtist 8 "Bob Engineer (2)" (Some "Mixed By") (Some "2,").

End Discogs.

(** ** MusicBrainz: search and matching ([src/services/musicbrainz.ts]) *)

Module MusicBrainz.
Import JS Music.

(** The fields of the MusicBrainz API types that the code reads. *)
Record MBArtist : Type := mkMBArtist {
  ar_id : string;
  ar_name : string
}.

Record ArtistCredit : Type := mkArtistCredit {
  ac_artist : MBArtist;
  ac_joinphrase : option string
}.

Record ReleaseGroup : Type := mkReleaseGroup {
  rg_primaryType : option string;
  rg_secondaryTypes : option (list string)
}.

Record MBRelease : Type := mkMBRelease {
  mr_id : string;
  mr_title : string;
  mr_status : option string;
  mr_date : option string;
  mr_releaseGroup : option ReleaseGroup
}.

Record MBRecordingSearchResult : Type := mkSearchResult {
  sr_id : string;
  sr_title : string;
  sr_score : option Z;
  sr_disambiguation : option string;
  sr_artistCredit : option (list ArtistCredit);
  sr_releases : option (list MBRelease)
}.

(** The body of the answer to a recording search. *)
Record RecordingSearch : Type := mkRecordingSearch {
  recordings : option (list MBRecordingSearchResult)
}.

(** *** Normalisation *)

(** The class [[^\w\s]]. *)
Definition punctuation : regex := Cls (fun c => negb (isWord c || isSpace c)).

Definition normalizeForCache (name : string) : string :=
  trim (replaceAll punctuation "" (toLowerCase name)).

Definition normalizeForComparison (s : string) : string :=
  trim (replaceAll (plus space) " " (replaceAll punctuation "" (toLowerCase s))).

Definition normalizeArtistName (name : string) : string :=
  trim (replaceAll (plus space) " "
          (replaceAll (oneOf ".-_$") "" (toLowerCase name))).

(** The shape of a normalized text: characters that [q] accepts, and
    single spaces, each followed by a character that is not white space
    or by the end. *)
Fixpoint spacedBy (q : ascii -> bool) (l : list ascii) : bool :=
  match l with
  | [] => true
  | c :: l' =>
      ((q c || (eqChar c " " && match l' with
                                | c' :: _ => negb (isSpace c')
                                | [] => true
                                end))
       && spacedBy q l')%bool
  end.

(** The characters of a text normalized for comparison: a to z, 0 to 9
    and the underscore. *)
Definition comparisonChar (c : ascii) : bool := TrackCache.keyChar c.

(** The characters of a normalized artist name: no white space, none of
    the four removed signs, no capital letter. *)
Definition artistNameChar (c : ascii) : bool :=
  (negb (isSpace c) && negb (existsb (eqChar c) (chars ".-_$")) &&
   eqChar (lowerChar c) c)%bool.

(** *** Cleaning of a track title *)

(** [(?:feat\.?|ft\.?|featuring)] *)
Definition featWord : regex :=
  alts [Cat (lit_i "feat") (opt (lit "."));
        Cat (lit_i "ft") (opt (lit "."));
        lit_i "featuring"].

Definition openBracket : regex := oneOf "([".
Definition closeBracket : regex := oneOf ")]".

(** The double-quote character of the inch marks in the second version
    pattern. *)
Definition doubleQuote : regex := Cls (fun c => N.eqb (code c) 34).

Definition featPatterns : list regex :=
  [ (* /\s*[\(\[]\s*(?:feat\.?|ft\.?|featuring)\s+[^\)\]]+[\)\]]/gi *)
    cats [Star space; openBracket; Star space; featWord; plus space;
          plus (noneOf ")]"); closeBracket];
    (* /\s*[-–—]\s*(?:feat\.?|ft\.?|featuring)\s+.+$/gi *)
    cats [Star space; oneOf "-"; Star space; featWord; plus space;
          plus anyChar; Eos];
    (* /\s*(?:feat\.?|ft\.?|featuring)\s+.+$/gi *)
    cats [Star space; featWord; plus space; plus anyChar; Eos] ].

(** A word of a pattern whose parts are separated by [\s*]. *)
Definition words_i (ws : list string) : regex :=
  cats (match ws with
        | [] => []
        | w :: rest => lit_i w :: flat_map (fun x => [Star space; lit_i x]) rest
        end).

Definition versionPatterns : list regex :=
  [ (* /\s*[\(\[](?:official\s*(?:video|audio|music\s*video)?|lyric\s*video
         |audio|explicit|clean)[\)\]]/gi *)
    cats [Star space; openBracket;
          alts [cats [lit_i "official"; Star space;
                      opt (alts [lit_i "video"; lit_i "audio";
                                 words_i ["music"; "video"]])];
                words_i ["lyric"; "video"];
                lit_i "audio"; lit_i "explicit"; lit_i "clean"];
          closeBracket];
    (* /\s*[\(\[](?:radio\s*edit|single\s*version|album\s*version
         |lp\s*version|12<dq>\s*version|7<dq>\s*version)[\)\]]/gi,
       <dq> the double-quote character *)
    cats [Star space; openBracket;
          alts [words_i ["radio"; "edit"]; words_i ["single"; "version"];
                words_i ["album"; "version"]; words_i ["lp"; "version"];
                cats [lit "12"; doubleQuote; Star space; lit_i "version"];
                cats [lit "7"; doubleQuote; Star space; lit_i "version"]];
          closeBracket];
    (* /\s*[\(\[](?:extended|original|edit|mix|remix|remaster(?:ed)?
         |bonus\s*track)[\)\]]/gi *)
    cats [Star space; openBracket;
          alts [lit_i "extended"; lit_i "original"; lit_i "edit"; lit_i "mix";
                lit_i "remix"; Cat (lit_i "remaster") (opt (lit_i "ed"));
                words_i ["bonus"; "track"]];
          closeBracket];
    (* /\s*[\(\[](?:live|acoustic|demo|instrumental)[\)\]]/gi *)
    cats [Star space; openBracket;
          alts [lit_i "live"; lit_i "acoustic"; lit_i "demo";
                lit_i "instrumental"];
          closeBracket] ].

(** [/\s+from\s+.+$/i] *)
Definition fromSuffix : regex :=
  cats [plus space; lit_i "from"; plus space; plus anyChar; Eos].

(** [cleanTrackName] up to its last statement, [return cleaned.trim()]. *)
Definition stripMarkers (trackName : string) : string :=
  let cleaned := foldl (fun acc pattern => replaceAll pattern "" acc)
                   trackName featPatterns in
  let cleaned := foldl (fun acc pattern => replaceAll pattern "" acc)
                   cleaned versionPatterns in
  replace1 fromSuffix "" cleaned.

Definition cleanTrackName (trackName : string) : string :=
  trim (stripMarkers trackName).

(** Titles in which the patterns find nothing to remove.  Every
    pattern starts with white space ([\s*] or [\s+]) and then needs an
    opening bracket, a dash followed by white space or by an f, or an f
    followed by e or t (feat, ft, featuring) or by r (from).
    [keptChar c next] says that no pattern goes on at the character [c]
    when [next] follows it; after a dash or an f the next character has
    to be known. *)
Definition keptChar (c : ascii) (next : option ascii) : bool :=
  (negb (isSpace c) && negb (existsb (eqChar c) (chars "([")) &&
   (if eqChar c "-" then
      match next with
      | Some d => negb (isSpace d) && negb (eqChar (foldChar d) "f")
      | None => false
      end
    else if eqChar (foldChar c) "f" then
      match next with
      | Some d => negb (existsb (eqChar (foldChar d)) (chars "etr"))
      | None => false
      end
    else true))%bool.

(** An input at whose start no pattern can go on after its white
    space. *)
Definition blockedAt (s : list ascii) : bool :=
  match s with
  | [] => false
  | c :: s' => (isSpace c || keptChar c (head s'))%bool
  end.

(** The characters of a title: white space is not last, and every other
    character is kept by the one that follows it in the title. *)
Fixpoint guarded (l : list ascii) : bool :=
  match l with
  | [] => true
  | c :: l' =>
      ((if isSpace c then match l' with [] => false | _ :: _ => true end
        else keptChar c (head l'))
       && guarded l')%bool
  end.

(** A title that the patterns keep, whatever follows it: it does not
    start or end with white space, has no opening bracket, no dash at its
    end or before white space or an f, and no f at its end or before e, t
    or r.  Punctuation, digits and every other letter are free. *)
Definition plainTitle (title : string) : bool :=
  match chars title with
  | [] => true
  | c :: l => (negb (isSpace c) && guarded (c :: l))%bool
  end.

(** Markers after a title, one or two of each kind the patterns are
    written for. *)
Definition featuredMarkers : list string :=
  [" (Feat. K. Michelle)"; " (ft. Someone)"; " (featuring Someone Else)";
   " [feat. Someone]"; " [ft Someone]";
   " - feat. Someone"; " - featuring Someone Else";
   " feat. Someone"; " ft. Someone"; " featuring Someone Else"].

Definition versionMarkers : list string :=
  [" (Live)"; " (LP Version)"; " (Radio Edit)"; " (Remaster)";
   " (Remastered)"; " [Live]"; " (Album Version)"; " (Single Version)";
   " (Acoustic)"; " (Demo)"; " (Instrumental)"; " (Explicit)";
   " (Official Video)"; " (Bonus Track)"].

Definition albumMarkers : list string :=
  [" From Change Of Heart"; " (LP Version) From Change Of Heart";
   " from the album"].

(** *** Recording search *)

(** The double-quote character of a query. *)
Definition quote : string := String (ascii_of_nat 34) EmptyString.

Definition quoted (s : string) : string := quote +:+ s +:+ quote.

(** The query string [searchRecording] builds for a title. *)
Definition recordingQuery (title : string) (artistName albumName : option string)
  : string :=
  let query := "recording:" +:+ quoted title in
  let query :=
    if given artistName
    then query +:+ " AND artist:" +:+ quoted (default "" artistName)
    else query in
  if given albumName
  then query +:+ " AND release:" +:+ quoted (default "" albumName)
  else query.

Definition recordingRequest (title : string) (artistName albumName : option string)
  : Net.request :=
  Net.mkRequest "/recording"
    [("query", recordingQuery title artistName albumName); ("limit", "25")].

(** [data.recordings?.length === 0] *)
Definition noRecordings (data : RecordingSearch) : bool :=
  match recordings data with
  | Some [] => true
  | _ => false
  end.

Definition searchRecording (trackName : string)
    (artistName albumName : option string) (s : Net.source RecordingSearch)
  : Net.outcome (list MBRecordingSearchResult) * Net.source RecordingSearch :=
  let cleanedTrackName := cleanTrackName trackName in
  match Net.fetchMB (recordingRequest cleanedTrackName artistName albumName) s with
  | (Net.Returned data, s1) =>
      if (noRecordings data && negb (eqs cleanedTrackName trackName))%bool
      then
        match Net.fetchMB (recordingRequest trackName artistName albumName) s1 with
        | (Net.Returned fallbackData, s2) =>
            (Net.Returned (default [] (recordings fallbackData)), s2)
        | (Net.Thrown e, s2) => (Net.Thrown e, s2)
        | (Net.Waiting, s2) => (Net.Waiting, s2)
        end
      else (Net.Returned (default [] (recordings data)), s1)
  | (Net.Thrown e, s1) => (Net.Thrown e, s1)
  | (Net.Waiting, s1) => (Net.Waiting, s1)
  end.

(** *** Scoring of the candidates *)

Definition alternateIndicators : list string :=
  ["live"; "remix"; "acoustic"; "demo"; "radio edit"; "instrumental";
   "karaoke"; "cover"; "remaster"; "alternate"; "edit"; "mix";
   "version"; "reprise"; "interlude"; "skit"].

(** [/[\(\[\-].*?(live|remix|acoustic|demo|radio|instrumental|remaster
      |edit|mix).*?[\)\]]/i] *)
Definition bracketPattern : regex :=
  cats [oneOf "([-"; LazyStar anyChar;
        alts (map lit_i ["live"; "remix"; "acoustic"; "demo"; "radio";
                         "instrumental"; "remaster"; "edit"; "mix"]);
        LazyStar anyChar; closeBracket].

Definition isAlternateVersion (title : string) (disambiguation : option string)
  : bool :=
  let lowerDisamb := toLowerCase (default "" disambiguation) in
  (existsb (includes lowerDisamb) alternateIndicators ||
   matches bracketPattern title)%bool.

(** Bracketed markers at the end of a title, of the kinds the pattern
    names. *)
Definition bracketedMarkers : list string :=
  [" (Live)"; " (live at Wembley)"; " [Remix]"; " (Acoustic)"; " (Demo)";
   " (Radio Edit)"; " (Instrumental)"; " (2012 Remaster)"; " (Remastered)";
   " (Single Edit)"; " (Extended Mix)"; " - Live]"].

(** [release['release-group']?.['secondary-types'] || []] *)
Definition secondaryTypesOf (release : MBRelease) : list string :=
  match mr_releaseGroup release with
  | Some g => default [] (rg_secondaryTypes g)
  | None => []
  end.

(** [release['release-group']?.['primary-type']] *)
Definition primaryTypeOf (release : MBRelease) : option string :=
  match mr_releaseGroup release with
  | Some g => rg_primaryType g
  | None => None
  end.

(** [x === 'literal'] for an optional string [x]. *)
Definition isString (x : option string) (literal : string) : bool :=
  match x with
  | Some v => eqs v literal
  | None => false
  end.

Definition alternateTypes : list string :=
  ["Live"; "Remix"; "Compilation"; "DJ-mix"; "Mixtape/Street"; "Soundtrack"].

Definition compilationIndicators : list string :=
  ["greatest hits"; "best of"; "collection"; "anthology";
   "soundtrack"; "ost"; "motion picture"; "film"; "movie";
   "various artists"; "compilation"; "now that's what i call";
   "hits"; "essentials"; "ultimate"; "complete"; "definitive"].

Definition isAlternateRelease (release : MBRelease) : bool :=
  if existsb (has alternateTypes) (secondaryTypesOf release) then true
  else
    let title := toLowerCase (mr_title release) in
    existsb (includes title) compilationIndicators.

Definition isSoundtrackRelease (title : string) : bool :=
  let lower := toLowerCase title in
  (includes lower "soundtrack" || includes lower "ost" ||
   includes lower "motion picture" || includes lower "film" ||
   includes lower "movie" || includes lower "music from" ||
   includes lower "inspired by")%bool.

(** The body of the loop over the releases in [scoreRecordingMatch]: the
    score of one release. *)
Definition releaseMatchScore (normalizedAlbum : string) (release : MBRelease)
  : Z :=
  let normalizedReleaseTitle := normalizeForComparison (mr_title release) in
  let releaseScore := 0 in
  let releaseScore :=
    if eqs normalizedReleaseTitle normalizedAlbum then releaseScore + 80
    else if (includes normalizedReleaseTitle normalizedAlbum ||
             includes normalizedAlbum normalizedReleaseTitle)%bool
    then releaseScore + 40
    else releaseScore in
  let releaseScore :=
    if isString (mr_status release) "Official" then releaseScore + 10
    else releaseScore in
  let releaseScore :=
    if isAlternateRelease release then releaseScore - 60 else releaseScore in
  let releaseScore :=
    if isString (primaryTypeOf release) "Album" then releaseScore + 15
    else releaseScore in
  releaseScore.

Definition scoreRecordingMatch (candidate : MBRecordingSearchResult)
    (trackName artistName : string) (albumName : option string) : Z :=
  let score := default 0 (sr_score candidate) in
  let normalizedTrack := normalizeForComparison trackName in
  let normalizedRecordingTitle := normalizeForComparison (sr_title candidate) in
  let normalizedArtist := normalizeForComparison artistName in
  let score :=
    if eqs normalizedRecordingTitle normalizedTrack then score + 50 else score in
  let score :=
    if isAlternateVersion (sr_title candidate) (sr_disambiguation candidate)
    then score - 100 else score in
  let disamb := toLowerCase (default "" (sr_disambiguation candidate)) in
  let score :=
    if (includes disamb "clean" || includes disamb "edited" ||
        includes disamb "radio edit")%bool
    then score - 50 else score in
  let credits := default [] (sr_artistCredit candidate) in
  let artistCreditCount := Z.of_nat (length credits) in
  let score :=
    if artistCreditCount >? 1 then score + 25 * (artistCreditCount - 1)
    else score in
  let recordingArtists :=
    map (fun c => normalizeForComparison (ar_name (ac_artist c))) credits in
  let score :=
    if existsb (fun a => (eqs a normalizedArtist ||
                          includes a normalizedArtist)%bool) recordingArtists
    then score + 30 else score in
  match albumName with
  | Some name =>
      if truthy name then
        let normalizedAlbum := normalizeForComparison name in
        let releases := default [] (sr_releases candidate) in
        let bestReleaseScore :=
          foldl (fun best release =>
                   Z.max best (releaseMatchScore normalizedAlbum release))
                (-50) releases in
        score + bestReleaseScore
      else score
  | None => score
  end.

(** The release sub-score of the specification, in its words. *)
Definition specReleaseSubScore (normalizedAlbum : string) (release : MBRelease)
  : Z :=
  let title := normalizeForComparison (mr_title release) in
  (if eqs title normalizedAlbum then 80
   else if (includes title normalizedAlbum || includes normalizedAlbum title)%bool
   then 40 else 0)
  + (if isAlternateRelease release then -60 else 0)
  + (if matches
          (alts (map lit_i ["anniversary"; "deluxe"; "remaster"; "special"]))
          (mr_title release)
     then -50 else 0)
  + (if isString (mr_status release) "Official" then 15 else 0)
  + (if isString (primaryTypeOf release) "Album" then 30
     else if isString (primaryTypeOf release) "EP" then 10 else 0).

(** The album part of the score according to the specification: the
    maximum of the sub-scores, and -100 when no release matches at all. *)
Definition specAlbumScore (albumName : string) (releases : list MBRelease)
  : Z :=
  let normalizedAlbum := normalizeForComparison albumName in
  let matching :=
    List.filter (fun r =>
              let title := normalizeForComparison (mr_title r) in
              (eqs title normalizedAlbum || includes title normalizedAlbum ||
               includes normalizedAlbum title)%bool) releases in
  match matching with
  | [] => -100
  | _ :: _ =>
      match map (specReleaseSubScore normalizedAlbum) releases with
      | [] => -100
      | x :: xs => foldl Z.max x xs
      end
  end.

(** *** Choice of the recording *)

(** [Array.prototype.sort] with a comparator: the stable sort. *)
Fixpoint insertBy {A : Type} (cmp : A -> A -> Z) (x : A) (l : list A) : list A :=
  match l with
  | [] => [x]
  | y :: l' => if cmp x y <=? 0 then x :: l else y :: insertBy cmp x l'
  end.

Definition sortBy {A : Type} (cmp : A -> A -> Z) (l : list A) : list A :=
  foldr (insertBy cmp) [] l.

(** [recordings.map(r => ({ recording: r, score: ... }))],
    [sort((a, b) => b.score - a.score)] and [scoredRecordings[0]]. *)
Definition scoredRecordings (candidates : list MBRecordingSearchResult)
    (trackName artistName : string) (albumName : option string)
  : list (MBRecordingSearchResult * Z) :=
  sortBy (fun a b => b.2 - a.2)
    (map (fun r => (r, scoreRecordingMatch r trackName artistName albumName))
         candidates).

(** Strategy 2 of [buildGraphFromTrack], from the answers of the two
    searches: [None] is the empty graph returned for no match. *)
Definition candidatesOf (withAlbum withoutAlbum : list MBRecordingSearchResult)
    (albumName : option string) : list MBRecordingSearchResult :=
  match withAlbum with
  | [] => if given albumName then withoutAlbum else withAlbum
  | _ :: _ => withAlbum
  end.

Definition chooseRecording (withAlbum withoutAlbum : list MBRecordingSearchResult)
    (trackName artistName : string) (albumName : option string)
  : option MBRecordingSearchResult :=
  let candidates := candidatesOf withAlbum withoutAlbum albumName in
  match candidates with
  | [] => None
  | _ :: _ =>
      fst <$> head (scoredRecordings candidates trackName artistName albumName)
  end.

(** *** Alias resolution *)

(** The three process-wide tables: [aliasToMbidMap], [mbidToCanonicalName]
    and [fetchedAliases]. *)
Record AliasState : Type := mkAliasState {
  aliasToMbidMap : gmap string string;
  mbidToCanonicalName : gmap string string;
  fetchedAliases : list string
}.

Definition noAliases : AliasState := mkAliasState ∅ ∅ [].

(** The loop of [fetchArtistAliases] over the aliases of the answer: an
    alias already in the table keeps its artist. *)
Definition storeAlias (mbid : string) (m : gmap string string) (aliasName : string)
  : gmap string string :=
  let normalizedAlias := normalizeForCache aliasName in
  match m !! normalizedAlias with
  | Some _ => m
  | None => <[normalizedAlias := mbid]> m
  end.

(** [fetchArtistAliases(mbid, primaryName)] up to its [await]: [None]
    when the aliases of the artist were asked for before, and the call
    returns at once without a request. *)
Definition startFetchArtistAliases (st : AliasState) (mbid primaryName : string)
  : option AliasState :=
  if has (fetchedAliases st) mbid then None
  else
    Some {| aliasToMbidMap :=
              <[normalizeForCache primaryName := mbid]> (aliasToMbidMap st);
            mbidToCanonicalName :=
              <[mbid := primaryName]> (mbidToCanonicalName st);
            fetchedAliases := add (fetchedAliases st) mbid |}.

(** The aliases of an answer: [answer] is what the lookup of the artist
    gave, [None] when it failed, otherwise the [aliases] field. *)
Definition listedAliases (answer : option (option (list string))) : list string :=
  match answer with
  | Some (Some aliases) => aliases
  | _ => []
  end.

(** [fetchArtistAliases] from the answer of the lookup on, in the tables
    as they are when the answer arrives. *)
Definition finishFetchArtistAliases (st : AliasState) (mbid : string)
    (answer : option (option (list string))) : AliasState :=
  {| aliasToMbidMap :=
       foldl (storeAlias mbid) (aliasToMbidMap st) (listedAliases answer);
     mbidToCanonicalName := mbidToCanonicalName st;
     fetchedAliases := fetchedAliases st |}.

(** A call of [fetchArtistAliases] that runs alone: no other call
    changes the tables between its start and the arrival of its
    answer. *)
Definition fetchArtistAliases (st : AliasState) (mbid primaryName : string)
    (answer : option (option (list string))) : AliasState :=
  match startFetchArtistAliases st mbid primaryName with
  | Some st1 => finishFetchArtistAliases st1 mbid answer
  | None => st
  end.

(** [artistCredits.map(credit => fetchArtistAliases(credit.artist.id,
    credit.artist.name))]: the calls run up to their [await] in the order
    of the credits, before any answer arrives.  The second component
    lists the artists whose lookup was started. *)
Definition startFetches (st : AliasState) (credits : list ArtistCredit)
  : AliasState * list string :=
  foldl (fun acc credit =>
           let a := ac_artist credit in
           match startFetchArtistAliases acc.1 (ar_id a) (ar_name a) with
           | Some st' => (st', acc.2 ++ [ar_id a])
           | None => acc
           end)
        (st, []) credits.

(** [await Promise.all(aliasPromises)]: the calls started for the credits
    go on as their answers arrive; [arrivals] lists the artists with
    their answers in the order of arrival. *)
Definition fetchAliasesOf (st : AliasState) (credits : list ArtistCredit)
    (arrivals : list (string * option (option (list string)))) : AliasState :=
  foldl (fun acc arrival => finishFetchArtistAliases acc arrival.1 arrival.2)
    (startFetches st credits).1 arrivals.

Definition resolveArtistAlias (aliases : gmap string string) (name : string)
  : option string :=
  aliases !! normalizeForCache name.

Definition getCanonicalName (st : AliasState) (mbid : string) : option string :=
  mbidToCanonicalName st !! mbid.

Definition clearAliasCache (st : AliasState) : AliasState := noAliases.

(** *** The image cache *)

(** [artistImageCache] and [albumImageCache]: a key maps to the image
    found, or to [None] for the [null] that records that none was
    found. *)
Record ImageCaches : Type := mkImageCaches {
  artistImageCache : gmap string (option string);
  albumImageCache : gmap string (option string)
}.

(** The services asked for images, as the calls of one lookup see them:
    what each answers for a name, and whether Discogs has a token. *)
Record ImageSources : Type := mkImageSources {
  audioDbArtistImage : string -> option string -> option string;
  discogsConfigured : bool;
  discogsArtistImage : string -> option string;
  lastFmArtistImage : string -> option string;
  lastFmAlbumImage : string -> string -> option string
}.

Inductive ImageService : Type := TheAudioDB | DiscogsImages | LastFm.

(** [if (cached) return cached ... return undefined] *)
Definition cachedImage (cached : option string) : option string :=
  match cached with
  | Some image => if truthy image then Some image else None
  | None => None
  end.

Definition setArtistImage (key : string) (image : option string)
    (st : ImageCaches) : ImageCaches :=
  {| artistImageCache := <[key := image]> (artistImageCache st);
     albumImageCache := albumImageCache st |}.

Definition setAlbumImage (key : string) (image : option string)
    (st : ImageCaches) : ImageCaches :=
  {| artistImageCache := artistImageCache st;
     albumImageCache := <[key := image]> (albumImageCache st) |}.

(** [getArtistImage]: the answer, the services asked, in order, and the
    caches afterwards. *)
Definition getArtistImage (src : ImageSources) (artistName : string)
    (mbid : option string) (st : ImageCaches)
  : option string * list ImageService * ImageCaches :=
  let cacheKey := normalizeForCache artistName in
  match artistImageCache st !! cacheKey with
  | Some cached => (cachedImage cached, [], st)
  | None =>
      let audioDbImage := audioDbArtistImage src artistName mbid in
      if given audioDbImage
      then (audioDbImage, [TheAudioDB], setArtistImage cacheKey audioDbImage st)
      else
        let discogsImage :=
          if discogsConfigured src then discogsArtistImage src artistName
          else None in
        let asked :=
          if discogsConfigured src then [TheAudioDB; DiscogsImages]
          else [TheAudioDB] in
        if given discogsImage
        then (discogsImage, asked, setArtistImage cacheKey discogsImage st)
        else
          let lastFmImage := lastFmArtistImage src artistName in
          if given lastFmImage
          then (lastFmImage, asked ++ [LastFm],
                setArtistImage cacheKey lastFmImage st)
          else (None, asked ++ [LastFm], setArtistImage cacheKey None st)
  end.

Definition getAlbumImage (src : ImageSources) (artistName albumName : string)
    (st : ImageCaches) : option string * list ImageService * ImageCaches :=
  let cacheKey :=
    normalizeForCache artistName +:+ "::" +:+ normalizeForCache albumName in
  match albumImageCache st !! cacheKey with
  | Some cached => (cachedImage cached, [], st)
  | None =>
      let image := lastFmAlbumImage src artistName albumName in
      if given image
      then (image, [LastFm], setAlbumImage cacheKey image st)
      else (None, [LastFm], setAlbumImage cacheKey None st)
  end.

Definition clearImageCache (st : ImageCaches) : ImageCaches :=
  mkImageCaches ∅ ∅.

Record ImageCacheStats : Type := mkImageStats {
  stat_artists : nat;
  stat_albums : nat;
  stat_hits : nat
}.

(** [v !== null] *)
Definition notNull (v : option string) : bool :=
  match v with
  | Some _ => true
  | None => false
  end.

Definition getImageCacheStats (st : ImageCaches) : ImageCacheStats :=
  {| stat_artists := size (artistImageCache st);
     stat_albums := size (albumImageCache st);
     stat_hits :=
       length (List.filter notNull
                 ((map_to_list (artistImageCache st)).*2
                  ++ (map_to_list (albumImageCache st)).*2)) |}.

(** Sample data: services of which only Last.fm knows the artist. *)
Definition onlyLastFm : ImageSources :=
  mkImageSources (fun _ _ => None) true (fun _ => Some "")
    (fun name => if eqs name "Michael Jackson" then Some "data:mj" else None)
    (fun _ _ => None).

Definition noImages : ImageSources :=
  mkImageSources (fun _ _ => None) false (fun _ => None) (fun _ => None)
    (fun _ _ => None).

(** *** Role mapping *)

(** The test of one attribute in the loop of [mapMBRelationType] for the
    relation types "instrument" and "performer". *)
Definition instrumentOf (attr : string) : option RoleType :=
  let inc := includes attr in
  let same := eqs attr in
  if inc "drum" then Some drums
  else if (inc "percuss" || same "congas" || same "bongos" || same "tambourine" ||
           same "shaker")%bool then Some percussion
  else if (inc "guitar" || same "banjo" || same "mandolin" || same "ukulele")%bool
  then Some guitar
  else if inc "bass" then Some bass
  else if (inc "piano" || same "rhodes" || same "wurlitzer")%bool then Some piano
  else if inc "synth" then Some synthesizer
  else if inc "organ" then Some organ
  else if (inc "keyboard" || same "clavinet")%bool then Some keyboards
  else if (inc "violin" || same "fiddle")%bool then Some violin
  else if inc "cello" then Some cello
  else if (inc "string" || same "viola" || same "orchestra" || same "harp")%bool
  then Some strings
  else if inc "trumpet" then Some trumpet
  else if inc "sax" then Some saxophone
  else if (inc "horn" || inc "trombone" || inc "tuba" || same "brass")%bool
  then Some horns
  else if inc "flute" then Some flute
  else if (inc "clarinet" || inc "oboe" || inc "bassoon" || same "woodwinds")%bool
  then Some woodwinds
  else if inc "harmonica" then Some harmonica
  else if (inc "turntable" || same "dj" || inc "scratch")%bool
  then Some turntables
  else None.

Fixpoint firstInstrument (attrs : list string) : option RoleType :=
  match attrs with
  | [] => None
  | attr :: rest =>
      match instrumentOf attr with
      | Some r => Some r
      | None => firstInstrument rest
      end
  end.

(** The table [typeMap]; the lookup is on the keys written in it. *)
Definition typeMap : list (string * RoleType) :=
  [("vocal", vocals); ("lead vocals", vocals);
   ("background vocals", background_vocals);
   ("backing vocals", background_vocals); ("guest", featured);
   ("choir", choir); ("chorus", choir); ("guitar", guitar);
   ("electric guitar", guitar); ("acoustic guitar", guitar);
   ("rhythm guitar", guitar); ("lead guitar", guitar);
   ("classical guitar", guitar); ("12-string guitar", guitar);
   ("bass", bass); ("bass guitar", bass); ("electric bass guitar", bass);
   ("double bass", bass); ("upright bass", bass); ("fretless bass", bass);
   ("drums", drums); ("drums (drum set)", drums); ("drum machine", drums);
   ("percussion", percussion); ("congas", percussion);
   ("bongos", percussion); ("tambourine", percussion);
   ("shaker", percussion); ("timpani", percussion); ("piano", piano);
   ("grand piano", piano); ("electric piano", piano); ("rhodes", piano);
   ("wurlitzer", piano); ("clavinet", keyboards); ("keyboard", keyboards);
   ("keyboards", keyboards); ("synthesizer", synthesizer);
   ("synth", synthesizer); ("analog synthesizer", synthesizer);
   ("digital synthesizer", synthesizer);
   ("modular synthesizer", synthesizer); ("organ", organ);
   ("hammond organ", organ); ("pipe organ", organ); ("violin", violin);
   ("viola", strings); ("cello", cello); ("strings", strings);
   ("string section", strings); ("orchestra", strings);
   ("orchestration", arranger); ("trumpet", trumpet); ("trombone", horns);
   ("french horn", horns); ("tuba", horns); ("brass", horns);
   ("horn section", horns); ("horns", horns); ("saxophone", saxophone);
   ("alto saxophone", saxophone); ("tenor saxophone", saxophone);
   ("baritone saxophone", saxophone); ("flute", flute);
   ("clarinet", woodwinds); ("oboe", woodwinds); ("bassoon", woodwinds);
   ("woodwinds", woodwinds); ("harmonica", harmonica);
   ("accordion", keyboards); ("banjo", guitar); ("mandolin", guitar);
   ("ukulele", guitar); ("harp", strings); ("turntables", turntables);
   ("dj", turntables); ("scratching", turntables); ("mix", mixing);
   ("mixing", mixing); ("mastering", mastering); ("recording", recording);
   ("engineer", engineer); ("audio engineer", engineer);
   ("sound engineer", engineer); ("programming", programming);
   ("drum programming", programming); ("synth programming", programming);
   ("writer", songwriter); ("songwriter", songwriter);
   ("composer", composer); ("lyricist", lyricist); ("arranger", arranger);
   ("music by", composer); ("lyrics by", lyricist);
   ("arranged by", arranger); ("remix", remixer); ("remixer", remixer);
   ("remixed by", remixer); ("member of band", member_of);
   ("is person", member_of)].

Fixpoint lookupType (key : string) (table : list (string * RoleType))
  : option RoleType :=
  match table with
  | [] => None
  | (k, v) :: rest => if eqs k key then Some v else lookupType key rest
  end.

(** The chain of partial matches at the end of [mapMBRelationType]. *)
Definition partialMatch (lowerType : string) : RoleType :=
  let inc := includes lowerType in
  if inc "remix" then remixer
  else if (inc "background vocal" || inc "backing vocal")%bool
  then background_vocals
  else if (inc "vocal" || inc "voice" || inc "singer")%bool then vocals
  else if (inc "choir" || inc "chorus")%bool then choir
  else if (inc "guitar" || inc "banjo" || inc "mandolin")%bool then guitar
  else if inc "bass" then bass
  else if inc "drum" then drums
  else if inc "percuss" then percussion
  else if inc "synth" then synthesizer
  else if (inc "piano" || inc "rhodes" || inc "wurlitzer")%bool then piano
  else if inc "organ" then organ
  else if inc "keyboard" then keyboards
  else if (inc "violin" || inc "fiddle")%bool then violin
  else if inc "cello" then cello
  else if (inc "string" || inc "orchestra")%bool then strings
  else if inc "trumpet" then trumpet
  else if inc "sax" then saxophone
  else if inc "flute" then flute
  else if (inc "horn" || inc "brass" || inc "trombone" || inc "tuba")%bool
  then horns
  else if (inc "clarinet" || inc "oboe" || inc "bassoon" || inc "woodwind")%bool
  then woodwinds
  else if inc "harmonica" then harmonica
  else if (inc "turntable" || inc "dj" || inc "scratch")%bool then turntables
  else if inc "programm" then programming
  else if inc "master" then mastering
  else if inc "mix" then mixing
  else if inc "record" then recording
  else if inc "engineer" then engineer
  else if inc "arrang" then arranger
  else if inc "lyric" then lyricist
  else if inc "compos" then composer
  else other_instrument.

Definition mapMBRelationType (mbType : string) (attributes : option (list string))
  : RoleType :=
  let lowerType := toLowerCase mbType in
  let attrs := map toLowerCase (default [] attributes) in
  if (eqs lowerType "instrument" || eqs lowerType "performer")%bool then
    default other_instrument (firstInstrument attrs)
  else if eqs lowerType "producer" then
    if has attrs "executive" then executive_producer
    else if has attrs "co" then co_producer
    else if existsb (fun a => includes a "vocal") attrs then vocal_producer
    else if has attrs "additional" then additional_producer
    else producer
  else if eqs lowerType "vocal" then
    if existsb (fun a => (includes a "background" || includes a "backing")%bool)
         attrs
    then background_vocals
    else if existsb (fun a => (includes a "choir" || includes a "chorus")%bool)
              attrs
    then choir
    else vocals
  else
    match lookupType lowerType typeMap with
    | Some r => r
    | None => partialMatch lowerType
    end.

(** The mapping of the type of a work relation in [buildGraphFromTrack]. *)
Definition mapWorkRole (relationType : string) : RoleType :=
  let workRole := toLowerCase relationType in
  if (eqs workRole "composer" || eqs workRole "music by" ||
      eqs workRole "composed by")%bool then composer
  else if (eqs workRole "lyricist" || eqs workRole "lyrics by")%bool
  then lyricist
  else if (eqs workRole "writer" || eqs workRole "written by")%bool
  then songwriter
  else if (eqs workRole "arranger" || eqs workRole "arranged by")%bool
  then arranger
  else songwriter.

Definition mapPrimaryType (mbType : option string) : ReleaseType :=
  match mbType with
  | None => Other
  | Some t =>
      if negb (truthy t) then Other
      else
        let lowered := toLowerCase t in
        if eqs lowered "album" then Album
        else if eqs lowered "single" then Single
        else if eqs lowered "ep" then EP
        else Other
  end.

(** *** Assembly of the graph of a track ([buildGraphFromTrack]) *)

Record MBWork : Type := mkMBWork {
  w_id : string
}.

Record MBRelation : Type := mkMBRelation {
  rn_type : string;
  rn_artist : option MBArtist;
  rn_work : option MBWork;
  rn_attributes : option (list string)
}.

(** The answer to the lookup of the recording. *)
Record FullRecording : Type := mkFullRecording {
  fr_title : string;
  fr_artistCredit : option (list ArtistCredit);
  fr_relations : option (list MBRelation);
  fr_releases : option (list MBRelease)
}.

(** The answer to the lookup of a work. *)
Record WorkData : Type := mkWorkData {
  wd_title : string;
  wd_relations : option (list MBRelation)
}.

Record DrillDownResult : Type := mkResult {
  entities : list MusicEntity;
  relationships : list Relationship
}.

(** The local state of [buildGraphFromTrack]: the two arrays and the four
    sets. *)
Record graph : Type := mkGraph {
  g_entities : list MusicEntity;
  g_relationships : list Relationship;
  g_entityIds : list string;
  g_primaryArtistIds : list string;
  g_albumArtistIds : list string;
  g_normalizedArtistNames : list string
}.

Definition artistEntity (a : MBArtist) : MusicEntity :=
  {| e_id := "artist-" +:+ ar_id a;
     e_name := ar_name a;
     e_type := artist;
     e_image := None;
     e_mbid := Some (ar_id a);
     e_releaseType := None;
     e_isExpanded := Some false;
     e_isHidden := Some false;
     e_childrenLoaded := Some false |}.

(** [`rel-${trackId}-${artistId}-${role}`] *)
Definition relId (trackId artistId : string) (role : RoleType) : string :=
  "rel-" +:+ trackId +:+ "-" +:+ artistId +:+ "-" +:+ roleName role.

(** [relationships.some(r => r.id === relId)] *)
Definition hasRelId (rels : list Relationship) (relId : string) : bool :=
  existsb (fun r => eqs (r_id r) relId) rels.

(** [if (!relationships.some(r => r.id === relId)) relationships.push(...)] *)
Definition pushCredit (rels : list Relationship) (trackId target : string)
    (role : RoleType) : list Relationship :=
  if hasRelId rels (relId trackId target role) then rels
  else rels ++ [mkRel (relId trackId target role) trackId target role].

(** [entities.find(e => normalizeArtistName(e.name) === normalizedName &&
    e.type === 'artist')] *)
Definition findArtistByName (ents : list MusicEntity) (normalizedName : string)
  : option MusicEntity :=
  find (fun e => (eqs (normalizeArtistName (e_name e)) normalizedName &&
                  eqEntityType (e_type e) artist)%bool) ents.

(** One turn of the loop over [artistCredits]; the flag is
    [nextIsFeatured]. *)
Definition addArtistCredit (trackId normalizedSearchArtist : string)
    (st : graph * bool) (credit : ArtistCredit) : graph * bool :=
  let '(g, nextIsFeatured) := st in
  let a := ac_artist credit in
  let artistId := "artist-" +:+ ar_id a in
  let primary := add (g_primaryArtistIds g) artistId in
  let isFeatured := nextIsFeatured in
  let joinphrase := toLowerCase (default "" (ac_joinphrase credit)) in
  let next :=
    (includes joinphrase "feat" || includes joinphrase "ft." ||
     includes joinphrase "featuring" ||
     (includes joinphrase "with " && negb (includes joinphrase "&")))%bool in
  let normalizedCreditArtist := normalizeForComparison (ar_name a) in
  let matchesSearchedArtist :=
    (eqs normalizedCreditArtist normalizedSearchArtist ||
     includes normalizedCreditArtist normalizedSearchArtist ||
     includes normalizedSearchArtist normalizedCreditArtist)%bool in
  let normalizedName := normalizeArtistName (ar_name a) in
  let known := has (g_entityIds g) artistId in
  let named := has (g_normalizedArtistNames g) normalizedName in
  let fresh := (negb known && negb named)%bool in
  let effectiveArtistId :=
    if fresh then artistId
    else if (named && negb known)%bool then
      match findArtistByName (g_entities g) normalizedName with
      | Some existingArtist => e_id existingArtist
      | None => artistId
      end
    else artistId in
  let primary := add primary effectiveArtistId in
  let role := if isFeatured then featured else primary_artist in
  ({| g_entities :=
        if fresh then g_entities g ++ [artistEntity a] else g_entities g;
      g_relationships :=
        pushCredit (g_relationships g) trackId effectiveArtistId role;
      g_entityIds :=
        if fresh then add (g_entityIds g) artistId else g_entityIds g;
      g_primaryArtistIds := primary;
      g_albumArtistIds :=
        if (negb isFeatured && matchesSearchedArtist)%bool
        then add (g_albumArtistIds g) effectiveArtistId
        else g_albumArtistIds g;
      g_normalizedArtistNames :=
        if fresh then add (g_normalizedArtistNames g) normalizedName
        else g_normalizedArtistNames g |},
   next).

(** The score of a release in the choice of the album of the track. *)
Definition targetReleaseScore (normalizedAlbum : option string)
    (release : MBRelease) : Z :=
  let score := 0 in
  let normalizedReleaseTitle := normalizeForComparison (mr_title release) in
  let primaryType := primaryTypeOf release in
  let score :=
    match normalizedAlbum with
    | Some wanted =>
        if truthy wanted then
          if eqs normalizedReleaseTitle wanted then score + 200
          else if (includes normalizedReleaseTitle wanted ||
                   includes wanted normalizedReleaseTitle)%bool
          then score + 80
          else score - 100
        else score
    | None => score
    end in
  let score :=
    if isString (mr_status release) "Official" then score + 15 else score in
  let score := if isAlternateRelease release then score - 150 else score in
  let score :=
    if isSoundtrackRelease (mr_title release) then score - 100 else score in
  let score :=
    if isString primaryType "Album" then score + 30
    else if isString primaryType "Single" then score + 5
    else if isString primaryType "EP" then score + 10
    else score in
  score.

(** [scoredReleases.sort(...)] and [scoredReleases[0]?.release]. *)
Definition targetReleaseOf (albumName : option string) (releases : list MBRelease)
  : option MBRelease :=
  let normalizedAlbum :=
    match albumName with
    | Some name => if truthy name then Some (normalizeForComparison name) else None
    | None => None
    end in
  fst <$> head (sortBy (fun a b => b.2 - a.2)
                  (map (fun r => (r, targetReleaseScore normalizedAlbum r))
                       releases)).

Definition albumEntity (release : MBRelease) : MusicEntity :=
  {| e_id := "release-" +:+ mr_id release;
     e_name := mr_title release;
     e_type := album;
     e_image := None;
     e_mbid := Some (mr_id release);
     e_releaseType := Some (mapPrimaryType (primaryTypeOf release));
     e_isExpanded := Some false;
     e_isHidden := Some false;
     e_childrenLoaded := Some false |}.

(** [`rel-${albumId}-${trackId}`] and [`rel-${artistId}-${albumId}`] *)
Definition albumRelId (source target : string) : string :=
  "rel-" +:+ source +:+ "-" +:+ target.

(** The block [if (targetRelease) { ... }]. *)
Definition addAlbum (trackId : string) (g : graph) (release : MBRelease)
  : graph :=
  let albumId := "release-" +:+ mr_id release in
  let known := has (g_entityIds g) albumId in
  {| g_entities :=
       if known then g_entities g else g_entities g ++ [albumEntity release];
     g_relationships :=
       g_relationships g
       ++ [mkRel (albumRelId albumId trackId) albumId trackId contains]
       ++ map (fun artistId =>
                 mkRel (albumRelId artistId albumId) artistId albumId
                   released_on)
              (g_albumArtistIds g);
     g_entityIds := if known then g_entityIds g else add (g_entityIds g) albumId;
     g_primaryArtistIds := g_primaryArtistIds g;
     g_albumArtistIds := g_albumArtistIds g;
     g_normalizedArtistNames := g_normalizedArtistNames g |}.

(** The resolution of the identity of a credited person, written twice in
    the source (personnel and work relations): the alias table first,
    then the normalized name. *)
Definition effectivePersonnelId (aliases : gmap string string) (g : graph)
    (a : MBArtist) : string :=
  let personnelId := "artist-" +:+ ar_id a in
  let normalizedName := normalizeArtistName (ar_name a) in
  let byName :=
    if (has (g_normalizedArtistNames g) normalizedName &&
        negb (has (g_entityIds g) personnelId))%bool
    then
      match findArtistByName (g_entities g) normalizedName with
      | Some existingArtist => e_id existingArtist
      | None => personnelId
      end
    else personnelId in
  match resolveArtistAlias aliases (ar_name a) with
  | Some canonicalMbid =>
      if (truthy canonicalMbid && negb (eqs canonicalMbid (ar_id a)))%bool
      then
        let canonicalId := "artist-" +:+ canonicalMbid in
        if has (g_entityIds g) canonicalId then canonicalId else personnelId
      else byName
  | None => byName
  end.

(** [if (!entityIds.has(effectivePersonnelId) &&
    !normalizedArtistNames.has(normalizedName)) { entities.push(...) ... }] *)
Definition addPersonnelEntity (g : graph) (a : MBArtist) (effective : string)
  : graph :=
  let personnelId := "artist-" +:+ ar_id a in
  let normalizedName := normalizeArtistName (ar_name a) in
  if (negb (has (g_entityIds g) effective) &&
      negb (has (g_normalizedArtistNames g) normalizedName))%bool
  then
    {| g_entities := g_entities g ++ [artistEntity a];
       g_relationships := g_relationships g;
       g_entityIds := add (g_entityIds g) personnelId;
       g_primaryArtistIds := g_primaryArtistIds g;
       g_albumArtistIds := g_albumArtistIds g;
       g_normalizedArtistNames := add (g_normalizedArtistNames g) normalizedName |}
  else g.

Definition withRelationships (g : graph) (rels : list Relationship) : graph :=
  {| g_entities := g_entities g;
     g_relationships := rels;
     g_entityIds := g_entityIds g;
     g_primaryArtistIds := g_primaryArtistIds g;
     g_albumArtistIds := g_albumArtistIds g;
     g_normalizedArtistNames := g_normalizedArtistNames g |}.

(** One turn of the loop over [fullRecording.relations]. *)
Definition addPersonnel (aliases : gmap string string) (trackId : string)
    (g : graph) (rel : MBRelation) : graph :=
  match rn_artist rel with
  | None => g
  | Some a =>
      let effective := effectivePersonnelId aliases g a in
      let role := mapMBRelationType (rn_type rel) (rn_attributes rel) in
      if has (g_primaryArtistIds g) effective then
        if eqRole role primary_artist then g
        else withRelationships g
               (pushCredit (g_relationships g) trackId effective role)
      else
        let g1 := addPersonnelEntity g a effective in
        withRelationships g1
          (pushCredit (g_relationships g1) trackId effective role)
  end.

(** One turn of the loop over the relations of a work. *)
Definition addWorkCredit (aliases : gmap string string) (trackId : string)
    (g : graph) (rel : MBRelation) : graph :=
  match rn_artist rel with
  | None => g
  | Some a =>
      let effective := effectivePersonnelId aliases g a in
      let role := mapWorkRole (rn_type rel) in
      if hasRelId (g_relationships g) (relId trackId effective role) then g
      else
        let g1 := addPersonnelEntity g a effective in
        withRelationships g1
          (g_relationships g1
           ++ [mkRel (relId trackId effective role) trackId effective role])
  end.

(** One turn of the loop over the work relations of the recording;
    [works] is the lookup of a work, [None] when it fails. *)
Definition addWork (aliases : gmap string string) (trackId : string)
    (works : string -> option WorkData) (g : graph) (workRel : MBRelation)
  : graph :=
  match rn_work workRel with
  | None => g
  | Some w =>
      match works (w_id w) with
      | None => g
      | Some workData =>
          match wd_relations workData with
          | Some rels => foldl (addWorkCredit aliases trackId) g rels
          | None => g
          end
      end
  end.

(** *** Merge of the Discogs credits *)

(** The test of the first loop of the merge: the name is a known alias of
    an artist whose entity is in the graph. *)
Definition knownAlias (aliases : gmap string string) (entityIds : list string)
    (name : string) : bool :=
  match resolveArtistAlias aliases name with
  | Some canonicalMbid =>
      (truthy canonicalMbid && has entityIds ("artist-" +:+ canonicalMbid))%bool
  | None => false
  end.

(** The first loop of the merge, over [discogsCredits.entities]; the
    second component of the state is [existingNames]. *)
Definition mergeEntity (aliases : gmap string string)
    (st : graph * list string) (entity : MusicEntity) : graph * list string :=
  let '(g, existingNames) := st in
  let normalizedName := normalizeArtistName (e_name entity) in
  if knownAlias aliases (g_entityIds g) (e_name entity) then st
  else if has existingNames normalizedName then st
  else
    ({| g_entities := g_entities g ++ [entity];
        g_relationships := g_relationships g;
        g_entityIds := add (g_entityIds g) (e_id entity);
        g_primaryArtistIds := g_primaryArtistIds g;
        g_albumArtistIds := g_albumArtistIds g;
        g_normalizedArtistNames := g_normalizedArtistNames g |},
     add existingNames normalizedName).

(** [`rel-${trackId}-${id}-${rel.role}-discogs`] *)
Definition mergedRelId (trackId target : string) (role : RoleType) : string :=
  "rel-" +:+ trackId +:+ "-" +:+ target +:+ "-" +:+ roleName role
  +:+ "-discogs".

(** The relationship as the second loop leaves it before the duplicate
    test: retargeted when its Discogs artist is a known alias or has the
    name of an artist of the graph, and with the track as source. *)
Definition retarget (aliases : gmap string string) (trackId : string)
    (g : graph) (discogsEntities : list MusicEntity) (rel : Relationship)
  : Relationship :=
  let moved (target : string) :=
    mkRel (mergedRelId trackId target (r_role rel)) trackId target (r_role rel) in
  let kept := mkRel (r_id rel) trackId (r_target rel) (r_role rel) in
  match find (fun e => eqs (e_id e) (r_target rel)) discogsEntities with
  | None => kept
  | Some discogsEntity =>
      let byName :=
        match findArtistByName (g_entities g)
                (normalizeArtistName (e_name discogsEntity)) with
        | Some existingEntity =>
            if negb (eqs (e_id existingEntity) (r_target rel))
            then moved (e_id existingEntity) else kept
        | None => kept
        end in
      match resolveArtistAlias aliases (e_name discogsEntity) with
      | Some canonicalMbid =>
          if truthy canonicalMbid then
            let canonicalId := "artist-" +:+ canonicalMbid in
            if has (g_entityIds g) canonicalId then moved canonicalId else kept
          else byName
      | None => byName
      end
  end.

(** [relationships.some(r => r.source === rel.source &&
    r.target === rel.target && r.role === rel.role)] *)
Definition isDuplicate (rels : list Relationship) (rel : Relationship) : bool :=
  existsb (fun r => (eqs (r_source r) (r_source rel) &&
                     eqs (r_target r) (r_target rel) &&
                     eqRole (r_role r) (r_role rel))%bool) rels.

(** One turn of the second loop of the merge. *)
Definition mergeRelationship (aliases : gmap string string) (trackId : string)
    (discogsEntities : list MusicEntity) (g : graph) (rel : Relationship)
  : graph :=
  let rel' := retarget aliases trackId g discogsEntities rel in
  if isDuplicate (g_relationships g) rel' then g
  else withRelationships g (g_relationships g ++ [rel']).

(** [new Set(entities.map(e => normalizeArtistName(e.name)))] *)
Definition namesOf (ents : list MusicEntity) : list string :=
  foldl add [] (map (fun e => normalizeArtistName (e_name e)) ents).

(** The block [if (discogsCredits.entities.length > 0) { ... }]. *)
Definition mergeDiscogs (aliases : gmap string string) (trackId : string)
    (g : graph) (credits : Discogs.DiscogsCredits) : graph :=
  match Discogs.entities credits with
  | [] => g
  | _ :: _ =>
      let g1 :=
        (foldl (mergeEntity aliases) (g, namesOf (g_entities g))
           (Discogs.entities credits)).1 in
      foldl (mergeRelationship aliases trackId (Discogs.entities credits)) g1
        (Discogs.relationships credits)
  end.

(** [buildGraphFromTrack] from the creation of the track entity to the
    end of the merge, for the recording [recordingMbid] that the release
    lookup or the recording search selected.  [aliases] is the alias
    table after the aliases of the credited artists were fetched;
    [discogs] is what [getTrackCredits] answered, [None] when Discogs is
    not configured or the call failed.  The answer is [None] when
    [fullRecording.releases] is missing: the source then reads
    [bestRecording], which is out of scope there, and throws. *)
Definition assemble (aliases : gmap string string) (artistName : string)
    (albumName : option string) (recordingMbid : string)
    (fullRecording : FullRecording) (works : string -> option WorkData)
    (discogs : option Discogs.DiscogsCredits) : option graph :=
  let trackId := "track-" +:+ recordingMbid in
  let trackEntity :=
    {| e_id := trackId; e_name := fr_title fullRecording; e_type := track;
       e_image := None; e_mbid := Some recordingMbid; e_releaseType := None;
       e_isExpanded := Some false; e_isHidden := Some false;
       e_childrenLoaded := Some true |} in
  let g0 := mkGraph [trackEntity] [] [trackId] [] [] [] in
  let artistCredits := default [] (fr_artistCredit fullRecording) in
  let g1 :=
    (foldl (addArtistCredit trackId (normalizeForComparison artistName))
       (g0, false) artistCredits).1 in
  match fr_releases fullRecording with
  | None => None
  | Some releases =>
      let g2 :=
        match targetReleaseOf albumName releases with
        | Some targetRelease => addAlbum trackId g1 targetRelease
        | None => g1
        end in
      let relations := default [] (fr_relations fullRecording) in
      let g3 := foldl (addPersonnel aliases trackId) g2 relations in
      let g4 := foldl (addWork aliases trackId works) g3 relations in
      Some match discogs with
           | Some credits => mergeDiscogs aliases trackId g4 credits
           | None => g4
           end
  end.

Definition resultOf (g : graph) : DrillDownResult :=
  mkResult (g_entities g) (g_relationships g).

(** The id of the relationship is what one of the four templates of the
    source gives for its source, target and role. *)
Definition idDerivedFromTriple (r : Relationship) : Prop :=
  r_id r = relId (r_source r) (r_target r) (r_role r) \/
  r_id r = albumRelId (r_source r) (r_target r) \/
  r_id r = Discogs.relId (r_source r) (r_target r) (r_role r) \/
  r_id r = mergedRelId (r_source r) (r_target r) (r_role r).

(** The relationship has the source, target and role of the other. *)
Definition sameTriple (a b : Relationship) : Prop :=
  r_source a = r_source b /\ r_target a = r_target b /\ r_role a = r_role b.

(** The id of the relationship is what the template gives for its own
    source, target and role; the template of the album relationships
    has no role. *)
Definition fromTemplate (template : string -> string -> RoleType -> string)
    (r : Relationship) : Prop :=
  r_id r = template (r_source r) (r_target r) (r_role r).

Definition fromAlbumTemplate (r : Relationship) : Prop :=
  r_id r = albumRelId (r_source r) (r_target r).

(** The list [after] is the list [before] with relationships added at
    its end, all of which satisfy [P]. *)
Definition appends (P : Relationship -> Prop) (before after : list Relationship)
  : Prop :=
  exists more, after = before ++ more /\ Forall P more.

(** What one turn of the second loop of the merge adds for the Discogs
    relationship [rel]: the relationship itself, or one with the same
    role, the id of the template for moved credits and, as target, the id
    of an entity the graph had. *)
Definition mergedFrom (trackId : string) (g : graph) (rel r : Relationship)
  : Prop :=
  r = rel \/
  (fromTemplate mergedRelId r /\ r_source r = trackId /\
   r_role r = r_role rel /\
   (has (g_entityIds g) (r_target r) = true \/
    In (r_target r) (map e_id (g_entities g)))).

(** *** Invariants of the loops *)

Definition derivedGraph (g : graph) : Prop :=
  Forall idDerivedFromTriple (g_relationships g).

(** The credits are what [getTrackCredits] built for the track. *)
Definition creditsFor (trackId : string) (credits : Discogs.DiscogsCredits)
  : Prop :=
  Forall (fun r => r_source r = trackId /\
                   r_id r = Discogs.relId trackId (r_target r) (r_role r))
         (Discogs.relationships credits).

(** [existingNames] holds the normalized names of the entities. *)
Definition namesReflect (st : graph * list string) : Prop :=
  forall x, In x st.2 <->
            In x (map (fun e => normalizeArtistName (e_name e)) (g_entities st.1)).

(** The entity is one the first loop of the merge passes over in the
    state. *)
Definition covered (aliases : gmap string string) (entity : MusicEntity)
    (st : graph * list string) : Prop :=
  knownAlias aliases (g_entityIds st.1) (e_name entity) = true \/
  In (normalizeArtistName (e_name entity)) st.2.

(** The relationship, as retargeted in [g0], is one the graph has. *)
Definition merged (aliases : gmap string string) (trackId : string)
    (ents : list MusicEntity) (g0 : graph) (rel : Relationship) (g : graph)
  : Prop :=
  g_entities g = g_entities g0 /\ g_entityIds g = g_entityIds g0 /\
  isDuplicate (g_relationships g) (retarget aliases trackId g0 ents rel) = true.

(** [entityIds] holds the ids of the entities, in their order, and no id
    twice. *)
Definition idsMatch (g : graph) : Prop :=
  g_entityIds g = map e_id (g_entities g) /\ NoDup (g_entityIds g).

(** *** Sample data *)

Definition michaelJackson : MBArtist := mkMBArtist "mj" "Michael Jackson".

Definition badAlbum : MBRelease :=
  mkMBRelease "bad" "Bad" (Some "Official") (Some "1987-08-31")
    (Some (mkReleaseGroup (Some "Album") None)).

Definition badEP : MBRelease :=
  mkMBRelease "bad-ep" "Bad" None None (Some (mkReleaseGroup (Some "EP") None)).

(** A studio recording on the album asked for, the same on an EP, a
    recording with no release, and a live recording. *)
Definition studioOnAlbum : MBRecordingSearchResult :=
  mkSearchResult "r1" "Smooth Criminal" (Some 100) None
    (Some [mkArtistCredit michaelJackson None]) (Some [badAlbum]).

Definition studioOnEP : MBRecordingSearchResult :=
  mkSearchResult "r2" "Smooth Criminal" (Some 100) None
    (Some [mkArtistCredit michaelJackson None]) (Some [badEP]).

Definition studioUnreleased : MBRecordingSearchResult :=
  mkSearchResult "r3" "Smooth Criminal" (Some 100) None
    (Some [mkArtistCredit michaelJackson None]) None.

Definition liveRecording : MBRecordingSearchResult :=
  mkSearchResult "r4" "Smooth Criminal (Live)" (Some 100) (Some "live")
    (Some [mkArtistCredit michaelJackson None]) None.

(** The Weeknd and the aliases MusicBrainz lists for the artist; a
    recording credited to The Weeknd whose work names "Abel Tesfaye" as
    composer. *)
Definition theWeeknd : MBArtist := mkMBArtist "C" "The Weeknd".

Definition weekndAliases : gmap string string :=
  aliasToMbidMap
    (fetchArtistAliases noAliases "C" "The Weeknd"
       (Some (Some ["Abel Tesfaye"; "Abel Makkonen Tesfaye"]))).

Definition composerCredit : MBRelation :=
  mkMBRelation "composer" (Some (mkMBArtist "legal-name" "Abel Tesfaye")) None
    None.

Definition blindingLights (relations : list MBRelation) : FullRecording :=
  mkFullRecording "Blinding Lights" (Some [mkArtistCredit theWeeknd None])
    (Some relations) (Some []).

Definition blindingLightsWorks (workId : string) : option WorkData :=
  if eqs workId "w1" then Some (mkWorkData "Blinding Lights" (Some [composerCredit]))
  else None.

Definition workRelation : MBRelation :=
  mkMBRelation "performance" None (Some (mkMBWork "w1")) None.

(** The same recording with The Weeknd credited as producer by
    MusicBrainz, and a Discogs release that credits The Weeknd as
    producer. *)
Definition producerCredit : MBRelation :=
  mkMBRelation "producer" (Some theWeeknd) None None.

Definition discogsWithProducer : Discogs.DiscogsRelease :=
  Discogs.mkRelease 42 "After Hours"
    [Discogs.mkTrack "9" "Blinding Lights" None]
    (Some [Discogs.mkArtist 9 "The Weeknd" (Some "Producer") None]).

(** A Discogs release that credits the producer under the legal name. *)
Definition discogsWithLegalName : Discogs.DiscogsRelease :=
  Discogs.mkRelease 42 "After Hours"
    [Discogs.mkTrack "9" "Blinding Lights" None]
    (Some [Discogs.mkArtist 11 "Abel Tesfaye" (Some "Producer") None]).

(** The recording on its album, with an engineer and the work, and a
    Discogs release that credits The Weeknd and a second producer. *)
Definition afterHours : MBRelease :=
  mkMBRelease "ah" "After Hours" (Some "Official") (Some "2020-03-20")
    (Some (mkReleaseGroup (Some "Album") None)).

Definition engineerCredit : MBRelation :=
  mkMBRelation "engineer" (Some (mkMBArtist "e1" "Shin Kamiyama")) None None.

Definition blindingLightsOnAlbum : FullRecording :=
  mkFullRecording "Blinding Lights" (Some [mkArtistCredit theWeeknd None])
    (Some [engineerCredit; workRelation]) (Some [afterHours]).

Definition discogsWithTwoProducers : Discogs.DiscogsRelease :=
  Discogs.mkRelease 42 "After Hours"
    [Discogs.mkTrack "9" "Blinding Lights" None]
    (Some [Discogs.mkArtist 9 "The Weeknd" (Some "Producer") None;
           Discogs.mkArtist 12 "Max Martin" (Some "Producer") None]).

(** A track whose title is also the name under which Discogs credits its
    producer. *)
Definition quincyRecording : FullRecording :=
  mkFullRecording "Quincy" (Some [mkArtistCredit (mkMBArtist "b1" "The Band") None])
    (Some []) (Some []).

Definition theBandAliases : gmap string string :=
  aliasToMbidMap (fetchArtistAliases noAliases "b1" "The Band" (Some None)).

Definition quincyRelease : Discogs.DiscogsRelease :=
  Discogs.mkRelease 77 "The Album"
    [Discogs.mkTrack "1" "Quincy" None]
    (Some [Discogs.mkArtist 7 "Quincy" (Some "Producer") None]).

End MusicBrainz.

(** ** MusicBrainz: graphs of an artist and of a recording, and the
    drill-down ([src/services/musicbrainz.ts]) *)

Module DrillDown.
Import JS Music MusicBrainz.

Record MBRecording : Type := mkMBRecording {
  rec_id : string;
  rec_title : string
}.

(** A relation of an answer, with the fields read here. *)
Record Relation : Type := mkRelation {
  rel_type : string;
  rel_attributes : option (list string);
  rel_artist : option MBArtist;
  rel_recording : option MBRecording
}.

Record MBReleaseGroup : Type := mkMBReleaseGroup {
  rgr_id : string;
  rgr_title : string;
  rgr_primaryType : option string;
  rgr_firstReleaseDate : option string
}.

(** The body of an answer: the fields that the functions below read from
    the answers to their requests. *)
Record Answer : Type := mkAnswer {
  an_artists : option (list MBArtist);
  an_relations : option (list Relation);
  an_name : string;
  an_title : string;
  an_artistCredit : option (list ArtistCredit);
  an_releaseGroups : option (list MBReleaseGroup)
}.

Record MusicGraph : Type := mkMusicGraph {
  mg_entities : list MusicEntity;
  mg_relationships : list Relationship
}.

(** How a call ends: with its result, with the error [fetchMB] throws for
    an answer that is not OK, with an error of its own, or not at all. *)
Inductive result (T : Type) : Type :=
| Done : T -> result T
| ApiError : Z -> result T
| Failed : string -> result T
| Pending : result T.
Arguments Done {T} _.
Arguments ApiError {T} _.
Arguments Failed {T} _.
Arguments Pending {T}.

(** An entity with the fields [id], [name] and [type] only. *)
Definition plainEntity (id name : string) (type : EntityType) : MusicEntity :=
  mkEntity id name type None None None None None None.

(** The local state of the two graph builders: [entities],
    [relationships] and [entityIds]. *)
Record builder : Type := mkBuilder {
  b_entities : list MusicEntity;
  b_relationships : list Relationship;
  b_entityIds : list string
}.

(** [entities.push(e); entityIds.add(e.id)] *)
Definition pushEntity (e : MusicEntity) (b : builder) : builder :=
  {| b_entities := b_entities b ++ [e];
     b_relationships := b_relationships b;
     b_entityIds := add (b_entityIds b) (e_id e) |}.

(** [`rel-${relationships.length}`] *)
Definition numberedId (n : nat) : string :=
  "rel-" +:+ Discogs.numberToString (Z.of_nat n).

(** [relationships.push({ id: `rel-${relationships.length}`, ... })] *)
Definition pushNumbered (source target : string) (role : RoleType)
    (b : builder) : builder :=
  {| b_entities := b_entities b;
     b_relationships :=
       b_relationships b
       ++ [mkRel (numberedId (length (b_relationships b))) source target role];
     b_entityIds := b_entityIds b |}.

Definition graphOf (b : builder) : MusicGraph :=
  mkMusicGraph (b_entities b) (b_relationships b).

(** [searchArtist] *)
Definition searchArtist (query : string) (s : Net.source Answer)
  : Net.outcome (list MBArtist) * Net.source Answer :=
  match Net.fetchMB (Net.mkRequest "/artist" [("query", query)]) s with
  | (Net.Returned data, s1) => (Net.Returned (default [] (an_artists data)), s1)
  | (Net.Thrown e, s1) => (Net.Thrown e, s1)
  | (Net.Waiting, s1) => (Net.Waiting, s1)
  end.

(** *** [getRecordingCredits] *)

(** One turn of the loop over [data['artist-credit']]. *)
Definition addCreditedArtist (trackId : string) (b : builder)
    (credit : ArtistCredit) : builder :=
  let a := ac_artist credit in
  let artistId := "artist-" +:+ ar_id a in
  let b1 :=
    if has (b_entityIds b) artistId then b
    else pushEntity (plainEntity artistId (ar_name a) artist) b in
  pushNumbered trackId artistId primary_artist b1.

(** One turn of the loop over [data.relations]. *)
Definition addRelatedArtist (trackId : string) (b : builder) (rel : Relation)
  : builder :=
  match rel_artist rel with
  | Some a =>
      let artistId := "artist-" +:+ ar_id a in
      let b1 :=
        if has (b_entityIds b) artistId then b
        else pushEntity (plainEntity artistId (ar_name a) artist) b in
      pushNumbered trackId artistId
        (mapMBRelationType (rel_type rel) (rel_attributes rel)) b1
  | None => b
  end.

Definition recordingRequest (recordingId : string) : Net.request :=
  Net.mkRequest ("/recording/" +:+ recordingId)
    [("inc", "artist-credits+artist-rels")].

Definition recordingGraph (recordingId : string) (data : Answer) : builder :=
  let trackId := "track-" +:+ recordingId in
  let b0 := pushEntity (plainEntity trackId (an_title data) track)
              (mkBuilder [] [] []) in
  let b1 := foldl (addCreditedArtist trackId) b0
              (default [] (an_artistCredit data)) in
  foldl (addRelatedArtist trackId) b1 (default [] (an_relations data)).

Definition getRecordingCredits (recordingId : string) (s : Net.source Answer)
  : Net.outcome MusicGraph * Net.source Answer :=
  match Net.fetchMB (recordingRequest recordingId) s with
  | (Net.Returned data, s1) =>
      (Net.Returned (graphOf (recordingGraph recordingId data)), s1)
  | (Net.Thrown e, s1) => (Net.Thrown e, s1)
  | (Net.Waiting, s1) => (Net.Waiting, s1)
  end.

(** *** [getArtistRelations] and [searchAndBuildGraph] *)

(** One turn of the loop over [data.relations]: the related artist, then
    the related recording. *)
Definition addRelation (artistId : string) (b : builder) (rel : Relation)
  : builder :=
  let mainId := "artist-" +:+ artistId in
  let role := mapMBRelationType (rel_type rel) (rel_attributes rel) in
  let b1 :=
    match rel_artist rel with
    | Some a =>
        let otherId := "artist-" +:+ ar_id a in
        if has (b_entityIds b) otherId then b
        else pushNumbered mainId otherId role
               (pushEntity (plainEntity otherId (ar_name a) artist) b)
    | None => b
    end in
  match rel_recording rel with
  | Some r =>
      let trackId := "track-" +:+ rec_id r in
      if has (b_entityIds b1) trackId then b1
      else pushNumbered trackId mainId role
             (pushEntity (plainEntity trackId (rec_title r) track) b1)
  | None => b1
  end.

Definition artistGraph (artistId : string) (data mainArtist : Answer)
  : builder :=
  let b0 := pushEntity (plainEntity ("artist-" +:+ artistId)
                          (an_name mainArtist) artist)
              (mkBuilder [] [] []) in
  foldl (addRelation artistId) b0 (default [] (an_relations data)).

Definition relationsRequest (artistId : string) : Net.request :=
  Net.mkRequest ("/artist/" +:+ artistId)
    [("inc", "artist-rels+recording-rels+release-rels")].

Definition artistRequest (artistId : string) : Net.request :=
  Net.mkRequest ("/artist/" +:+ artistId) [].

Definition getArtistRelations (artistId : string) (s : Net.source Answer)
  : Net.outcome MusicGraph * Net.source Answer :=
  match Net.fetchMB (relationsRequest artistId) s with
  | (Net.Returned data, s1) =>
      match Net.fetchMB (artistRequest artistId) s1 with
      | (Net.Returned mainArtist, s2) =>
          (Net.Returned (graphOf (artistGraph artistId data mainArtist)), s2)
      | (Net.Thrown e, s2) => (Net.Thrown e, s2)
      | (Net.Waiting, s2) => (Net.Waiting, s2)
      end
  | (Net.Thrown e, s1) => (Net.Thrown e, s1)
  | (Net.Waiting, s1) => (Net.Waiting, s1)
  end.

Definition searchAndBuildGraph (query : string) (s : Net.source Answer)
  : Net.outcome MusicGraph * Net.source Answer :=
  match searchArtist query s with
  | (Net.Returned artists, s1) =>
      match artists with
      | [] => (Net.Returned (mkMusicGraph [] []), s1)
      | first :: _ => getArtistRelations (ar_id first) s1
      end
  | (Net.Thrown e, s1) => (Net.Thrown e, s1)
  | (Net.Waiting, s1) => (Net.Waiting, s1)
  end.

(** *** The drill-down: [getArtistReleases], [initializeArtistGraph] and
    [expandTrack] *)

(** An entity of the drill-down: a [MusicEntity] with its navigation
    fields [parentId], [depth] and [childCount], and the [releaseDate] of
    its [metadata]. *)
Record Node : Type := mkNode {
  n_entity : MusicEntity;
  n_parentId : option string;
  n_depth : option Z;
  n_childCount : option Z;
  n_releaseDate : option string
}.

Record DrillDownNodes : Type := mkNodes {
  dd_entities : list Node;
  dd_relationships : list Relationship
}.

Record ReleaseGroups : Type := mkGroups {
  albums : list MBReleaseGroup;
  singles : list MBReleaseGroup;
  eps : list MBReleaseGroup;
  other : list MBReleaseGroup
}.

(** One turn of the loop of [getArtistReleases]. *)
Definition addReleaseGroup (groups : ReleaseGroups) (rg : MBReleaseGroup)
  : ReleaseGroups :=
  let type := toLowerCase <$> rgr_primaryType rg in
  if isString type "album"
  then mkGroups (albums groups ++ [rg]) (singles groups) (eps groups) (other groups)
  else if isString type "single"
  then mkGroups (albums groups) (singles groups ++ [rg]) (eps groups) (other groups)
  else if isString type "ep"
  then mkGroups (albums groups) (singles groups) (eps groups ++ [rg]) (other groups)
  else mkGroups (albums groups) (singles groups) (eps groups) (other groups ++ [rg]).

Definition releaseGroupsRequest (artistMbid : string) : Net.request :=
  Net.mkRequest "/release-group" [("artist", artistMbid); ("limit", "100")].

Definition getArtistReleases (artistMbid : string) (s : Net.source Answer)
  : Net.outcome ReleaseGroups * Net.source Answer :=
  match Net.fetchMB (releaseGroupsRequest artistMbid) s with
  | (Net.Returned data, s1) =>
      (Net.Returned
         (foldl addReleaseGroup (mkGroups [] [] [] [])
            (default [] (an_releaseGroups data))), s1)
  | (Net.Thrown e, s1) => (Net.Thrown e, s1)
  | (Net.Waiting, s1) => (Net.Waiting, s1)
  end.

Definition releaseNode (artistId : string) (rg : MBReleaseGroup) : Node :=
  {| n_entity :=
       {| e_id := "release-" +:+ rgr_id rg;
          e_name := rgr_title rg;
          e_type := album;
          e_image := None;
          e_mbid := Some (rgr_id rg);
          e_releaseType := Some (mapPrimaryType (rgr_primaryType rg));
          e_isExpanded := Some false;
          e_isHidden := Some false;
          e_childrenLoaded := Some false |};
     n_parentId := Some artistId;
     n_depth := Some 1;
     n_childCount := None;
     n_releaseDate :=
       if given (rgr_firstReleaseDate rg) then rgr_firstReleaseDate rg else None |}.

Definition releaseLink (artistId : string) (release : Node) : Relationship :=
  {| r_id := "rel-" +:+ artistId +:+ "-" +:+ e_id (n_entity release);
     r_source := artistId;
     r_target := e_id (n_entity release);
     r_role := released_on |}.

Definition initializeArtistGraph (artistName : string) (s : Net.source Answer)
  : result DrillDownNodes * Net.source Answer :=
  match searchArtist artistName s with
  | (Net.Returned artists, s1) =>
      match artists with
      | [] => (Failed "Artist not found", s1)
      | found :: _ =>
          let artistId := "artist-" +:+ ar_id found in
          match getArtistReleases (ar_id found) s1 with
          | (Net.Returned releases, s2) =>
              let allReleases :=
                albums releases ++ singles releases ++ eps releases in
              let artistEntity :=
                {| n_entity :=
                     {| e_id := artistId;
                        e_name := ar_name found;
                        e_type := artist;
                        e_image := None;
                        e_mbid := Some (ar_id found);
                        e_releaseType := None;
                        e_isExpanded := Some true;
                        e_isHidden := Some false;
                        e_childrenLoaded := Some true |};
                   n_parentId := None;
                   n_depth := Some 0;
                   n_childCount := Some (Z.of_nat (length allReleases));
                   n_releaseDate := None |} in
              let releaseEntities := map (releaseNode artistId) allReleases in
              (Done {| dd_entities := artistEntity :: releaseEntities;
                       dd_relationships :=
                         map (releaseLink artistId) releaseEntities |}, s2)
          | (Net.Thrown e, s2) => (ApiError e, s2)
          | (Net.Waiting, s2) => (Pending, s2)
          end
      end
  | (Net.Thrown e, s1) => (ApiError e, s1)
  | (Net.Waiting, s1) => (Pending, s1)
  end.

(** The local state of [expandTrack]: [entities], [relationships],
    [seenArtists] and [nextIsFeatured]. *)
Record expansion : Type := mkExpansion {
  x_entities : list Node;
  x_relationships : list Relationship;
  x_seenArtists : list string;
  x_nextIsFeatured : bool
}.

Definition personNode (trackId : string) (a : MBArtist) : Node :=
  {| n_entity :=
       {| e_id := "artist-" +:+ ar_id a;
          e_name := ar_name a;
          e_type := artist;
          e_image := None;
          e_mbid := Some (ar_id a);
          e_releaseType := None;
          e_isExpanded := Some false;
          e_isHidden := Some false;
          e_childrenLoaded := Some false |};
     n_parentId := Some trackId;
     n_depth := Some 3;
     n_childCount := None;
     n_releaseDate := None |}.

(** The test of a join phrase that makes the next artist featured. *)
Definition announcesFeatured (credit : ArtistCredit) : bool :=
  let joinphrase := toLowerCase (default "" (ac_joinphrase credit)) in
  (includes joinphrase "feat" || includes joinphrase "ft." ||
   includes joinphrase "featuring" || includes joinphrase "with ")%bool.

(** One turn of the loop over the artist credits. *)
Definition expandCredit (trackId : string) (x : expansion)
    (credit : ArtistCredit) : expansion :=
  let a := ac_artist credit in
  let artistId := "artist-" +:+ ar_id a in
  let isFeatured := x_nextIsFeatured x in
  let role := if isFeatured then featured else primary_artist in
  {| x_entities :=
       if has (x_seenArtists x) artistId then x_entities x
       else x_entities x ++ [personNode trackId a];
     x_relationships :=
       x_relationships x
       ++ [mkRel (relId trackId artistId role) trackId artistId role];
     x_seenArtists := add (x_seenArtists x) artistId;
     x_nextIsFeatured := announcesFeatured credit |}.

(** One turn of the loop over the relations; the id of the relationship
    is made with the type of the relation as MusicBrainz writes it. *)
Definition expandRelation (trackId : string) (x : expansion) (rel : Relation)
  : expansion :=
  match rel_artist rel with
  | Some a =>
      let artistId := "artist-" +:+ ar_id a in
      {| x_entities :=
           if has (x_seenArtists x) artistId then x_entities x
           else x_entities x ++ [personNode trackId a];
         x_relationships :=
           x_relationships x
           ++ [mkRel ("rel-" +:+ trackId +:+ "-" +:+ artistId +:+ "-"
                      +:+ rel_type rel)
                 trackId artistId
                 (mapMBRelationType (rel_type rel) (rel_attributes rel))];
         x_seenArtists := add (x_seenArtists x) artistId;
         x_nextIsFeatured := x_nextIsFeatured x |}
  | None => x
  end.

Definition expandRequest (mbid : string) : Net.request :=
  Net.mkRequest ("/recording/" +:+ mbid)
    [("inc", "artist-credits+artist-rels+work-rels")].

Definition expandTrack (trackEntity : Node) (s : Net.source Answer)
  : result DrillDownNodes * Net.source Answer :=
  if negb (given (e_mbid (n_entity trackEntity)))
  then (Failed "Track has no MusicBrainz ID", s)
  else
    let trackId := e_id (n_entity trackEntity) in
    match Net.fetchMB
            (expandRequest (default "" (e_mbid (n_entity trackEntity)))) s with
    | (Net.Returned data, s1) =>
        let x1 := foldl (expandCredit trackId) (mkExpansion [] [] [] false)
                    (default [] (an_artistCredit data)) in
        let x2 := foldl (expandRelation trackId) x1
                    (default [] (an_relations data)) in
        (Done (mkNodes (x_entities x2) (x_relationships x2)), s1)
    | (Net.Thrown e, s1) => (ApiError e, s1)
    | (Net.Waiting, s1) => (Pending, s1)
    end.

(** The release groups of an answer that [mapPrimaryType] gives the
    type. *)
Definition ofType (type : ReleaseType) (groups : list MBReleaseGroup)
  : list MBReleaseGroup :=
  List.filter
    (fun rg =>
       match mapPrimaryType (rgr_primaryType rg), type with
       | Album, Album | Single, Single | EP, EP | Other, Other => true
       | _, _ => false
       end) groups.

(** The roles the loop over the artist credits gives, from the flag
    [nextIsFeatured] it starts with. *)
Fixpoint creditRoles (nextIsFeatured : bool) (credits : list ArtistCredit)
  : list RoleType :=
  match credits with
  | [] => []
  | credit :: rest =>
      (if nextIsFeatured then featured else primary_artist)
      :: creditRoles (announcesFeatured credit) rest
  end.

(** What the loops of [expandTrack] keep true. *)
Definition expanded (trackId : string) (x : expansion) : Prop :=
  x_seenArtists x = map (fun n => e_id (n_entity n)) (x_entities x) /\
  NoDup (x_seenArtists x) /\
  Forall (fun n => n_parentId n = Some trackId /\ n_depth n = Some 3 /\
                   e_type (n_entity n) = artist) (x_entities x) /\
  Forall (fun r => r_source r = trackId /\ In (r_target r) (x_seenArtists x))
         (x_relationships x).

(** What the loops of the two builders keep true: [entityIds] holds the
    ids of the entities, no id twice; both ends of every relationship are
    entities; the relationships are numbered from 0 in their order. *)
Definition wellFormed (b : builder) : Prop :=
  b_entityIds b = map e_id (b_entities b) /\
  NoDup (b_entityIds b) /\
  Forall (fun r => In (r_source r) (b_entityIds b) /\
                   In (r_target r) (b_entityIds b)) (b_relationships b) /\
  map r_id (b_relationships b) =
    map numberedId (seq 0 (length (b_relationships b))).

(** Sample data: a recording credited to one artist and produced by
    another, and an artist related to another artist and to a recording. *)
Definition quincy : MBArtist := mkMBArtist "qj" "Quincy Jones".

Definition smoothCriminal : Answer :=
  mkAnswer None
    (Some [mkRelation "producer" None (Some quincy) None;
           mkRelation "producer" (Some ["co"]) (Some michaelJackson) None])
    "" "Smooth Criminal" (Some [mkArtistCredit michaelJackson None]) None.

Definition jacksonRelations : Answer :=
  mkAnswer (Some [michaelJackson])
    (Some [mkRelation "producer" None (Some quincy)
             (Some (mkMBRecording "r1" "Smooth Criminal"));
           mkRelation "vocal" None (Some quincy) None])
    "Michael Jackson" "" None None.

(** Sample data: the release groups of an artist, and a track credited
    to two artists. *)
Definition jacksonReleases : Answer :=
  mkAnswer (Some [michaelJackson]) None "" "" None
    (Some [mkMBReleaseGroup "g1" "Bad" (Some "Album") (Some "1987-08-31");
           mkMBReleaseGroup "g2" "Live at Wembley" (Some "Other") None;
           mkMBReleaseGroup "g3" "Smooth Criminal" (Some "SINGLE") None;
           mkMBReleaseGroup "g4" "Untitled" None None]).

Definition duet : Answer :=
  mkAnswer None (Some [mkRelation "producer" None (Some quincy) None]) ""
    "Say Say Say"
    (Some [mkArtistCredit (mkMBArtist "pm" "Paul McCartney") (Some " feat. ");
           mkArtistCredit michaelJackson None])
    None.

Definition sayTrack : Node :=
  mkNode (mkEntity "track-s1" "Say Say Say" track None (Some "s1") None
            (Some false) (Some false) (Some false))
    (Some "release-g9") (Some 2) None None.

End DrillDown.

(** ** MusicBrainz: the recording of a track looked up through its release
    ([src/services/musicbrainz.ts]) *)

Module ReleaseLookup.
Import JS Music MusicBrainz.

(** A release of the answer to the release search, with the fields read
    here. *)
Record ReleaseHit : Type := mkReleaseHit {
  rh_id : string;
  rh_title : string;
  rh_status : option string;
  rh_score : option Z;
  rh_releaseGroup : option ReleaseGroup
}.

(** A medium of a release; a track is given by its [recording]. *)
Record Medium : Type := mkMedium {
  md_tracks : option (list DrillDown.MBRecording)
}.

(** The body of an answer: the fields that the two requests read. *)
Record Answer : Type := mkAnswer {
  an_releases : option (list ReleaseHit);
  an_media : option (list Medium)
}.

Record Found : Type := mkFound {
  recordingId : string;
  releaseId : string;
  title : string
}.

(** The double quote. *)
Definition quote : string := String "034"%char EmptyString.

(** [searchRelease] *)
Definition releaseSearch (albumName artistName : string) : Net.request :=
  Net.mkRequest "/release"
    [("query",
      "release:" +:+ quote +:+ albumName +:+ quote +:+ " AND artist:" +:+ quote
      +:+ artistName +:+ quote);
     ("limit", "25")].

Definition searchRelease (albumName artistName : string)
    (s : Net.source Answer) : Net.outcome (list ReleaseHit) * Net.source Answer :=
  match Net.fetchMB (releaseSearch albumName artistName) s with
  | (Net.Returned data, s1) => (Net.Returned (default [] (an_releases data)), s1)
  | (Net.Thrown e, s1) => (Net.Thrown e, s1)
  | (Net.Waiting, s1) => (Net.Waiting, s1)
  end.

(** *** Patterns between word boundaries *)

(** Does the text start with a word character?  The end of the text
    counts as none. *)
Definition wordAhead (l : list ascii) : bool :=
  match l with
  | c :: _ => isWord c
  | [] => false
  end.

(** Is the character before [rest] a word character, where [rest] is what
    a match on [s] left?  [prev] tells it of the character before [s]. *)
Definition wordBehind (prev : bool) (s rest : list ascii) : bool :=
  match (length s - length rest)%nat with
  | O => prev
  | S k =>
      match nth_error s k with
      | Some c => isWord c
      | None => false
      end
  end.

(** [/\b(r)\b/.test(s)]: a boundary is where exactly one of the
    characters before and after is a word character.  [prev] tells
    whether the character before [s] is one. *)
Fixpoint testBoundedFrom (r : regex) (prev : bool) (s : list ascii) : bool :=
  match
    (if xorb prev (wordAhead s)
     then rmatch r s
            (fun rest =>
               if xorb (wordBehind prev s rest) (wordAhead rest)
               then Some rest else None)
     else None)
  with
  | Some _ => true
  | None =>
      match s with
      | [] => false
      | c :: s' => testBoundedFrom r (isWord c) s'
      end
  end.

Definition testBounded (r : regex) (s : string) : bool :=
  testBoundedFrom r false (chars s).

(** [/\b(25|30|40|50|deluxe|special|anniversary|remaster|expanded)\b/i] *)
Definition editionWords : regex :=
  alts (map lit_i ["25"; "30"; "40"; "50"; "deluxe"; "special"; "anniversary";
                   "remaster"; "expanded"]).

(** *** [findRecordingViaRelease] *)

(** The score of a release of the search. *)
Definition scoreRelease (albumName : string) (r : ReleaseHit) : Z :=
  let score := default 0 (rh_score r) in
  let titleLower := toLowerCase (rh_title r) in
  let score :=
    if eqs (normalizeForComparison (rh_title r)) (normalizeForComparison albumName)
    then score + 100 else score in
  let score := if isString (rh_status r) "Official" then score + 20 else score in
  let secondaryTypes :=
    default [] (rh_releaseGroup r ≫= rg_secondaryTypes) in
  let score :=
    if existsb (has ["Compilation"; "Live"; "Remix"; "DJ-mix"]) secondaryTypes
    then score - 100 else score in
  let score := if testBounded editionWords titleLower then score - 50 else score in
  let score :=
    if isString (rh_releaseGroup r ≫= rg_primaryType) "Album" then score + 30
    else score in
  score.

(** [releases.map(...)] and [scoredReleases.sort((a, b) => b.score - a.score)] *)
Definition scoredReleases (albumName : string) (releases : list ReleaseHit)
  : list (ReleaseHit * Z) :=
  sortBy (fun a b => b.2 - a.2)
    (map (fun r => (r, scoreRelease albumName r)) releases).

Definition releaseRequest (id : string) : Net.request :=
  Net.mkRequest ("/release/" +:+ id) [("inc", "recordings")].

(** The two loops over the media and their tracks: the first track whose
    normalized title is that of the track asked for. *)
Fixpoint inMedia (normalizedTrack : string) (media : list Medium)
  : option DrillDown.MBRecording :=
  match media with
  | [] => None
  | medium :: rest =>
      match List.find
              (fun rec => eqs (normalizeForComparison (DrillDown.rec_title rec))
                              normalizedTrack)
              (default [] (md_tracks medium)) with
      | Some rec => Some rec
      | None => inMedia normalizedTrack rest
      end
  end.

(** The loop over the first three releases; what a lookup throws is
    caught, and the loop goes on with the next release. *)
Fixpoint tryReleases (normalizedTrack : string) (releases : list ReleaseHit)
    (s : Net.source Answer) : Net.outcome (option Found) * Net.source Answer :=
  match releases with
  | [] => (Net.Returned None, s)
  | release :: rest =>
      match Net.fetchMB (releaseRequest (rh_id release)) s with
      | (Net.Returned releaseData, s1) =>
          match inMedia normalizedTrack (default [] (an_media releaseData)) with
          | Some rec =>
              (Net.Returned
                 (Some {| recordingId := DrillDown.rec_id rec;
                          releaseId := rh_id release;
                          title := DrillDown.rec_title rec |}), s1)
          | None => tryReleases normalizedTrack rest s1
          end
      | (Net.Thrown _, s1) => tryReleases normalizedTrack rest s1
      | (Net.Waiting, s1) => (Net.Waiting, s1)
      end
  end.

(** An answer to a lookup on which the loop goes on: an error, or a
    release without a track of the title asked for. *)
Definition withoutTrack (normalizedTrack : string) (r : Net.reply Answer)
  : bool :=
  if Net.ok r
  then match inMedia normalizedTrack (default [] (an_media (Net.body r))) with
       | Some _ => false
       | None => true
       end
  else true.

Definition findRecordingViaRelease (trackName artistName albumName : string)
    (s : Net.source Answer) : Net.outcome (option Found) * Net.source Answer :=
  match searchRelease albumName artistName s with
  | (Net.Returned releases, s1) =>
      match releases with
      | [] => (Net.Returned None, s1)
      | _ :: _ =>
          tryReleases (normalizeForComparison trackName)
            (map fst (firstn 3 (scoredReleases albumName releases))) s1
      end
  | (Net.Thrown e, s1) => (Net.Thrown e, s1)
  | (Net.Waiting, s1) => (Net.Waiting, s1)
  end.

(** Sample data: the album Bad and its anniversary edition, and the
    tracks of the album. *)
Definition badHits : list ReleaseHit :=
  [mkReleaseHit "bad25" "Bad 25" (Some "Official") (Some 100)
     (Some (mkReleaseGroup (Some "Album") None));
   mkReleaseHit "bad" "Bad" (Some "Official") (Some 100)
     (Some (mkReleaseGroup (Some "Album") None))].

Definition badMedia : list Medium :=
  [mkMedium (Some [DrillDown.mkMBRecording "r0" "Bad";
                   DrillDown.mkMBRecording "r1" "Smooth Criminal"])].

End ReleaseLookup.

(** ** Discogs: the release of a track ([src/services/discogs.ts]) *)

Module DiscogsLookup.
Import JS Music Discogs.

(** A result of the search, with the fields read here. *)
Record DiscogsSearchResult : Type := mkResult {
  res_id : Z;
  res_title : string;
  res_format : option (list string)
}.

(** The body of an answer: [results], which the search reads, and the
    body as the release that [getRelease] returns it as. *)
Record Answer : Type := mkAnswer {
  an_results : option (list DiscogsSearchResult);
  an_release : DiscogsRelease
}.

(** [isConfigured], for the token of the environment. *)
Definition isConfigured (token : string) : bool :=
  (0 <? String.length token)%nat.

(** The query of [searchRelease]. *)
Definition searchQuery (trackName artistName : string)
    (albumName : option string) : string :=
  match albumName with
  | Some name =>
      if truthy name then artistName +:+ " " +:+ name
      else artistName +:+ " " +:+ trackName
  | None => artistName +:+ " " +:+ trackName
  end.

Definition searchRequest (trackName artistName : string)
    (albumName : option string) : Net.request :=
  Net.mkRequest "/database/search"
    [("q", searchQuery trackName artistName albumName); ("type", "release");
     ("per_page", "10")].

(** [searchRelease]: what the request throws is caught. *)
Definition searchRelease (token : string) (trackName artistName : string)
    (albumName : option string) (s : Net.source Answer)
  : Net.outcome (list DiscogsSearchResult) * Net.source Answer :=
  if negb (isConfigured token) then (Net.Returned [], s) else
  match Net.fetchDiscogs (searchRequest trackName artistName albumName) s with
  | (Net.Returned data, s1) => (Net.Returned (default [] (an_results data)), s1)
  | (Net.Thrown _, s1) => (Net.Returned [], s1)
  | (Net.Waiting, s1) => (Net.Waiting, s1)
  end.

Definition releaseRequest (releaseId : Z) : Net.request :=
  Net.mkRequest ("/releases/" +:+ numberToString releaseId) [].

(** [getRelease]: what the request throws is caught. *)
Definition getRelease (releaseId : Z) (s : Net.source Answer)
  : Net.outcome (option DiscogsRelease) * Net.source Answer :=
  match Net.fetchDiscogs (releaseRequest releaseId) s with
  | (Net.Returned data, s1) => (Net.Returned (Some (an_release data)), s1)
  | (Net.Thrown _, s1) => (Net.Returned None, s1)
  | (Net.Waiting, s1) => (Net.Waiting, s1)
  end.

(** [/\b(25|30|40|50)\b/] *)
Definition anniversaryNumbers : regex := alts (map lit ["25"; "30"; "40"; "50"]).

(** [/\b(deluxe|special|limited|expanded|remaster|anniversary|collector|box\s*set)\b/i] *)
Definition editionWords : regex :=
  alts (map lit_i ["deluxe"; "special"; "limited"; "expanded"; "remaster";
                   "anniversary"; "collector"]
        ++ [cats [lit_i "box"; Star space; lit_i "set"]]).

(** [r.format?.some(test)] *)
Definition someFormat (test : string -> bool) (r : DiscogsSearchResult) : bool :=
  match res_format r with
  | Some formats => existsb test formats
  | None => false
  end.

(** The score [findBestRelease] gives a result of the search. *)
Definition scoreResult (normalizedArtist : string)
    (normalizedAlbum : option string) (r : DiscogsSearchResult) : Z :=
  let score := 0 in
  let titleLower := toLowerCase (res_title r) in
  let score := if includes titleLower normalizedArtist then score + 50 else score in
  let score :=
    match normalizedAlbum with
    | Some name =>
        if (truthy name
            && includes (normalizeForComparison (res_title r)) name)%bool
        then score + 100 else score
    | None => score
    end in
  let score :=
    if someFormat (fun f => includes (toLowerCase f) "compilation") r
    then score - 50 else score in
  let score :=
    if someFormat (fun f => (includes (toLowerCase f) "album"
                             || eqs (toLowerCase f) "lp")%bool) r
    then score + 20 else score in
  let titleForEditionCheck := toLowerCase (res_title r) in
  let score :=
    if ReleaseLookup.testBounded anniversaryNumbers titleForEditionCheck
    then score - 40 else score in
  let score :=
    if ReleaseLookup.testBounded editionWords titleForEditionCheck
    then score - 30 else score in
  score.

(** The score of a result for the artist and the album asked for. *)
Definition scoreFor (artistName : string) (albumName : option string)
  : DiscogsSearchResult -> Z :=
  scoreResult (normalizeForComparison artistName)
    match albumName with
    | Some name =>
        if truthy name then Some (normalizeForComparison name) else None
    | None => None
    end.

(** [findBestRelease] *)
Definition findBestRelease (token : string) (trackName artistName : string)
    (albumName : option string) (s : Net.source Answer)
  : Net.outcome (option DiscogsRelease) * Net.source Answer :=
  match searchRelease token trackName artistName albumName s with
  | (Net.Returned results, s1) =>
      match results with
      | [] => (Net.Returned None, s1)
      | _ :: _ =>
          let scored :=
            MusicBrainz.sortBy (fun a b => b.2 - a.2)
              (map (fun r => (r, scoreFor artistName albumName r)) results) in
          match head scored with
          | Some bestMatch => getRelease (res_id bestMatch.1) s1
          | None => (Net.Returned None, s1)
          end
      end
  | (Net.Thrown e, s1) => (Net.Thrown e, s1)
  | (Net.Waiting, s1) => (Net.Waiting, s1)
  end.

(** [getTrackCredits], with the requests it sends. *)
Definition getTrackCreditsVia (token : string) (trackName artistName : string)
    (albumName existingTrackId : option string) (s : Net.source Answer)
  : Net.outcome DiscogsCredits * Net.source Answer :=
  if negb (isConfigured token) then (Net.Returned (mkCredits [] []), s) else
  match findBestRelease token trackName artistName albumName s with
  | (Net.Returned release, s1) =>
      (Net.Returned
         (getTrackCredits (isConfigured token) trackName existingTrackId release),
       s1)
  | (Net.Thrown e, s1) => (Net.Thrown e, s1)
  | (Net.Waiting, s1) => (Net.Waiting, s1)
  end.

(** The answers from the first that [fetchDiscogs] does not take for a
    rate limit and ask again after, and the number of those before it. *)
Fixpoint settled {T : Type} (answers : list (Net.reply T)) : list (Net.reply T) :=
  match answers with
  | [] => []
  | r :: rest =>
      if Net.ok r then answers
      else if Net.status r =? 429 then settled rest
      else answers
  end.

Definition rateLimited {T : Type} (answers : list (Net.reply T)) : nat :=
  length answers - length (settled answers).

(** Sample data: the results of a search that lists the anniversary
    edition of an album before the album. *)
Definition badResults : list DiscogsSearchResult :=
  [mkResult 25 "Michael Jackson - Bad 25" (Some ["CD"; "Album"]);
   mkResult 1 "Michael Jackson - Bad" (Some ["LP"; "Album"])].

Definition badRelease : DiscogsRelease :=
  mkRelease 1 "Bad"
    [mkTrack "A1" "Bad" None;
     mkTrack "B2" "Smooth Criminal"
       (Some [mkArtist 7 "Quincy Jones" (Some "Producer") None])]
    None.

Definition noRelease : DiscogsRelease := mkRelease 0 "" [] None.

End DiscogsLookup.

(** * Properties *)

(** ** Strings *)

Module JSFacts.
Import JS.

Lemma eqs_true (a b : string) : eqs a b = true <-> a = b.
Proof. unfold eqs. apply String.eqb_eq. Qed.

Lemma eqs_false (a b : string) : eqs a b = false <-> a <> b.
Proof. unfold eqs. apply String.eqb_neq. Qed.

Lemma has_true (xs : list string) (x : string) : has xs x = true <-> In x xs.
Proof.
  unfold has. rewrite existsb_exists. split.
  - intros (y & Hy & ->%eqs_true). done.
  - intros H. exists x. split; [done|by apply eqs_true].
Qed.

Lemma has_false (xs : list string) (x : string) :
  has xs x = false <-> ~ In x xs.
Proof. rewrite <- has_true. destruct (has xs x); split; congruence. Qed.

Lemma distinct_NoDup (xs : list string) : distinct xs = true -> NoDup xs.
Proof.
  induction xs as [|x xs IH]; simpl; [constructor|].
  intros [Hx Hxs]%andb_true_iff. apply negb_true_iff, has_false in Hx.
  constructor; [by rewrite list_elem_of_In|by apply IH].
Qed.

Lemma in_add (xs : list string) (x y : string) :
  In y (add xs x) <-> In y xs \/ y = x.
Proof.
  unfold add. destruct (has xs x) eqn:E.
  - apply has_true in E. split; [tauto|]. intros [H| ->]; done.
  - rewrite in_app_iff. simpl. intuition (subst; auto).
Qed.

Lemma in_foldl_add (l acc : list string) (x : string) :
  In x (foldl add acc l) <-> In x acc \/ In x l.
Proof.
  revert acc. induction l as [|y l IH]; intros acc; simpl; [tauto|].
  rewrite IH, in_add. split; intros H; intuition auto.
Qed.

Lemma foldl_fixed {A B : Type} (f : A -> B -> A) (a : A) (l : list B) :
  (forall x, In x l -> f a x = a) -> foldl f a l = a.
Proof.
  induction l as [|x l IH]; intros H; simpl; [done|].
  rewrite (H x) by (by left). apply IH. intros y Hy. apply H. by right.
Qed.

Lemma foldl_invariant {A B : Type} (P : A -> Prop) (f : A -> B -> A)
    (l : list B) (a : A) :
  (forall a x, In x l -> P a -> P (f a x)) -> P a -> P (foldl f a l).
Proof.
  revert a. induction l as [|x l IH]; intros a Hstep Ha; simpl; [done|].
  apply IH.
  - intros a' y Hy. apply Hstep. by right.
  - apply Hstep; [by left|done].
Qed.

Lemma append_nonempty (a b : string) : b <> "" -> a +:+ b <> "".
Proof. destruct a; intros Hb; [exact Hb | by cbv [String.append]]. Qed.

(** Strings as lists of characters. *)
Lemma chars_app (a b : string) : chars (a +:+ b) = chars a ++ chars b.
Proof.
  induction a as [|c a IH]; [reflexivity|].
  cbv [String.append]; fold String.append. unfold chars in *. simpl.
  by rewrite IH.
Qed.

Lemma str_app (l m : list ascii) : str (l ++ m) = str l +:+ str m.
Proof.
  induction l as [|c l IH]; [reflexivity|].
  unfold str in *. simpl. rewrite IH. by cbv [String.append].
Qed.

Lemma str_chars (s : string) : str (chars s) = s.
Proof. apply string_of_list_ascii_of_string. Qed.

Lemma append_empty (s : string) : s +:+ "" = s.
Proof.
  induction s as [|c s IH]; [reflexivity|].
  cbv [String.append]; fold String.append. by rewrite IH.
Qed.

(** A pattern that rejects the first character of the input does not
    match it, whatever follows the pattern. *)
Lemma firstRejects_sound (r : regex) (c : ascii) :
  firstRejects r c = true ->
  forall s k, rmatch r (c :: s) k = None.
Proof.
  induction r as [|p|a IHa b IHb|a IHa b IHb|a IHa|a IHa|];
    cbn [firstRejects]; intros H s k; try discriminate.
  - cbn [rmatch]. by destruct (p c).
  - cbn [rmatch]. by apply IHa.
  - apply andb_prop in H as [Ha Hb]. cbn [rmatch].
    by rewrite (IHa Ha), (IHb Hb).
  - reflexivity.
Qed.

End JSFacts.

(** ** Track cache *)

Module TrackCacheFacts.
Import JS Music TrackCache JSFacts.

(** A generated key is never empty and never the word that would make the
    entry key collide with the key of the index. *)
Lemma join2_shape (a b : string) (rest : list string) :
  exists r, join "::" (a :: b :: rest) = a +:+ "::" +:+ r.
Proof. simpl. eauto. Qed.

Lemma generateCacheKey_shape (t a : string) (al : option string) :
  exists x r, generateCacheKey t a al = x +:+ "::" +:+ r.
Proof.
  unfold generateCacheKey.
  destruct al as [al|]; [destruct (truthy al)|]; simpl; eauto.
Qed.

Lemma sep_not_index (x r : string) : x +:+ "::" +:+ r <> "index".
Proof.
  cbv [String.append]; fold String.append.
  do 5 (destruct x as [|? x]; [discriminate|];
        cbv [String.append]; fold String.append;
        intros H; injection H as _ H; revert H).
  destruct x; discriminate.
Qed.

Lemma generateCacheKey_not_index (t a : string) (al : option string) :
  generateCacheKey t a al <> "index".
Proof.
  destruct (generateCacheKey_shape t a al) as (x & r & ->). apply sep_not_index.
Qed.

Lemma generateCacheKey_truthy (t a : string) (al : option string) :
  truthy (generateCacheKey t a al) = true.
Proof.
  destruct (generateCacheKey_shape t a al) as (x & r & ->).
  unfold truthy. apply negb_true_iff, eqs_false, append_nonempty. discriminate.
Qed.

Lemma prefix_inj (a b : string) :
  CACHE_PREFIX +:+ a = CACHE_PREFIX +:+ b -> a = b.
Proof. apply String.app_inj. Qed.

Lemma fullKey_not_index (t a : string) (al : option string) :
  CACHE_PREFIX +:+ generateCacheKey t a al <> INDEX_KEY.
Proof.
  change INDEX_KEY with (CACHE_PREFIX +:+ "index").
  intros H%prefix_inj. by apply generateCacheKey_not_index in H.
Qed.

(** Unfolding equations of the two mutually recursive functions. *)
Lemma getIndex_S (d : nat) (ls : storage) :
  getIndex (S d) ls =
  Some
    match ls !! INDEX_KEY with
    | Some (StoredIndex index) | Some (StoredTouched index _) =>
        if version index =? CACHE_VERSION then (index, ls)
        else (emptyIndex, default ls (clearCache d ls))
    | Some (StoredTrack _) | Some StoredOther =>
        (emptyIndex, default ls (clearCache d ls))
    | Some StoredInvalid | None => (emptyIndex, ls)
    end.
Proof. reflexivity. Qed.

Lemma clearCache_S (d : nat) (ls : storage) :
  clearCache (S d) ls =
  match getIndex d ls with
  | None => None
  | Some (index, ls1) =>
      Some (delete INDEX_KEY
              (foldl (fun acc key => delete (CACHE_PREFIX +:+ key) acc)
                 ls1 (keys index)))
  end.
Proof. reflexivity. Qed.

Lemma getIndex_indexed (d : nat) (ks : list string) (ls : storage) :
  indexed ks ls ->
  getIndex (S d) ls = Some ({| keys := ks; version := CACHE_VERSION |}, ls).
Proof. intros H. rewrite getIndex_S, H. reflexivity. Qed.

Lemma getIndex_returns (d : nat) (ls : storage) :
  exists ks ls',
    getIndex (S d) ls = Some ({| keys := ks; version := CACHE_VERSION |}, ls').
Proof.
  rewrite getIndex_S.
  destruct (ls !! INDEX_KEY) as [[[ks v]| | | |[ks v] hits]|]; simpl;
    try (eexists _, _; reflexivity);
    destruct (Z.eqb_spec v CACHE_VERSION) as [->|]; eexists _, _; reflexivity.
Qed.

Lemma getIndex_mismatched_step (d : nat) (ls : storage) :
  mismatched ls ->
  getIndex (S d) ls = Some (emptyIndex, default ls (clearCache d ls)).
Proof.
  unfold mismatched. intros H. rewrite getIndex_S.
  destruct (ls !! INDEX_KEY) as [[[ks v]| | | |[ks v] hits]|]; simpl in *;
    try done;
    destruct (Z.eqb_spec v CACHE_VERSION); done.
Qed.

(** On a mismatched index the two functions descend through the whole
    stack; what comes back is the empty index, and of the storage only
    the key of the index is gone. *)
Lemma getIndex_mismatched_any (n : nat) (ls : storage) :
  mismatched ls ->
  getIndex (S n) ls =
  Some (emptyIndex, if (n <? 2)%nat then ls else delete INDEX_KEY ls).
Proof.
  intros H. induction n as [n IH] using lt_wf_ind.
  rewrite getIndex_mismatched_step by done.
  destruct n as [|[|m]]; [reflexivity|reflexivity|].
  rewrite clearCache_S, IH by lia. simpl.
  destruct (m <? 2)%nat; simpl; [reflexivity|].
  by rewrite delete_delete_eq.
Qed.

Lemma getIndex_mismatched (d : nat) (ls : storage) :
  mismatched ls ->
  getIndex (3 + d) ls = Some (emptyIndex, delete INDEX_KEY ls).
Proof. intros H. apply (getIndex_mismatched_any (2 + d) ls H). Qed.

Lemma clearCache_mismatched (d : nat) (ls : storage) :
  mismatched ls ->
  clearCache (4 + d) ls = Some (delete INDEX_KEY ls).
Proof.
  intros H. change (4 + d)%nat with (S (3 + d)).
  rewrite clearCache_S, getIndex_mismatched by done. simpl.
  by rewrite delete_delete_eq.
Qed.

Lemma indexOf_None (key : string) (ks : list string) :
  indexOf key ks = None <-> ~ In key ks.
Proof.
  induction ks as [|x ks IH]; simpl; [tauto|].
  destruct (eqs x key) eqn:E.
  - apply eqs_true in E. split; [discriminate|tauto].
  - apply eqs_false in E. rewrite fmap_None, IH. tauto.
Qed.

Lemma removeKey_notin (key : string) (ks : list string) :
  ~ In key ks -> removeKey key ks = ks.
Proof. intros H. unfold removeKey. by apply indexOf_None in H as ->. Qed.

Lemma removeKey_app (key : string) (l r : list string) :
  ~ In key l -> removeKey key (l ++ r) = l ++ removeKey key r.
Proof.
  unfold removeKey. induction l as [|x l IH]; simpl; [done|].
  intros H. destruct (eqs x key) eqn:E.
  { apply eqs_true in E. tauto. }
  assert (~ In key l) as Hl by tauto. specialize (IH Hl).
  destruct (indexOf key (l ++ r)), (indexOf key r); simpl in *; congruence.
Qed.

Lemma evictWhileFull_unfold (n : nat) (ks : list string) (ls : storage) :
  evictWhileFull (S n) ks ls =
  if (MAX_CACHE_SIZE <=? length ks)%nat
  then evictWhileFull n (removelast ks) (removeEntry (last ks) ls)
  else (ks, ls).
Proof. reflexivity. Qed.

Lemma evictWhileFull_below (n : nat) (ks : list string) (ls : storage) :
  (length ks < MAX_CACHE_SIZE)%nat -> evictWhileFull n ks ls = (ks, ls).
Proof.
  intros H. destruct n; [reflexivity|]. rewrite evictWhileFull_unfold.
  destruct (Nat.leb_spec MAX_CACHE_SIZE (length ks)); [lia|reflexivity].
Qed.

Lemma evictWhileFull_S (n : nat) (ks : list string) (ls : storage) :
  (MAX_CACHE_SIZE <= length ks)%nat ->
  evictWhileFull (S n) ks ls =
  evictWhileFull n (removelast ks) (removeEntry (last ks) ls).
Proof.
  intros H. rewrite evictWhileFull_unfold.
  destruct (Nat.leb_spec MAX_CACHE_SIZE (length ks)); [reflexivity|lia].
Qed.

Lemma length_removelast (ks : list string) :
  length (removelast ks) = pred (length ks).
Proof.
  destruct ks as [|k ks]; [reflexivity|].
  rewrite removelast_firstn_len, length_firstn. lia.
Qed.

Lemma evictWhileFull_keys (n : nat) (ks : list string) (ls : storage) :
  (length ks <= n)%nat -> (evictWhileFull n ks ls).1 = firstn 149 ks.
Proof.
  revert ks ls. induction n as [|n IH]; intros ks ls H.
  { destruct ks; [reflexivity|simpl in H; lia]. }
  destruct (Nat.le_gt_cases MAX_CACHE_SIZE (length ks)) as [Hfull|Hroom].
  - rewrite evictWhileFull_S, IH by (try rewrite length_removelast; lia).
    rewrite removelast_firstn_len, firstn_firstn. f_equal.
    unfold MAX_CACHE_SIZE in Hfull. lia.
  - rewrite evictWhileFull_below by done. simpl.
    symmetry. apply firstn_all2. unfold MAX_CACHE_SIZE in Hroom. lia.
Qed.

Lemma evictWhileFull_exact (ks : list string) (ls : storage) :
  length ks = MAX_CACHE_SIZE ->
  evictWhileFull (length ks) ks ls = (removelast ks, removeEntry (last ks) ls).
Proof.
  intros H. rewrite H. unfold MAX_CACHE_SIZE at 1.
  rewrite evictWhileFull_S by lia.
  apply evictWhileFull_below. rewrite length_removelast, H.
  unfold MAX_CACHE_SIZE. lia.
Qed.

Section Unbounded.

Variable fits : storage -> bool.
Hypothesis Hfits : forall ls, fits ls = true.

Lemma setItem_ok (k : string) (v : stored) (ls : storage) :
  setItem fits k v ls = Some (<[k:=v]> ls).
Proof. unfold setItem. by rewrite Hfits. Qed.

Lemma saveIndex_ok (index : CacheIndex) (ls : storage) :
  saveIndex fits index ls = <[INDEX_KEY:=StoredIndex index]> ls.
Proof. unfold saveIndex. by rewrite setItem_ok. Qed.

Lemma setCachedTrack_step (d : nat) (now : Z) (t a : string)
    (al : option string) (ents : list MusicEntity) (rels : list Relationship)
    (ls ls1 : storage) (ks : list string) :
  ents <> [] ->
  getIndex (S d) ls = Some ({| keys := ks; version := CACHE_VERSION |}, ls1) ->
  let key := generateCacheKey t a al in
  let ev := evictWhileFull (length (removeKey key ks)) (removeKey key ks) ls1 in
  setCachedTrack fits (S (S d)) now t a al ents rels ls =
  Some (<[CACHE_PREFIX +:+ key := StoredTrack (newEntry now ents rels)]>
          (<[INDEX_KEY :=
               StoredIndex {| keys := key :: ev.1; version := CACHE_VERSION |}]>
             ev.2)).
Proof.
  intros Hne Hidx key ev. unfold setCachedTrack.
  destruct ents as [|e ents]; [done|]. rewrite Hidx. cbn [keys version].
  fold key. fold ev. destruct ev as [ks2 ls2].
  by rewrite saveIndex_ok, setItem_ok.
Qed.

Lemma setCachedTrack_indexed (d : nat) (now : Z) (t a : string)
    (al : option string) (ents : list MusicEntity) (rels : list Relationship)
    (ls ls1 : storage) (ks : list string) :
  ents <> [] ->
  getIndex (S d) ls = Some ({| keys := ks; version := CACHE_VERSION |}, ls1) ->
  exists ls',
    setCachedTrack fits (S (S d)) now t a al ents rels ls = Some ls' /\
    indexed (putKeys (generateCacheKey t a al) ks) ls'.
Proof.
  intros Hne Hidx. eexists. split; [by apply setCachedTrack_step|].
  unfold indexed, putKeys.
  rewrite lookup_insert_ne by apply fullKey_not_index.
  rewrite lookup_insert_eq, evictWhileFull_keys by done. reflexivity.
Qed.

Lemma putAll_app (d : nat) (ps qs : list put) (ls : storage) :
  putAll fits d (ps ++ qs) ls =
  match putAll fits d ps ls with
  | Some ls' => putAll fits d qs ls'
  | None => None
  end.
Proof.
  revert ls. induction ps as [|p ps IH]; intros ls; simpl; [done|].
  destruct (setCachedTrack _ _ _ _ _ _ _ _ _); [apply IH|done].
Qed.

Lemma putAll_indexed (d : nat) (ps : list put) (ls : storage)
    (ks : list string) :
  indexed ks ls ->
  Forall (fun p => p_entities p <> []) ps ->
  exists ls', putAll fits (2 + d) ps ls = Some ls' /\
              indexed (keysAfter ks ps) ls'.
Proof.
  revert ls ks. induction ps as [|p ps IH]; intros ls ks Hidx Hall.
  { by exists ls. }
  inversion Hall as [|? ? Hp Hps]; subst.
  destruct (setCachedTrack_indexed d (p_now p) (p_track p) (p_artist p)
              (p_album p) (p_entities p) (p_relationships p) ls ls ks)
    as (ls1 & Hput & Hidx1); [done|by apply getIndex_indexed|].
  destruct (IH ls1 _ Hidx1 Hps) as (ls' & Hrest & Hidx').
  exists ls'. split; [|done]. simpl putAll. simpl in Hput. by rewrite Hput.
Qed.

Lemma putAll_from_any (d : nat) (ps : list put) (ls : storage) :
  ps <> [] ->
  Forall (fun p => p_entities p <> []) ps ->
  exists ks0 ls', putAll fits (2 + d) ps ls = Some ls' /\
                  indexed (keysAfter ks0 ps) ls'.
Proof.
  destruct ps as [|p ps]; [done|]. intros _ Hall.
  inversion Hall as [|? ? Hp Hps]; subst.
  destruct (getIndex_returns d ls) as (ks0 & ls0 & Hget).
  destruct (setCachedTrack_indexed d (p_now p) (p_track p) (p_artist p)
              (p_album p) (p_entities p) (p_relationships p) ls ls0 ks0)
    as (ls1 & Hput & Hidx1); [done..|].
  destruct (putAll_indexed d ps ls1 _ Hidx1 Hps) as (ls' & Hrest & Hidx').
  exists ks0, ls'. split; [|done]. simpl putAll. simpl in Hput. by rewrite Hput.
Qed.

End Unbounded.

(** The keys after a run of puts with distinct keys: the keys put, most
    recent first, then what is left of the older ones. *)
Lemma length_putKeys (key : string) (ks : list string) :
  (length (putKeys key ks) <= 150)%nat.
Proof. unfold putKeys. simpl. rewrite length_firstn. lia. Qed.

Lemma keysAfter_distinct (ks0 : list string) (ps : list put) :
  NoDup (map putKey ps) ->
  (length ps <= 150)%nat ->
  exists rest,
    keysAfter ks0 ps = rev (map putKey ps) ++ rest /\
    (ps <> [] -> (length (keysAfter ks0 ps) <= 150)%nat).
Proof.
  induction ps as [|p ps IH] using rev_ind; intros Hnd Hlen.
  { exists ks0. split; [reflexivity|done]. }
  rewrite map_app in Hnd. simpl in Hnd.
  apply NoDup_app in Hnd as (Hnd & Hp & _).
  rewrite length_app in Hlen. simpl in Hlen.
  destruct IH as (rest & Heq & _); [done|lia|].
  unfold keysAfter in *. rewrite foldl_app. simpl. rewrite Heq.
  assert (~ In (putKey p) (rev (map putKey ps))) as Hnotin.
  { rewrite <- in_rev. intros Hin%list_elem_of_In.
    eapply Hp; [done|]. apply list_elem_of_singleton. reflexivity. }
  eexists. split; [|intros _; apply length_putKeys].
  unfold putKeys. rewrite removeKey_app by done.
  rewrite firstn_app, length_rev, length_map.
  rewrite (firstn_all2 (rev _)) by (rewrite length_rev, length_map; lia).
  rewrite map_app, rev_app_distr. simpl. reflexivity.
Qed.

Section AtCapacity.

Variable fits : storage -> bool.
Hypothesis Hfits : forall ls, fits ls = true.

Lemma setCachedTrack_at_capacity (d : nat) (p old : put) (ls : storage)
    (ks : list string) :
  p_entities p <> [] ->
  indexed ks ls ->
  length ks = MAX_CACHE_SIZE ->
  ~ In (putKey p) ks ->
  last ks = Some (putKey old) ->
  exists ls',
    setCachedTrack fits (2 + d) (p_now p) (p_track p) (p_artist p) (p_album p)
      (p_entities p) (p_relationships p) ls = Some ls' /\
    indexed (putKey p :: removelast ks) ls' /\
    ls' !! (CACHE_PREFIX +:+ putKey old) = None /\
    ls' !! (CACHE_PREFIX +:+ putKey p) =
      Some (StoredTrack (newEntry (p_now p) (p_entities p) (p_relationships p))).
Proof.
  intros Hents Hidx Hfull Hnew Hold.
  pose proof (setCachedTrack_step fits Hfits d (p_now p) (p_track p)
                (p_artist p) (p_album p) (p_entities p) (p_relationships p)
                ls ls ks Hents (getIndex_indexed d ks ls Hidx)) as Hstep.
  cbv zeta in Hstep. fold (putKey p) in Hstep.
  rewrite removeKey_notin, evictWhileFull_exact in Hstep by done.
  assert (removeEntry (Some (putKey old)) ls =
          delete (CACHE_PREFIX +:+ putKey old) ls) as Hrm.
  { unfold removeEntry, putKey. by rewrite generateCacheKey_truthy. }
  rewrite Hold, Hrm in Hstep. cbn [fst snd] in Hstep.
  eexists. split; [exact Hstep|].
  assert (putKey old <> putKey p) as Hne.
  { intros Heq. apply Hnew. rewrite <- Heq.
    apply list_elem_of_In, last_Some_elem_of. done. }
  split; [|split].
  - unfold indexed. rewrite lookup_insert_ne by apply fullKey_not_index.
    by rewrite lookup_insert_eq.
  - rewrite lookup_insert_ne by (intros H%prefix_inj; congruence).
    rewrite lookup_insert_ne
      by (intros H; symmetry in H; revert H; apply fullKey_not_index).
    apply lookup_delete_eq.
  - apply lookup_insert_eq.
Qed.

Lemma getCacheStats_indexed (d : nat) (ks : list string) (ls : storage) :
  indexed ks ls ->
  exists stats,
    getCacheStats (2 + d) ls = Some (stats, ls) /\
    trackCount stats = length ks.
Proof.
  intros Hidx. change (2 + d)%nat with (S (S d)).
  unfold getCacheStats. cbv iota beta.
  rewrite (getIndex_indexed d ks ls Hidx). cbn [keys].
  destruct (foldl _ _ _) as [[oldest newest] hits]. eauto.
Qed.

Lemma putAll_151 (d : nat) (ps : list put) (first : put) (ls0 : storage) :
  head ps = Some first ->
  length ps = 151%nat ->
  Forall (fun p => p_entities p <> []) ps ->
  NoDup (map putKey ps) ->
  exists ls' stats ks',
    putAll fits (2 + d) ps ls0 = Some ls' /\
    getCacheStats (2 + d) ls' = Some (stats, ls') /\
    trackCount stats = 150%nat /\
    indexed ks' ls' /\
    ~ In (putKey first) ks' /\
    ls' !! (CACHE_PREFIX +:+ putKey first) = None.
Proof.
  intros Hhead Hlen Hall Hnd.
  destruct (exists_last (l:=ps)) as (l & q & ->); [by destruct ps|].
  rewrite length_app in Hlen. simpl in Hlen.
  destruct l as [|f l]; [simpl in Hlen; lia|].
  simpl in Hhead. injection Hhead as ->.
  apply Forall_app in Hall as [Hl Hq].
  rewrite map_app in Hnd. apply NoDup_app in Hnd as (Hndl & Hsep & _).
  destruct (putAll_from_any fits Hfits d (first :: l) ls0)
    as (ks0 & ls1 & Hput1 & Hidx1); [done..|].
  destruct (keysAfter_distinct ks0 (first :: l)) as (rest & Hkeys & Hcap);
    [done|lia|].
  assert (rest = []) as ->.
  { specialize (Hcap ltac:(done)). rewrite Hkeys in Hcap.
    rewrite length_app, length_rev, length_map in Hcap.
    destruct rest; [done|]. simpl in Hcap, Hlen. lia. }
  rewrite app_nil_r in Hkeys. rewrite Hkeys in Hidx1.
  simpl map in Hidx1. simpl rev in Hidx1.
  set (K := rev (map putKey l) ++ [putKey first]) in *.
  destruct (setCachedTrack_at_capacity d q first ls1 K)
    as (ls' & Hput & Hidx' & Hgone & _).
  - by inversion Hq.
  - done.
  - unfold K. rewrite length_app, length_rev, length_map. simpl.
    unfold MAX_CACHE_SIZE. simpl in Hlen. lia.
  - intros Hin. eapply Hsep; [|apply list_elem_of_here].
    apply list_elem_of_In. unfold K in Hin. simpl.
    apply in_app_or in Hin as [Hin|[Hin|[]]].
    + right. by apply in_rev.
    + by left.
  - unfold K. apply last_snoc.
  - destruct (getCacheStats_indexed d _ ls' Hidx') as (stats & Hstats & Hcount).
    exists ls', stats, (putKey q :: removelast K).
    split; [|split; [done|split; [|split; [done|split; [|done]]]]].
    + rewrite putAll_app, Hput1. simpl putAll. simpl in Hput. by rewrite Hput.
    + rewrite Hcount. simpl. unfold K.
      rewrite removelast_last, length_rev, length_map. simpl in Hlen. lia.
    + unfold K. rewrite removelast_last. simpl. intros [Heq|Hin].
      * eapply Hsep; [apply list_elem_of_here|].
        simpl. rewrite Heq. apply list_elem_of_here.
      * apply in_rev in Hin. simpl in Hndl. apply NoDup_cons in Hndl as [Hf _].
        by apply list_elem_of_In in Hin.
Qed.

End AtCapacity.

(** C6. [setCachedTrack] leaves the cache as it is when the subgraph has
    no entity.  When writes succeed and the index holds 150 keys, a put
    with a new key removes the last key of the index together with the
    entry stored for it, and stores the index with the new key in front
    and the new entry.  After 151 puts with distinct keys, whatever the
    storage was before, [getCacheStats] counts 150 tracks and the first
    key is in neither the index nor the storage. *)
Theorem setCachedTrack_refuses_empty_and_evicts_lru
    (fits : storage -> bool) (d : nat)
    (p old : put) (ls : storage) (ks : list string)
    (ps : list put) (first : put) (ls0 : storage)
    (Hfits : forall s, fits s = true)
    (Hents : p_entities p <> [])
    (Hidx : indexed ks ls)
    (Hfull : length ks = MAX_CACHE_SIZE)
    (Hnew : ~ In (putKey p) ks)
    (Hold : last ks = Some (putKey old))
    (Hfirst : head ps = Some first)
    (Hlen : length ps = 151%nat)
    (Hall : Forall (fun q => p_entities q <> []) ps)
    (Hnd : NoDup (map putKey ps)) :
  (forall now t a al rels s,
      setCachedTrack fits (1 + d) now t a al [] rels s = Some s) /\
  (exists ls',
      setCachedTrack fits (2 + d) (p_now p) (p_track p) (p_artist p)
        (p_album p) (p_entities p) (p_relationships p) ls = Some ls' /\
      indexed (putKey p :: removelast ks) ls' /\
      ls' !! (CACHE_PREFIX +:+ putKey old) = None /\
      ls' !! (CACHE_PREFIX +:+ putKey p) =
        Some (StoredTrack
                (newEntry (p_now p) (p_entities p) (p_relationships p)))) /\
  (exists ls' stats ks',
      putAll fits (2 + d) ps ls0 = Some ls' /\
      getCacheStats (2 + d) ls' = Some (stats, ls') /\
      trackCount stats = 150%nat /\
      indexed ks' ls' /\
      ~ In (putKey first) ks' /\
      ls' !! (CACHE_PREFIX +:+ putKey first) = None).
Proof.
  split; [reflexivity|split].
  - by apply setCachedTrack_at_capacity.
  - by apply putAll_151.
Qed.

Lemma setCachedTrack_refuses_empty_and_evicts_lru_witness :
  (forall now t a al rels s,
      setCachedTrack (fun _ => true) 1 now t a al [] rels s = Some s) /\
  (exists ls',
      setCachedTrack (fun _ => true) 2 150 "ttttttt" "aaaaaaaaaa" None
        [sampleEntity] [] fullStorage = Some ls' /\
      indexed (putKey (samplePut 150) :: removelast fullKeys) ls' /\
      ls' !! (CACHE_PREFIX +:+ putKey (samplePut 0)) = None /\
      ls' !! (CACHE_PREFIX +:+ putKey (samplePut 150)) =
        Some (StoredTrack (newEntry 150 [sampleEntity] []))) /\
  (exists ls' stats ks',
      putAll (fun _ => true) 2 samplePuts staleStorage = Some ls' /\
      getCacheStats 2 ls' = Some (stats, ls') /\
      trackCount stats = 150%nat /\
      indexed ks' ls' /\
      ~ In (putKey (samplePut 0)) ks' /\
      ls' !! (CACHE_PREFIX +:+ putKey (samplePut 0)) = None).
Proof.
  apply (setCachedTrack_refuses_empty_and_evicts_lru (fun _ => true) 0
           (samplePut 150) (samplePut 0) fullStorage fullKeys
           samplePuts (samplePut 0) staleStorage).
  - reflexivity.
  - discriminate.
  - apply lookup_insert_eq.
  - vm_compute. reflexivity.
  - apply has_false. vm_compute. reflexivity.
  - vm_compute. reflexivity.
  - reflexivity.
  - vm_compute. reflexivity.
  - apply Forall_forall. intros q Hq%list_elem_of_In%in_map_iff.
    destruct Hq as (n & <- & _). discriminate.
  - apply distinct_NoDup. vm_compute. reflexivity.
Defined.

(** C7 (the code at a stored index of version 0 that names one entry).
    For every bound on the call stack, [getIndex] answers the empty
    index and [clearCache] completes; of the storage only the key of the
    index is removed, and the entry the index named stays stored. *)
Theorem getIndex_version_mismatch_keeps_entries (d : nat) :
  mismatched staleStorage /\
  getIndex (3 + d) staleStorage =
    Some (emptyIndex, delete INDEX_KEY staleStorage) /\
  clearCache (4 + d) staleStorage = Some (delete INDEX_KEY staleStorage) /\
  delete INDEX_KEY staleStorage !! (CACHE_PREFIX +:+ "artist::song") =
    Some (StoredTrack (newEntry 1000 [sampleEntity] [])).
Proof.
  assert (mismatched staleStorage) as H by (vm_compute; discriminate).
  split; [done|split; [|split]].
  - by apply getIndex_mismatched.
  - by apply clearCache_mismatched.
  - vm_compute. reflexivity.
Qed.

End TrackCacheFacts.

(** ** Outbound calls *)

Module NetFacts.
Import Net.

Lemma throttle_after_backoff (t : Z) :
  throttle (t + rateLimitBackoff) t = t + rateLimitBackoff.
Proof.
  unfold throttle, rateLimitBackoff, minInterval.
  destruct (Z.ltb_spec (t + 60000 - t) 1100); [lia|reflexivity].
Qed.

(** Times of the requests of a call that is answered 429 [n] times: one
    every [rateLimitBackoff] milliseconds from the first. *)
Lemma retry_times_shift (q : request) (t : Z) (n : nat) :
  map (fun i => (t + rateLimitBackoff * Z.of_nat i, q)) (seq 1 n) =
  map (fun i => (t + rateLimitBackoff + rateLimitBackoff * Z.of_nat i, q))
      (seq 0 n).
Proof.
  rewrite <- seq_shift, map_map. apply map_ext. intros i. f_equal. lia.
Qed.

Lemma fetchDiscogsFrom_rate_limited {T : Type} (q : request) (bs : list T)
    (r : reply T) (rest : list (reply T)) (c l : Z)
    (sent0 : list (Z * request)) :
  status r <> 429 ->
  let t0 := throttle c l in
  let tn := t0 + rateLimitBackoff * Z.of_nat (length bs) in
  fetchDiscogsFrom q (map (mkReply 429) bs ++ r :: rest) c l sent0 =
  (if ok r then Returned (body r) else Thrown (status r),
   mkSource tn tn rest
     (sent0 ++ map (fun i => (t0 + rateLimitBackoff * Z.of_nat i, q))
                   (seq 0 (S (length bs))))).
Proof.
  intros Hr. revert c l sent0.
  induction bs as [|b bs IH]; intros c l sent0; cbv zeta.
  - simpl. apply Z.eqb_neq in Hr. rewrite Hr, !Z.add_0_r.
    by destruct (ok r).
  - cbn [map app fetchDiscogsFrom]. change (ok (mkReply 429 b)) with false.
    cbn [status]. change (429 =? 429) with true. cbv iota.
    rewrite IH. cbv zeta. rewrite throttle_after_backoff.
    f_equal. f_equal; [| |rewrite <- app_assoc; f_equal; cbn [length];
      change (seq 0 (S (S (length bs)))) with (0%nat :: seq 1 (S (length bs)));
      cbn [map app]; rewrite retry_times_shift; f_equal; f_equal; f_equal; lia];
    cbn [length]; lia.
Qed.

Lemma fetchDiscogsFrom_only_429 {T : Type} (q : request) (bs : list T)
    (c l : Z) (sent0 : list (Z * request)) :
  exists s',
    fetchDiscogsFrom q (map (mkReply 429) bs) c l sent0 = (Waiting, s') /\
    length (sent s') = (length sent0 + S (length bs))%nat.
Proof.
  revert c l sent0. induction bs as [|b bs IH]; intros c l sent0.
  - eexists. split; [reflexivity|]. simpl. rewrite length_app. simpl. lia.
  - cbn [map fetchDiscogsFrom]. change (ok (mkReply 429 b)) with false.
    cbn [status]. change (429 =? 429) with true. cbv iota.
    destruct (IH (throttle c l + rateLimitBackoff) (throttle c l)
                (sent0 ++ [(throttle c l, q)])) as (s' & -> & Hlen).
    exists s'. split; [reflexivity|].
    rewrite Hlen, length_app. simpl. lia.
Qed.

(** C8 (as amended).  [fetchMB] sends one request and never retries: an
    answer that is not OK, 429 included, is thrown at once.
    [fetchDiscogs] answers every 429 with a wait of [rateLimitBackoff]
    and one more request, however many 429 come: the call ends with the
    first answer that is not 429, returned when OK and thrown otherwise,
    and while only 429 comes it does not end. *)
Theorem fetch_rate_limit_policy {T : Type} (q : request)
    (c l : Z) (sent0 : list (Z * request))
    (first : reply T) (later : list (reply T))
    (bs : list T) (r : reply T) (rest : list (reply T))
    (Hr : status r <> 429) :
  let t0 := throttle c l in
  let tn := t0 + rateLimitBackoff * Z.of_nat (length bs) in
  fetchMB q (mkSource c l (first :: later) sent0) =
    (if ok first then Returned (body first) else Thrown (status first),
     mkSource t0 t0 later (sent0 ++ [(t0, q)])) /\
  fetchDiscogs q (mkSource c l (map (mkReply 429) bs ++ r :: rest) sent0) =
    (if ok r then Returned (body r) else Thrown (status r),
     mkSource tn tn rest
       (sent0 ++ map (fun i => (t0 + rateLimitBackoff * Z.of_nat i, q))
                     (seq 0 (S (length bs))))) /\
  (exists s',
      fetchDiscogs q (mkSource c l (map (mkReply 429) bs) sent0) =
        (Waiting, s') /\
      length (sent s') = (length sent0 + S (length bs))%nat).
Proof.
  cbv zeta. split; [|split].
  - unfold fetchMB. cbn [upstream clock lastRequestTime sent].
    by destruct (ok first).
  - unfold fetchDiscogs. cbn [upstream clock lastRequestTime sent].
    by apply fetchDiscogsFrom_rate_limited.
  - unfold fetchDiscogs. cbn [upstream clock lastRequestTime sent].
    apply fetchDiscogsFrom_only_429.
Qed.

Lemma fetch_rate_limit_policy_witness :
  fetchMB sampleRequest
    (mkSource 5000 0 [mkReply 429 "slow down"; mkReply 200 "{}"] []) =
    (Thrown 429,
     mkSource 5000 5000 [mkReply 200 "{}"] [(5000, sampleRequest)]) /\
  fetchDiscogs sampleRequest
    (mkSource 5000 0
       (map (mkReply 429) ["a"; "b"; "c"] ++ [mkReply 200 "{}"]) []) =
    (Returned "{}",
     mkSource 185000 185000 []
       [(5000, sampleRequest); (65000, sampleRequest);
        (125000, sampleRequest); (185000, sampleRequest)]) /\
  (exists s',
      fetchDiscogs sampleRequest
        (mkSource 5000 0 (map (mkReply 429) ["a"; "b"; "c"]) []) =
        (Waiting, s') /\
      length (sent s') = 4%nat).
Proof.
  apply (fetch_rate_limit_policy sampleRequest 5000 0 []
           (mkReply 429 "slow down")
           [mkReply 200 "{}"] ["a"; "b"; "c"] (mkReply 200 "{}") []).
  simpl. lia.
Defined.

(** C8 (as stated) fails for both sources: on the answers 429, 429, 200
    [fetchDiscogs] sends a third request, and [fetchMB] sends no second
    one. *)
Lemma fetch_not_retried_exactly_once :
  ~ retriedOnceThenPropagated (@fetchDiscogs string) /\
  ~ retriedOnceThenPropagated (@fetchMB string).
Proof.
  split; intros H;
    specialize (H sampleRequest 0 0 "" (mkReply 429 "") [mkReply 200 "{}"]);
    cbv zeta in H; destruct H as [H _]; vm_compute in H; discriminate.
Qed.

End NetFacts.

(** ** Discogs credits *)

Module DiscogsFacts.
Import JS Music Discogs JSFacts.

Lemma addCredit_relationships (trackId : string) (artists : list DiscogsArtist)
    (st : credits) :
  c_relationships (foldl (addCredit trackId) st artists) =
  c_relationships st ++ map (creditRelationship trackId) artists.
Proof.
  revert st. induction artists as [|a artists IH]; intros st; simpl.
  - by rewrite app_nil_r.
  - rewrite IH. simpl. by rewrite <- app_assoc.
Qed.

Lemma addReleaseCredit_relationships (trackId : string)
    (mt : option DiscogsTrack) (artists : list DiscogsArtist) (st : credits) :
  c_relationships (foldl (addReleaseCredit trackId mt) st artists) =
  c_relationships st ++
  map (creditRelationship trackId)
      (List.filter (fun a => negb (skipsCredit mt a)) artists).
Proof.
  revert st. induction artists as [|a artists IH]; intros st; simpl.
  - by rewrite app_nil_r.
  - rewrite IH. unfold addReleaseCredit.
    destruct (skipsCredit mt a); simpl; [done|]. by rewrite <- app_assoc.
Qed.

Lemma skipsCredit_true (mt : option DiscogsTrack) (a : DiscogsArtist) :
  skipsCredit mt a = true <->
  exists tracks t,
    a_tracks a = Some tracks /\ tracks <> "" /\ mt = Some t /\
    ~ In (t_position t) (trackPositions tracks) /\
    ~ In "" (trackPositions tracks).
Proof.
  unfold skipsCredit. split.
  - destruct (a_tracks a) as [tracks|]; [|done].
    destruct mt as [t|]; [|done].
    rewrite !andb_true_iff, !negb_true_iff.
    intros (Ht & Hp & He). exists tracks, t.
    split; [done|split; [|split; [done|split]]].
    + unfold truthy in Ht. by apply negb_true_iff, eqs_false in Ht.
    + by apply has_false.
    + by apply has_false.
  - intros (tracks & t & -> & Hne & -> & Hp & He).
    rewrite !andb_true_iff, !negb_true_iff. split; [|split].
    + unfold truthy. by apply negb_true_iff, eqs_false.
    + by apply has_false.
    + by apply has_false.
Qed.

Lemma getTrackCredits_relationships (trackName : string)
    (existing : option string) (release : DiscogsRelease) :
  let mt := findMatchingTrack trackName (rl_tracklist release) in
  relationships (getTrackCredits true trackName existing (Some release)) =
  map (creditRelationship (trackIdFor existing release))
      (trackArtists mt ++
       List.filter (fun a => negb (skipsCredit mt a))
         (default [] (rl_extraartists release))).
Proof.
  cbv zeta. unfold getTrackCredits. cbn [negb relationships].
  set (mt := findMatchingTrack trackName (rl_tracklist release)).
  set (tid := trackIdFor existing release).
  rewrite map_app.
  assert (c_relationships
            match mt with
            | Some t =>
                match t_extraartists t with
                | Some artists => foldl (addCredit tid) (mkState [] [] []) artists
                | None => mkState [] [] []
                end
            | None => mkState [] [] []
            end = map (creditRelationship tid) (trackArtists mt)) as Htrack.
  { destruct mt as [t|]; [|done]. simpl.
    destruct (t_extraartists t); [|done]. by rewrite addCredit_relationships. }
  destruct (rl_extraartists release) as [artists|]; simpl.
  - by rewrite addReleaseCredit_relationships, Htrack.
  - by rewrite Htrack, app_nil_r.
Qed.

(** C9 (as amended).  The relationships [getTrackCredits] returns are
    those of the credits of the matching track followed by those of the
    release-level credits that are not skipped.  A release-level credit
    is skipped exactly when it names tracks, a matching track was found
    in the tracklist, the position of that track is not among the listed
    positions, and no listed position is empty; a credit that names no
    tracks is never skipped.  When every release-level credit is scoped
    to positions other than that of the matching track, none of them is
    in the result. *)
Theorem release_credit_scope (trackName : string) (existing : option string)
    (release : DiscogsRelease) (credits : list DiscogsArtist)
    (Hext : rl_extraartists release = Some credits) :
  let mt := findMatchingTrack trackName (rl_tracklist release) in
  let tid := trackIdFor existing release in
  let rels :=
    relationships (getTrackCredits true trackName existing (Some release)) in
  rels = map (creditRelationship tid)
           (trackArtists mt ++
            List.filter (fun a => negb (skipsCredit mt a)) credits) /\
  (forall a,
      skipsCredit mt a = true <->
      exists tracks t,
        a_tracks a = Some tracks /\ tracks <> "" /\ mt = Some t /\
        ~ In (t_position t) (trackPositions tracks) /\
        ~ In "" (trackPositions tracks)) /\
  (forall a,
      In a credits -> a_tracks a = None \/ a_tracks a = Some "" ->
      In (creditRelationship tid a) rels) /\
  (forall t,
      mt = Some t ->
      Forall (fun a => exists tracks,
                  a_tracks a = Some tracks /\ tracks <> "" /\
                  ~ In (t_position t) (trackPositions tracks) /\
                  ~ In "" (trackPositions tracks)) credits ->
      rels = map (creditRelationship tid) (trackArtists mt)).
Proof.
  cbv zeta.
  pose proof (getTrackCredits_relationships trackName existing release) as Hrels.
  cbv zeta in Hrels. rewrite Hext in Hrels. simpl default in Hrels.
  split; [done|split; [intros a; apply skipsCredit_true|split]].
  - intros a Hin Hun. rewrite Hrels. apply in_map, in_or_app. right.
    apply filter_In. split; [done|]. apply negb_true_iff.
    unfold skipsCredit. destruct Hun as [-> | ->]; [done|].
    by destruct (findMatchingTrack _ _).
  - intros t Hmt Hall. rewrite Hrels. f_equal.
    rewrite <- (app_nil_r (trackArtists _)) at 2. f_equal.
    clear Hext Hrels. induction Hall as [|a l (tracks & Ha & Hne & Hp & He) _ IH]; [done|].
    simpl.
    assert (skipsCredit (findMatchingTrack trackName (rl_tracklist release)) a
            = true) as Hskip.
    { apply skipsCredit_true. exists tracks, t. done. }
    rewrite Hskip. simpl. exact IH.
Qed.

Lemma release_credit_scope_witness :
  rl_extraartists (sampleRelease [engineerOn2]) = Some [engineerOn2] /\
  findMatchingTrack "Here I Am" (rl_tracklist (sampleRelease [engineerOn2])) =
    Some (mkTrack "5" "Here I Am" None) /\
  a_tracks engineerOn2 = Some "2" /\
  relationships
    (getTrackCredits true "Here I Am" (Some "track-r1")
       (Some (sampleRelease [engineerOn2]))) = [].
Proof.
  split; [reflexivity|split; [reflexivity|split; [reflexivity|]]].
  destruct (release_credit_scope "Here I Am" (Some "track-r1")
              (sampleRelease [engineerOn2]) [engineerOn2] eq_refl)
    as (_ & _ & _ & H).
  apply (H (mkTrack "5" "Here I Am" None)); [reflexivity|].
  constructor; [|constructor]. exists "2".
  split; [reflexivity|split; [discriminate|]].
  split; apply has_false; reflexivity.
Defined.

(** C9 (as stated) fails on two inputs.  The current track is at position
    5 and the credit lists the positions "2" and "": the position is not
    listed, and the credit is in the result.  The current track is not in
    the tracklist at all: a credit scoped to track 2 is in the result. *)
Lemma scoped_credit_kept_off_position :
  (findMatchingTrack "Here I Am" (rl_tracklist (sampleRelease [engineerOn2Comma])) =
     Some (mkTrack "5" "Here I Am" None) /\
   specIncludesCredit "5" engineerOn2Comma = false /\
   In (creditRelationship "track-r1" engineerOn2Comma)
      (relationships
         (getTrackCredits true "Here I Am" (Some "track-r1")
            (Some (sampleRelease [engineerOn2Comma]))))) /\
  (findMatchingTrack "Missing" (rl_tracklist (sampleRelease [engineerOn2])) = None /\
   (forall position, position <> "2" ->
      specIncludesCredit position engineerOn2 = false) /\
   In (creditRelationship "track-r1" engineerOn2)
      (relationships
         (getTrackCredits true "Missing" (Some "track-r1")
            (Some (sampleRelease [engineerOn2]))))).
Proof.
  split; (split; [vm_compute; reflexivity|split; [|vm_compute; tauto]]).
  - vm_compute. reflexivity.
  - intros position Hp. unfold specIncludesCredit.
    change (a_tracks engineerOn2) with (Some "2").
    change (truthy "2") with true. cbv iota. apply has_false.
    change (trackPositions "2") with ["2"]. intros [H|[]]. congruence.
Qed.

End DiscogsFacts.

(** ** MusicBrainz: search and matching *)

Module MatchingFacts.
Import JS Music MusicBrainz JSFacts.

(** *** Titles that [cleanTrackName] leaves alone

    None of the patterns of [cleanTrackName] matches at a position inside
    a plain title: each starts with [\s*] or [\s+] and then needs a
    bracket, a dash or an f, and what follows the dash or the f in the
    title stops it.  So whatever follows a plain title is cleaned on its
    own, and the title is kept. *)

Lemma keptChar_not_space (c : ascii) (next : option ascii) :
  keptChar c next = true -> isSpace c = false.
Proof.
  unfold keptChar. intros H. apply andb_prop in H as [H _].
  apply andb_prop in H as [H _]. by apply negb_true_iff in H.
Qed.

Lemma keptChar_known (c : ascii) (next : option ascii) :
  keptChar c None = true -> keptChar c next = true.
Proof.
  unfold keptChar. destruct (negb _ && negb _)%bool; [|done]. cbn [andb].
  destruct (eqChar c "-"); [done|].
  by destruct (eqChar (foldChar c) "f").
Qed.

Lemma guarded_tail (c : ascii) (l : list ascii) :
  guarded (c :: l) = true -> guarded l = true.
Proof. cbn [guarded]. intros H. by apply andb_prop in H as [_ H]. Qed.

Lemma guarded_after_space (c : ascii) (l : list ascii) :
  guarded (c :: l) = true -> isSpace c = true -> l <> [].
Proof.
  cbn [guarded]. intros H Hc. apply andb_prop in H as [H _].
  rewrite Hc in H. by destruct l.
Qed.

Lemma guarded_blocked (l rest : list ascii) :
  guarded l = true -> l <> [] -> blockedAt (l ++ rest) = true.
Proof.
  destruct l as [|c l]; [done|]. intros H _. cbn [guarded] in H.
  apply andb_prop in H as [H _]. cbn [app blockedAt].
  destruct (isSpace c); [reflexivity|]. cbn [orb].
  destruct l as [|d l]; [|exact H]. by apply keptChar_known.
Qed.

Lemma star_space_rejects (k : list ascii -> option (list ascii)) :
  (forall s, blockedAt s = true -> k s = None) ->
  forall n l rest,
    guarded l = true -> l <> [] ->
    greedyLoop (rmatch space) k n (l ++ rest) = None.
Proof.
  intros Hk n. induction n as [|n IH]; intros l rest Hl Hne.
  - cbn [greedyLoop]. by apply Hk, guarded_blocked.
  - cbn [greedyLoop]. rewrite (Hk (l ++ rest)) by by apply guarded_blocked.
    destruct l as [|c l]; [done|]. cbn [app].
    unfold space at 1. cbn [rmatch].
    destruct (isSpace c) eqn:Hc; [|reflexivity].
    destruct (_ <? _)%nat; [|reflexivity].
    rewrite IH; [reflexivity|by apply guarded_tail in Hl|].
    by apply (guarded_after_space c).
Qed.

Lemma star_prefix_rejects (R R2 : regex) :
  R = Cat (Star space) R2 ->
  (forall s k, blockedAt s = true -> rmatch R2 s k = None) ->
  forall l rest k,
    guarded l = true -> l <> [] -> rmatch R (l ++ rest) k = None.
Proof.
  intros -> H2 l rest k Hl Hne. cbn [rmatch].
  apply star_space_rejects; [|done|done].
  intros s Hs. by apply H2.
Qed.

Lemma plus_prefix_rejects (R R2 : regex) :
  R = Cat (plus space) R2 ->
  (forall s k, blockedAt s = true -> rmatch R2 s k = None) ->
  forall l rest k,
    guarded l = true -> l <> [] -> rmatch R (l ++ rest) k = None.
Proof.
  intros -> H2 l rest k Hl Hne. destruct l as [|c l]; [done|].
  unfold plus. cbn [rmatch app]. unfold space at 1. cbn [rmatch].
  destruct (isSpace c) eqn:Hc; [|reflexivity].
  apply star_space_rejects.
  - intros s Hs. by apply H2.
  - by apply guarded_tail in Hl.
  - by apply (guarded_after_space c).
Qed.

Lemma replaceAllFrom_plain (R : regex) (rep : list ascii) :
  (forall l rest, guarded l = true -> l <> [] -> rmatch R (l ++ rest) Some = None) ->
  forall l x,
    guarded l = true ->
    replaceAllFrom (S (length (l ++ x))) R rep (l ++ x) =
    l ++ replaceAllFrom (S (length x)) R rep x.
Proof.
  intros HR l x. induction l as [|c l IH]; intros Hl; [reflexivity|].
  change (length ((c :: l) ++ x)) with (S (length (l ++ x))).
  remember (S (length (l ++ x))) as n eqn:Hn.
  cbn [replaceAllFrom]. rewrite (HR (c :: l) x Hl) by done.
  cbn [app]. subst n. f_equal. apply IH. by apply guarded_tail in Hl.
Qed.

Lemma replaceFirst_plain (R : regex) (rep : list ascii) :
  (forall l rest, guarded l = true -> l <> [] -> rmatch R (l ++ rest) Some = None) ->
  forall l x,
    guarded l = true ->
    replaceFirst R rep (l ++ x) = l ++ replaceFirst R rep x.
Proof.
  intros HR l x. induction l as [|c l IH]; intros Hl; [reflexivity|].
  cbn [app replaceFirst].
  change (c :: l ++ x) with ((c :: l) ++ x).
  rewrite (HR (c :: l) x Hl) by done.
  cbn [app]. f_equal. apply IH. by apply guarded_tail in Hl.
Qed.

(** Case analysis on the first character of the input, and on the second
    one after a dash or an f. *)
Ltac each_char c :=
  destruct c as [[] [] [] [] [] [] [] []].

Ltac blocked_rejects :=
  let s := fresh "s" in
  let k := fresh "k" in
  let H := fresh "H" in
  let c := fresh "c" in
  let d := fresh "d" in
  intros [|c s] k H; [discriminate H|];
  each_char c;
  first
    [ solve [apply firstRejects_sound; vm_compute; reflexivity]
    | solve [destruct s; vm_compute in H; discriminate H]
    | destruct s as [|d s]; [vm_compute in H; discriminate H|];
      each_char d;
      first [ solve [vm_compute in H; discriminate H]
            | vm_compute; reflexivity ] ].

Ltac star_prefixed :=
  intros l rest; eapply star_prefix_rejects; [reflexivity|];
  blocked_rejects.

Lemma featPatterns_skip_plain :
  Forall (fun R => forall l rest,
            guarded l = true -> l <> [] -> rmatch R (l ++ rest) Some = None)
         featPatterns.
Proof. unfold featPatterns. repeat constructor; star_prefixed. Qed.

Lemma versionPatterns_skip_plain :
  Forall (fun R => forall l rest,
            guarded l = true -> l <> [] -> rmatch R (l ++ rest) Some = None)
         versionPatterns.
Proof. unfold versionPatterns. repeat constructor; star_prefixed. Qed.

Lemma fromSuffix_skips_plain (l rest : list ascii) :
  guarded l = true -> l <> [] -> rmatch fromSuffix (l ++ rest) Some = None.
Proof.
  eapply plus_prefix_rejects; [reflexivity|].
  blocked_rejects.
Qed.

Lemma replaceAll_plain (R : regex) (base x : string) :
  (forall l rest, guarded l = true -> l <> [] -> rmatch R (l ++ rest) Some = None) ->
  guarded (chars base) = true ->
  replaceAll R "" (base +:+ x) = base +:+ replaceAll R "" x.
Proof.
  intros HR Hbase. unfold replaceAll.
  rewrite chars_app, (replaceAllFrom_plain _ _ HR) by done.
  by rewrite str_app, str_chars.
Qed.

Lemma foldl_replaceAll_plain (patterns : list regex) (base : string) :
  Forall (fun R => forall l rest,
            guarded l = true -> l <> [] -> rmatch R (l ++ rest) Some = None)
         patterns ->
  guarded (chars base) = true ->
  forall x,
    foldl (fun acc pattern => replaceAll pattern "" acc) (base +:+ x) patterns =
    base +:+ foldl (fun acc pattern => replaceAll pattern "" acc) x patterns.
Proof.
  intros Hall Hbase. induction Hall as [|R patterns HR _ IH]; intros x;
    [reflexivity|].
  cbn [foldl]. by rewrite (replaceAll_plain _ _ _ HR Hbase), IH.
Qed.

Lemma stripMarkers_plain (base x : string) :
  guarded (chars base) = true ->
  stripMarkers (base +:+ x) = base +:+ stripMarkers x.
Proof.
  intros Hbase. unfold stripMarkers.
  rewrite (foldl_replaceAll_plain _ _ featPatterns_skip_plain Hbase).
  rewrite (foldl_replaceAll_plain _ _ versionPatterns_skip_plain Hbase).
  unfold replace1.
  rewrite chars_app, (replaceFirst_plain _ _ fromSuffix_skips_plain) by done.
  by rewrite str_app, str_chars.
Qed.

Lemma guarded_last (l : list ascii) :
  guarded l = true -> l <> [] ->
  exists l0 c, l = l0 ++ [c] /\ isSpace c = false.
Proof.
  induction l as [|c l IH]; [done|]. intros Hl _.
  destruct l as [|c' l'].
  - exists [], c. split; [reflexivity|].
    cbn [guarded] in Hl. rewrite andb_true_r in Hl.
    destruct (isSpace c); [done|reflexivity].
  - destruct IH as (l0 & d & -> & Hd); [by apply guarded_tail in Hl|done|].
    by exists (c :: l0), d.
Qed.

Lemma plainTitle_guarded (title : string) :
  plainTitle title = true -> guarded (chars title) = true.
Proof.
  unfold plainTitle. destruct (chars title); [done|].
  intros H. by apply andb_prop in H as [_ H].
Qed.

Lemma trim_plain (title : string) : plainTitle title = true -> trim title = title.
Proof.
  intros H. pose proof (plainTitle_guarded _ H) as Hg.
  unfold trim, trimChars. rewrite <- (str_chars title) at 2. f_equal.
  unfold plainTitle in H. destruct (chars title) as [|c l] eqn:E; [reflexivity|].
  apply andb_prop in H as [Hc _]. apply negb_true_iff in Hc.
  cbn [dropSpaces]. rewrite Hc.
  destruct (guarded_last (c :: l) Hg) as (l0 & d & -> & Hd); [done|].
  rewrite rev_app_distr. cbn [rev app dropSpaces]. rewrite Hd.
  change (d :: rev l0) with (rev [d] ++ rev l0).
  by rewrite <- rev_app_distr, rev_involutive.
Qed.

Lemma cleanTrackName_plain_alone (base : string) :
  plainTitle base = true -> cleanTrackName base = base.
Proof.
  intros Hbase. unfold cleanTrackName.
  rewrite <- (append_empty base) at 1.
  rewrite stripMarkers_plain by by apply plainTitle_guarded.
  change (stripMarkers "") with "".
  rewrite append_empty. by apply trim_plain.
Qed.

Lemma cleanTrackName_plain (base marker : string) :
  plainTitle base = true ->
  In marker (featuredMarkers ++ versionMarkers ++ albumMarkers) ->
  cleanTrackName (base +:+ marker) = base.
Proof.
  intros Hbase Hin. unfold cleanTrackName.
  rewrite stripMarkers_plain by by apply plainTitle_guarded.
  assert (forallb (fun m => eqs (stripMarkers m) "")
            (featuredMarkers ++ versionMarkers ++ albumMarkers) = true) as Hall
    by (vm_compute; reflexivity).
  rewrite forallb_forall in Hall. apply Hall, eqs_true in Hin.
  rewrite Hin, append_empty. by apply trim_plain.
Qed.

Lemma append_assoc3 (a b c : string) : (a +:+ b) +:+ c = a +:+ (b +:+ c).
Proof.
  induction a as [|x a IH]; [reflexivity|].
  cbv [String.append]; fold String.append. by rewrite IH.
Qed.

(** C10.  [searchRecording] first sends, to [/recording] with limit 25,
    the query whose recording part is [cleanTrackName trackName] between
    double quotes, followed by the artist and the release when they are
    given.  It sends a second request, with the title as given in the
    place of the cleaned one, exactly when the first answer is OK with an
    empty array of recordings and the cleaned title differs from the
    given one; it never sends a third.  [cleanTrackName] removes a
    featured-artist marker in parentheses, in brackets, after a dash and
    at the end, the version suffixes, and a trailing "From ..." phrase:
    the examples, and any plain title followed by one of the listed
    markers, come back as the title alone, and a plain title is not
    changed.  The third featured-artist pattern has no word boundary: it
    also cuts a title inside a word, as in "Left Behind (Live)". *)
Theorem searchRecording_cleans_then_falls_back (trackName : string)
    (artistName albumName : option string) (s : Net.source RecordingSearch) :
  let cleaned := cleanTrackName trackName in
  let request title :=
    Net.mkRequest "/recording"
      [("query",
        "recording:" +:+ quote +:+ title +:+ quote
        +:+ (if given artistName
             then " AND artist:" +:+ quote +:+ default "" artistName +:+ quote
             else "")
        +:+ (if given albumName
             then " AND release:" +:+ quote +:+ default "" albumName +:+ quote
             else ""));
       ("limit", "25")] in
  let t0 := Net.throttle (Net.clock s) (Net.lastRequestTime s) in
  let retried :=
    match Net.upstream s with
    | r :: _ =>
        (Net.ok r && noRecordings (Net.body r) &&
         negb (eqs cleaned trackName))%bool
    | [] => false
    end in
  let result := searchRecording trackName artistName albumName s in
  chars quote = [ascii_of_nat 34] /\
  Net.sent result.2 =
    Net.sent s
    ++ (t0, request cleaned)
    :: (if retried then [(t0 + Net.minInterval, request trackName)] else []) /\
  (retried = true <->
   exists r rest,
     Net.upstream s = r :: rest /\ Net.ok r = true /\
     recordings (Net.body r) = Some [] /\ cleaned <> trackName) /\
  (retried = false ->
   result.1 =
     match Net.upstream s with
     | [] => Net.Waiting
     | r :: _ =>
         if Net.ok r then Net.Returned (default [] (recordings (Net.body r)))
         else Net.Thrown (Net.status r)
     end) /\
  cleanTrackName "If They Knew (Feat. K. Michelle)" = "If They Knew" /\
  cleanTrackName "Song [ft. Someone]" = "Song" /\
  cleanTrackName "Song - featuring Someone Else" = "Song" /\
  cleanTrackName "Song feat. Someone" = "Song" /\
  cleanTrackName "Song (Live)" = "Song" /\
  cleanTrackName "Warm (LP Version)" = "Warm" /\
  cleanTrackName "Song (Radio Edit)" = "Song" /\
  cleanTrackName "Song (Remaster)" = "Song" /\
  cleanTrackName "Warm (LP Version) From Change Of Heart" = "Warm" /\
  cleanTrackName "Left Behind (Live)" = "Le" /\
  plainTitle "If They Knew" = true /\
  (forall base marker,
     plainTitle base = true ->
     In marker (featuredMarkers ++ versionMarkers ++ albumMarkers) ->
     cleanTrackName (base +:+ marker) = base /\
     cleanTrackName base = base).
Proof.
  cbv beta zeta.
  assert (forall t, Net.throttle t t = t + Net.minInterval) as Hthrottle.
  { intros t. unfold Net.throttle, Net.minInterval.
    destruct (Z.ltb_spec (t - t) 1100); lia. }
  assert (forall title,
             recordingRequest title artistName albumName =
             Net.mkRequest "/recording"
               [("query",
                 "recording:" +:+ quote +:+ title +:+ quote
                 +:+ (if given artistName
                      then " AND artist:" +:+ quote +:+ default "" artistName
                           +:+ quote
                      else "")
                 +:+ (if given albumName
                      then " AND release:" +:+ quote +:+ default "" albumName
                           +:+ quote
                      else ""));
                ("limit", "25")]) as Hrequest.
  { intros title. unfold recordingRequest, recordingQuery, quoted.
    do 2 f_equal. f_equal.
    destruct (given artistName), (given albumName);
      rewrite ?append_assoc3, ?append_empty; reflexivity. }
  rewrite <- !Hrequest. clear Hrequest.
  split; [reflexivity|].
  split; [|split; [|split;
    [|repeat (apply conj; [vm_compute; reflexivity|]);
      intros base marker Hbase Hin;
      (split; [by apply cleanTrackName_plain|by apply cleanTrackName_plain_alone])]]];
    unfold searchRecording, Net.fetchMB;
    generalize (cleanTrackName trackName); intros cleaned;
    generalize (recordingRequest cleaned artistName albumName); intros q1;
    generalize (recordingRequest trackName artistName albumName); intros q2;
    destruct (Net.upstream s) as [|r rest].
  - reflexivity.
  - destruct (Net.ok r); [|reflexivity]. cbn [andb].
    destruct (noRecordings (Net.body r) && negb (eqs cleaned trackName))%bool;
      [|reflexivity].
    cbn [Net.upstream Net.clock Net.lastRequestTime Net.sent].
    rewrite Hthrottle.
    destruct rest as [|r2 rest2]; [|destruct (Net.ok r2)];
      cbn [snd Net.sent]; by rewrite <- app_assoc.
  - split; [discriminate|]. by intros (? & ? & ? & _).
  - rewrite !andb_true_iff, negb_true_iff, eqs_false. split.
    + intros [[Hok Hnone] Hne]. exists r, rest.
      split; [reflexivity|split; [exact Hok|split; [|exact Hne]]].
      unfold noRecordings in Hnone.
      by destruct (recordings (Net.body r)) as [[|]|].
    + intros (r' & rest' & [= <- <-] & Hok & Hnone & Hne).
      unfold noRecordings. by rewrite Hnone.
  - reflexivity.
  - destruct (Net.ok r); [|reflexivity]. cbn [andb]. by intros ->.
Qed.

Lemma searchRecording_cleans_then_falls_back_witness :
  plainTitle "If They Knew" = true /\
  In " (Feat. K. Michelle)" (featuredMarkers ++ versionMarkers ++ albumMarkers) /\
  cleanTrackName "If They Knew (Feat. K. Michelle)" = "If They Knew" /\
  cleanTrackName "If They Knew" = "If They Knew".
Proof.
  assert (In " (Feat. K. Michelle)"
            (featuredMarkers ++ versionMarkers ++ albumMarkers)) as Hin
    by (apply has_true; vm_compute; reflexivity).
  assert (plainTitle "If They Knew" = true) as Hplain
    by (vm_compute; reflexivity).
  split; [exact Hplain|split; [exact Hin|]].
  pose proof (searchRecording_cleans_then_falls_back
                "If They Knew (Feat. K. Michelle)" None None
                (Net.mkSource 0 0 [] [])) as H.
  cbv beta zeta in H.
  destruct H as (_ & _ & _ & _ & _ & _ & _ & _ & _ & _ & _ & _ & _ & _ & _ & H).
  exact (H "If They Knew" " (Feat. K. Michelle)" Hplain Hin).
Defined.

(** The running maximum of the scoring loop. *)
Lemma foldl_max_spec {A : Type} (f : A -> Z) (l : list A) (init : Z) :
  let best := foldl (fun best x => Z.max best (f x)) init l in
  init <= best /\
  Forall (fun x => f x <= best) l /\
  (best = init \/ Exists (fun x => f x = best) l).
Proof.
  revert init. induction l as [|x l IH]; intros init; cbv zeta; simpl.
  { split; [lia|split; [constructor|by left]]. }
  specialize (IH (Z.max init (f x))). cbv zeta in IH.
  destruct IH as (Hge & Hall & Hbest).
  split; [lia|split; [constructor; [lia|done]|]].
  destruct Hbest as [Hbest|Hbest]; [|right; by constructor 2].
  destruct (Z.max_spec init (f x)) as [[_ Hmax]|[_ Hmax]].
  - right. constructor 1. congruence.
  - left. congruence.
Qed.

(** C4 (as amended).  When a non-empty album name is given,
    [scoreRecordingMatch] adds to the score without album the largest
    release score, and never less than -50; the score of a release is
    +80 for an exact normalized title match or +40 for a substring match,
    +10 for the status Official, -60 for a compilation, live, remix or
    soundtrack release, and +15 for the primary type Album. *)
Theorem scoreRecordingMatch_album_part (candidate : MBRecordingSearchResult)
    (trackName artistName albumName : string)
    (Halbum : truthy albumName = true) :
  let wanted := normalizeForComparison albumName in
  let releases := default [] (sr_releases candidate) in
  (exists best,
      scoreRecordingMatch candidate trackName artistName (Some albumName) =
        scoreRecordingMatch candidate trackName artistName None + best /\
      -50 <= best /\
      Forall (fun r => releaseMatchScore wanted r <= best) releases /\
      (best = -50 \/ Exists (fun r => releaseMatchScore wanted r = best) releases)) /\
  (forall r,
      let title := normalizeForComparison (mr_title r) in
      releaseMatchScore wanted r =
        (if eqs title wanted then 80
         else if (includes title wanted || includes wanted title)%bool then 40
         else 0)
        + (if isString (mr_status r) "Official" then 10 else 0)
        + (if isAlternateRelease r then -60 else 0)
        + (if isString (primaryTypeOf r) "Album" then 15 else 0)).
Proof.
  cbv zeta. split.
  - eexists. split.
    + unfold scoreRecordingMatch. rewrite Halbum. reflexivity.
    + apply (foldl_max_spec (releaseMatchScore (normalizeForComparison albumName))).
  - intros r. unfold releaseMatchScore.
    destruct (eqs _ _); [|destruct (_ || _)%bool];
      destruct (isString (mr_status r) _), (isAlternateRelease r),
        (isString (primaryTypeOf r) _); reflexivity.
Qed.

Lemma scoreRecordingMatch_album_part_witness :
  truthy "Bad" = true /\
  scoreRecordingMatch studioOnAlbum "Smooth Criminal" "Michael Jackson"
    (Some "Bad") = 180 + 105 /\
  releaseMatchScore (normalizeForComparison "Bad") badAlbum = 80 + 10 + 0 + 15.
Proof.
  split; [reflexivity|].
  destruct (scoreRecordingMatch_album_part studioOnAlbum "Smooth Criminal"
              "Michael Jackson" "Bad" eq_refl) as [_ Hrelease].
  split; [vm_compute; reflexivity|].
  rewrite Hrelease. vm_compute. reflexivity.
Defined.

(** C4 (as stated) fails: for a release that matches the album exactly,
    is official and of type Album the code adds 105 where the
    specification adds 125; for the same release of type EP, 80 against
    90; for a candidate with no release, -50 against -100. *)
Lemma scoreRecordingMatch_not_spec_constants :
  scoreRecordingMatch studioOnAlbum "Smooth Criminal" "Michael Jackson"
    (Some "Bad")
  <> scoreRecordingMatch studioOnAlbum "Smooth Criminal" "Michael Jackson" None
     + specAlbumScore "Bad" [badAlbum] /\
  scoreRecordingMatch studioOnEP "Smooth Criminal" "Michael Jackson"
    (Some "Bad")
  <> scoreRecordingMatch studioOnEP "Smooth Criminal" "Michael Jackson" None
     + specAlbumScore "Bad" [badEP] /\
  scoreRecordingMatch studioUnreleased "Smooth Criminal" "Michael Jackson"
    (Some "Bad")
  <> scoreRecordingMatch studioUnreleased "Smooth Criminal" "Michael Jackson"
       None
     + specAlbumScore "Bad" [].
Proof. repeat apply conj; vm_compute; discriminate. Qed.

(** The stable sort by descending score puts in front the first of the
    elements with the largest score. *)
Lemma head_insertBy {A : Type} (f : A -> Z) (x : A) (l : list A) :
  head (insertBy (fun a b => f b - f a) x l) =
  match head l with
  | None => Some x
  | Some y => if f y - f x <=? 0 then Some x else Some y
  end.
Proof.
  destruct l as [|y l]; simpl; [done|]. by destruct (f y - f x <=? 0).
Qed.

Lemma head_sortBy_descending {A : Type} (f : A -> Z) (l : list A) :
  l <> [] ->
  exists pre best post,
    l = pre ++ best :: post /\
    head (sortBy (fun a b => f b - f a) l) = Some best /\
    Forall (fun x => f x < f best) pre /\
    Forall (fun x => f x <= f best) post.
Proof.
  induction l as [|x l IH]; [done|]. intros _.
  unfold sortBy. simpl foldr. rewrite head_insertBy.
  destruct l as [|y l].
  { exists [], x, []. simpl. repeat split; constructor. }
  destruct IH as (pre & best & post & Heq & Hhead & Hpre & Hpost); [done|].
  unfold sortBy in Hhead. rewrite Hhead.
  destruct (Z.leb_spec (f best - f x) 0).
  - exists [], x, (y :: l). split; [done|split; [done|split; [constructor|]]].
    rewrite Heq. apply Forall_app. split.
    + eapply Forall_impl; [exact Hpre|]. simpl. intros; lia.
    + constructor; [lia|]. eapply Forall_impl; [exact Hpost|]. simpl. intros; lia.
  - exists (x :: pre), best, post. rewrite Heq.
    split; [done|split; [done|split; [constructor; [lia|done]|done]]].
Qed.

(** The sort is a sort: its result is a permutation of its argument in
    descending order of score. *)
Lemma insertBy_Permutation {A : Type} (cmp : A -> A -> Z) (x : A) (l : list A) :
  Permutation (insertBy cmp x l) (x :: l).
Proof.
  induction l as [|y l IH]; simpl; [done|].
  destruct (cmp x y <=? 0); [done|]. rewrite IH. apply perm_swap.
Qed.

Lemma sortBy_Permutation {A : Type} (cmp : A -> A -> Z) (l : list A) :
  Permutation (sortBy cmp l) l.
Proof.
  induction l as [|x l IH]; [done|]. unfold sortBy in *. simpl.
  rewrite insertBy_Permutation. by constructor.
Qed.

Lemma insertBy_descending {A : Type} (f : A -> Z) (x : A) (l : list A) :
  Sorted (fun a b => f b <= f a) l ->
  Sorted (fun a b => f b <= f a) (insertBy (fun a b => f b - f a) x l).
Proof.
  induction 1 as [|y l Hl IH Hy]; simpl; [repeat constructor|].
  destruct (Z.leb_spec (f y - f x) 0).
  - constructor; [by constructor|]. constructor. lia.
  - constructor; [done|].
    destruct l as [|z l]; simpl; [constructor; lia|].
    destruct (Z.leb_spec (f z - f x) 0); constructor; [lia|].
    by inversion Hy.
Qed.

Lemma sortBy_descending {A : Type} (f : A -> Z) (l : list A) :
  Sorted (fun a b => f b <= f a) (sortBy (fun a b => f b - f a) l).
Proof.
  induction l as [|x l IH]; [constructor|].
  unfold sortBy in *. simpl. by apply insertBy_descending.
Qed.

Lemma head_scoredRecordings (candidates : list MBRecordingSearchResult)
    (trackName artistName : string) (albumName : option string) :
  let score r := scoreRecordingMatch r trackName artistName albumName in
  candidates <> [] ->
  exists pre best post,
    candidates = pre ++ best :: post /\
    fst <$> head (scoredRecordings candidates trackName artistName albumName)
      = Some best /\
    Forall (fun r => score r < score best) pre /\
    Forall (fun r => score r <= score best) post.
Proof.
  cbv zeta. intros Hne. unfold scoredRecordings.
  set (score := fun r => scoreRecordingMatch r trackName artistName albumName).
  set (scored := map (fun r => (r, score r)) candidates).
  destruct (head_sortBy_descending (fun p : _ * Z => p.2) scored)
    as (pre & best & post & Heq & Hhead & Hpre & Hpost).
  { unfold scored. by destruct candidates. }
  assert (Forall (fun p : MBRecordingSearchResult * Z => p.2 = score p.1) scored)
    as Hscored.
  { unfold scored. apply Forall_map, Forall_forall. done. }
  exists (map fst pre), best.1, (map fst post).
  rewrite Heq in Hscored.
  apply Forall_app in Hscored as [Hs1 Hs2].
  apply Forall_cons in Hs2 as [Hb Hs2]. simpl in Hb.
  split; [|split; [|split]].
  2: { change (fst <$> head (sortBy (fun a b : MBRecordingSearchResult * Z =>
                                      b.2 - a.2) scored) = Some best.1).
       by rewrite Hhead. }
  - assert (map fst scored = candidates) as Hmap.
    { unfold scored. rewrite map_map. simpl. apply map_id. }
    rewrite <- Hmap, Heq, map_app. done.
  - apply Forall_map. rewrite Forall_forall in *. intros p Hp.
    specialize (Hpre p Hp). specialize (Hs1 p Hp).
    unfold score in *. simpl in *. lia.
  - apply Forall_map. rewrite Forall_forall in *. intros p Hp.
    specialize (Hpost p Hp). specialize (Hs2 p Hp).
    unfold score in *. simpl in *. lia.
Qed.

(** C5.  From a non-empty list of candidates [chooseRecording] answers
    the first candidate, in the order of the list, among those with the
    largest score, whatever the sign of the scores; it answers no match
    exactly when the list of candidates is empty.  The candidates are
    the answer of the search with the album, or, when that is empty and
    an album was given, the answer of the search without it. *)
Theorem chooseRecording_first_best
    (withAlbum withoutAlbum : list MBRecordingSearchResult)
    (trackName artistName : string) (albumName : option string)
    (Hne : candidatesOf withAlbum withoutAlbum albumName <> []) :
  let score r := scoreRecordingMatch r trackName artistName albumName in
  (exists pre best post,
     candidatesOf withAlbum withoutAlbum albumName = pre ++ best :: post /\
     chooseRecording withAlbum withoutAlbum trackName artistName albumName
       = Some best /\
     Forall (fun r => score r < score best) pre /\
     Forall (fun r => score r <= score best) post) /\
  (forall others others' album',
     chooseRecording others others' trackName artistName album' = None <->
     candidatesOf others others' album' = []).
Proof.
  cbv zeta. split.
  - unfold chooseRecording.
    destruct (head_scoredRecordings _ trackName artistName albumName Hne)
      as (pre & best & post & Heq & Hhead & Hpre & Hpost).
    exists pre, best, post. split; [done|split; [|done]].
    destruct (candidatesOf _ _ _); [done|exact Hhead].
  - intros others others' album'. unfold chooseRecording. split.
    + intros Hnone. destruct (candidatesOf others others' album') as [|c cs] eqn:E;
        [done|].
      destruct (head_scoredRecordings (c :: cs) trackName artistName album')
        as (? & ? & ? & _ & Hsome & _); [done|]. congruence.
    + by intros ->.
Qed.

Lemma chooseRecording_first_best_witness :
  candidatesOf [liveRecording; studioUnreleased; studioOnEP; studioUnreleased]
    [] (Some "Bad") <> [] /\
  chooseRecording [liveRecording; studioUnreleased; studioOnEP; studioUnreleased]
    [] "Smooth Criminal" "Michael Jackson" (Some "Bad") = Some studioOnEP /\
  chooseRecording [liveRecording; liveRecording] []
    "Smooth Criminal" "Michael Jackson" (Some "Bad") = Some liveRecording /\
  scoreRecordingMatch liveRecording "Smooth Criminal" "Michael Jackson"
    (Some "Bad") = -20 /\
  chooseRecording [] [] "Smooth Criminal" "Michael Jackson" (Some "Bad") = None.
Proof.
  split; [discriminate|].
  destruct (chooseRecording_first_best
              [liveRecording; studioUnreleased; studioOnEP; studioUnreleased] []
              "Smooth Criminal" "Michael Jackson" (Some "Bad"))
    as [_ Hnone]; [discriminate|].
  split; [vm_compute; reflexivity|].
  split; [vm_compute; reflexivity|].
  split; [vm_compute; reflexivity|].
  by apply Hnone.
Defined.

End MatchingFacts.

(** ** Assembly of the graph *)

Module AssemblyFacts.
Import JS Music MusicBrainz JSFacts.

(** *** Alias redirection *)

Section Redirect.

Variable aliases : gmap string string.
Variable name canonicalMbid : string.
Variable g : graph.

Hypothesis Halias : aliases !! normalizeForCache name = Some canonicalMbid.
Hypothesis Hmbid : canonicalMbid <> "".
Hypothesis Hpresent : has (g_entityIds g) ("artist-" +:+ canonicalMbid) = true.

Lemma truthy_mbid : truthy canonicalMbid = true.
Proof. unfold truthy. by apply negb_true_iff, eqs_false. Qed.

Lemma effectivePersonnelId_alias (a : MBArtist) :
  ar_name a = name ->
  effectivePersonnelId aliases g a = "artist-" +:+ canonicalMbid.
Proof.
  intros Hname. unfold effectivePersonnelId, resolveArtistAlias.
  rewrite Hname, Halias, truthy_mbid. cbn [andb].
  destruct (eqs canonicalMbid (ar_id a)) eqn:E; cbn [negb].
  - apply eqs_true in E. rewrite <- E, Hpresent.
    by rewrite andb_false_r.
  - by rewrite Hpresent.
Qed.

Lemma addPersonnelEntity_present (a : MBArtist) :
  addPersonnelEntity g a ("artist-" +:+ canonicalMbid) = g.
Proof. unfold addPersonnelEntity. by rewrite Hpresent. Qed.

Lemma addWorkCredit_alias (trackId : string) (rel : MBRelation) (a : MBArtist) :
  rn_artist rel = Some a -> ar_name a = name ->
  let canonicalId := "artist-" +:+ canonicalMbid in
  let role := mapWorkRole (rn_type rel) in
  let g' := addWorkCredit aliases trackId g rel in
  g_entities g' = g_entities g /\
  g_entityIds g' = g_entityIds g /\
  (g_relationships g' = g_relationships g \/
   g_relationships g' =
     g_relationships g
     ++ [mkRel (relId trackId canonicalId role) trackId canonicalId role]).
Proof.
  intros Ha Hname. cbv zeta. unfold addWorkCredit.
  rewrite Ha, effectivePersonnelId_alias by done.
  destruct (hasRelId _ _); [by auto|].
  rewrite addPersonnelEntity_present. simpl. auto.
Qed.

Lemma addPersonnel_alias (trackId : string) (rel : MBRelation) (a : MBArtist) :
  rn_artist rel = Some a -> ar_name a = name ->
  let canonicalId := "artist-" +:+ canonicalMbid in
  let role := mapMBRelationType (rn_type rel) (rn_attributes rel) in
  let g' := addPersonnel aliases trackId g rel in
  g_entities g' = g_entities g /\
  g_entityIds g' = g_entityIds g /\
  (g_relationships g' = g_relationships g \/
   g_relationships g' =
     g_relationships g
     ++ [mkRel (relId trackId canonicalId role) trackId canonicalId role]).
Proof.
  intros Ha Hname. cbv zeta. unfold addPersonnel.
  rewrite Ha, effectivePersonnelId_alias by done.
  destruct (has (g_primaryArtistIds g) _).
  - destruct (eqRole _ _); [by auto|]. simpl. unfold pushCredit.
    destruct (hasRelId _ _); auto.
  - rewrite addPersonnelEntity_present. simpl. unfold pushCredit.
    destruct (hasRelId _ _); auto.
Qed.

Lemma mergeEntity_alias (names : list string) (entity : MusicEntity) :
  normalizeForCache (e_name entity) = normalizeForCache name ->
  mergeEntity aliases (g, names) entity = (g, names).
Proof.
  intros Hname. unfold mergeEntity, knownAlias, resolveArtistAlias.
  by rewrite Hname, Halias, truthy_mbid, Hpresent.
Qed.

Lemma retarget_alias (trackId : string) (discogsEntities : list MusicEntity)
    (rel : Relationship) (entity : MusicEntity) :
  find (fun e => eqs (e_id e) (r_target rel)) discogsEntities = Some entity ->
  normalizeForCache (e_name entity) = normalizeForCache name ->
  let canonicalId := "artist-" +:+ canonicalMbid in
  retarget aliases trackId g discogsEntities rel =
  mkRel (mergedRelId trackId canonicalId (r_role rel)) trackId canonicalId
    (r_role rel).
Proof.
  intros Hfind Hname. cbv zeta. unfold retarget, resolveArtistAlias.
  by rewrite Hfind, Hname, Halias, truthy_mbid, Hpresent.
Qed.

Lemma addWorkCredit_alias_exact (trackId : string) (rel : MBRelation)
    (a : MBArtist) :
  rn_artist rel = Some a -> ar_name a = name ->
  let canonicalId := "artist-" +:+ canonicalMbid in
  let role := mapWorkRole (rn_type rel) in
  let g' := addWorkCredit aliases trackId g rel in
  g_entities g' = g_entities g /\
  g_entityIds g' = g_entityIds g /\
  g_relationships g' =
    (if hasRelId (g_relationships g) (relId trackId canonicalId role)
     then g_relationships g
     else g_relationships g
          ++ [mkRel (relId trackId canonicalId role) trackId canonicalId role]).
Proof.
  intros Ha Hname. cbv zeta. unfold addWorkCredit.
  rewrite Ha, effectivePersonnelId_alias by done.
  destruct (hasRelId _ _); [done|].
  by rewrite addPersonnelEntity_present.
Qed.

Lemma addPersonnel_alias_exact (trackId : string) (rel : MBRelation)
    (a : MBArtist) :
  rn_artist rel = Some a -> ar_name a = name ->
  let canonicalId := "artist-" +:+ canonicalMbid in
  let role := mapMBRelationType (rn_type rel) (rn_attributes rel) in
  let g' := addPersonnel aliases trackId g rel in
  g_entities g' = g_entities g /\
  g_entityIds g' = g_entityIds g /\
  g_relationships g' =
    (if (has (g_primaryArtistIds g) canonicalId
         && eqRole role primary_artist)%bool
     then g_relationships g
     else if hasRelId (g_relationships g) (relId trackId canonicalId role)
     then g_relationships g
     else g_relationships g
          ++ [mkRel (relId trackId canonicalId role) trackId canonicalId role]).
Proof.
  intros Ha Hname. cbv zeta. unfold addPersonnel.
  rewrite Ha, effectivePersonnelId_alias by done.
  destruct (has (g_primaryArtistIds g) _); cbn [andb].
  - destruct (eqRole _ _); [done|]. cbn. unfold pushCredit.
    by destruct (hasRelId _ _).
  - rewrite addPersonnelEntity_present. cbn. unfold pushCredit.
    by destruct (hasRelId _ _).
Qed.

End Redirect.

(** *** Referential integrity *)

(** C2 (the code on a track whose title is the name of a Discogs credit).
    The merge leaves out the Discogs entity, because its normalized name
    is among the names of the graph (it is the name of the track), and
    keeps the relationship unchanged, because no artist of the graph has
    that name: the target of the relationship is the id of no entity. *)
Theorem merge_leaves_dangling_target :
  let credits :=
    Discogs.getTrackCredits true "Quincy" (Some "track-q1") (Some quincyRelease) in
  exists g,
    assemble theBandAliases "The Band" None "q1" quincyRecording
      (fun _ => None) (Some credits) = Some g /\
    map e_id (g_entities g) = ["track-q1"; "artist-b1"] /\
    g_relationships g =
      [mkRel "rel-track-q1-artist-b1-primary_artist" "track-q1" "artist-b1"
         primary_artist;
       mkRel "rel-discogs-track-q1-artist-discogs-7-producer" "track-q1"
         "artist-discogs-7" producer] /\
    exists r, In r (g_relationships g) /\
              ~ In (r_target r) (map e_id (g_entities g)).
Proof.
  cbv zeta. eexists. split; [vm_compute; reflexivity|].
  split; [reflexivity|split; [reflexivity|]].
  eexists. split; [right; left; reflexivity|].
  simpl. intros [H|[H|[]]]; discriminate.
Qed.

(** *** The merge of the Discogs credits, done twice *)

Section Merge.

Variable aliases : gmap string string.
Variable trackId : string.

Lemma eqRole_refl (r : RoleType) : eqRole r r = true.
Proof. unfold eqRole. by apply eqs_true. Qed.

Lemma isDuplicate_app (rels more : list Relationship) (r : Relationship) :
  isDuplicate rels r = true -> isDuplicate (rels ++ more) r = true.
Proof. unfold isDuplicate. rewrite existsb_app. by intros ->. Qed.

Lemma isDuplicate_last (rels : list Relationship) (r : Relationship) :
  isDuplicate (rels ++ [r]) r = true.
Proof.
  unfold isDuplicate. rewrite existsb_app. simpl.
  assert (eqs (r_source r) (r_source r) = true) as -> by by apply eqs_true.
  assert (eqs (r_target r) (r_target r) = true) as -> by by apply eqs_true.
  rewrite eqRole_refl. simpl. apply orb_true_r.
Qed.

Lemma namesReflect_initial (g : graph) : namesReflect (g, namesOf (g_entities g)).
Proof.
  intros x. unfold namesOf. simpl. rewrite in_foldl_add. simpl. tauto.
Qed.

Lemma mergeEntity_namesReflect (st : graph * list string) (e : MusicEntity) :
  namesReflect st -> namesReflect (mergeEntity aliases st e).
Proof.
  destruct st as [g names]. unfold namesReflect, mergeEntity. simpl.
  intros H x. destruct (knownAlias _ _ _); [apply H|].
  destruct (has names _); [apply H|]. simpl.
  rewrite in_add, map_app, in_app_iff, H. simpl. intuition auto.
Qed.

Lemma knownAlias_mono (ids : list string) (x name : string) :
  knownAlias aliases ids name = true ->
  knownAlias aliases (add ids x) name = true.
Proof.
  unfold knownAlias. destruct (resolveArtistAlias _ _); [|done].
  rewrite !andb_true_iff, !has_true, in_add. tauto.
Qed.

Lemma mergeEntity_covered_mono (st : graph * list string) (e e' : MusicEntity) :
  covered aliases e st -> covered aliases e (mergeEntity aliases st e').
Proof.
  destruct st as [g names]. unfold covered, mergeEntity. simpl.
  destruct (knownAlias aliases (g_entityIds g) (e_name e')); [done|].
  destruct (has names _); [done|]. simpl.
  intros [H|H]; [left; by apply knownAlias_mono|right; apply in_add; by left].
Qed.

Lemma mergeEntity_covers (st : graph * list string) (e : MusicEntity) :
  covered aliases e (mergeEntity aliases st e).
Proof.
  destruct st as [g names]. unfold covered, mergeEntity. simpl.
  destruct (knownAlias aliases (g_entityIds g) (e_name e)) eqn:Ha; [by left|].
  destruct (has names _) eqn:Hn; simpl.
  - right. by apply has_true.
  - right. apply in_add. by right.
Qed.

Lemma mergeEntities_cover (ents : list MusicEntity) (st : graph * list string) :
  forall e, In e ents -> covered aliases e (foldl (mergeEntity aliases) st ents).
Proof.
  revert st. induction ents as [|e' ents IH]; intros st e; [done|].
  simpl. intros [<-|Hin]; [|by apply IH].
  apply (foldl_invariant (covered aliases e')).
  - intros a x _. apply mergeEntity_covered_mono.
  - apply mergeEntity_covers.
Qed.

Lemma mergeEntities_namesReflect (ents : list MusicEntity)
    (st : graph * list string) :
  namesReflect st -> namesReflect (foldl (mergeEntity aliases) st ents).
Proof.
  apply (foldl_invariant namesReflect). intros a x _.
  apply mergeEntity_namesReflect.
Qed.

Lemma mergeEntity_covered_fixed (st : graph * list string) (e : MusicEntity) :
  covered aliases e st -> mergeEntity aliases st e = st.
Proof.
  destruct st as [g names]. unfold covered, mergeEntity. simpl.
  intros [-> | H]; [done|].
  destruct (knownAlias _ _ _); [done|]. apply has_true in H. by rewrite H.
Qed.

Lemma mergeRelationship_entities (ents : list MusicEntity) (g : graph)
    (rel : Relationship) :
  let g' := mergeRelationship aliases trackId ents g rel in
  g_entities g' = g_entities g /\ g_entityIds g' = g_entityIds g.
Proof.
  cbv zeta. unfold mergeRelationship. by destruct (isDuplicate _ _).
Qed.

Lemma mergeRelationships_entities (ents : list MusicEntity)
    (rels : list Relationship) (g : graph) :
  let g' := foldl (mergeRelationship aliases trackId ents) g rels in
  g_entities g' = g_entities g /\ g_entityIds g' = g_entityIds g.
Proof.
  cbv zeta.
  apply (foldl_invariant
           (fun g' => g_entities g' = g_entities g /\
                      g_entityIds g' = g_entityIds g)); [|done].
  intros a x _ [H1 H2].
  destruct (mergeRelationship_entities ents a x) as [-> ->]. done.
Qed.

Lemma retarget_ext (ents : list MusicEntity) (g g' : graph) (rel : Relationship) :
  g_entities g' = g_entities g -> g_entityIds g' = g_entityIds g ->
  retarget aliases trackId g' ents rel = retarget aliases trackId g ents rel.
Proof. intros H1 H2. unfold retarget. by rewrite H1, H2. Qed.

Lemma mergeRelationship_merged_mono (ents : list MusicEntity) (g0 g : graph)
    (rel rel' : Relationship) :
  merged aliases trackId ents g0 rel g ->
  merged aliases trackId ents g0 rel (mergeRelationship aliases trackId ents g rel').
Proof.
  intros (H1 & H2 & H3).
  destruct (mergeRelationship_entities ents g rel') as [H1' H2'].
  split; [congruence|split; [congruence|]].
  unfold mergeRelationship. destruct (isDuplicate _ (retarget _ _ g _ rel'));
    [done|].
  simpl. by apply isDuplicate_app.
Qed.

Lemma mergeRelationship_merges (ents : list MusicEntity) (g : graph)
    (rel : Relationship) :
  merged aliases trackId ents g rel (mergeRelationship aliases trackId ents g rel).
Proof.
  destruct (mergeRelationship_entities ents g rel) as [H1 H2].
  split; [done|split; [done|]].
  unfold mergeRelationship.
  destruct (isDuplicate (g_relationships g) _) eqn:E; [done|].
  simpl. apply isDuplicate_last.
Qed.

Lemma merged_ext (ents : list MusicEntity) (g0 g0' g : graph)
    (rel : Relationship) :
  g_entities g0' = g_entities g0 -> g_entityIds g0' = g_entityIds g0 ->
  merged aliases trackId ents g0 rel g -> merged aliases trackId ents g0' rel g.
Proof.
  intros H1 H2 (H3 & H4 & H5). unfold merged.
  rewrite (retarget_ext ents g0 g0') by done.
  split; [congruence|split; [congruence|done]].
Qed.

Lemma mergeRelationships_merge (ents : list MusicEntity)
    (rels : list Relationship) (g : graph) :
  forall rel, In rel rels ->
    merged aliases trackId ents g rel (foldl (mergeRelationship aliases trackId ents) g rels).
Proof.
  revert g. induction rels as [|rel' rels IH]; intros g rel; [done|].
  simpl. intros [<-|Hin].
  - apply (foldl_invariant (merged aliases trackId ents g rel')).
    + intros a x _. apply mergeRelationship_merged_mono.
    + apply mergeRelationship_merges.
  - destruct (mergeRelationship_entities ents g rel') as [H1 H2].
    eapply merged_ext; [symmetry; exact H1|symmetry; exact H2|].
    by apply IH.
Qed.

Lemma mergeRelationship_merged_fixed (ents : list MusicEntity) (g : graph)
    (rel : Relationship) :
  merged aliases trackId ents g rel g -> mergeRelationship aliases trackId ents g rel = g.
Proof. intros (_ & _ & H). unfold mergeRelationship. by rewrite H. Qed.

Lemma mergeDiscogs_idempotent (g : graph) (credits : Discogs.DiscogsCredits) :
  mergeDiscogs aliases trackId (mergeDiscogs aliases trackId g credits) credits
  = mergeDiscogs aliases trackId g credits.
Proof.
  unfold mergeDiscogs.
  destruct (Discogs.entities credits) as [|e0 ents0] eqn:Hents; [done|].
  set (ents := e0 :: ents0) in *.
  set (st1 := foldl (mergeEntity aliases) (g, namesOf (g_entities g)) ents).
  set (g2 := foldl (mergeRelationship aliases trackId ents) st1.1
               (Discogs.relationships credits)).
  destruct (mergeRelationships_entities ents (Discogs.relationships credits) st1.1)
    as [Hents2 Hids2]. fold g2 in Hents2, Hids2.
  assert (foldl (mergeEntity aliases) (g2, namesOf (g_entities g2)) ents
          = (g2, namesOf (g_entities g2))) as ->.
  { apply foldl_fixed. intros e He. apply mergeEntity_covered_fixed.
    pose proof (mergeEntities_cover ents (g, namesOf (g_entities g)) e He) as Hc.
    pose proof (mergeEntities_namesReflect ents (g, namesOf (g_entities g))
                  (namesReflect_initial g)) as Hn.
    fold st1 in Hc, Hn. unfold covered in *. simpl.
    rewrite Hids2. destruct Hc as [Hc|Hc]; [by left|right].
    apply namesReflect_initial. simpl. rewrite Hents2. by apply Hn. }
  simpl fst. apply foldl_fixed. intros rel Hrel.
  apply mergeRelationship_merged_fixed.
  pose proof (mergeRelationships_merge ents (Discogs.relationships credits)
                st1.1 rel Hrel) as Hm. fold g2 in Hm.
  eapply merged_ext; [| |exact Hm]; done.
Qed.

End Merge.

Lemma eqRole_true (a b : RoleType) : eqRole a b = true -> a = b.
Proof. destruct a, b; first [reflexivity|vm_compute; discriminate]. Qed.

(** The first loop of the merge keeps the entity of the canonical artist
    and adds no entity whose name is an alias of it. *)
Lemma mergeEntities_alias (aliases : gmap string string)
    (name canonicalMbid : string) (g : graph) (names : list string)
    (ents : list MusicEntity) :
  aliases !! normalizeForCache name = Some canonicalMbid ->
  canonicalMbid <> "" ->
  has (g_entityIds g) ("artist-" +:+ canonicalMbid) = true ->
  let st := foldl (mergeEntity aliases) (g, names) ents in
  has (g_entityIds st.1) ("artist-" +:+ canonicalMbid) = true /\
  forall e, In e (g_entities st.1) ->
            In e (g_entities g) \/
            (In e ents /\
             normalizeForCache (e_name e) <> normalizeForCache name).
Proof.
  intros Halias Hmbid Hpresent. cbv zeta.
  apply (foldl_invariant
           (fun st : graph * list string =>
              has (g_entityIds st.1) ("artist-" +:+ canonicalMbid) = true /\
              forall e, In e (g_entities st.1) ->
                        In e (g_entities g) \/
                        (In e ents /\
                         normalizeForCache (e_name e) <> normalizeForCache name))).
  - intros [g' names'] x Hx [Hp Hents]. cbn [fst] in *.
    unfold mergeEntity.
    destruct (knownAlias aliases (g_entityIds g') (e_name x)) eqn:Hk;
      [by split|].
    destruct (has names' _); [by split|]. cbn [fst g_entityIds g_entities].
    split.
    + apply has_true, in_add. left. by apply has_true.
    + intros e Hin. apply in_app_or in Hin as [Hin|[<-|[]]]; [by apply Hents|].
      right. split; [exact Hx|]. intros Hsame.
      unfold knownAlias, resolveArtistAlias in Hk.
      rewrite Hsame, Halias, Hp, andb_true_r in Hk.
      unfold truthy in Hk. apply negb_false_iff, eqs_true in Hk. done.
  - split; [exact Hpresent|]. intros e He. by left.
Qed.

(** C3.  When the alias table sends the normalized name of a credit to
    an artist whose entity is in the graph, a work credit (and a
    personnel credit) under that name adds no entity, and its
    relationship, unless the graph has one with that id, is added with
    the canonical entity as target.  In the merge of the Discogs credits
    an entity whose name is such an alias is not added, and a relationship
    to it is moved to the canonical entity: the second loop adds it with
    that target unless the graph has one with the same source, target and
    role, so that after the merge the graph holds the credit on the
    canonical entity and no entity under the alias.  With the aliases of
    The Weeknd in the table, a work credit and a Discogs credit for
    "Abel Tesfaye" give a graph whose only artist is [artist-C]. *)
Theorem alias_redirects_credit (aliases : gmap string string)
    (name canonicalMbid trackId : string) (g : graph)
    (Halias : aliases !! normalizeForCache name = Some canonicalMbid)
    (Hmbid : canonicalMbid <> "")
    (Hpresent : has (g_entityIds g) ("artist-" +:+ canonicalMbid) = true) :
  let canonicalId := "artist-" +:+ canonicalMbid in
  (forall rel a,
      rn_artist rel = Some a -> ar_name a = name ->
      let role := mapWorkRole (rn_type rel) in
      let g' := addWorkCredit aliases trackId g rel in
      g_entities g' = g_entities g /\
      g_entityIds g' = g_entityIds g /\
      g_relationships g' =
        (if hasRelId (g_relationships g) (relId trackId canonicalId role)
         then g_relationships g
         else g_relationships g
              ++ [mkRel (relId trackId canonicalId role) trackId canonicalId
                    role])) /\
  (forall rel a,
      rn_artist rel = Some a -> ar_name a = name ->
      let role := mapMBRelationType (rn_type rel) (rn_attributes rel) in
      let g' := addPersonnel aliases trackId g rel in
      g_entities g' = g_entities g /\
      g_entityIds g' = g_entityIds g /\
      g_relationships g' =
        (if (has (g_primaryArtistIds g) canonicalId
             && eqRole role primary_artist)%bool
         then g_relationships g
         else if hasRelId (g_relationships g) (relId trackId canonicalId role)
         then g_relationships g
         else g_relationships g
              ++ [mkRel (relId trackId canonicalId role) trackId canonicalId
                    role])) /\
  (forall names entity,
      normalizeForCache (e_name entity) = normalizeForCache name ->
      mergeEntity aliases (g, names) entity = (g, names)) /\
  (forall discogsEntities rel entity,
      find (fun e => eqs (e_id e) (r_target rel)) discogsEntities = Some entity ->
      normalizeForCache (e_name entity) = normalizeForCache name ->
      retarget aliases trackId g discogsEntities rel =
        mkRel (mergedRelId trackId canonicalId (r_role rel)) trackId canonicalId
          (r_role rel) /\
      mergeRelationship aliases trackId discogsEntities g rel =
        (if isDuplicate (g_relationships g)
              (mkRel (mergedRelId trackId canonicalId (r_role rel)) trackId
                 canonicalId (r_role rel))
         then g
         else withRelationships g
                (g_relationships g
                 ++ [mkRel (mergedRelId trackId canonicalId (r_role rel))
                       trackId canonicalId (r_role rel)]))) /\
  (forall credits rel entity,
      In rel (Discogs.relationships credits) ->
      find (fun e => eqs (e_id e) (r_target rel)) (Discogs.entities credits)
        = Some entity ->
      normalizeForCache (e_name entity) = normalizeForCache name ->
      let g' := mergeDiscogs aliases trackId g credits in
      (exists r, In r (g_relationships g') /\ r_source r = trackId /\
                 r_target r = canonicalId /\ r_role r = r_role rel) /\
      (forall e, In e (g_entities g') ->
                 In e (g_entities g) \/
                 (In e (Discogs.entities credits) /\
                  normalizeForCache (e_name e) <> normalizeForCache name))) /\
  (forall artistName albumName recordingMbid fullRecording works credits,
      trackId = "track-" +:+ recordingMbid ->
      assemble aliases artistName albumName recordingMbid fullRecording works
        None = Some g ->
      assemble aliases artistName albumName recordingMbid fullRecording works
        (Some credits) = Some (mergeDiscogs aliases trackId g credits)) /\
  (resultOf <$>
     assemble weekndAliases "The Weeknd" None "r1"
       (blindingLights [workRelation]) blindingLightsWorks None) =
  Some (mkResult
          [mkEntity "track-r1" "Blinding Lights" track None (Some "r1") None
             (Some false) (Some false) (Some true);
           mkEntity "artist-C" "The Weeknd" artist None (Some "C") None
             (Some false) (Some false) (Some false)]
          [mkRel "rel-track-r1-artist-C-primary_artist" "track-r1" "artist-C"
             primary_artist;
           mkRel "rel-track-r1-artist-C-composer" "track-r1" "artist-C"
             composer]) /\
  (resultOf <$>
     assemble weekndAliases "The Weeknd" None "r1"
       (blindingLights [workRelation]) blindingLightsWorks
       (Some (Discogs.getTrackCredits true "Blinding Lights" (Some "track-r1")
                (Some discogsWithLegalName)))) =
  Some (mkResult
          [mkEntity "track-r1" "Blinding Lights" track None (Some "r1") None
             (Some false) (Some false) (Some true);
           mkEntity "artist-C" "The Weeknd" artist None (Some "C") None
             (Some false) (Some false) (Some false)]
          [mkRel "rel-track-r1-artist-C-primary_artist" "track-r1" "artist-C"
             primary_artist;
           mkRel "rel-track-r1-artist-C-composer" "track-r1" "artist-C"
             composer;
           mkRel "rel-track-r1-artist-C-producer-discogs" "track-r1"
             "artist-C" producer]).
Proof.
  cbv zeta.
  split; [|split; [|split; [|split; [|split; [|split; [|split]]]]]].
  - intros rel a Ha Hname.
    by apply (addWorkCredit_alias_exact aliases name canonicalMbid g Halias
                Hmbid Hpresent trackId rel a).
  - intros rel a Ha Hname.
    by apply (addPersonnel_alias_exact aliases name canonicalMbid g Halias
                Hmbid Hpresent trackId rel a).
  - intros names entity Hname.
    by apply (mergeEntity_alias aliases name canonicalMbid g Halias Hmbid
                Hpresent).
  - intros discogsEntities rel entity Hfind Hname.
    pose proof (retarget_alias aliases name canonicalMbid g Halias Hmbid
                  Hpresent trackId discogsEntities rel entity Hfind Hname)
      as Hre.
    cbv zeta in Hre. split; [exact Hre|].
    unfold mergeRelationship. by rewrite Hre.
  - intros credits rel entity Hrel Hfind Hname. unfold mergeDiscogs.
    destruct (Discogs.entities credits) as [|e0 ents0] eqn:Hents; [done|].
    set (ents := e0 :: ents0) in *.
    set (st := foldl (mergeEntity aliases) (g, namesOf (g_entities g)) ents).
    destruct (mergeEntities_alias aliases name canonicalMbid g
                (namesOf (g_entities g)) ents Halias Hmbid Hpresent)
      as [Hp1 Hents1]. fold st in Hp1, Hents1.
    pose proof (mergeRelationships_merge aliases trackId ents
                  (Discogs.relationships credits) st.1 rel Hrel)
      as (He & _ & Hdup).
    rewrite (retarget_alias aliases name canonicalMbid st.1 Halias Hmbid Hp1
               trackId ents rel entity Hfind Hname) in Hdup.
    split.
    + unfold isDuplicate in Hdup. apply existsb_exists in Hdup as (r & Hr & Hd).
      cbn [r_source r_target r_role] in Hd.
      apply andb_prop in Hd as [Hd Hrole]. apply andb_prop in Hd as [Hs Ht].
      exists r. split; [exact Hr|].
      split; [by apply eqs_true|split; [by apply eqs_true|]].
      by apply eqRole_true.
    + intros e. rewrite He. apply Hents1.
  - intros artistName albumName recordingMbid fullRecording works credits ->.
    unfold assemble. destruct (fr_releases fullRecording); [|done].
    by intros [= <-].
  - vm_compute. reflexivity.
  - vm_compute. reflexivity.
Qed.

(** The graph of the scenario before the work credits are read, and the
    Discogs credit of the producer under the legal name. *)
Lemma alias_redirects_credit_witness :
  let g := mkGraph
             [mkEntity "track-r1" "Blinding Lights" track None (Some "r1") None
                (Some false) (Some false) (Some true);
              artistEntity theWeeknd]
             [mkRel "rel-track-r1-artist-C-primary_artist" "track-r1"
                "artist-C" primary_artist]
             ["track-r1"; "artist-C"] ["artist-C"] ["artist-C"] ["the weeknd"] in
  let credits :=
    Discogs.getTrackCredits true "Blinding Lights" (Some "track-r1")
      (Some discogsWithLegalName) in
  weekndAliases !! normalizeForCache "Abel Tesfaye" = Some "C" /\
  has (g_entityIds g) "artist-C" = true /\
  g_entities (addWorkCredit weekndAliases "track-r1" g composerCredit) =
    g_entities g /\
  map r_target
    (g_relationships (addWorkCredit weekndAliases "track-r1" g composerCredit)) =
    ["artist-C"; "artist-C"] /\
  (exists r,
      In r (g_relationships (mergeDiscogs weekndAliases "track-r1" g credits)) /\
      r_source r = "track-r1" /\ r_target r = "artist-C" /\
      r_role r = producer) /\
  map e_id (g_entities (mergeDiscogs weekndAliases "track-r1" g credits)) =
    ["track-r1"; "artist-C"].
Proof.
  cbv zeta.
  assert (weekndAliases !! normalizeForCache "Abel Tesfaye" = Some "C") as Halias
    by (vm_compute; reflexivity).
  split; [exact Halias|]. split; [reflexivity|].
  destruct (alias_redirects_credit weekndAliases "Abel Tesfaye" "C" "track-r1"
              (mkGraph
                 [mkEntity "track-r1" "Blinding Lights" track None (Some "r1")
                    None (Some false) (Some false) (Some true);
                  artistEntity theWeeknd]
                 [mkRel "rel-track-r1-artist-C-primary_artist" "track-r1"
                    "artist-C" primary_artist]
                 ["track-r1"; "artist-C"] ["artist-C"] ["artist-C"]
                 ["the weeknd"])
              Halias ltac:(discriminate) eq_refl)
    as (Hwork & _ & _ & _ & Hmerge & _).
  destruct (Hwork composerCredit (mkMBArtist "legal-name" "Abel Tesfaye")
              eq_refl eq_refl) as (Hents & _ & _).
  split; [exact Hents|]. split; [vm_compute; reflexivity|].
  split; [|vm_compute; reflexivity].
  refine (proj1 (Hmerge
                   (Discogs.getTrackCredits true "Blinding Lights"
                      (Some "track-r1") (Some discogsWithLegalName))
                   (mkRel "rel-discogs-track-r1-artist-discogs-11-producer"
                      "track-r1" "artist-discogs-11" producer)
                   (mkEntity "artist-discogs-11" "Abel Tesfaye" artist None None
                      None (Some false) (Some false) (Some false))
                   _ _ _)).
  - vm_compute. by left.
  - vm_compute. reflexivity.
  - reflexivity.
Defined.


(** *** Every id comes from a template *)

Lemma derived_credit (trackId target : string) (role : RoleType) :
  idDerivedFromTriple (mkRel (relId trackId target role) trackId target role).
Proof. by left. Qed.

Lemma pushCredit_derived (rels : list Relationship) (trackId target : string)
    (role : RoleType) :
  Forall idDerivedFromTriple rels ->
  Forall idDerivedFromTriple (pushCredit rels trackId target role).
Proof.
  intros H. unfold pushCredit. destruct (hasRelId _ _); [done|].
  apply Forall_app. split; [done|]. constructor; [apply derived_credit|constructor].
Qed.

Lemma addArtistCredit_derived (trackId wanted : string) (st : graph * bool)
    (credit : ArtistCredit) :
  derivedGraph st.1 -> derivedGraph (addArtistCredit trackId wanted st credit).1.
Proof.
  destruct st as [g flag]. unfold derivedGraph, addArtistCredit. simpl.
  apply pushCredit_derived.
Qed.

Lemma addAlbum_derived (trackId : string) (g : graph) (release : MBRelease) :
  derivedGraph g -> derivedGraph (addAlbum trackId g release).
Proof.
  unfold derivedGraph, addAlbum. simpl. intros H.
  apply Forall_app. split; [done|]. constructor.
  - right. by left.
  - apply Forall_map, Forall_forall. intros x _. right. by left.
Qed.

Lemma addPersonnelEntity_relationships (g : graph) (a : MBArtist)
    (effective : string) :
  g_relationships (addPersonnelEntity g a effective) = g_relationships g.
Proof. unfold addPersonnelEntity. by destruct (_ && _)%bool. Qed.

Lemma addPersonnel_derived (aliases : gmap string string) (trackId : string)
    (g : graph) (rel : MBRelation) :
  derivedGraph g -> derivedGraph (addPersonnel aliases trackId g rel).
Proof.
  unfold derivedGraph, addPersonnel. intros H.
  destruct (rn_artist rel) as [a|]; [|done].
  destruct (has (g_primaryArtistIds g) _).
  - destruct (eqRole _ _); [done|]. simpl. by apply pushCredit_derived.
  - simpl. apply pushCredit_derived.
    by rewrite addPersonnelEntity_relationships.
Qed.

Lemma addWorkCredit_derived (aliases : gmap string string) (trackId : string)
    (g : graph) (rel : MBRelation) :
  derivedGraph g -> derivedGraph (addWorkCredit aliases trackId g rel).
Proof.
  unfold derivedGraph, addWorkCredit. intros H.
  destruct (rn_artist rel) as [a|]; [|done].
  destruct (hasRelId _ _); [done|]. simpl.
  rewrite addPersonnelEntity_relationships.
  apply Forall_app. split; [done|]. constructor; [apply derived_credit|constructor].
Qed.

Lemma addWork_derived (aliases : gmap string string) (trackId : string)
    (works : string -> option WorkData) (g : graph) (rel : MBRelation) :
  derivedGraph g -> derivedGraph (addWork aliases trackId works g rel).
Proof.
  unfold addWork. intros H.
  destruct (rn_work rel) as [w|]; [|done].
  destruct (works (w_id w)) as [workData|]; [|done].
  destruct (wd_relations workData) as [rels|]; [|done].
  apply (foldl_invariant derivedGraph); [|done].
  intros a x _. apply addWorkCredit_derived.
Qed.

Lemma retarget_derived (aliases : gmap string string) (trackId : string)
    (g : graph) (ents : list MusicEntity) (rel : Relationship) :
  r_id rel = Discogs.relId trackId (r_target rel) (r_role rel) ->
  idDerivedFromTriple (retarget aliases trackId g ents rel).
Proof.
  intros Hid. unfold retarget.
  assert (idDerivedFromTriple
            (mkRel (r_id rel) trackId (r_target rel) (r_role rel))) as Hkept.
  { right. right. by left. }
  assert (forall target,
            idDerivedFromTriple
              (mkRel (mergedRelId trackId target (r_role rel)) trackId target
                 (r_role rel))) as Hmoved.
  { intros target. right. right. by right. }
  destruct (find _ ents) as [d|]; [|done].
  destruct (resolveArtistAlias _ _) as [c|].
  - destruct (truthy c).
    + destruct (has _ _); [apply Hmoved|done].
    + destruct (findArtistByName _ _) as [e|]; [|done].
      destruct (negb _); [apply Hmoved|done].
  - destruct (findArtistByName _ _) as [e|]; [|done].
    destruct (negb _); [apply Hmoved|done].
Qed.

Lemma mergeEntity_relationships (aliases : gmap string string)
    (st : graph * list string) (e : MusicEntity) :
  g_relationships (mergeEntity aliases st e).1 = g_relationships st.1.
Proof.
  destruct st as [g names]. unfold mergeEntity.
  destruct (knownAlias _ _ _); [done|]. by destruct (has names _).
Qed.

Lemma mergeDiscogs_derived (aliases : gmap string string) (trackId : string)
    (g : graph) (credits : Discogs.DiscogsCredits) :
  creditsFor trackId credits ->
  derivedGraph g -> derivedGraph (mergeDiscogs aliases trackId g credits).
Proof.
  intros Hcredits Hg. unfold mergeDiscogs.
  destruct (Discogs.entities credits) as [|e0 ents0]; [done|].
  set (ents := e0 :: ents0).
  apply (foldl_invariant derivedGraph).
  - intros a rel Hrel Ha. unfold derivedGraph, mergeRelationship.
    destruct (isDuplicate _ _); [done|]. simpl.
    apply Forall_app. split; [done|]. constructor; [|constructor].
    apply retarget_derived.
    unfold creditsFor in Hcredits. rewrite Forall_forall in Hcredits.
    apply list_elem_of_In in Hrel. by destruct (Hcredits rel Hrel).
  - unfold derivedGraph.
    apply (foldl_invariant
             (fun st : graph * list string =>
                Forall idDerivedFromTriple (g_relationships st.1))); [|done].
    intros a x _ Ha. by rewrite mergeEntity_relationships.
Qed.

Lemma assemble_derived (aliases : gmap string string) (artistName : string)
    (albumName : option string) (recordingMbid : string)
    (fullRecording : FullRecording) (works : string -> option WorkData)
    (discogs : option Discogs.DiscogsCredits) (g : graph) :
  (forall credits, discogs = Some credits ->
                   creditsFor ("track-" +:+ recordingMbid) credits) ->
  assemble aliases artistName albumName recordingMbid fullRecording works
    discogs = Some g ->
  derivedGraph g.
Proof.
  intros Hcredits. unfold assemble.
  destruct (fr_releases fullRecording) as [releases|]; [|done].
  intros [= <-].
  set (trackId := "track-" +:+ recordingMbid) in *.
  set (g1 := (foldl (addArtistCredit trackId _) _ _).1).
  assert (derivedGraph g1) as H1.
  { unfold g1.
    apply (foldl_invariant (fun st : graph * bool => derivedGraph st.1)).
    - intros a x _. apply addArtistCredit_derived.
    - constructor. }
  set (g2 := match targetReleaseOf albumName releases with
             | Some targetRelease => addAlbum trackId g1 targetRelease
             | None => g1
             end).
  assert (derivedGraph g2) as H2.
  { unfold g2. destruct (targetReleaseOf _ _); [by apply addAlbum_derived|done]. }
  set (g3 := foldl (addPersonnel aliases trackId) g2 _).
  assert (derivedGraph g3) as H3.
  { apply (foldl_invariant derivedGraph); [|done].
    intros a x _. apply addPersonnel_derived. }
  set (g4 := foldl (addWork aliases trackId works) g3 _).
  assert (derivedGraph g4) as H4.
  { apply (foldl_invariant derivedGraph); [|done].
    intros a x _. apply addWork_derived. }
  destruct discogs as [credits|]; [|done].
  apply mergeDiscogs_derived; [by apply Hcredits|done].
Qed.

Lemma getTrackCredits_creditsFor (configured : bool) (trackName trackId : string)
    (found : option Discogs.DiscogsRelease) :
  trackId <> "" ->
  creditsFor trackId
    (Discogs.getTrackCredits configured trackName (Some trackId) found).
Proof.
  intros Hne. unfold creditsFor.
  destruct configured; [|constructor].
  destruct found as [release|]; [|constructor].
  rewrite DiscogsFacts.getTrackCredits_relationships.
  assert (Discogs.trackIdFor (Some trackId) release = trackId) as ->.
  { unfold Discogs.trackIdFor, truthy.
    apply eqs_false in Hne. by rewrite Hne. }
  apply Forall_map, Forall_forall. intros a _. done.
Qed.

Lemma assemble_with_credits (aliases : gmap string string) (artistName : string)
    (albumName : option string) (recordingMbid : string)
    (fullRecording : FullRecording) (works : string -> option WorkData)
    (credits : Discogs.DiscogsCredits) (g : graph) :
  assemble aliases artistName albumName recordingMbid fullRecording works
    (Some credits) = Some g ->
  exists g4,
    assemble aliases artistName albumName recordingMbid fullRecording works None
      = Some g4 /\
    g = mergeDiscogs aliases ("track-" +:+ recordingMbid) g4 credits.
Proof.
  unfold assemble. destruct (fr_releases fullRecording); [|done].
  intros [= <-]. eauto.
Qed.

Lemma track_id_nonempty (recordingMbid : string) : "track-" +:+ recordingMbid <> "".
Proof. discriminate. Qed.

(** *** One template for each place that creates relationships *)

Lemma appends_refl (P : Relationship -> Prop) (l : list Relationship) :
  appends P l l.
Proof. exists []. by rewrite app_nil_r. Qed.

Lemma appends_one (P : Relationship -> Prop) (l : list Relationship)
    (r : Relationship) :
  P r -> appends P l (l ++ [r]).
Proof. intros H. exists [r]. split; [done|by constructor]. Qed.

Lemma appends_trans (P : Relationship -> Prop) (a b c : list Relationship) :
  appends P a b -> appends P b c -> appends P a c.
Proof.
  intros (m1 & -> & H1) (m2 & -> & H2). exists (m1 ++ m2).
  split; [by rewrite app_assoc|by apply Forall_app].
Qed.

Lemma appends_impl (P Q : Relationship -> Prop) (a b : list Relationship) :
  (forall r, P r -> Q r) -> appends P a b -> appends Q a b.
Proof.
  intros H (m & -> & Hm). exists m. split; [done|].
  eapply Forall_impl; [exact Hm|exact H].
Qed.

Lemma foldl_appends {A B : Type} (P : Relationship -> Prop)
    (rels : A -> list Relationship) (step : A -> B -> A) (l : list B) :
  (forall a x, In x l -> appends P (rels a) (rels (step a x))) ->
  forall a, appends P (rels a) (rels (foldl step a l)).
Proof.
  induction l as [|x l IH]; intros Hstep a; [apply appends_refl|].
  cbn [foldl]. eapply appends_trans; [apply Hstep; by left|].
  apply IH. intros a' x' Hin. apply Hstep. by right.
Qed.

Lemma pushCredit_appends (rels : list Relationship) (trackId target : string)
    (role : RoleType) :
  appends (fromTemplate relId) rels (pushCredit rels trackId target role).
Proof.
  unfold pushCredit. destruct (hasRelId _ _); [apply appends_refl|].
  by apply appends_one.
Qed.

Lemma addArtistCredit_appends (trackId wanted : string) (st : graph * bool)
    (credit : ArtistCredit) :
  appends (fromTemplate relId) (g_relationships st.1)
    (g_relationships (addArtistCredit trackId wanted st credit).1).
Proof.
  destruct st as [g flag]. unfold addArtistCredit. cbn [fst g_relationships].
  apply pushCredit_appends.
Qed.

Lemma addAlbum_appends (trackId : string) (g : graph) (release : MBRelease) :
  appends fromAlbumTemplate (g_relationships g)
    (g_relationships (addAlbum trackId g release)).
Proof.
  unfold addAlbum. cbn [g_relationships]. eexists. split; [reflexivity|].
  constructor; [done|]. apply Forall_map, Forall_forall. done.
Qed.

Lemma addPersonnel_appends (aliases : gmap string string) (trackId : string)
    (g : graph) (rel : MBRelation) :
  appends (fromTemplate relId) (g_relationships g)
    (g_relationships (addPersonnel aliases trackId g rel)).
Proof.
  unfold addPersonnel. destruct (rn_artist rel) as [a|]; [|apply appends_refl].
  destruct (has (g_primaryArtistIds g) _).
  - destruct (eqRole _ _); [apply appends_refl|]. apply pushCredit_appends.
  - cbn [withRelationships g_relationships].
    rewrite <- (addPersonnelEntity_relationships g a
                  (effectivePersonnelId aliases g a)) at 1.
    apply pushCredit_appends.
Qed.

Lemma addWorkCredit_appends (aliases : gmap string string) (trackId : string)
    (g : graph) (rel : MBRelation) :
  appends (fromTemplate relId) (g_relationships g)
    (g_relationships (addWorkCredit aliases trackId g rel)).
Proof.
  unfold addWorkCredit. destruct (rn_artist rel) as [a|]; [|apply appends_refl].
  destruct (hasRelId _ _); [apply appends_refl|].
  cbn [withRelationships g_relationships].
  rewrite addPersonnelEntity_relationships. by apply appends_one.
Qed.

Lemma addWork_appends (aliases : gmap string string) (trackId : string)
    (works : string -> option WorkData) (g : graph) (rel : MBRelation) :
  appends (fromTemplate relId) (g_relationships g)
    (g_relationships (addWork aliases trackId works g rel)).
Proof.
  unfold addWork. destruct (rn_work rel) as [w|]; [|apply appends_refl].
  destruct (works (w_id w)) as [workData|]; [|apply appends_refl].
  destruct (wd_relations workData) as [rels|]; [|apply appends_refl].
  apply (foldl_appends _ g_relationships). intros a x _.
  apply addWorkCredit_appends.
Qed.

Lemma retarget_mergedFrom (aliases : gmap string string) (trackId : string)
    (g : graph) (ents : list MusicEntity) (rel : Relationship) :
  r_source rel = trackId ->
  mergedFrom trackId g rel (retarget aliases trackId g ents rel).
Proof.
  intros Hsource. unfold retarget.
  assert (mkRel (r_id rel) trackId (r_target rel) (r_role rel) = rel) as Hkept.
  { destruct rel. cbn in *. by subst. }
  rewrite Hkept.
  assert (forall target,
            has (g_entityIds g) target = true \/
            In target (map e_id (g_entities g)) ->
            mergedFrom trackId g rel
              (mkRel (mergedRelId trackId target (r_role rel)) trackId target
                 (r_role rel))) as Hmoved.
  { intros target H. right. by repeat split. }
  assert (forall name,
            mergedFrom trackId g rel
              match findArtistByName (g_entities g) name with
              | Some existingEntity =>
                  if negb (eqs (e_id existingEntity) (r_target rel))
                  then mkRel (mergedRelId trackId (e_id existingEntity)
                                (r_role rel)) trackId (e_id existingEntity)
                         (r_role rel)
                  else rel
              | None => rel
              end) as HbyName.
  { intros name. unfold findArtistByName.
    destruct (find _ _) as [e|] eqn:E; [|by left].
    destruct (negb _); [|by left].
    apply Hmoved. right. apply find_some in E as [E _].
    by apply in_map. }
  destruct (find _ ents) as [d|]; [|by left].
  destruct (resolveArtistAlias _ _) as [c|]; [|apply HbyName].
  destruct (truthy c); [|apply HbyName].
  destruct (has _ _) eqn:E; [|by left]. apply Hmoved. by left.
Qed.

Lemma mergeRelationship_appends (aliases : gmap string string)
    (trackId : string) (ents : list MusicEntity) (g : graph)
    (rel : Relationship) :
  r_source rel = trackId ->
  appends (mergedFrom trackId g rel) (g_relationships g)
    (g_relationships (mergeRelationship aliases trackId ents g rel)).
Proof.
  intros Hsource. unfold mergeRelationship.
  destruct (isDuplicate _ _); [apply appends_refl|].
  cbn [withRelationships g_relationships]. apply appends_one.
  by apply retarget_mergedFrom.
Qed.

(** The relationships of an assembled graph, in the order of the places
    that create them. *)
Lemma assemble_sites (aliases : gmap string string) (artistName : string)
    (albumName : option string) (recordingMbid : string)
    (fullRecording : FullRecording) (works : string -> option WorkData)
    (credits : Discogs.DiscogsCredits) (g : graph) :
  creditsFor ("track-" +:+ recordingMbid) credits ->
  assemble aliases artistName albumName recordingMbid fullRecording works
    (Some credits) = Some g ->
  exists artists albums personnel supplemental,
    g_relationships g = artists ++ albums ++ personnel ++ supplemental /\
    Forall (fromTemplate relId) artists /\
    Forall fromAlbumTemplate albums /\
    Forall (fromTemplate relId) personnel /\
    Forall (fun r => In r (Discogs.relationships credits) \/
                     fromTemplate mergedRelId r) supplemental.
Proof.
  intros Hcredits. unfold assemble.
  destruct (fr_releases fullRecording) as [releases|]; [|done].
  intros [= <-].
  set (trackId := "track-" +:+ recordingMbid) in *.
  set (g0 := mkGraph _ [] [trackId] [] [] []).
  set (g1 := (foldl (addArtistCredit trackId _) (g0, false) _).1).
  assert (appends (fromTemplate relId) [] (g_relationships g1)) as H1.
  { unfold g1.
    apply (foldl_appends _ (fun st : graph * bool => g_relationships st.1)
             (addArtistCredit trackId (normalizeForComparison artistName))
             _ (fun a x _ => addArtistCredit_appends trackId _ a x) (g0, false)). }
  set (g2 := match targetReleaseOf albumName releases with
             | Some targetRelease => addAlbum trackId g1 targetRelease
             | None => g1
             end).
  assert (appends fromAlbumTemplate (g_relationships g1) (g_relationships g2))
    as H2.
  { unfold g2. destruct (targetReleaseOf _ _);
      [apply addAlbum_appends|apply appends_refl]. }
  set (g3 := foldl (addPersonnel aliases trackId) g2 _).
  assert (appends (fromTemplate relId) (g_relationships g2) (g_relationships g3))
    as H3.
  { apply (foldl_appends _ g_relationships). intros a x _.
    apply addPersonnel_appends. }
  set (g4 := foldl (addWork aliases trackId works) g3 _).
  assert (appends (fromTemplate relId) (g_relationships g3) (g_relationships g4))
    as H4.
  { apply (foldl_appends _ g_relationships). intros a x _.
    apply addWork_appends. }
  assert (appends (fun r => In r (Discogs.relationships credits) \/
                            fromTemplate mergedRelId r)
            (g_relationships g4)
            (g_relationships (mergeDiscogs aliases trackId g4 credits))) as H5.
  { unfold mergeDiscogs.
    destruct (Discogs.entities credits) as [|e0 ents0]; [apply appends_refl|].
    set (st := foldl (mergeEntity aliases) _ (e0 :: ents0)).
    assert (g_relationships st.1 = g_relationships g4) as <-.
    { unfold st.
      apply (foldl_invariant
               (fun st : graph * list string =>
                  g_relationships st.1 = g_relationships g4)); [|done].
      intros a x _ Ha. by rewrite mergeEntity_relationships. }
    apply (foldl_appends _ g_relationships). intros a rel Hrel.
    eapply appends_impl; [|apply mergeRelationship_appends].
    - intros r [->|(Hid & _)]; [by left|by right].
    - unfold creditsFor in Hcredits. rewrite Forall_forall in Hcredits.
      apply list_elem_of_In in Hrel. by destruct (Hcredits rel Hrel). }
  destruct H1 as (artists & E1 & F1). destruct H2 as (albums & E2 & F2).
  destruct (appends_trans _ _ _ _ H3 H4) as (personnel & E3 & F3).
  destruct H5 as (supplemental & E5 & F5).
  exists artists, albums, personnel, supplemental.
  split; [|done]. rewrite E5, E3, E2, E1. cbn [app].
  by rewrite <- !app_assoc.
Qed.

(** C1 (as amended).  Each place that creates relationships gives them
    the id of its one template for their own source, target and role:
    the loops over the artist credits, the personnel and the work credits
    the template [rel-<source>-<target>-<role>], the album block
    [rel-<source>-<target>], [getTrackCredits]
    [rel-discogs-<source>-<target>-<role>], and the merge, for a Discogs
    credit that it moves to an entity of the graph,
    [rel-<source>-<target>-<role>-discogs], while a credit it does not
    move keeps its id.  The relationships of an assembled graph are, in
    this order, those of the artist credits, of the album, of the
    personnel and work credits and of the merge; the last part of the
    statement lists them for a recording with one credit of each kind.  Two relationships with
    the same source, target and role that follow the same template have
    the same id.  The merge of the Discogs credits compares the triples:
    merging credits into a graph into which they were merged before
    leaves it unchanged, and so does merging the credits of the track
    again into the assembled graph. *)
Theorem relationship_ids_and_merge (aliases : gmap string string)
    (artistName : string) (albumName : option string) (recordingMbid : string)
    (fullRecording : FullRecording) (works : string -> option WorkData)
    (configured : bool) (trackName : string)
    (found : option Discogs.DiscogsRelease) (g : graph)
    (Hg : assemble aliases artistName albumName recordingMbid fullRecording
            works
            (Some (Discogs.getTrackCredits configured trackName
                     (Some ("track-" +:+ recordingMbid)) found)) = Some g) :
  let trackId := "track-" +:+ recordingMbid in
  let credits :=
    Discogs.getTrackCredits configured trackName (Some trackId) found in
  Forall idDerivedFromTriple (g_relationships g) /\
  (forall g0 others,
      mergeDiscogs aliases trackId (mergeDiscogs aliases trackId g0 others) others
      = mergeDiscogs aliases trackId g0 others) /\
  mergeDiscogs aliases trackId g credits = g /\
  (forall wanted st credit,
      appends (fromTemplate relId) (g_relationships st.1)
        (g_relationships (addArtistCredit trackId wanted st credit).1)) /\
  (forall g0 release,
      appends fromAlbumTemplate (g_relationships g0)
        (g_relationships (addAlbum trackId g0 release))) /\
  (forall g0 rel,
      appends (fromTemplate relId) (g_relationships g0)
        (g_relationships (addPersonnel aliases trackId g0 rel))) /\
  (forall g0 rel,
      appends (fromTemplate relId) (g_relationships g0)
        (g_relationships (addWorkCredit aliases trackId g0 rel))) /\
  Forall (fun r => r_source r = trackId /\ fromTemplate Discogs.relId r)
    (Discogs.relationships credits) /\
  (forall g0 ents rel,
      In rel (Discogs.relationships credits) ->
      appends (mergedFrom trackId g0 rel) (g_relationships g0)
        (g_relationships (mergeRelationship aliases trackId ents g0 rel))) /\
  (exists artists albums personnel supplemental,
      g_relationships g = artists ++ albums ++ personnel ++ supplemental /\
      Forall (fromTemplate relId) artists /\
      Forall fromAlbumTemplate albums /\
      Forall (fromTemplate relId) personnel /\
      Forall (fun r => In r (Discogs.relationships credits) \/
                       fromTemplate mergedRelId r) supplemental) /\
  (forall template r1 r2,
      fromTemplate template r1 -> fromTemplate template r2 ->
      sameTriple r1 r2 -> r_id r1 = r_id r2) /\
  (forall r1 r2,
      fromAlbumTemplate r1 -> fromAlbumTemplate r2 ->
      sameTriple r1 r2 -> r_id r1 = r_id r2) /\
  (g_relationships <$>
     assemble weekndAliases "The Weeknd" (Some "After Hours") "r1"
       blindingLightsOnAlbum blindingLightsWorks
       (Some (Discogs.getTrackCredits true "Blinding Lights" (Some "track-r1")
                (Some discogsWithTwoProducers)))) =
  Some [mkRel "rel-track-r1-artist-C-primary_artist" "track-r1" "artist-C"
          primary_artist;
        mkRel "rel-release-ah-track-r1" "release-ah" "track-r1" contains;
        mkRel "rel-artist-C-release-ah" "artist-C" "release-ah" released_on;
        mkRel "rel-track-r1-artist-e1-engineer" "track-r1" "artist-e1"
          engineer;
        mkRel "rel-track-r1-artist-C-composer" "track-r1" "artist-C" composer;
        mkRel "rel-track-r1-artist-C-producer-discogs" "track-r1" "artist-C"
          producer;
        mkRel "rel-discogs-track-r1-artist-discogs-12-producer" "track-r1"
          "artist-discogs-12" producer].
Proof.
  cbv zeta.
  pose proof (getTrackCredits_creditsFor configured trackName
                ("track-" +:+ recordingMbid) found
                (track_id_nonempty recordingMbid)) as Hcredits.
  assert (Forall (fun r => r_source r = "track-" +:+ recordingMbid /\
                           fromTemplate Discogs.relId r)
            (Discogs.relationships
               (Discogs.getTrackCredits configured trackName
                  (Some ("track-" +:+ recordingMbid)) found))) as Hsite.
  { eapply Forall_impl; [exact Hcredits|]. intros r [Hs Hid].
    split; [exact Hs|]. unfold fromTemplate. by rewrite Hs. }
  repeat apply conj.
  - eapply assemble_derived; [|exact Hg].
    intros credits [= <-]. exact Hcredits.
  - intros g0 others. apply mergeDiscogs_idempotent.
  - apply assemble_with_credits in Hg as (g4 & _ & ->).
    apply mergeDiscogs_idempotent.
  - intros wanted st credit. apply addArtistCredit_appends.
  - intros g0 release. apply addAlbum_appends.
  - intros g0 rel. apply addPersonnel_appends.
  - intros g0 rel. apply addWorkCredit_appends.
  - exact Hsite.
  - intros g0 ents rel Hrel. apply mergeRelationship_appends.
    rewrite Forall_forall in Hsite. apply list_elem_of_In in Hrel.
    by destruct (Hsite rel Hrel).
  - by apply (assemble_sites aliases artistName albumName recordingMbid
                fullRecording works _ g Hcredits).
  - intros template r1 r2 H1 H2 (Hs & Ht & Hr). unfold fromTemplate in *.
    by rewrite H1, H2, Hs, Ht, Hr.
  - intros r1 r2 H1 H2 (Hs & Ht & _). unfold fromAlbumTemplate in *.
    by rewrite H1, H2, Hs, Ht.
  - vm_compute. reflexivity.
Qed.

Lemma relationship_ids_and_merge_witness :
  exists g,
    assemble weekndAliases "The Weeknd" None "r1" (blindingLights [])
      blindingLightsWorks
      (Some (Discogs.getTrackCredits true "Blinding Lights" (Some "track-r1")
               (Some discogsWithProducer))) = Some g /\
    map r_id (g_relationships g) =
      ["rel-track-r1-artist-C-primary_artist";
       "rel-track-r1-artist-C-producer-discogs"] /\
    Forall idDerivedFromTriple (g_relationships g) /\
    mergeDiscogs weekndAliases "track-r1" g
      (Discogs.getTrackCredits true "Blinding Lights" (Some "track-r1")
         (Some discogsWithProducer)) = g /\
    exists artists albums personnel supplemental,
      g_relationships g = artists ++ albums ++ personnel ++ supplemental /\
      Forall (fromTemplate relId) artists /\
      Forall fromAlbumTemplate albums /\
      Forall (fromTemplate relId) personnel /\
      Forall (fun r =>
                In r (Discogs.relationships
                        (Discogs.getTrackCredits true "Blinding Lights"
                           (Some "track-r1") (Some discogsWithProducer))) \/
                fromTemplate mergedRelId r) supplemental.
Proof.
  eexists. split; [vm_compute; reflexivity|].
  split; [reflexivity|].
  match goal with
  | |- Forall _ (g_relationships ?g) /\ _ =>
      destruct (relationship_ids_and_merge weekndAliases "The Weeknd" None
                  "r1" (blindingLights []) blindingLightsWorks true
                  "Blinding Lights" (Some discogsWithProducer) g)
        as (H1 & _ & H3 & _ & _ & _ & _ & _ & _ & H10 & _);
        [vm_compute; reflexivity|]
  end.
  split; [exact H1|split; [exact H3|exact H10]].
Defined.

(** C1 (as stated) fails: the producer credit of The Weeknd on the track
    has one id when MusicBrainz gives it and another when it comes from
    Discogs and is moved to the MusicBrainz artist, for the same source,
    target and role. *)
Lemma same_triple_two_ids :
  exists gA gB rA rB,
    assemble weekndAliases "The Weeknd" None "r1" (blindingLights [producerCredit])
      blindingLightsWorks None = Some gA /\
    assemble weekndAliases "The Weeknd" None "r1" (blindingLights [])
      blindingLightsWorks
      (Some (Discogs.getTrackCredits true "Blinding Lights" (Some "track-r1")
               (Some discogsWithProducer))) = Some gB /\
    In rA (g_relationships gA) /\ In rB (g_relationships gB) /\
    sameTriple rA rB /\
    r_id rA = "rel-track-r1-artist-C-producer" /\
    r_id rB = "rel-track-r1-artist-C-producer-discogs" /\
    r_id rA <> r_id rB.
Proof.
  do 4 eexists.
  split; [vm_compute; reflexivity|].
  split; [vm_compute; reflexivity|].
  split; [right; left; reflexivity|].
  split; [right; left; reflexivity|].
  split; [by repeat split|].
  split; [reflexivity|split; [reflexivity|discriminate]].
Qed.

End AssemblyFacts.

(** ** The track cache: reads, expiry and maintenance *)

Module CacheLifecycle.
Import JS Music TrackCache JSFacts TrackCacheFacts.

Lemma indexOf_has (key : string) (ks : list string) :
  has ks key = match indexOf key ks with Some _ => true | None => false end.
Proof.
  destruct (indexOf key ks) eqn:E.
  - apply has_true. destruct (in_dec string_dec key ks) as [|Hn]; [done|].
    apply indexOf_None in Hn. congruence.
  - apply has_false. by apply indexOf_None.
Qed.

Lemma indexOf_head (key : string) (ks : list string) :
  indexOf key ks = Some O -> exists rest, ks = key :: rest.
Proof.
  destruct ks as [|x ks]; [done|]. simpl.
  destruct (eqs x key) eqn:E.
  - apply eqs_true in E as ->. eauto.
  - destruct (indexOf key ks); discriminate.
Qed.

Lemma entryKey_not_index (key : string) :
  key <> "index" -> CACHE_PREFIX +:+ key <> INDEX_KEY.
Proof.
  intros Hne. change INDEX_KEY with (CACHE_PREFIX +:+ "index").
  by intros H%prefix_inj.
Qed.

Section Unbounded.

Variable fits : storage -> bool.
Hypothesis Hfits : forall ls, fits ls = true.

(** [removeCachedTrack] on a storage with a current index. *)
Lemma removeCachedTrack_indexed (d : nat) (key : string) (ks : list string)
    (ls : storage) :
  indexed ks ls ->
  key <> "index" ->
  exists ls',
    removeCachedTrack fits (2 + d) key ls = Some ls' /\
    indexed (removeKey key ks) ls' /\
    ls' !! (CACHE_PREFIX +:+ key) = None /\
    (forall x, x <> CACHE_PREFIX +:+ key -> x <> INDEX_KEY -> ls' !! x = ls !! x).
Proof.
  intros Hidx Hkey. pose proof (entryKey_not_index key Hkey) as Hne.
  change (2 + d)%nat with (S (S d)). unfold removeCachedTrack.
  assert (indexed ks (delete (CACHE_PREFIX +:+ key) ls)) as Hidx1.
  { unfold indexed. by rewrite lookup_delete_ne. }
  rewrite (getIndex_indexed d ks _ Hidx1). cbn [keys version].
  unfold removeKey. destruct (indexOf key ks) as [i|].
  - rewrite (saveIndex_ok fits Hfits). eexists. split; [reflexivity|].
    split; [apply lookup_insert_eq|split].
    + rewrite lookup_insert_ne by done. apply lookup_delete_eq.
    + intros x Hx Hx'. rewrite lookup_insert_ne by done.
      by rewrite lookup_delete_ne.
  - eexists. split; [reflexivity|]. split; [done|split].
    + apply lookup_delete_eq.
    + intros x Hx _. by rewrite lookup_delete_ne.
Qed.

(** A hit. *)
Lemma getCachedTrack_hit (d : nat) (now : Z) (t a : string)
    (al : option string) (ks : list string) (ls : storage) (e : CachedTrack) :
  let key := generateCacheKey t a al in
  indexed ks ls ->
  ls !! (CACHE_PREFIX +:+ key) = Some (StoredTrack e) ->
  now - timestamp e <= TTL_MS ->
  exists ls',
    getCachedTrack fits (2 + d) now t a al ls =
      Some (Hit (entities e) (relationships e), ls') /\
    ls' !! (CACHE_PREFIX +:+ key) =
      Some (StoredTrack
              {| entities := entities e; relationships := relationships e;
                 timestamp := timestamp e; lastAccess := now;
                 hitCount := hitCount e + 1 |}) /\
    indexed (if has ks key then key :: removeKey key ks else ks) ls' /\
    (forall x, x <> CACHE_PREFIX +:+ key -> x <> INDEX_KEY -> ls' !! x = ls !! x).
Proof.
  intros key Hidx Hentry Hfresh.
  pose proof (fullKey_not_index t a al) as Hne. fold key in Hne.
  change (2 + d)%nat with (S (S d)). unfold getCachedTrack. fold key.
  rewrite Hentry. unfold isExpired.
  destruct (Z.gtb_spec (now - timestamp e) TTL_MS) as [|_]; [lia|].
  rewrite (setItem_ok fits Hfits).
  set (e' := {| entities := entities e; relationships := relationships e;
                timestamp := timestamp e; lastAccess := now;
                hitCount := hitCount e + 1 |}).
  assert (indexed ks (<[CACHE_PREFIX +:+ key := StoredTrack e']> ls)) as Hidx1.
  { unfold indexed. by rewrite lookup_insert_ne. }
  rewrite (getIndex_indexed d ks _ Hidx1). cbn [keys version].
  rewrite indexOf_has. unfold removeKey.
  destruct (indexOf key ks) as [[|i]|] eqn:E.
  - eexists. split; [reflexivity|]. split; [apply lookup_insert_eq|split].
    + destruct (indexOf_head _ _ E) as (rest & ->). exact Hidx1.
    + intros x Hx _. by rewrite lookup_insert_ne.
  - rewrite (saveIndex_ok fits Hfits). eexists. split; [reflexivity|].
    split; [|split].
    + rewrite lookup_insert_ne by done. apply lookup_insert_eq.
    + apply lookup_insert_eq.
    + intros x Hx Hx'. by rewrite !lookup_insert_ne.
  - eexists. split; [reflexivity|]. split; [apply lookup_insert_eq|split].
    + exact Hidx1.
    + intros x Hx _. by rewrite lookup_insert_ne.
Qed.

(** [removeCachedTrack] for each key of a list. *)
Lemma removeAll_indexed (d : nat) (R : list string) :
  Forall (fun k => k <> "index") R ->
  forall (ks : list string) (ls : storage),
    indexed ks ls ->
    exists ls',
      removeAll fits (2 + d) R ls = Some ls' /\
      indexed (foldl (fun acc k => removeKey k acc) ks R) ls' /\
      (forall k, In k R -> ls' !! (CACHE_PREFIX +:+ k) = None) /\
      (forall x, x <> INDEX_KEY ->
                 (forall k, In k R -> x <> CACHE_PREFIX +:+ k) ->
                 ls' !! x = ls !! x).
Proof.
  induction 1 as [|k R Hk _ IH]; intros ks ls Hidx.
  { exists ls. repeat split; [done|by intros ? []]. }
  destruct (removeCachedTrack_indexed d k ks ls Hidx Hk)
    as (ls1 & Hrm & Hidx1 & Hgone & Hsame).
  destruct (IH _ _ Hidx1) as (ls' & Hall & Hidx' & Hgone' & Hsame').
  exists ls'. cbn [removeAll foldl]. rewrite Hrm.
  split; [exact Hall|split; [exact Hidx'|split]].
  - intros k' [<-|Hin]; [|by apply Hgone'].
    destruct (in_dec string_dec k R) as [Hin|Hout]; [by apply Hgone'|].
    rewrite Hsame'; [done|by apply entryKey_not_index|].
    intros k' Hin ->%prefix_inj. done.
  - intros x Hx Hout. rewrite Hsame'; [|done|].
    + apply Hsame; [|done]. apply Hout. by left.
    + intros k' Hin. apply Hout. by right.
Qed.

End Unbounded.

Lemma removeKey_head (key : string) (ks : list string) :
  removeKey key (key :: ks) = ks.
Proof.
  unfold removeKey. cbn [indexOf].
  by replace (eqs key key) with true by (symmetry; by apply eqs_true).
Qed.

(** Removing the keys a test selects, one after the other, leaves the keys
    the test rejects, in their order. *)
Lemma foldl_removeKey_filter (P : string -> bool) (ks pre : list string) :
  Forall (fun k => P k = false) pre ->
  foldl (fun acc k => removeKey k acc) (pre ++ ks) (List.filter P ks) =
  pre ++ List.filter (fun k => negb (P k)) ks.
Proof.
  revert pre. induction ks as [|x ks IH]; intros pre Hpre; [reflexivity|].
  cbn [List.filter]. destruct (P x) eqn:Px; cbn [negb foldl].
  - rewrite removeKey_app, removeKey_head; [by apply IH|].
    intros Hin. rewrite Forall_forall in Hpre.
    apply list_elem_of_In, Hpre in Hin. congruence.
  - change (pre ++ x :: ks) with (pre ++ [x] ++ ks).
    rewrite app_assoc, IH, <- app_assoc; [done|].
    apply Forall_app. split; [done|by constructor].
Qed.

Lemma foldl_delete_snoc (ks : list string) (k : string) (ls : storage) :
  foldl (fun acc key => delete (CACHE_PREFIX +:+ key) acc) ls (ks ++ [k]) =
  delete (CACHE_PREFIX +:+ k)
    (foldl (fun acc key => delete (CACHE_PREFIX +:+ key) acc) ls ks).
Proof. by rewrite foldl_app. Qed.

Lemma foldl_delete_gone (ks : list string) (ls : storage) (k : string) :
  In k ks ->
  foldl (fun acc key => delete (CACHE_PREFIX +:+ key) acc) ls ks
    !! (CACHE_PREFIX +:+ k) = None.
Proof.
  induction ks as [|k0 ks IH] using rev_ind; [done|].
  rewrite foldl_delete_snoc. intros Hin.
  destruct (string_dec k k0) as [->|Hne]; [apply lookup_delete_eq|].
  rewrite lookup_delete_ne by (intros H%prefix_inj; congruence).
  apply IH. apply in_app_or in Hin as [|[|[]]]; [done|congruence].
Qed.

Lemma foldl_delete_other (ks : list string) (ls : storage) (x : string) :
  (forall k, In k ks -> x <> CACHE_PREFIX +:+ k) ->
  foldl (fun acc key => delete (CACHE_PREFIX +:+ key) acc) ls ks !! x = ls !! x.
Proof.
  induction ks as [|k0 ks IH] using rev_ind; [done|].
  rewrite foldl_delete_snoc. intros Hout.
  rewrite lookup_delete_ne.
  - apply IH. intros k Hin. apply Hout, in_or_app. by left.
  - intros <-. eapply Hout; [|reflexivity]. apply in_or_app. right. by left.
Qed.

(** X1.  What [setCachedTrack] stored is what [getCachedTrack] answers for
    the same track, artist and album, whatever the storage held before, as
    long as the entry is not older than [TTL_MS] (an entry exactly that old
    is still served) and writes succeed. *)
Theorem setCachedTrack_then_getCachedTrack (fits : storage -> bool)
    (d : nat) (now now' : Z) (t a : string) (al : option string)
    (ents : list MusicEntity) (rels : list Relationship) (ls : storage)
    (Hfits : forall s, fits s = true)
    (Hents : ents <> [])
    (Hage : now' - now <= TTL_MS) :
  exists ls1 ls2,
    setCachedTrack fits (2 + d) now t a al ents rels ls = Some ls1 /\
    getCachedTrack fits (2 + d) now' t a al ls1 = Some (Hit ents rels, ls2).
Proof.
  destruct (getIndex_returns d ls) as (ks & ls0 & Hget).
  pose proof (setCachedTrack_step fits Hfits d now t a al ents rels ls ls0 ks
                Hents Hget) as Hset.
  cbv zeta in Hset. eexists. 
  destruct (getCachedTrack_hit fits Hfits d now' t a al
              (generateCacheKey t a al
               :: (evictWhileFull
                     (length (removeKey (generateCacheKey t a al) ks))
                     (removeKey (generateCacheKey t a al) ks) ls0).1)
              (<[CACHE_PREFIX +:+ generateCacheKey t a al :=
                   StoredTrack (newEntry now ents rels)]>
                 (<[INDEX_KEY :=
                      StoredIndex
                        {| keys := generateCacheKey t a al
                                   :: (evictWhileFull
                                         (length (removeKey (generateCacheKey t a al) ks))
                                         (removeKey (generateCacheKey t a al) ks) ls0).1;
                           version := CACHE_VERSION |}]>
                    (evictWhileFull
                       (length (removeKey (generateCacheKey t a al) ks))
                       (removeKey (generateCacheKey t a al) ks) ls0).2))
              (newEntry now ents rels))
    as (ls2 & Hhit & _).
  - unfold indexed. rewrite lookup_insert_ne by apply fullKey_not_index.
    apply lookup_insert_eq.
  - apply lookup_insert_eq.
  - exact Hage.
  - exists ls2. split; [exact Hset|exact Hhit].
Qed.

Lemma setCachedTrack_then_getCachedTrack_witness :
  exists ls1 ls2,
    setCachedTrack (fun _ => true) 2 1000 "Smooth Criminal" "Michael Jackson"
      (Some "Bad") [sampleEntity] [] staleStorage = Some ls1 /\
    getCachedTrack (fun _ => true) 2 (1000 + TTL_MS) "Smooth Criminal"
      "Michael Jackson" (Some "Bad") ls1 = Some (Hit [sampleEntity] [], ls2).
Proof.
  apply (setCachedTrack_then_getCachedTrack (fun _ => true) 0 1000
           (1000 + TTL_MS) "Smooth Criminal" "Michael Jackson" (Some "Bad")
           [sampleEntity] [] staleStorage).
  - reflexivity.
  - discriminate.
  - lia.
Defined.

(** X2.  [getCachedTrack] on an entry older than [TTL_MS] answers null,
    removes the entry from the storage and its key from the index, and
    touches nothing else. *)
Theorem getCachedTrack_expired_removes (fits : storage -> bool)
    (d : nat) (now : Z) (t a : string) (al : option string)
    (ks : list string) (ls : storage) (e : CachedTrack)
    (Hfits : forall s, fits s = true)
    (Hidx : indexed ks ls)
    (Hentry : ls !! (CACHE_PREFIX +:+ generateCacheKey t a al)
              = Some (StoredTrack e))
    (Hold : TTL_MS < now - timestamp e) :
  exists ls',
    getCachedTrack fits (3 + d) now t a al ls = Some (Miss, ls') /\
    ls' !! (CACHE_PREFIX +:+ generateCacheKey t a al) = None /\
    indexed (removeKey (generateCacheKey t a al) ks) ls' /\
    (forall x, x <> CACHE_PREFIX +:+ generateCacheKey t a al ->
               x <> INDEX_KEY -> ls' !! x = ls !! x).
Proof.
  destruct (removeCachedTrack_indexed fits Hfits d (generateCacheKey t a al)
              ks ls Hidx (generateCacheKey_not_index t a al))
    as (ls' & Hrm & Hidx' & Hgone & Hsame).
  exists ls'. split; [|done].
  change (3 + d)%nat with (S (2 + d)). unfold getCachedTrack.
  rewrite Hentry. unfold isExpired.
  destruct (Z.gtb_spec (now - timestamp e) TTL_MS) as [_|]; [|lia].
  by rewrite Hrm.
Qed.

Lemma getCachedTrack_expired_removes_witness :
  exists ls',
    getCachedTrack (fun _ => true) 3 (1001 + TTL_MS) "t" "a" None fullStorage1
      = Some (Miss, ls') /\
    ls' !! (CACHE_PREFIX +:+ "a::t") = None /\
    indexed (removeKey "a::t" fullKeys) ls' /\
    (forall x, x <> CACHE_PREFIX +:+ "a::t" ->
               x <> INDEX_KEY -> ls' !! x = fullStorage1 !! x).
Proof.
  apply (getCachedTrack_expired_removes (fun _ => true) 0 (1001 + TTL_MS)
           "t" "a" None fullKeys fullStorage1 (newEntry 1000 [sampleEntity] [])).
  - reflexivity.
  - unfold indexed, fullStorage1.
    rewrite !lookup_insert_ne
      by (change INDEX_KEY with (CACHE_PREFIX +:+ "index"); by intros ?%prefix_inj).
    apply lookup_insert_eq.
  - apply lookup_insert_eq.
  - simpl. lia.
Defined.

(** X3.  A hit answers the stored entities and relationships, counts the
    hit and records the time of the access, and keeps the time at which
    the entry was stored: reading an entry does not extend its life.  The
    key moves to the front of the index when the index has it; an entry
    the index does not list is served all the same and stays unlisted. *)
Theorem getCachedTrack_hit_moves_key_to_front (fits : storage -> bool)
    (d : nat) (now : Z) (t a : string) (al : option string)
    (ks : list string) (ls : storage) (e : CachedTrack)
    (Hfits : forall s, fits s = true)
    (Hidx : indexed ks ls)
    (Hentry : ls !! (CACHE_PREFIX +:+ generateCacheKey t a al)
              = Some (StoredTrack e))
    (Hfresh : now - timestamp e <= TTL_MS) :
  exists ls',
    getCachedTrack fits (2 + d) now t a al ls =
      Some (Hit (entities e) (relationships e), ls') /\
    ls' !! (CACHE_PREFIX +:+ generateCacheKey t a al) =
      Some (StoredTrack
              {| entities := entities e; relationships := relationships e;
                 timestamp := timestamp e; lastAccess := now;
                 hitCount := hitCount e + 1 |}) /\
    indexed (if has ks (generateCacheKey t a al)
             then generateCacheKey t a al
                  :: removeKey (generateCacheKey t a al) ks
             else ks) ls' /\
    (forall x, x <> CACHE_PREFIX +:+ generateCacheKey t a al ->
               x <> INDEX_KEY -> ls' !! x = ls !! x).
Proof. by apply getCachedTrack_hit. Qed.

Lemma getCachedTrack_hit_moves_key_to_front_witness :
  exists ls',
    getCachedTrack (fun _ => true) 2 2000 "tt" "a" None fullStorage1 =
      Some (Hit [sampleEntity] [], ls') /\
    ls' !! (CACHE_PREFIX +:+ "a::tt") =
      Some (StoredTrack (mkCached [sampleEntity] [] 1000 2000 1)) /\
    indexed ("a::tt" :: removeKey "a::tt" fullKeys) ls' /\
    (forall x, x <> CACHE_PREFIX +:+ "a::tt" ->
               x <> INDEX_KEY -> ls' !! x = fullStorage1 !! x).
Proof.
  apply (getCachedTrack_hit_moves_key_to_front (fun _ => true) 0 2000
           "tt" "a" None fullKeys fullStorage1 (newEntry 1000 [sampleEntity] [])).
  - reflexivity.
  - unfold indexed, fullStorage1.
    rewrite !lookup_insert_ne
      by (change INDEX_KEY with (CACHE_PREFIX +:+ "index"); by intros ?%prefix_inj).
    apply lookup_insert_eq.
  - unfold fullStorage1. rewrite lookup_insert_ne by (by intros ?%prefix_inj).
    apply lookup_insert_eq.
  - vm_compute. discriminate.
Defined.

Lemma filter_none {A : Type} (f : A -> bool) (l : list A) :
  (forall x, In x l -> f x = false) -> List.filter f l = [].
Proof.
  induction l as [|x l IH]; intros H; [reflexivity|]. cbn [List.filter].
  rewrite (H x) by (by left). apply IH. intros y Hy. apply H. by right.
Qed.

Lemma staleKey_index (now : Z) (ks : list string) (ls : storage) :
  indexed ks ls -> staleKey now ls "index" = false.
Proof.
  unfold staleKey, indexed. change (CACHE_PREFIX +:+ "index") with INDEX_KEY.
  by intros ->.
Qed.

(** X4.  [cleanupExpiredEntries] answers the number of keys of the index
    whose entry is expired, missing or unreadable; it removes those
    entries and keys, keeps the other keys in their order and their
    entries as they are, and a second run at the same time finds nothing
    to remove. *)
Theorem cleanupExpiredEntries_removes_stale (fits : storage -> bool)
    (d : nat) (now : Z) (ks : list string) (ls : storage)
    (Hfits : forall s, fits s = true)
    (Hidx : indexed ks ls) :
  let stale := List.filter (staleKey now ls) ks in
  let fresh := List.filter (fun k => negb (staleKey now ls k)) ks in
  exists ls',
    cleanupExpiredEntries fits (3 + d) now ls = Some (length stale, ls') /\
    indexed fresh ls' /\
    (forall k, In k stale -> ls' !! (CACHE_PREFIX +:+ k) = None) /\
    (forall k, In k fresh -> k <> "index" ->
               ls' !! (CACHE_PREFIX +:+ k) = ls !! (CACHE_PREFIX +:+ k)) /\
    cleanupExpiredEntries fits (3 + d) now ls' = Some (0%nat, ls').
Proof.
  intros stale fresh.
  assert (Forall (fun k => k <> "index") stale) as Hstale.
  { apply Forall_forall. intros k Hin%list_elem_of_In%filter_In ->.
    destruct Hin as [_ Hin]. by rewrite (staleKey_index now ks ls Hidx) in Hin. }
  destruct (removeAll_indexed fits Hfits d stale Hstale ks ls Hidx)
    as (ls' & Hall & Hidx' & Hgone & Hsame).
  assert (foldl (fun acc k => removeKey k acc) ks stale = fresh) as Hkeys
    by (apply (foldl_removeKey_filter (staleKey now ls) ks []); constructor).
  rewrite Hkeys in Hidx'.
  assert (forall k, In k fresh -> k <> "index" ->
                    ls' !! (CACHE_PREFIX +:+ k) = ls !! (CACHE_PREFIX +:+ k))
    as Hkept.
  { intros k [_ Hk]%filter_In Hne. apply Hsame; [by apply entryKey_not_index|].
    intros k' [_ Hk']%filter_In ->%prefix_inj.
    rewrite Hk' in Hk. discriminate. }
  change (2 + d)%nat with (S (S d)) in Hall.
  exists ls'. split; [|split; [done|split; [done|split; [done|]]]].
  - change (3 + d)%nat with (S (S (S d))). unfold cleanupExpiredEntries.
    rewrite (getIndex_indexed (S d) ks ls Hidx). cbn [keys].
    fold stale. by rewrite Hall.
  - change (3 + d)%nat with (S (S (S d))). unfold cleanupExpiredEntries.
    rewrite (getIndex_indexed (S d) fresh ls' Hidx'). cbn [keys].
    assert (List.filter (staleKey now ls') fresh = []) as ->; [|reflexivity].
    apply filter_none. intros k Hin.
    destruct (string_dec k "index") as [->|Hne];
      [by apply (staleKey_index now fresh)|].
    unfold staleKey. rewrite (Hkept k Hin Hne).
    apply filter_In in Hin as [_ Hk]. by apply negb_true_iff in Hk.
Qed.

Lemma cleanupExpiredEntries_removes_stale_witness :
  exists ls',
    cleanupExpiredEntries (fun _ => true) 3 (1001 + TTL_MS) fullStorage1
      = Some (150%nat, ls') /\
    indexed [] ls' /\
    cleanupExpiredEntries (fun _ => true) 3 (1001 + TTL_MS) ls' = Some (0%nat, ls').
Proof.
  destruct (cleanupExpiredEntries_removes_stale (fun _ => true) 0
              (1001 + TTL_MS) fullKeys fullStorage1)
    as (ls' & Hrun & Hidx & _ & _ & Hagain).
  - reflexivity.
  - unfold indexed, fullStorage1.
    rewrite !lookup_insert_ne
      by (change INDEX_KEY with (CACHE_PREFIX +:+ "index"); by intros ?%prefix_inj).
    apply lookup_insert_eq.
  - exists ls'. split; [exact Hrun|split; [exact Hidx|exact Hagain]].
Defined.

(** X5.  [clearCache] on a current index removes the index and the entry
    of every key it lists, and nothing else: an entry the index does not
    list is left in the storage.  Afterwards the statistics are those of
    an empty cache and every listed track is a miss. *)
Theorem clearCache_removes_listed_entries (d : nat) (ks : list string)
    (ls : storage)
    (Hidx : indexed ks ls) :
  exists ls',
    clearCache (2 + d) ls = Some ls' /\
    ls' !! INDEX_KEY = None /\
    (forall k, In k ks -> ls' !! (CACHE_PREFIX +:+ k) = None) /\
    (forall x, x <> INDEX_KEY ->
               (forall k, In k ks -> x <> CACHE_PREFIX +:+ k) ->
               ls' !! x = ls !! x) /\
    getCacheStats (2 + d) ls' =
      Some ({| trackCount := 0; oldestEntry := None; newestEntry := None;
               totalHits := Finite 0 |}, ls') /\
    (forall fits now t a al,
        In (generateCacheKey t a al) ks ->
        getCachedTrack fits (1 + d) now t a al ls' = Some (Miss, ls')).
Proof.
  eexists. split.
  { change (2 + d)%nat with (S (S d)).
    rewrite clearCache_S, (getIndex_indexed d ks ls Hidx). reflexivity. }
  cbn [keys].
  assert (forall k, In k ks ->
            delete INDEX_KEY
              (foldl (fun acc key => delete (CACHE_PREFIX +:+ key) acc) ls ks)
            !! (CACHE_PREFIX +:+ k) = None) as Hgone.
  { intros k Hin.
    destruct (string_dec (CACHE_PREFIX +:+ k) INDEX_KEY) as [->|Hne];
      [apply lookup_delete_eq|].
    rewrite lookup_delete_ne by done. by apply foldl_delete_gone. }
  split; [apply lookup_delete_eq|split; [exact Hgone|split; [|split]]].
  - intros x Hx Hout. rewrite lookup_delete_ne by done.
    by apply foldl_delete_other.
  - change (2 + d)%nat with (S (S d)). unfold getCacheStats.
    by rewrite getIndex_S, lookup_delete_eq.
  - intros fits now t a al Hin. unfold getCachedTrack. cbn [Nat.add].
    by rewrite (Hgone _ Hin).
Qed.

Lemma clearCache_removes_listed_entries_witness :
  exists ls',
    clearCache 2 fullStorage1 = Some ls' /\
    ls' !! INDEX_KEY = None /\
    (forall k, In k fullKeys -> ls' !! (CACHE_PREFIX +:+ k) = None).
Proof.
  destruct (clearCache_removes_listed_entries 0 fullKeys fullStorage1)
    as (ls' & Hrun & Hidx & Hgone & _).
  - unfold indexed, fullStorage1.
    rewrite !lookup_insert_ne
      by (change INDEX_KEY with (CACHE_PREFIX +:+ "index"); by intros ?%prefix_inj).
    apply lookup_insert_eq.
  - exists ls'. split; [exact Hrun|split; [exact Hidx|exact Hgone]].
Defined.

Lemma sum_snoc (l : list Z) (x : Z) :
  fold_right Z.add 0 (l ++ [x]) = fold_right Z.add 0 l + x.
Proof. induction l as [|y l IH]; simpl; lia. Qed.

(** The loop of [getCacheStats] over the keys. *)
Lemma statsStep_fold (ls : storage) (ks : list string) :
  exists oldest newest,
    foldl (statsStep ls) (None, Finite 0, Finite 0) ks =
      (oldest, newest,
       if existsb (noHitCount ls) ks then NaN
       else Finite (fold_right Z.add 0 (map (hitsOf ls) ks))) /\
    (existsb (noTimestamp ls) ks = true -> oldest = Some NaN /\ newest = NaN) /\
    (existsb (noTimestamp ls) ks = false ->
     (oldest = None \/ exists o, oldest = Some (Finite o)) /\
     exists n,
       newest = Finite n /\ 0 <= n /\
       forall k e, In k ks -> ls !! (CACHE_PREFIX +:+ k) = Some (StoredTrack e) ->
                   (exists o, oldest = Some (Finite o) /\ o <= timestamp e) /\
                   timestamp e <= n).
Proof.
  induction ks as [|k ks IH] using rev_ind.
  { exists None, (Finite 0). split; [reflexivity|split; [done|]].
    intros _. split; [by left|]. exists 0. split; [done|split; [lia|by intros ? ? []]]. }
  destruct IH as (o & n & Hfold & Hnan & Hfin).
  rewrite foldl_app, Hfold, map_app, !existsb_app. cbn [foldl map existsb].
  rewrite sum_snoc, !orb_false_r.
  assert (noTimestamp ls k =
          match ls !! (CACHE_PREFIX +:+ k) with
          | Some (StoredIndex _) | Some (StoredTouched _ _) | Some StoredOther =>
              true
          | _ => false
          end) as -> by (unfold noTimestamp; by destruct (ls !! _) as [[]|]).
  assert (noHitCount ls k =
          match ls !! (CACHE_PREFIX +:+ k) with
          | Some (StoredIndex _) | Some StoredOther => true
          | _ => false
          end) as -> by (unfold noHitCount; by destruct (ls !! _) as [[]|]).
  assert (hitsOf ls k =
          match ls !! (CACHE_PREFIX +:+ k) with
          | Some (StoredTrack entry) => hitCount entry
          | Some (StoredTouched _ hits) => default 0 hits
          | _ => 0
          end) as -> by reflexivity.
  unfold statsStep at 1.
  destruct (ls !! (CACHE_PREFIX +:+ k)) as [[idx| e | | |idx hits]|] eqn:E;
    cbn [timestampOf hitCountOf].
  - (* an index *)
    eexists _, _. rewrite !orb_true_r.
    split; [by destruct (existsb (noHitCount ls) ks)|].
    split; [|done]. intros _. by destruct o as [[]|], n.
  - (* a track *)
    eexists _, _. rewrite !orb_false_r, Z.add_comm.
    split; [destruct (existsb (noHitCount ls) ks); [reflexivity|];
            cbn [plusNumber]; by rewrite Z.add_comm|].
    split.
    + intros H. destruct (Hnan H) as [-> ->]. done.
    + intros H. destruct (Hfin H) as (Ho & n0 & -> & Hn0 & Hall).
      split; [right; destruct Ho as [->|(o0 & ->)]; cbn; eauto|].
      exists (Z.max n0 (timestamp e)). split; [reflexivity|split; [lia|]].
      intros k' e' Hin He'. apply in_app_or in Hin as [Hin|[<-|[]]].
      * destruct (Hall k' e' Hin He') as [(o' & -> & Ho') Hle].
        split; [|lia]. eexists. split; [reflexivity|lia].
      * assert (e' = e) as -> by congruence. split; [|lia].
        destruct Ho as [->|(o0 & ->)]; cbn; eexists;
          (split; [reflexivity|lia]).
  - (* a number, a string or a boolean *)
    eexists _, _. rewrite !orb_true_r.
    split; [by destruct (existsb (noHitCount ls) ks)|].
    split; [|done]. intros _. by destruct o as [[]|], n.
  - (* a text that does not parse *)
    exists o, n. rewrite !orb_false_r, Z.add_0_r.
    split; [reflexivity|split; [exact Hnan|]].
    intros H. destruct (Hfin H) as (Ho & n0 & -> & Hn0 & Hall).
    split; [exact Ho|]. exists n0. split; [reflexivity|split; [lia|]].
    intros k' e' Hin He'. apply in_app_or in Hin as [Hin|[<-|[]]];
      [by apply (Hall k' e')|congruence].
  - (* an index that was read as a track *)
    eexists _, _. rewrite orb_true_r, orb_false_r.
    split; [destruct (existsb (noHitCount ls) ks); reflexivity|].
    split; [|done]. intros _. by destruct o as [[]|], n.
  - (* no text *)
    exists o, n. rewrite !orb_false_r, Z.add_0_r.
    split; [reflexivity|split; [exact Hnan|]].
    intros H. destruct (Hfin H) as (Ho & n0 & -> & Hn0 & Hall).
    split; [exact Ho|]. exists n0. split; [reflexivity|split; [lia|]].
    intros k' e' Hin He'. apply in_app_or in Hin as [Hin|[<-|[]]];
      [by apply (Hall k' e')|congruence].
Qed.

(** X6.  [getCacheStats] counts the keys of the index, whether or not
    their entries can be read, and does not change the storage.  When no
    listed key holds a value that parses without being a track,
    [totalHits] is the sum of the hit counts of the entries,
    [oldestEntry] is at most, and [newestEntry] at least, the time at
    which any listed entry was stored ([newestEntry] for an entry stored
    after time 0).  One listed key that holds such a value (a number, or
    an index) makes the arithmetic of the loop give [NaN]: both dates are
    then null, whatever the other entries are, and [totalHits] is [NaN]
    as soon as the value has no [hitCount]. *)
Theorem getCacheStats_summarises_index (d : nat) (ks : list string)
    (ls : storage)
    (Hidx : indexed ks ls) :
  exists stats,
    getCacheStats (2 + d) ls = Some (stats, ls) /\
    trackCount stats = length ks /\
    totalHits stats =
      (if existsb (noHitCount ls) ks then NaN
       else Finite (fold_right Z.add 0 (map (hitsOf ls) ks))) /\
    (existsb (noTimestamp ls) ks = true ->
     oldestEntry stats = None /\ newestEntry stats = None) /\
    (existsb (noTimestamp ls) ks = false ->
     forall k e, In k ks -> ls !! (CACHE_PREFIX +:+ k) = Some (StoredTrack e) ->
                 (exists o, oldestEntry stats = Some o /\ o <= timestamp e) /\
                 (0 < timestamp e ->
                  exists n, newestEntry stats = Some n /\ timestamp e <= n)).
Proof.
  destruct (statsStep_fold ls ks) as (o & n & Hfold & Hnan & Hfin).
  change (2 + d)%nat with (S (S d)). unfold getCacheStats.
  rewrite (getIndex_indexed d ks ls Hidx). cbn [keys]. rewrite Hfold.
  eexists. split; [reflexivity|].
  cbn [trackCount totalHits oldestEntry newestEntry].
  split; [reflexivity|split; [reflexivity|split]].
  - intros H. by destruct (Hnan H) as [-> ->].
  - intros H k e Hin He.
    destruct (Hfin H) as (_ & n0 & -> & Hn0 & Hall).
    destruct (Hall k e Hin He) as [(o0 & -> & Ho) Hle].
    split; [eauto|]. intros Hpos.
    destruct (Z.gtb_spec n0 0); [|lia]. eauto.
Qed.

Lemma getCacheStats_summarises_index_witness :
  (exists stats,
      getCacheStats 2 fullStorage1 = Some (stats, fullStorage1) /\
      trackCount stats = 150%nat /\
      totalHits stats = Finite 0 /\
      exists o, oldestEntry stats = Some o /\ o <= 1000) /\
  (exists stats,
      getCacheStats 2 fullStorageWithNumber = Some (stats, fullStorageWithNumber) /\
      trackCount stats = 150%nat /\
      totalHits stats = NaN /\
      oldestEntry stats = None /\ newestEntry stats = None).
Proof.
  split.
  - destruct (getCacheStats_summarises_index 0 fullKeys fullStorage1)
      as (stats & Hrun & Hcount & Hhits & _ & Hdates).
    + unfold indexed, fullStorage1.
      rewrite !lookup_insert_ne
        by (change INDEX_KEY with (CACHE_PREFIX +:+ "index");
            by intros ?%prefix_inj).
      apply lookup_insert_eq.
    + exists stats. split; [exact Hrun|split; [exact Hcount|]].
      split; [rewrite Hhits; vm_compute; reflexivity|].
      destruct (Hdates ltac:(vm_compute; reflexivity) "a::t"
                  (newEntry 1000 [sampleEntity] []))
        as [(o & Ho & Hle) _].
      * apply has_true. vm_compute. reflexivity.
      * apply lookup_insert_eq.
      * exists o. split; [exact Ho|exact Hle].
  - destruct (getCacheStats_summarises_index 0 fullKeys fullStorageWithNumber)
      as (stats & Hrun & Hcount & Hhits & Hnull & _).
    + unfold indexed, fullStorageWithNumber, fullStorage1.
      rewrite !lookup_insert_ne
        by (change INDEX_KEY with (CACHE_PREFIX +:+ "index");
            by intros ?%prefix_inj).
      apply lookup_insert_eq.
    + exists stats. split; [exact Hrun|split; [exact Hcount|]].
      split; [rewrite Hhits; vm_compute; reflexivity|].
      apply Hnull. vm_compute. reflexivity.
Defined.

End CacheLifecycle.

(** ** The track cache: keys *)

Module CacheKeys.
Import JS Music TrackCache JSFacts TrackCacheFacts.

Lemma chars_str (l : list ascii) : chars (str l) = l.
Proof. apply list_ascii_of_string_of_list_ascii. Qed.

(** A global replacement of one class of characters by nothing is a
    filter. *)
Lemma replaceAllFrom_class (p : ascii -> bool) (s : list ascii) (n : nat) :
  (length s <= n)%nat ->
  replaceAllFrom n (Cls p) [] s = List.filter (fun c => negb (p c)) s.
Proof.
  revert n. induction s as [|c s IH]; intros n Hn.
  { by destruct n. }
  destruct n as [|n]; [simpl in Hn; lia|].
  cbn [replaceAllFrom rmatch List.filter]. destruct (p c); cbn [negb].
  - destruct (Nat.ltb_spec (length s) (length (c :: s))) as [_|H];
      [|simpl in H; lia].
    apply IH. simpl in Hn. lia.
  - f_equal. apply IH. simpl in Hn. lia.
Qed.

Lemma replaceAll_class (p : ascii -> bool) (s : string) :
  replaceAll (Cls p) "" s = str (List.filter (fun c => negb (p c)) (chars s)).
Proof. unfold replaceAll. by rewrite replaceAllFrom_class by lia. Qed.

(** [\s+] at the start of the input takes the whole run of white space. *)
Lemma greedyLoop_space (n : nat) (s : list ascii) :
  (length s <= n)%nat ->
  greedyLoop (rmatch space) Some n s = Some (dropSpaces s).
Proof.
  revert s. induction n as [|n IH]; intros s Hn.
  { destruct s; [reflexivity|simpl in Hn; lia]. }
  destruct s as [|c s]; [reflexivity|].
  cbn [greedyLoop]. unfold space at 1. cbn [rmatch dropSpaces].
  destruct (isSpace c); [|reflexivity].
  destruct (Nat.ltb_spec (length s) (length (c :: s))) as [_|H];
    [|simpl in H; lia].
  rewrite IH by (simpl in Hn; lia). reflexivity.
Qed.

Lemma rmatch_plus_space (s : list ascii) :
  rmatch (plus space) s Some =
  match s with
  | c :: s' => if isSpace c then Some (dropSpaces s') else None
  | [] => None
  end.
Proof.
  unfold plus. cbn [rmatch]. unfold space at 1. cbn [rmatch].
  destruct s as [|c s]; [reflexivity|].
  destruct (isSpace c); [|reflexivity]. apply greedyLoop_space. lia.
Qed.

Lemma length_dropSpaces (s : list ascii) : (length (dropSpaces s) <= length s)%nat.
Proof.
  induction s as [|c s IH]; [done|]. cbn [dropSpaces].
  destruct (isSpace c); simpl; lia.
Qed.

Lemma Forall_dropSpaces (P : ascii -> Prop) (s : list ascii) :
  Forall P s -> Forall P (dropSpaces s).
Proof.
  induction 1 as [|c s Hc Hs IH]; [constructor|]. cbn [dropSpaces].
  destruct (isSpace c); [done|by constructor].
Qed.

Lemma Forall_trimChars (P : ascii -> Prop) (s : list ascii) :
  Forall P s -> Forall P (trimChars s).
Proof.
  intros H. unfold trimChars.
  apply Forall_rev, Forall_dropSpaces, Forall_rev, Forall_dropSpaces, H.
Qed.

(** After [\s+] is replaced by a word character, no white space is
    left. *)
Lemma replaceAllFrom_spaces (P : ascii -> Prop) (rep : list ascii) (n : nat) :
  Forall P rep ->
  forall s,
    (length s <= n)%nat ->
    Forall (fun c => isSpace c = false -> P c) s ->
    Forall P (replaceAllFrom n (plus space) rep s).
Proof.
  intros Hrep. induction n as [|n IH]; intros s Hn Hs.
  { destruct s; [constructor|simpl in Hn; lia]. }
  cbn [replaceAllFrom]. rewrite rmatch_plus_space.
  destruct s as [|c s]; [constructor|].
  inversion Hs as [|? ? Hc Hs']; subst.
  pose proof (length_dropSpaces s) as Hlen.
  destruct (isSpace c) eqn:Ec.
  - destruct (Nat.ltb_spec (length (dropSpaces s)) (length (c :: s)))
      as [_|H]; [|simpl in H; lia].
    apply Forall_app. split; [done|].
    apply IH; [simpl in Hn; lia|by apply Forall_dropSpaces].
  - constructor; [by apply Hc|]. apply IH; [simpl in Hn; lia|done].
Qed.

Lemma keyChar_lowerChar (c : ascii) :
  (isWord (lowerChar c) || isSpace (lowerChar c))%bool = true ->
  isSpace (lowerChar c) = false -> keyChar (lowerChar c) = true.
Proof. destruct c as [[] [] [] [] [] [] [] []]; vm_compute; congruence. Qed.

Lemma lowerChar_idempotent (c : ascii) : lowerChar (lowerChar c) = lowerChar c.
Proof. destruct c as [[] [] [] [] [] [] [] []]; vm_compute; reflexivity. Qed.

Lemma toLowerCase_idempotent (s : string) :
  toLowerCase (toLowerCase s) = toLowerCase s.
Proof.
  unfold toLowerCase. rewrite chars_str, map_map. f_equal.
  apply map_ext. intros c. apply lowerChar_idempotent.
Qed.

Lemma keyChar_not_colon (c : ascii) : keyChar c = true -> c <> ":"%char.
Proof. intros H ->. vm_compute in H. discriminate. Qed.

(** The characters and the length of a normalized component. *)
Lemma normalizeForKey_chars (s : string) :
  Forall (fun c => keyChar c = true) (chars (normalizeForKey s)) /\
  (length (chars (normalizeForKey s)) <= 50)%nat.
Proof.
  unfold normalizeForKey, sliceTo, trim, replaceAll at 1.
  rewrite !chars_str. split; [|apply firstn_le_length].
  apply Forall_take, Forall_trimChars.
  apply replaceAllFrom_spaces; [by repeat constructor|lia|].
  rewrite replaceAll_class, chars_str. unfold toLowerCase. rewrite chars_str.
  apply Forall_forall. intros c Hc%list_elem_of_In%filter_In.
  destruct Hc as [Hin Hkeep]. apply in_map_iff in Hin as (x & <- & _).
  apply negb_true_iff, negb_false_iff in Hkeep. by apply keyChar_lowerChar.
Qed.

(** Components without a colon are read back from what [join] made of
    them. *)
Lemma split_at_separator (a a' r r' : string) :
  Forall (fun c => keyChar c = true) (chars a) ->
  Forall (fun c => keyChar c = true) (chars a') ->
  a +:+ "::" +:+ r = a' +:+ "::" +:+ r' -> a = a' /\ r = r'.
Proof.
  revert a'. induction a as [|c a IH]; intros [|c' a'] Ha Ha';
    cbv [String.append]; fold String.append; intros H.
  - by injection H as ->.
  - injection H as <- _. inversion Ha' as [|? ? Hc _]; subst.
    by apply keyChar_not_colon in Hc.
  - injection H as -> _. inversion Ha as [|? ? Hc _]; subst.
    by apply keyChar_not_colon in Hc.
  - injection H as -> H. inversion Ha; inversion Ha'; subst.
    destruct (IH a') as [-> ->]; done.
Qed.

Lemma no_separator_inside (t r x : string) :
  Forall (fun c => keyChar c = true) (chars x) ->
  x <> t +:+ "::" +:+ r.
Proof.
  revert t. induction x as [|c x IH]; intros [|c' t] Hx;
    cbv [String.append]; fold String.append; try discriminate.
  - intros H. injection H as -> _. inversion Hx as [|? ? Hc _]; subst.
    by apply keyChar_not_colon in Hc.
  - intros H. injection H as -> H. inversion Hx; subst. by eapply IH.
Qed.

(** X7.  A component of a cache key has at most 50 characters, all of
    them a to z, 0 to 9 or underscore, and does not depend on letter case.
    So two lookups use the same key exactly when their normalized artist
    and title agree and their albums are both absent (or empty) or agree
    when normalized. *)
Theorem generateCacheKey_same_iff (t a t' a' : string) (al al' : option string) :
  (generateCacheKey t a al = generateCacheKey t' a' al' <->
   normalizeForKey a = normalizeForKey a' /\
   normalizeForKey t = normalizeForKey t' /\
   (if given al then Some (normalizeForKey (default "" al)) else None) =
   (if given al' then Some (normalizeForKey (default "" al')) else None)) /\
  Forall (fun c => keyChar c = true) (chars (normalizeForKey t)) /\
  (length (chars (normalizeForKey t)) <= 50)%nat /\
  normalizeForKey (toLowerCase t) = normalizeForKey t.
Proof.
  split; [|split; [apply normalizeForKey_chars|split;
    [apply normalizeForKey_chars|
     unfold normalizeForKey; by rewrite toLowerCase_idempotent]]].
  assert (forall x y z : string,
            join "::" [x; y; z] = x +:+ "::" +:+ (y +:+ "::" +:+ z)) as J3
    by reflexivity.
  assert (forall x y : string, join "::" [x; y] = x +:+ "::" +:+ y) as J2
    by reflexivity.
  pose proof (fun s => proj1 (normalizeForKey_chars s)) as Hchars.
  unfold generateCacheKey, given.
  destruct al as [x|], al' as [x'|]; cbn [default id];
    try destruct (truthy x); try destruct (truthy x'); cbn [app];
    rewrite ?J2, ?J3; (split; [intros H|intros (-> & -> & H)]).
  all: try (apply split_at_separator in H as [Ha H]; [|by apply Hchars..]).
  all: try (by injection H as ->).
  all: try done.
  all: try (by apply no_separator_inside in H; [|apply Hchars]).
  all: try (symmetry in H; by apply no_separator_inside in H; [|apply Hchars]).
  all: try (apply split_at_separator in H as [Ht Hx]; [|by apply Hchars..]).
  all: by rewrite ?Ha, ?Ht, ?Hx.
Qed.

End CacheKeys.

(** ** Outbound calls: pacing *)

Module NetPacing.
Import Net.

Lemma throttle_lower_bounds (c l : Z) :
  l + minInterval <= throttle c l /\ c <= throttle c l.
Proof.
  unfold throttle, minInterval. destruct (Z.ltb_spec (c - l) 1100); lia.
Qed.

Lemma spaced_snoc (times : list Z) (l t : Z) :
  spaced times ->
  Forall (fun x => x <= l) times ->
  l + minInterval <= t ->
  spaced (times ++ [t]).
Proof.
  intros Hs Hall Ht. induction times as [|x times IH]; [done|].
  destruct Hs as [Hx Hs]. inversion Hall as [|? ? Hxl Hall']; subst.
  cbn [app spaced]. split; [|by apply IH].
  destruct times as [|y times]; [simpl; lia|exact Hx].
Qed.

Lemma paced_send {T : Type} (c l : Z) (answers : list (reply T))
    (log : list (Z * request)) (q : request) (c' : Z) :
  paced (mkSource c l answers log) ->
  paced (mkSource c' (throttle c l) answers (log ++ [(throttle c l, q)])).
Proof.
  unfold paced. cbn [sent lastRequestTime]. intros [Hs Hall].
  destruct (throttle_lower_bounds c l) as [Hl _].
  rewrite map_app. cbn [map fst]. split.
  - by apply (spaced_snoc _ l).
  - apply Forall_app. split; [|constructor; [lia|constructor]].
    eapply Forall_impl; [exact Hall|]. unfold minInterval in Hl.
    intros x Hx. simpl in *. lia.
Qed.

Lemma paced_answers {T : Type} (c l : Z) (answers answers' : list (reply T))
    (log : list (Z * request)) :
  paced (mkSource c l answers log) -> paced (mkSource c l answers' log).
Proof. done. Qed.

Lemma fetchDiscogsFrom_paced {T : Type} (q : request) (answers : list (reply T)) :
  forall (c l : Z) (log : list (Z * request)),
    paced (mkSource c l answers log) ->
    paced (fetchDiscogsFrom q answers c l log).2.
Proof.
  induction answers as [|r rest IH]; intros c l log Hp; cbn [fetchDiscogsFrom].
  - apply (paced_send c l [] log q), Hp.
  - destruct (ok r); [|destruct (status r =? 429)]; cbn [snd].
    + apply (paced_send c l rest log q), (paced_answers c l (r :: rest)), Hp.
    + apply IH.
      apply (paced_send c l rest log q), (paced_answers c l (r :: rest)), Hp.
    + apply (paced_send c l rest log q), (paced_answers c l (r :: rest)), Hp.
Qed.

Lemma throttle_parts (c l : Z) :
  throttle c l = match throttleStart c l with
                 | Some wait => c + wait
                 | None => c
                 end.
Proof. unfold throttle, throttleStart. by destruct (_ <? _). Qed.

(** Calls started together that wait all wait for the same time. *)
Lemma startedTogether_waiting (now l wait : Z) (calls : nat) :
  throttleStart now l = Some wait ->
  startedTogether now l calls = repeat (now + wait) calls.
Proof.
  intros H. induction calls as [|calls IH]; [done|].
  cbn [startedTogether repeat]. by rewrite H, IH.
Qed.

Lemma startedTogether_rest (now l : Z) (calls : nat) :
  exists t,
    tl (startedTogether now l (S calls)) = repeat t calls /\
    l + minInterval <= t /\ now <= t.
Proof.
  cbn [startedTogether]. destruct (throttleStart now l) as [wait|] eqn:E.
  - exists (now + wait). cbn [tl].
    split; [by apply startedTogether_waiting|].
    unfold throttleStart, minInterval in *.
    destruct (Z.ltb_spec (now - l) 1100); [|done]. injection E as <-. lia.
  - exists (now + minInterval). cbn [tl]. split.
    + apply startedTogether_waiting. unfold throttleStart, minInterval.
      by rewrite Z.sub_diag.
    + unfold throttleStart, minInterval in *.
      destruct (Z.ltb_spec (now - l) 1100); [done|]. lia.
Qed.

(** X8.  Calls made one after the other are spaced: whatever the clock
    shows when a call starts, [fetchMB] and [fetchDiscogs] (with all its
    retries) send their requests at least [minInterval] after the
    request before, and not before the call started, so that a log that
    is spaced stays spaced.  Calls started together are not: [throttle]
    reads [lastRequestTime] before it waits and writes it after, so of
    the calls started in one turn all but the first are sent at the same
    time, and three of them never leave the log spaced. *)
Theorem throttle_spaces_consecutive_calls_only {T : Type} (q : request)
    (s : source T)
    (Hp : paced s) :
  paced (fetchMB q s).2 /\
  paced (fetchDiscogs q s).2 /\
  (exists t, sent (fetchMB q s).2 = sent s ++ [(t, q)] /\ clock s <= t) /\
  (forall now calls,
      exists t,
        tl (startedTogether now (lastRequestTime s) (S calls))
        = repeat t calls /\
        lastRequestTime s + minInterval <= t /\ now <= t) /\
  (forall now calls,
      ~ spaced (startedTogether now (lastRequestTime s) (3 + calls))).
Proof.
  destruct s as [c l answers log]. split; [|split; [|split; [|split]]].
  - unfold fetchMB. cbn [clock lastRequestTime upstream sent].
    destruct answers as [|r rest]; [|destruct (ok r)]; cbn [snd].
    + apply (paced_send c l [] log q), Hp.
    + apply (paced_send c l rest log q), (paced_answers c l (r :: rest)), Hp.
    + apply (paced_send c l rest log q), (paced_answers c l (r :: rest)), Hp.
  - by apply fetchDiscogsFrom_paced.
  - exists (throttle c l). split; [|apply throttle_lower_bounds].
    unfold fetchMB. cbn [clock lastRequestTime upstream sent].
    by destruct answers as [|r rest]; [|destruct (ok r)].
  - intros now calls. apply startedTogether_rest.
  - intros now calls. cbn [lastRequestTime].
    destruct (startedTogether_rest now l (2 + calls)) as (t & Htl & _).
    destruct (startedTogether now l (S (2 + calls))) as [|t0 rest] eqn:E;
      [done|].
    change (3 + calls)%nat with (S (2 + calls)). rewrite E.
    cbn [tl] in Htl. rewrite Htl. cbn [repeat Nat.add spaced].
    unfold minInterval. intros (_ & H & _). lia.
Qed.

Lemma throttle_spaces_consecutive_calls_only_witness :
  paced (fetchMB sampleRequest
           (mkSource 5000 4900 [mkReply 200 "{}"] [(4900, sampleRequest)])).2 /\
  paced (fetchDiscogs sampleRequest
           (mkSource 5000 4900 [mkReply 200 "{}"] [(4900, sampleRequest)])).2 /\
  (exists t,
      sent (fetchMB sampleRequest
              (mkSource 5000 4900 [mkReply 200 "{}"] [(4900, sampleRequest)])).2
      = [(4900, sampleRequest)] ++ [(t, sampleRequest)] /\ 5000 <= t) /\
  startedTogether 5000 4900 3 = [6000; 6000; 6000] /\
  startedTogether 7000 4900 3 = [7000; 8100; 8100] /\
  ~ spaced (startedTogether 7000 4900 3).
Proof.
  destruct (throttle_spaces_consecutive_calls_only sampleRequest
              (mkSource 5000 4900 [mkReply 200 "{}"] [(4900, sampleRequest)]))
    as (H1 & H2 & H3 & _ & H5).
  { split; [simpl; tauto|]. repeat constructor. simpl. lia. }
  split; [exact H1|split; [exact H2|split; [exact H3|]]].
  split; [reflexivity|split; [reflexivity|exact (H5 7000 0%nat)]].
Defined.

End NetPacing.

(** ** Discogs credits: the entities *)

Module DiscogsEntities.
Import JS Music Discogs JSFacts.

Lemma addCredit_consistent (trackId : string) (st : credits)
    (artist : DiscogsArtist) :
  consistent st -> consistent (addCredit trackId st artist).
Proof.
  intros (Hseen & Hnd & Hart & Hrel & Hent). unfold consistent, addCredit.
  cbn [c_entities c_relationships c_seenArtists]. unfold add.
  destruct (has (c_seenArtists st) (artistIdOf artist)) eqn:E.
  - apply has_true in E. rewrite Hseen in E.
    split; [done|split; [done|split; [done|split]]].
    + apply Forall_app. split; [done|]. by repeat constructor.
    + eapply Forall_impl; [exact Hent|]. intros e (r & Hr & Ht).
      exists r. split; [|done]. apply in_or_app. by left.
  - apply has_false in E. rewrite Hseen in E. rewrite map_app. cbn [map].
    split; [by rewrite Hseen|split; [|split; [|split]]].
    + apply NoDup_app. split; [done|split; [|apply NoDup_singleton]].
      intros x Hx ->%list_elem_of_singleton. by apply list_elem_of_In in Hx.
    + apply Forall_app. split; [done|]. by repeat constructor.
    + apply Forall_app. split.
      * eapply Forall_impl; [exact Hrel|]. intros r Hr.
        apply in_or_app. by left.
      * repeat constructor. apply in_or_app. right. by left.
    + apply Forall_app. split.
      * eapply Forall_impl; [exact Hent|]. intros e (r & Hr & Ht).
        exists r. split; [|done]. apply in_or_app. by left.
      * repeat constructor. exists (creditRelationship trackId artist).
        split; [|reflexivity]. apply in_or_app. right. by left.
Qed.

Lemma addReleaseCredit_consistent (trackId : string)
    (mt : option DiscogsTrack) (st : credits) (artist : DiscogsArtist) :
  consistent st -> consistent (addReleaseCredit trackId mt st artist).
Proof.
  intros H. unfold addReleaseCredit.
  destruct (skipsCredit mt artist); [done|by apply addCredit_consistent].
Qed.

(** X9.  In what [getTrackCredits] answers, no two entities have the same
    id and all are artists; every relationship has as target the id of
    one of the entities, and every entity is the target of a
    relationship.  Without a token, or without a release, the answer is
    empty. *)
Theorem getTrackCredits_entities_match_relationships (configured : bool)
    (trackName : string) (existingTrackId : option string)
    (found : option DiscogsRelease) :
  let answer := getTrackCredits configured trackName existingTrackId found in
  NoDup (map e_id (entities answer)) /\
  Forall (fun e => e_type e = Music.artist) (entities answer) /\
  Forall (fun r => In (r_target r) (map e_id (entities answer)))
         (relationships answer) /\
  Forall (fun e => exists r, In r (relationships answer) /\ r_target r = e_id e)
         (entities answer) /\
  (configured = false \/ found = None ->
   entities answer = [] /\ relationships answer = []).
Proof.
  cbv zeta.
  assert (consistent (mkState [] [] [])) as H0.
  { unfold consistent. simpl. repeat split; constructor. }
  unfold getTrackCredits.
  destruct configured; cbn [negb];
    [|repeat split; (constructor || done)].
  destruct found as [release|];
    [|repeat split; (constructor || done)].
  cbn [entities relationships].
  set (tid := trackIdFor existingTrackId release).
  set (mt := findMatchingTrack trackName (rl_tracklist release)).
  match goal with
  | |- NoDup (map e_id (c_entities ?st)) /\ _ =>
      assert (consistent st) as (_ & Hnd & Hart & Hrel & Hent)
  end.
  { assert (consistent
              match mt with
              | Some t =>
                  match t_extraartists t with
                  | Some artists => foldl (addCredit tid) (mkState [] [] []) artists
                  | None => mkState [] [] []
                  end
              | None => mkState [] [] []
              end) as H1.
    { destruct mt as [t|]; [|done]. destruct (t_extraartists t); [|done].
      apply foldl_invariant; [|done]. intros st a _. apply addCredit_consistent. }
    destruct (rl_extraartists release); [|done].
    apply foldl_invariant; [|done]. intros st a _.
    apply addReleaseCredit_consistent. }
  split; [done|split; [done|split; [done|split; [done|]]]].
  intros [|]; discriminate.
Qed.

End DiscogsEntities.

(** ** MusicBrainz: the alias table and the image cache *)

Module LookupTables.
Import JS Music MusicBrainz JSFacts.

(** The loop that stores the aliases never changes an assignment, and
    assigns the artist to every alias that had none. *)
Lemma storeAlias_fold (mbid : string) (aliases : list string)
    (m : gmap string string) (k : string) :
  foldl (storeAlias mbid) m aliases !! k =
  match m !! k with
  | Some v => Some v
  | None => if has (map normalizeForCache aliases) k then Some mbid else None
  end.
Proof.
  revert m. induction aliases as [|a aliases IH]; intros m.
  { simpl. by destruct (m !! k). }
  cbn [foldl map has existsb]. rewrite IH. unfold storeAlias.
  destruct (string_dec (normalizeForCache a) k) as [<-|Hne].
  - replace (eqs (normalizeForCache a) (normalizeForCache a)) with true
      by (symmetry; by apply eqs_true).
    destruct (m !! normalizeForCache a) eqn:E; [by rewrite E|].
    by rewrite lookup_insert_eq.
  - replace (eqs k (normalizeForCache a)) with false
      by (symmetry; apply eqs_false; congruence).
    cbn [orb]. unfold has.
    destruct (m !! normalizeForCache a); [done|].
    by rewrite lookup_insert_ne.
Qed.

(** What the arrival of an answer does to the artist of a name. *)
Lemma finishFetchArtistAliases_resolve (st : AliasState) (mbid : string)
    (answer : option (option (list string))) (name : string) :
  resolveArtistAlias (aliasToMbidMap (finishFetchArtistAliases st mbid answer))
    name =
  match resolveArtistAlias (aliasToMbidMap st) name with
  | Some earlier => Some earlier
  | None =>
      if has (map normalizeForCache (listedAliases answer))
           (normalizeForCache name)
      then Some mbid else None
  end.
Proof.
  unfold resolveArtistAlias, finishFetchArtistAliases. cbn [aliasToMbidMap].
  apply storeAlias_fold.
Qed.

Lemma arrivals_resolve
    (arrivals : list (string * option (option (list string)))) (name : string) :
  forall st : AliasState,
    resolveArtistAlias
      (aliasToMbidMap
         (foldl (fun acc arrival =>
                   finishFetchArtistAliases acc arrival.1 arrival.2)
            st arrivals)) name =
    match resolveArtistAlias (aliasToMbidMap st) name with
    | Some earlier => Some earlier
    | None =>
        fst <$> List.find
                  (fun arrival =>
                     has (map normalizeForCache (listedAliases arrival.2))
                       (normalizeForCache name))
                  arrivals
    end.
Proof.
  induction arrivals as [|[artist answer] arrivals IH]; intros st.
  { cbn. by destruct (resolveArtistAlias _ _). }
  cbn [foldl List.find fst snd]. rewrite IH, finishFetchArtistAliases_resolve.
  destruct (resolveArtistAlias (aliasToMbidMap st) name); [done|].
  by destruct (has _ _).
Qed.

(** X10.  A call of [fetchArtistAliases] for an artist not asked for
    before makes, before it awaits its lookup, the primary name resolve to
    that artist, whoever had the name, and records the canonical name; no
    other name changes its artist, and from then on a call for the same
    artist returns at once, even when the lookup has not been answered or
    fails.  When an answer arrives, each of its aliases goes to the
    artist unless the name has an artist in the tables as they are then.
    For the calls that [buildGraphFromTrack] starts together it is
    therefore the answer that arrives first, not the artist credited
    first, that gets an alias that several artists list. *)
Theorem fetchArtistAliases_first_answer_wins (st : AliasState)
    (mbid primaryName : string)
    (Hnew : has (fetchedAliases st) mbid = false) :
  (exists st1,
      startFetchArtistAliases st mbid primaryName = Some st1 /\
      resolveArtistAlias (aliasToMbidMap st1) primaryName = Some mbid /\
      getCanonicalName st1 mbid = Some primaryName /\
      (forall name,
          normalizeForCache name <> normalizeForCache primaryName ->
          resolveArtistAlias (aliasToMbidMap st1) name =
          resolveArtistAlias (aliasToMbidMap st) name) /\
      (forall name', startFetchArtistAliases st1 mbid name' = None) /\
      (forall answer name' answer',
          fetchArtistAliases (finishFetchArtistAliases st1 mbid answer) mbid
            name' answer'
          = finishFetchArtistAliases st1 mbid answer)) /\
  (forall st2 artist answer name,
      resolveArtistAlias
        (aliasToMbidMap (finishFetchArtistAliases st2 artist answer)) name =
      match resolveArtistAlias (aliasToMbidMap st2) name with
      | Some earlier => Some earlier
      | None =>
          if has (map normalizeForCache (listedAliases answer))
               (normalizeForCache name)
          then Some artist else None
      end) /\
  (forall credits arrivals name,
      resolveArtistAlias (aliasToMbidMap (fetchAliasesOf st credits arrivals))
        name =
      match resolveArtistAlias (aliasToMbidMap (startFetches st credits).1)
              name with
      | Some earlier => Some earlier
      | None =>
          fst <$> List.find
                    (fun arrival =>
                       has (map normalizeForCache (listedAliases arrival.2))
                         (normalizeForCache name))
                    arrivals
      end) /\
  (forall answer name,
      normalizeForCache name <> normalizeForCache primaryName ->
      resolveArtistAlias
        (aliasToMbidMap (fetchArtistAliases st mbid primaryName answer)) name =
      match resolveArtistAlias (aliasToMbidMap st) name with
      | Some earlier => Some earlier
      | None =>
          if has (map normalizeForCache (listedAliases answer))
               (normalizeForCache name)
          then Some mbid else None
      end).
Proof.
  assert (forall name,
            normalizeForCache name <> normalizeForCache primaryName ->
            resolveArtistAlias
              (<[normalizeForCache primaryName := mbid]> (aliasToMbidMap st))
              name = resolveArtistAlias (aliasToMbidMap st) name) as Hother.
  { intros name Hne. unfold resolveArtistAlias.
    by rewrite lookup_insert_ne. }
  split; [|split; [|split]].
  - unfold startFetchArtistAliases. rewrite Hnew. eexists.
    split; [reflexivity|]. cbn [aliasToMbidMap mbidToCanonicalName fetchedAliases].
    assert (has (add (fetchedAliases st) mbid) mbid = true) as Hdone.
    { apply has_true, in_add. by right. }
    split; [apply lookup_insert_eq|split; [apply lookup_insert_eq|]].
    split; [exact Hother|split].
    + intros name'. cbn [fetchedAliases]. by rewrite Hdone.
    + intros answer name' answer'.
      unfold fetchArtistAliases, startFetchArtistAliases, finishFetchArtistAliases.
      cbn [fetchedAliases]. by rewrite Hdone.
  - intros st2 artist answer name. apply finishFetchArtistAliases_resolve.
  - intros credits arrivals name. unfold fetchAliasesOf. apply arrivals_resolve.
  - intros answer name Hne. unfold fetchArtistAliases, startFetchArtistAliases.
    rewrite Hnew, finishFetchArtistAliases_resolve.
    cbn [aliasToMbidMap]. by rewrite (Hother name Hne).
Qed.

(** Two credited artists whose answers both list the alias Abel: it goes
    to the first credited when the answers arrive in the order of the
    credits, and to the second when the answer of the second arrives
    first. *)
Lemma fetchArtistAliases_first_answer_wins_witness :
  let credits :=
    [mkArtistCredit (mkMBArtist "C" "The Weeknd") None;
     mkArtistCredit (mkMBArtist "D" "Daft Punk") None] in
  let answerC := ("C", Some (Some ["Abel"])) in
  let answerD := ("D", Some (Some ["Abel"; "Daft"])) in
  has (fetchedAliases noAliases) "C" = false /\
  resolveArtistAlias
    (aliasToMbidMap (fetchAliasesOf noAliases credits [answerC; answerD]))
    "Abel" = Some "C" /\
  resolveArtistAlias
    (aliasToMbidMap (fetchAliasesOf noAliases credits [answerD; answerC]))
    "Abel" = Some "D" /\
  resolveArtistAlias
    (aliasToMbidMap (fetchAliasesOf noAliases credits [answerD; answerC]))
    "THE WEEKND" = Some "C".
Proof.
  cbv zeta.
  destruct (fetchArtistAliases_first_answer_wins noAliases "C" "The Weeknd"
              eq_refl) as (_ & _ & Hbatch & _).
  split; [reflexivity|]. rewrite !Hbatch. vm_compute. done.
Defined.

(** X11.  What a lookup of an image answered, it answers again for every
    name with the same normalized form, without asking any service and
    whatever the services would say then; this holds as well for the
    answer that no image was found.  The same for album images. *)
Theorem image_lookup_is_cached (src src' : ImageSources)
    (artistName artistName' albumName albumName' : string)
    (mbid mbid' : option string) (st : ImageCaches)
    (Hartist : normalizeForCache artistName' = normalizeForCache artistName)
    (Halbum : normalizeForCache albumName' = normalizeForCache albumName) :
  let first := getArtistImage src artistName mbid st in
  let firstCover := getAlbumImage src artistName albumName st in
  getArtistImage src' artistName' mbid' first.2 = (first.1.1, [], first.2) /\
  getAlbumImage src' artistName' albumName' firstCover.2 =
    (firstCover.1.1, [], firstCover.2).
Proof.
  assert (forall o : option string, given o = true -> cachedImage o = o) as Hgiven.
  { intros [image|]; [|done]. simpl. by intros ->. }
  cbv zeta.
  destruct (getArtistImage src artistName mbid st) as [[image asked] st1] eqn:E1.
  destruct (getAlbumImage src artistName albumName st) as [[cover asked2] st2] eqn:E2.
  cbn [fst snd]. split.
  - unfold getArtistImage in *. rewrite Hartist.
    destruct (artistImageCache st !! normalizeForCache artistName)
      as [cached|] eqn:Ec.
    { injection E1 as <- _ <-. rewrite Ec.
      destruct cached as [img|]; [|done]. simpl.
      by destruct (truthy img). }
    destruct (given (audioDbArtistImage src artistName mbid)) eqn:G1.
    { injection E1 as <- _ <-. cbn [setArtistImage artistImageCache].
      by rewrite lookup_insert_eq, Hgiven. }
    destruct (given (if discogsConfigured src
                     then discogsArtistImage src artistName else None)) eqn:G2.
    { injection E1 as <- _ <-. cbn [setArtistImage artistImageCache].
      by rewrite lookup_insert_eq, Hgiven. }
    destruct (given (lastFmArtistImage src artistName)) eqn:G3;
      injection E1 as <- _ <-; cbn [setArtistImage artistImageCache];
      rewrite lookup_insert_eq; [by rewrite Hgiven|done].
  - unfold getAlbumImage in *. rewrite Hartist, Halbum.
    destruct (albumImageCache st !! _) as [cached|] eqn:Ec.
    { injection E2 as <- _ <-. rewrite Ec.
      destruct cached as [img|]; [|done]. simpl.
      by destruct (truthy img). }
    destruct (given (lastFmAlbumImage src artistName albumName)) eqn:G;
      injection E2 as <- _ <-; cbn [setAlbumImage albumImageCache];
      rewrite lookup_insert_eq; [by rewrite Hgiven|done].
Qed.

Lemma image_lookup_is_cached_witness :
  let first :=
    getArtistImage onlyLastFm "Michael Jackson" None (mkImageCaches ∅ ∅) in
  let firstCover :=
    getAlbumImage onlyLastFm "Michael Jackson" "Bad" (mkImageCaches ∅ ∅) in
  first.1 = (Some "data:mj", [TheAudioDB; DiscogsImages; LastFm]) /\
  firstCover.1 = (None, [LastFm]) /\
  getArtistImage noImages "MICHAEL JACKSON!" None first.2 =
    (first.1.1, [], first.2) /\
  getAlbumImage noImages "MICHAEL JACKSON!" "bad" firstCover.2 =
    (firstCover.1.1, [], firstCover.2).
Proof.
  cbv zeta. split; [vm_compute; reflexivity|split; [vm_compute; reflexivity|]].
  apply (image_lookup_is_cached onlyLastFm noImages "Michael Jackson"
           "MICHAEL JACKSON!" "Bad" "bad" None None (mkImageCaches ∅ ∅));
    vm_compute; reflexivity.
Defined.

End LookupTables.

(** ** MusicBrainz: graphs of an artist and of a recording *)

Module GraphBuilders.
Import JS Music MusicBrainz DrillDown JSFacts.

Lemma to_int_not_nil (z : Z) :
  Z.to_int z <> Decimal.Pos Decimal.Nil /\ Z.to_int z <> Decimal.Neg Decimal.Nil.
Proof.
  split; intros H; pose proof (DecimalZ.of_to z) as Hz; rewrite H in Hz;
    simpl in Hz; subst z; discriminate.
Qed.

Lemma numberToString_inj (a b : Z) :
  Discogs.numberToString a = Discogs.numberToString b -> a = b.
Proof.
  unfold Discogs.numberToString. intros H.
  apply DecimalZ.to_int_inj.
  destruct (to_int_not_nil a) as [Ha Ha'], (to_int_not_nil b) as [Hb Hb'].
  pose proof (NilZero.isi _ Ha Ha') as Ia.
  pose proof (NilZero.isi _ Hb Hb') as Ib.
  rewrite H in Ia. congruence.
Qed.

Lemma numberedId_inj (n m : nat) : numberedId n = numberedId m -> n = m.
Proof.
  unfold numberedId. intros H%String.app_inj%numberToString_inj. lia.
Qed.

Lemma numbered_NoDup (n : nat) : NoDup (map numberedId (seq 0 n)).
Proof.
  assert (Inj eq eq numberedId) as Hinj by (intros a b; apply numberedId_inj).
  apply (NoDup_fmap_2 numberedId), NoDup_ListNoDup, List.seq_NoDup.
Qed.

Lemma pushEntity_wellFormed (e : MusicEntity) (b : builder) :
  wellFormed b ->
  has (b_entityIds b) (e_id e) = false ->
  wellFormed (pushEntity e b).
Proof.
  intros (Hids & Hnd & Hrel & Hnum) Hnew. apply has_false in Hnew.
  unfold wellFormed, pushEntity. cbn [b_entities b_relationships b_entityIds].
  assert (add (b_entityIds b) (e_id e) = b_entityIds b ++ [e_id e]) as ->.
  { unfold add. by apply has_false in Hnew as ->. }
  split; [by rewrite map_app, Hids|split; [|split; [|done]]].
  - apply NoDup_app. split; [done|split; [|apply NoDup_singleton]].
    intros x Hx ->%list_elem_of_singleton. by apply list_elem_of_In in Hx.
  - eapply Forall_impl; [exact Hrel|]. intros r [Hs Ht].
    split; apply in_or_app; by left.
Qed.

Lemma pushEntity_ids (e : MusicEntity) (b : builder) (x : string) :
  In x (b_entityIds (pushEntity e b)) <-> In x (b_entityIds b) \/ x = e_id e.
Proof. unfold pushEntity. cbn [b_entityIds]. rewrite in_add. tauto. Qed.

Lemma pushNumbered_wellFormed (source target : string) (role : RoleType)
    (b : builder) :
  wellFormed b ->
  In source (b_entityIds b) -> In target (b_entityIds b) ->
  wellFormed (pushNumbered source target role b).
Proof.
  intros (Hids & Hnd & Hrel & Hnum) Hs Ht.
  unfold wellFormed, pushNumbered. cbn [b_entities b_relationships b_entityIds].
  split; [done|split; [done|split]].
  - apply Forall_app. split; [done|]. by repeat constructor.
  - rewrite map_app, length_app, seq_app, map_app, Hnum. reflexivity.
Qed.

(** [if (!entityIds.has(id)) { entities.push(e); entityIds.add(id) }] keeps
    the state well formed and leaves the id known. *)
Lemma ensure_wellFormed (e : MusicEntity) (b : builder) :
  wellFormed b ->
  let b' := if has (b_entityIds b) (e_id e) then b else pushEntity e b in
  wellFormed b' /\ In (e_id e) (b_entityIds b') /\
  (forall x, In x (b_entityIds b) -> In x (b_entityIds b')) /\
  b_relationships b' = b_relationships b /\
  (exists more, b_entities b' = b_entities b ++ more).
Proof.
  intros Hwf. cbv zeta. destruct (has (b_entityIds b) (e_id e)) eqn:E.
  - split; [done|split; [by apply has_true|split; [done|split; [done|]]]].
    exists []. by rewrite app_nil_r.
  - split; [by apply pushEntity_wellFormed|split; [|split; [|split; [done|]]]].
    + apply pushEntity_ids. by right.
    + intros x Hx. apply pushEntity_ids. by left.
    + by exists [e].
Qed.

(** The invariant of the two loops of [getRecordingCredits]. *)
Lemma addCreditedArtist_keeps (trackId : string) (first : MusicEntity)
    (b : builder) (credit : ArtistCredit) :
  wellFormed b /\ In trackId (b_entityIds b) /\
  Forall (fun r => r_source r = trackId) (b_relationships b) /\
  head (b_entities b) = Some first ->
  let b' := addCreditedArtist trackId b credit in
  (wellFormed b' /\ In trackId (b_entityIds b') /\
   Forall (fun r => r_source r = trackId) (b_relationships b') /\
   head (b_entities b') = Some first) /\
  length (b_relationships b') = S (length (b_relationships b)).
Proof.
  intros (Hwf & Htrack & Hsrc & Hhead). cbv zeta. unfold addCreditedArtist.
  destruct (ensure_wellFormed
              (plainEntity ("artist-" +:+ ar_id (ac_artist credit))
                 (ar_name (ac_artist credit)) artist) b Hwf)
    as (Hwf1 & Hin & Hmono & Hrels & more & Hents).
  cbn [plainEntity e_id] in *.
  set (b1 := if has (b_entityIds b) ("artist-" +:+ ar_id (ac_artist credit))
             then b else _) in *.
  split; [split; [|split; [|split]]|].
  - apply pushNumbered_wellFormed; [done|by apply Hmono|done].
  - by apply Hmono.
  - cbn [pushNumbered b_relationships]. rewrite Hrels.
    apply Forall_app. split; [done|]. by repeat constructor.
  - cbn [pushNumbered b_entities]. rewrite Hents.
    destruct (b_entities b); [done|exact Hhead].
  - cbn [pushNumbered b_relationships]. rewrite Hrels, length_app. simpl. lia.
Qed.

Lemma addRelatedArtist_keeps (trackId : string) (first : MusicEntity)
    (b : builder) (rel : Relation) :
  wellFormed b /\ In trackId (b_entityIds b) /\
  Forall (fun r => r_source r = trackId) (b_relationships b) /\
  head (b_entities b) = Some first ->
  let b' := addRelatedArtist trackId b rel in
  (wellFormed b' /\ In trackId (b_entityIds b') /\
   Forall (fun r => r_source r = trackId) (b_relationships b') /\
   head (b_entities b') = Some first) /\
  length (b_relationships b') =
    (length (b_relationships b)
     + match rel_artist rel with Some _ => 1 | None => 0 end)%nat.
Proof.
  intros (Hwf & Htrack & Hsrc & Hhead). cbv zeta. unfold addRelatedArtist.
  destruct (rel_artist rel) as [a|]; [|split; [done|simpl; lia]].
  destruct (ensure_wellFormed
              (plainEntity ("artist-" +:+ ar_id a) (ar_name a) artist) b Hwf)
    as (Hwf1 & Hin & Hmono & Hrels & more & Hents).
  cbn [plainEntity e_id] in *.
  set (b1 := if has (b_entityIds b) ("artist-" +:+ ar_id a) then b else _) in *.
  split; [split; [|split; [|split]]|].
  - apply pushNumbered_wellFormed; [done|by apply Hmono|done].
  - by apply Hmono.
  - cbn [pushNumbered b_relationships]. rewrite Hrels.
    apply Forall_app. split; [done|]. by repeat constructor.
  - cbn [pushNumbered b_entities]. rewrite Hents.
    destruct (b_entities b); [done|exact Hhead].
  - cbn [pushNumbered b_relationships]. rewrite Hrels, length_app. simpl. lia.
Qed.

Lemma foldl_counting {A B : Type} (P : A -> Prop) (size : A -> nat)
    (weight : B -> nat) (f : A -> B -> A) (l : list B) (a : A) :
  (forall a x, P a -> P (f a x) /\ size (f a x) = (size a + weight x)%nat) ->
  P a ->
  P (foldl f a l) /\
  size (foldl f a l) = (size a + list_sum (map weight l))%nat.
Proof.
  intros Hstep. revert a. induction l as [|x l IH]; intros a Ha.
  { unfold list_sum. cbn [foldl map fold_right]. split; [done|lia]. }
  destruct (Hstep a x Ha) as [Hp Hs].
  destruct (IH _ Hp) as [Hp' Hs']. unfold list_sum in *.
  cbn [foldl map fold_right]. split; [done|]. rewrite Hs', Hs. lia.
Qed.

(** X12.  The graph [getRecordingCredits] answers for an OK answer, after
    one request: its first entity is the track; no two entities share an
    id; every relationship goes from the track to one of the entities;
    there is one relationship for every artist credit and for every
    relation that names an artist, and the ids of the relationships are
    rel-0, rel-1, ... in order, so no two are the same. *)
Theorem getRecordingCredits_graph (recordingId : string)
    (s : Net.source Answer) (r : Net.reply Answer)
    (later : list (Net.reply Answer))
    (Hup : Net.upstream s = r :: later)
    (Hok : Net.ok r = true) :
  let data := Net.body r in
  let trackId := "track-" +:+ recordingId in
  exists g s',
    getRecordingCredits recordingId s = (Net.Returned g, s') /\
    Net.sent s' =
      Net.sent s
      ++ [(Net.throttle (Net.clock s) (Net.lastRequestTime s),
           recordingRequest recordingId)] /\
    head (mg_entities g) = Some (plainEntity trackId (an_title data) track) /\
    NoDup (map e_id (mg_entities g)) /\
    Forall (fun rel => r_source rel = trackId /\
                       In (r_target rel) (map e_id (mg_entities g)))
           (mg_relationships g) /\
    map r_id (mg_relationships g) =
      map numberedId (seq 0 (length (mg_relationships g))) /\
    NoDup (map r_id (mg_relationships g)) /\
    length (mg_relationships g) =
      (length (default [] (an_artistCredit data))
       + list_sum (map (fun rel => match rel_artist rel with
                                   | Some _ => 1
                                   | None => 0
                                   end)
                       (default [] (an_relations data))))%nat.
Proof.
  cbv zeta. unfold getRecordingCredits, Net.fetchMB. rewrite Hup, Hok.
  eexists _, _. split; [reflexivity|]. cbn [Net.sent]. split; [reflexivity|].
  set (trackId := "track-" +:+ recordingId).
  set (first := plainEntity trackId (an_title (Net.body r)) track).
  unfold recordingGraph. fold trackId. fold first.
  set (b0 := pushEntity first (mkBuilder [] [] [])).
  assert (wellFormed b0 /\ In trackId (b_entityIds b0) /\
          Forall (fun rel => r_source rel = trackId) (b_relationships b0) /\
          head (b_entities b0) = Some first) as H0.
  { split; [|split; [by left|split; [constructor|reflexivity]]].
    apply pushEntity_wellFormed; [|reflexivity].
    repeat split; constructor. }
  destruct (foldl_counting
              (fun b => wellFormed b /\ In trackId (b_entityIds b) /\
                        Forall (fun rel => r_source rel = trackId)
                               (b_relationships b) /\
                        head (b_entities b) = Some first)
              (fun b => length (b_relationships b)) (fun _ => 1%nat)
              (addCreditedArtist trackId)
              (default [] (an_artistCredit (Net.body r))) b0) as [H1 L1];
    [|exact H0|].
  { intros b c Hb. destruct (addCreditedArtist_keeps trackId first b c Hb)
      as [Hk Hl]. split; [exact Hk|]. rewrite Hl. lia. }
  destruct (foldl_counting
              (fun b => wellFormed b /\ In trackId (b_entityIds b) /\
                        Forall (fun rel => r_source rel = trackId)
                               (b_relationships b) /\
                        head (b_entities b) = Some first)
              (fun b => length (b_relationships b))
              (fun rel => match rel_artist rel with
                          | Some _ => 1%nat
                          | None => 0%nat
                          end)
              (addRelatedArtist trackId)
              (default [] (an_relations (Net.body r)))
              (foldl (addCreditedArtist trackId) b0
                 (default [] (an_artistCredit (Net.body r)))))
    as [((Hids & Hnd & Hrel & Hnum) & _ & Hsrc & Hhead) L2]; [|exact H1|].
  { intros b c Hb. by apply addRelatedArtist_keeps. }
  cbn [graphOf mg_entities mg_relationships].
  split; [exact Hhead|]. rewrite <- Hids.
  split; [exact Hnd|split; [|split; [exact Hnum|split]]].
  - apply Forall_forall. intros rel Hin.
    rewrite Forall_forall in Hsrc, Hrel. split; [by apply Hsrc|].
    by apply Hrel.
  - rewrite Hnum. apply numbered_NoDup.
  - rewrite L2, L1. cbn [b0 pushEntity b_relationships length].
    assert (forall (A : Type) (l : list A), list_sum (map (fun _ => 1%nat) l) = length l)
      as Hones by (intros A l; induction l; simpl; lia).
    rewrite Hones. lia.
Qed.

Lemma getRecordingCredits_graph_witness :
  exists g s',
    getRecordingCredits "r1"
      (Net.mkSource 5000 0 [Net.mkReply 200 smoothCriminal] []) =
      (Net.Returned g, s') /\
    Net.sent s' = [(5000, recordingRequest "r1")] /\
    map e_id (mg_entities g) = ["track-r1"; "artist-mj"; "artist-qj"] /\
    map r_id (mg_relationships g) = ["rel-0"; "rel-1"; "rel-2"] /\
    NoDup (map r_id (mg_relationships g)).
Proof.
  destruct (getRecordingCredits_graph "r1"
              (Net.mkSource 5000 0 [Net.mkReply 200 smoothCriminal] [])
              (Net.mkReply 200 smoothCriminal) [])
    as (g & s' & Hrun & Hsent & _ & _ & _ & _ & Hnd & _);
    [reflexivity|reflexivity|].
  exists g, s'. split; [exact Hrun|].
  vm_compute in Hrun. injection Hrun as <- <-.
  split; [reflexivity|split; [reflexivity|split; [reflexivity|exact Hnd]]].
Defined.

(** The invariant of the loop of [getArtistRelations]. *)
Lemma addRelation_keeps (artistId : string) (first : MusicEntity)
    (b : builder) (rel : Relation) :
  wellFormed b /\ In ("artist-" +:+ artistId) (b_entityIds b) /\
  length (b_entities b) = S (length (b_relationships b)) /\
  head (b_entities b) = Some first ->
  let b' := addRelation artistId b rel in
  wellFormed b' /\ In ("artist-" +:+ artistId) (b_entityIds b') /\
  length (b_entities b') = S (length (b_relationships b')) /\
  head (b_entities b') = Some first.
Proof.
  assert (forall (e : MusicEntity) (source target : string) (role : RoleType)
                 (b : builder),
            wellFormed b /\ In ("artist-" +:+ artistId) (b_entityIds b) /\
            length (b_entities b) = S (length (b_relationships b)) /\
            head (b_entities b) = Some first ->
            (source = e_id e /\ target = "artist-" +:+ artistId \/
             source = "artist-" +:+ artistId /\ target = e_id e) ->
            let b' := if has (b_entityIds b) (e_id e) then b
                      else pushNumbered source target role (pushEntity e b) in
            wellFormed b' /\ In ("artist-" +:+ artistId) (b_entityIds b') /\
            length (b_entities b') = S (length (b_relationships b')) /\
            head (b_entities b') = Some first) as Hstep.
  { intros e source target role b0 (Hwf & Hmain & Hlen & Hhead) Hends.
    cbv zeta. destruct (has (b_entityIds b0) (e_id e)) eqn:E; [done|].
    pose proof (pushEntity_wellFormed e b0 Hwf E) as Hwf1.
    assert (In ("artist-" +:+ artistId) (b_entityIds (pushEntity e b0))) as Hmain1
      by (apply pushEntity_ids; by left).
    assert (In (e_id e) (b_entityIds (pushEntity e b0))) as He
      by (apply pushEntity_ids; by right).
    split; [|split; [done|split]].
    - apply pushNumbered_wellFormed; [done|..];
        destruct Hends as [[-> ->]|[-> ->]]; done.
    - cbn [pushNumbered pushEntity b_entities b_relationships].
      rewrite !length_app. simpl. lia.
    - cbn [pushNumbered pushEntity b_entities].
      destruct (b_entities b0); [done|exact Hhead]. }
  intros H. cbv zeta. unfold addRelation.
  destruct (rel_artist rel) as [a|].
  - pose proof (Hstep (plainEntity ("artist-" +:+ ar_id a) (ar_name a) artist)
                  ("artist-" +:+ artistId) ("artist-" +:+ ar_id a)
                  (mapMBRelationType (rel_type rel) (rel_attributes rel)) b H
                  (or_intror (conj eq_refl eq_refl))) as H1.
    cbv zeta in H1. cbn [plainEntity e_id] in H1.
    destruct (rel_recording rel) as [r|]; [|exact H1].
    apply (Hstep (plainEntity ("track-" +:+ rec_id r) (rec_title r) track)
             ("track-" +:+ rec_id r) ("artist-" +:+ artistId) _ _ H1).
    by left.
  - destruct (rel_recording rel) as [r|]; [|exact H].
    apply (Hstep (plainEntity ("track-" +:+ rec_id r) (rec_title r) track)
             ("track-" +:+ rec_id r) ("artist-" +:+ artistId) _ _ H).
    by left.
Qed.

(** X13.  The graph [getArtistRelations] answers after its two requests:
    its first entity is the artist asked for; no two entities share an
    id; both ends of every relationship are entities of the graph; every
    other entity came with exactly one relationship, so a related artist
    or recording that appears in several relations is linked once, by
    the first; the ids of the relationships are rel-0, rel-1, ... .
    [searchAndBuildGraph] answers the empty graph after one request when
    the search finds no artist. *)
Theorem getArtistRelations_graph (artistId : string)
    (s : Net.source Answer) (r1 r2 : Net.reply Answer)
    (later : list (Net.reply Answer))
    (Hup : Net.upstream s = r1 :: r2 :: later)
    (Hok1 : Net.ok r1 = true)
    (Hok2 : Net.ok r2 = true) :
  (exists g s',
      getArtistRelations artistId s = (Net.Returned g, s') /\
      map snd (Net.sent s') =
        map snd (Net.sent s)
        ++ [relationsRequest artistId; artistRequest artistId] /\
      head (mg_entities g) =
        Some (plainEntity ("artist-" +:+ artistId) (an_name (Net.body r2))
                artist) /\
      NoDup (map e_id (mg_entities g)) /\
      Forall (fun rel => In (r_source rel) (map e_id (mg_entities g)) /\
                         In (r_target rel) (map e_id (mg_entities g)))
             (mg_relationships g) /\
      length (mg_entities g) = S (length (mg_relationships g)) /\
      map r_id (mg_relationships g) =
        map numberedId (seq 0 (length (mg_relationships g))) /\
      NoDup (map r_id (mg_relationships g))) /\
  (forall query,
      default [] (an_artists (Net.body r1)) = [] ->
      exists s',
        searchAndBuildGraph query s = (Net.Returned (mkMusicGraph [] []), s') /\
        length (Net.sent s') = S (length (Net.sent s))).
Proof.
  split.
  - unfold getArtistRelations, Net.fetchMB. rewrite Hup, Hok1.
    cbn [Net.upstream Net.clock Net.lastRequestTime Net.sent]. rewrite Hok2.
    eexists _, _. split; [reflexivity|]. cbn [Net.sent].
    split; [by rewrite <- app_assoc, !map_app|].
    set (first := plainEntity ("artist-" +:+ artistId) (an_name (Net.body r2))
                    artist).
    unfold artistGraph. fold first.
    set (b0 := pushEntity first (mkBuilder [] [] [])).
    assert (wellFormed b0 /\ In ("artist-" +:+ artistId) (b_entityIds b0) /\
            length (b_entities b0) = S (length (b_relationships b0)) /\
            head (b_entities b0) = Some first) as H0.
    { split; [|split; [by left|split; reflexivity]].
      apply pushEntity_wellFormed; [|reflexivity]. repeat split; constructor. }
    pose proof (foldl_invariant
                  (fun b => wellFormed b /\
                            In ("artist-" +:+ artistId) (b_entityIds b) /\
                            length (b_entities b) = S (length (b_relationships b)) /\
                            head (b_entities b) = Some first)
                  (addRelation artistId)
                  (default [] (an_relations (Net.body r1))) b0
                  (fun b rel _ Hb => addRelation_keeps artistId first b rel Hb)
                  H0)
      as ((Hids & Hnd & Hrel & Hnum) & _ & Hlen & Hhead).
    cbn [graphOf mg_entities mg_relationships].
    split; [exact Hhead|]. rewrite <- Hids.
    split; [exact Hnd|split; [exact Hrel|split; [exact Hlen|split; [exact Hnum|]]]].
    rewrite Hnum. apply numbered_NoDup.
  - intros query Hnone. unfold searchAndBuildGraph, searchArtist, Net.fetchMB.
    rewrite Hup, Hok1, Hnone. eexists. split; [reflexivity|].
    cbn [Net.sent]. rewrite length_app. simpl. lia.
Qed.

Lemma getArtistRelations_graph_witness :
  exists g s',
    getArtistRelations "mj"
      (Net.mkSource 5000 0
         [Net.mkReply 200 jacksonRelations; Net.mkReply 200 jacksonRelations] [])
      = (Net.Returned g, s') /\
    map e_id (mg_entities g) = ["artist-mj"; "artist-qj"; "track-r1"] /\
    map r_id (mg_relationships g) = ["rel-0"; "rel-1"] /\
    NoDup (map e_id (mg_entities g)).
Proof.
  destruct (getArtistRelations_graph "mj"
              (Net.mkSource 5000 0
                 [Net.mkReply 200 jacksonRelations;
                  Net.mkReply 200 jacksonRelations] [])
              (Net.mkReply 200 jacksonRelations)
              (Net.mkReply 200 jacksonRelations) [])
    as [(g & s' & Hrun & _ & _ & Hnd & _) _];
    [reflexivity|reflexivity|reflexivity|].
  exists g, s'. split; [exact Hrun|].
  vm_compute in Hrun. injection Hrun as <- <-.
  split; [reflexivity|split; [reflexivity|exact Hnd]].
Defined.

End GraphBuilders.

(** ** MusicBrainz: the drill-down *)

Module DrillDownFacts.
Import JS Music MusicBrainz DrillDown JSFacts.

Lemma toLowerCase_empty (t : string) : truthy t = false -> toLowerCase t = "".
Proof.
  unfold truthy. intros H%negb_false_iff%eqs_true. by subst.
Qed.

(** The group a release group is put in is the one of its mapped type. *)
Lemma addReleaseGroup_kind (groups : ReleaseGroups) (rg : MBReleaseGroup) :
  addReleaseGroup groups rg =
  match mapPrimaryType (rgr_primaryType rg) with
  | Album =>
      mkGroups (albums groups ++ [rg]) (singles groups) (eps groups) (other groups)
  | Single =>
      mkGroups (albums groups) (singles groups ++ [rg]) (eps groups) (other groups)
  | EP =>
      mkGroups (albums groups) (singles groups) (eps groups ++ [rg]) (other groups)
  | Other =>
      mkGroups (albums groups) (singles groups) (eps groups) (other groups ++ [rg])
  end.
Proof.
  unfold addReleaseGroup, mapPrimaryType.
  destruct (rgr_primaryType rg) as [t|]; [|reflexivity]. cbn [fmap option_fmap option_map isString].
  destruct (truthy t) eqn:E; cbn [negb].
  - destruct (eqs (toLowerCase t) "album"); [reflexivity|].
    destruct (eqs (toLowerCase t) "single"); [reflexivity|].
    by destruct (eqs (toLowerCase t) "ep").
  - by rewrite (toLowerCase_empty t E).
Qed.

Lemma getArtistReleases_groups (l : list MBReleaseGroup) (g : ReleaseGroups) :
  let g' := foldl addReleaseGroup g l in
  albums g' = albums g ++ ofType Album l /\
  singles g' = singles g ++ ofType Single l /\
  eps g' = eps g ++ ofType EP l /\
  other g' = other g ++ ofType Other l.
Proof.
  revert g. induction l as [|rg l IH]; intros g; cbv zeta.
  { simpl. by rewrite !app_nil_r. }
  cbn [foldl]. destruct (IH (addReleaseGroup g rg)) as (Ha & Hs & He & Ho).
  rewrite Ha, Hs, He, Ho, addReleaseGroup_kind. unfold ofType.
  cbn [List.filter].
  destruct (mapPrimaryType (rgr_primaryType rg));
    cbn [albums singles eps other]; by rewrite <- ?app_assoc.
Qed.

(** X14.  [initializeArtistGraph] fails with "Artist not found" after one
    request when the search finds nothing.  Otherwise it shows, under the
    first artist found, the release groups whose type maps to Album, then
    those that map to Single, then those that map to EP, each block in
    the order of the answer; release groups of any other type, or of no
    type, are not shown.  Every release node carries its mapped type and
    the artist as parent, the artist node counts the release nodes, and
    there is one released_on relationship from the artist to each. *)
Theorem initializeArtistGraph_shows_typed_releases (artistName : string)
    (s : Net.source Answer) (r1 r2 : Net.reply Answer)
    (later : list (Net.reply Answer))
    (Hup : Net.upstream s = r1 :: r2 :: later)
    (Hok1 : Net.ok r1 = true)
    (Hok2 : Net.ok r2 = true) :
  let groups := default [] (an_releaseGroups (Net.body r2)) in
  let shown := ofType Album groups ++ ofType Single groups ++ ofType EP groups in
  match default [] (an_artists (Net.body r1)) with
  | [] =>
      exists s',
        initializeArtistGraph artistName s = (Failed "Artist not found", s') /\
        length (Net.sent s') = S (length (Net.sent s))
  | found :: _ =>
      let artistId := "artist-" +:+ ar_id found in
      exists res s',
        initializeArtistGraph artistName s = (Done res, s') /\
        map snd (Net.sent s') =
          map snd (Net.sent s)
          ++ [Net.mkRequest "/artist" [("query", artistName)];
              releaseGroupsRequest (ar_id found)] /\
        map (fun n => e_id (n_entity n)) (dd_entities res) =
          artistId :: map (fun rg => "release-" +:+ rgr_id rg) shown /\
        n_childCount <$> head (dd_entities res) =
          Some (Some (Z.of_nat (length shown))) /\
        map (fun n => (e_releaseType (n_entity n), n_parentId n))
            (tail (dd_entities res)) =
          map (fun rg => (Some (mapPrimaryType (rgr_primaryType rg)),
                          Some artistId)) shown /\
        Forall (fun rg => mapPrimaryType (rgr_primaryType rg) <> Other) shown /\
        map (fun r => (r_source r, r_target r, r_role r)) (dd_relationships res) =
          map (fun rg => (artistId, "release-" +:+ rgr_id rg, released_on)) shown
  end.
Proof.
  cbv zeta. unfold initializeArtistGraph, searchArtist, Net.fetchMB.
  rewrite Hup, Hok1.
  destruct (default [] (an_artists (Net.body r1))) as [|found others].
  { eexists. split; [reflexivity|]. cbn [Net.sent]. rewrite length_app.
    simpl. lia. }
  unfold getArtistReleases, Net.fetchMB.
  cbn [Net.upstream Net.clock Net.lastRequestTime Net.sent]. rewrite Hok2.
  destruct (getArtistReleases_groups
              (default [] (an_releaseGroups (Net.body r2))) (mkGroups [] [] [] []))
    as (Ha & Hs & He & _).
  cbn [albums singles eps app] in Ha, Hs, He.
  eexists _, _. split; [reflexivity|]. cbn [Net.sent dd_entities dd_relationships].
  rewrite Ha, Hs, He.
  set (shown := ofType Album _ ++ ofType Single _ ++ ofType EP _).
  split; [by rewrite <- app_assoc, !map_app|].
  split; [cbn [map]; by rewrite map_map|].
  split; [reflexivity|].
  split; [cbn [tail]; by rewrite map_map|].
  split.
  - unfold shown, ofType. rewrite !Forall_app, !Forall_forall.
    repeat split; intros rg [_ Hrg]%list_elem_of_In%filter_In;
      by destruct (mapPrimaryType (rgr_primaryType rg)).
  - by rewrite !map_map.
Qed.

Lemma initializeArtistGraph_shows_typed_releases_witness :
  exists res s',
    initializeArtistGraph "michael jackson"
      (Net.mkSource 5000 0
         [Net.mkReply 200 jacksonReleases; Net.mkReply 200 jacksonReleases] [])
      = (Done res, s') /\
    map (fun n => e_id (n_entity n)) (dd_entities res) =
      ["artist-mj"; "release-g1"; "release-g3"] /\
    n_childCount <$> head (dd_entities res) = Some (Some 2).
Proof.
  pose proof (initializeArtistGraph_shows_typed_releases "michael jackson"
                (Net.mkSource 5000 0
                   [Net.mkReply 200 jacksonReleases;
                    Net.mkReply 200 jacksonReleases] [])
                (Net.mkReply 200 jacksonReleases)
                (Net.mkReply 200 jacksonReleases) []
                eq_refl eq_refl eq_refl) as H.
  cbv zeta in H. cbn [Net.body jacksonReleases an_artists default] in H.
  destruct H as (res & s' & Hrun & _ & Hids & Hcount & _).
  exists res, s'. split; [exact Hrun|split; [exact Hids|exact Hcount]].
Defined.

(** The invariant of the loops of [expandTrack]. *)
Lemma expandCredit_expanded (trackId : string) (x : expansion)
    (credit : ArtistCredit) :
  expanded trackId x -> expanded trackId (expandCredit trackId x credit).
Proof.
  intros (Hseen & Hnd & Hnodes & Hrel). unfold expanded, expandCredit.
  cbn [x_entities x_relationships x_seenArtists]. unfold add.
  destruct (has (x_seenArtists x) ("artist-" +:+ ar_id (ac_artist credit))) eqn:E.
  - apply has_true in E. split; [done|split; [done|split; [done|]]].
    apply Forall_app. split; [done|]. by repeat constructor.
  - apply has_false in E. split; [|split; [|split; [|]]].
    + by rewrite map_app, Hseen.
    + apply NoDup_app. split; [done|split; [|apply NoDup_singleton]].
      intros y Hy ->%list_elem_of_singleton. by apply list_elem_of_In in Hy.
    + apply Forall_app. split; [done|]. by repeat constructor.
    + apply Forall_app. split.
      * eapply Forall_impl; [exact Hrel|]. intros r [Hs Ht].
        split; [done|]. apply in_or_app. by left.
      * repeat constructor. apply in_or_app. right. by left.
Qed.

Lemma expandRelation_expanded (trackId : string) (x : expansion)
    (rel : Relation) :
  expanded trackId x -> expanded trackId (expandRelation trackId x rel).
Proof.
  intros (Hseen & Hnd & Hnodes & Hrel). unfold expanded, expandRelation.
  destruct (rel_artist rel) as [a|]; [|done].
  cbn [x_entities x_relationships x_seenArtists]. unfold add.
  destruct (has (x_seenArtists x) ("artist-" +:+ ar_id a)) eqn:E.
  - apply has_true in E. split; [done|split; [done|split; [done|]]].
    apply Forall_app. split; [done|]. by repeat constructor.
  - apply has_false in E. split; [|split; [|split; [|]]].
    + by rewrite map_app, Hseen.
    + apply NoDup_app. split; [done|split; [|apply NoDup_singleton]].
      intros y Hy ->%list_elem_of_singleton. by apply list_elem_of_In in Hy.
    + apply Forall_app. split; [done|]. by repeat constructor.
    + apply Forall_app. split.
      * eapply Forall_impl; [exact Hrel|]. intros r [Hs Ht].
        split; [done|]. apply in_or_app. by left.
      * repeat constructor. apply in_or_app. right. by left.
Qed.

Lemma expandCredit_roles (trackId : string) (credits : list ArtistCredit)
    (x : expansion) :
  map r_role (x_relationships (foldl (expandCredit trackId) x credits)) =
  map r_role (x_relationships x) ++ creditRoles (x_nextIsFeatured x) credits.
Proof.
  revert x. induction credits as [|c credits IH]; intros x.
  { simpl. by rewrite app_nil_r. }
  cbn [foldl creditRoles]. rewrite IH.
  cbn [expandCredit x_relationships x_nextIsFeatured].
  rewrite map_app, <- app_assoc. cbn [map r_role app].
  by destruct (x_nextIsFeatured x).
Qed.

Lemma expandRelation_appends (trackId : string) (relations : list Relation)
    (x : expansion) :
  exists more,
    x_relationships (foldl (expandRelation trackId) x relations) =
    x_relationships x ++ more.
Proof.
  revert x. induction relations as [|rel relations IH]; intros x.
  { exists []. simpl. by rewrite app_nil_r. }
  cbn [foldl]. destruct (IH (expandRelation trackId x rel)) as (more & ->).
  unfold expandRelation. destruct (rel_artist rel) as [a|]; [|by exists more].
  cbn [x_relationships]. rewrite <- app_assoc. eauto.
Qed.

Lemma creditRoles_length (flag : bool) (credits : list ArtistCredit) :
  length (creditRoles flag credits) = length credits.
Proof.
  revert flag. induction credits as [|c credits IH]; intros flag; [done|].
  cbn [creditRoles length]. by rewrite IH.
Qed.

Lemma creditRoles_next (credits : list ArtistCredit) (flag : bool) (i : nat)
    (c next : ArtistCredit) :
  credits !! i = Some c -> credits !! S i = Some next ->
  creditRoles flag credits !! S i =
  Some (if announcesFeatured c then featured else primary_artist).
Proof.
  revert flag i. induction credits as [|c0 credits IH]; intros flag i; [done|].
  destruct i as [|i]; cbn [creditRoles lookup list_lookup].
  - intros [= ->] Hnext. destruct credits as [|c1 credits]; [done|]. reflexivity.
  - intros Hc Hnext. by apply (IH _ i).
Qed.

(** X15.  [expandTrack] on a track without a MusicBrainz id fails without
    a request.  Otherwise, for an OK answer and after one request: no two
    entities have the same id, and all are artists at depth 3 under the
    track; every relationship goes from the track to one of them; the
    relationships of the artist credits come first, the first credited
    artist is a primary artist, and every later one is featured exactly
    when the join phrase of the credit before it contains feat, ft.,
    featuring or "with ", in any letter case. *)
Theorem expandTrack_graph (trackEntity : Node) (mbid : string)
    (s : Net.source Answer) (r : Net.reply Answer)
    (later : list (Net.reply Answer))
    (Hmbid : e_mbid (n_entity trackEntity) = Some mbid)
    (Hgiven : mbid <> "")
    (Hup : Net.upstream s = r :: later)
    (Hok : Net.ok r = true) :
  let trackId := e_id (n_entity trackEntity) in
  let credits := default [] (an_artistCredit (Net.body r)) in
  (forall (unknown : Node) (s0 : Net.source Answer),
      given (e_mbid (n_entity unknown)) = false ->
      expandTrack unknown s0 = (Failed "Track has no MusicBrainz ID", s0)) /\
  exists res s',
    expandTrack trackEntity s = (Done res, s') /\
    map snd (Net.sent s') = map snd (Net.sent s) ++ [expandRequest mbid] /\
    NoDup (map (fun n => e_id (n_entity n)) (dd_entities res)) /\
    Forall (fun n => n_parentId n = Some trackId /\ n_depth n = Some 3 /\
                     e_type (n_entity n) = artist) (dd_entities res) /\
    Forall (fun rel => r_source rel = trackId /\
                       In (r_target rel)
                          (map (fun n => e_id (n_entity n)) (dd_entities res)))
           (dd_relationships res) /\
    (forall c rest, credits = c :: rest ->
        r_role <$> head (dd_relationships res) = Some primary_artist) /\
    (forall i c next,
        credits !! i = Some c -> credits !! S i = Some next ->
        r_role <$> dd_relationships res !! S i =
        Some (if announcesFeatured c then featured else primary_artist)).
Proof.
  cbv zeta. split.
  { intros unknown s0 H. unfold expandTrack. by rewrite H. }
  assert (given (e_mbid (n_entity trackEntity)) = true) as Hg.
  { rewrite Hmbid. simpl. unfold truthy. by apply negb_true_iff, eqs_false. }
  unfold expandTrack, Net.fetchMB. rewrite Hg, Hmbid, Hup, Hok. cbn [negb default].
  eexists _, _. split; [reflexivity|].
  cbn [Net.sent dd_entities dd_relationships].
  split; [by rewrite map_app|].
  set (trackId := e_id (n_entity trackEntity)).
  set (credits := default [] (an_artistCredit (Net.body r))).
  set (relations := default [] (an_relations (Net.body r))).
  set (x1 := foldl (expandCredit trackId) (mkExpansion [] [] [] false) credits).
  assert (expanded trackId (foldl (expandRelation trackId) x1 relations))
    as (Hseen & Hnd & Hnodes & Hrel).
  { apply foldl_invariant; [intros x rel _; apply expandRelation_expanded|].
    apply foldl_invariant; [intros x c _; apply expandCredit_expanded|].
    repeat split; constructor. }
  rewrite <- Hseen. split; [exact Hnd|split; [exact Hnodes|split; [exact Hrel|]]].
  destruct (expandRelation_appends trackId relations x1) as (more & ->).
  pose proof (expandCredit_roles trackId credits (mkExpansion [] [] [] false))
    as Hroles.
  fold x1 in Hroles. cbn [x_relationships x_nextIsFeatured map app] in Hroles.
  split.
  - intros c rest Hc. rewrite Hc in Hroles. cbn [creditRoles] in Hroles.
    destruct (x_relationships x1) as [|rel rels]; [done|].
    cbn [map] in Hroles. injection Hroles as Hrole _. simpl. by rewrite Hrole.
  - intros i c next Hi Hnext.
    rewrite <- list_lookup_fmap, fmap_app, lookup_app_l.
    + change (r_role <$> x_relationships x1) with (map r_role (x_relationships x1)).
      rewrite Hroles. by apply (creditRoles_next credits false i c next).
    + change (r_role <$> x_relationships x1) with (map r_role (x_relationships x1)).
      rewrite Hroles, creditRoles_length. by apply lookup_lt_Some in Hnext.
Qed.

Lemma expandTrack_graph_witness :
  exists res s',
    expandTrack sayTrack (Net.mkSource 5000 0 [Net.mkReply 200 duet] [])
      = (Done res, s') /\
    map (fun n => e_id (n_entity n)) (dd_entities res) =
      ["artist-pm"; "artist-mj"; "artist-qj"] /\
    map r_role (dd_relationships res) = [primary_artist; featured; producer].
Proof.
  destruct (expandTrack_graph sayTrack "s1"
              (Net.mkSource 5000 0 [Net.mkReply 200 duet] [])
              (Net.mkReply 200 duet) [])
    as (_ & res & s' & Hrun & _); [reflexivity|discriminate|reflexivity..|].
  exists res, s'. split; [exact Hrun|].
  vm_compute in Hrun. injection Hrun as <- <-.
  split; reflexivity.
Defined.

End DrillDownFacts.

(** ** MusicBrainz: alternate versions *)

Module VersionFacts.
Import JS Music MusicBrainz JSFacts.

(** A match later in the input is found by [test]. *)
Lemma test_app (r : regex) (base m : list ascii) :
  test r m = true -> test r (base ++ m) = true.
Proof.
  intros H. induction base as [|c base IH]; [done|].
  cbn [app test]. by destruct (rmatch r (c :: base ++ m) Some).
Qed.

(** A pattern that rejects every character of the input as its first,
    and the empty input, matches nowhere. *)
Lemma test_rejected (r : regex) (s : list ascii) :
  rmatch r [] Some = None ->
  Forall (fun c => firstRejects r c = true) s ->
  test r s = false.
Proof.
  intros Hnil. induction 1 as [|c s Hc _ IH]; cbn [test].
  - by rewrite Hnil.
  - by rewrite (firstRejects_sound r c Hc).
Qed.

Lemma bracketPattern_first (c : ascii) :
  c <> "("%char -> c <> "["%char -> c <> "-"%char ->
  firstRejects bracketPattern c = true.
Proof. destruct c as [[] [] [] [] [] [] [] []]; vm_compute; congruence. Qed.

(** X16.  Without a disambiguation, a title with no parenthesis, square
    bracket or hyphen is never taken for an alternate version.  A title
    that ends in a bracketed marker such as (Live), [Remix] or
    (2012 Remaster) always is, whatever comes before the marker and
    whatever the disambiguation. *)
Theorem isAlternateVersion_by_bracket (title base marker : string)
    (disambiguation : option string) :
  (Forall (fun c => c <> "("%char /\ c <> "["%char /\ c <> "-"%char)
          (chars title) ->
   isAlternateVersion title None = false) /\
  (In marker bracketedMarkers ->
   isAlternateVersion (base +:+ marker) disambiguation = true).
Proof.
  unfold isAlternateVersion, matches. split.
  - intros Hplain.
    assert (existsb (includes (toLowerCase (default "" None)))
              alternateIndicators = false) as -> by (vm_compute; reflexivity).
    apply test_rejected; [vm_compute; reflexivity|].
    eapply Forall_impl; [exact Hplain|]. intros c (H1 & H2 & H3).
    by apply bracketPattern_first.
  - intros Hin. apply orb_true_iff. right. rewrite chars_app.
    apply test_app.
    assert (forallb (fun m => test bracketPattern (chars m)) bracketedMarkers
            = true) as Hall by (vm_compute; reflexivity).
    rewrite forallb_forall in Hall. by apply Hall.
Qed.

Lemma isAlternateVersion_by_bracket_witness :
  isAlternateVersion "Smooth Criminal" None = false /\
  isAlternateVersion "Smooth Criminal (2012 Remaster)" (Some "album") = true.
Proof.
  destruct (isAlternateVersion_by_bracket "Smooth Criminal" "Smooth Criminal"
              " (2012 Remaster)" (Some "album")) as [Hplain Hmarked].
  split.
  - apply Hplain. repeat constructor; discriminate.
  - apply Hmarked. apply has_true. vm_compute. reflexivity.
Defined.

End VersionFacts.

(** ** Discogs: numbered artist names *)

Module DiscogsNames.
Import JS Music Discogs JSFacts.

(** A greedy star over a class takes the whole run of the class when
    what follows the run does not start in the class and the rest of the
    pattern matches there. *)
Lemma greedyLoop_run (p : ascii -> bool)
    (k : list ascii -> option (list ascii)) (xs rest : list ascii) :
  Forall (fun c => p c = true) xs ->
  match rest with [] => True | c :: _ => p c = false end ->
  is_Some (k rest) ->
  forall n, (length (xs ++ rest) <= n)%nat ->
            greedyLoop (rmatch (Cls p)) k n (xs ++ rest) = k rest.
Proof.
  intros Hxs Hrest Hk. induction Hxs as [|c xs Hc _ IH]; intros n Hn.
  - destruct n as [|n]; [reflexivity|]. cbn [app greedyLoop rmatch].
    destruct rest as [|c rest]; [reflexivity|]. by rewrite Hrest.
  - destruct n as [|n]; [simpl in Hn; lia|].
    cbn [app greedyLoop rmatch]. rewrite Hc.
    destruct (Nat.ltb_spec (length (xs ++ rest)) (length (c :: xs ++ rest)))
      as [_|H]; [|simpl in H; lia].
    rewrite IH by (simpl in Hn; lia). by destruct Hk as [out ->].
Qed.

(** The star over white space finds nothing when the rest of the pattern
    rejects every character of the input and the empty input. *)
Lemma greedyLoop_rejected (k : list ascii -> option (list ascii))
    (s : list ascii) (n : nat) :
  k [] = None ->
  Forall (fun c => forall rest, k (c :: rest) = None) s ->
  greedyLoop (rmatch space) k n s = None.
Proof.
  intros Hnil. revert s. induction n as [|n IH]; intros s Hs.
  { destruct Hs; [done|auto]. }
  cbn [greedyLoop]. destruct Hs as [|c s Hc Hs]; [by rewrite Hnil|].
  rewrite Hc. unfold space at 1. cbn [rmatch].
  destruct (isSpace c); [|reflexivity].
  destruct (_ <? _)%nat; [|reflexivity]. by rewrite IH.
Qed.

Lemma replaceFirst_rejected (R2 : regex) (rep s : list ascii) :
  rmatch R2 [] Some = None ->
  Forall (fun c => firstRejects R2 c = true) s ->
  replaceFirst (Cat (Star space) R2) rep s = s.
Proof.
  intros Hnil. induction 1 as [|c s Hc Hs IH]; cbn [replaceFirst rmatch].
  - cbn [greedyLoop length]. unfold space. cbn [rmatch]. by rewrite Hnil.
  - rewrite greedyLoop_rejected, IH; [done|done|].
    constructor; [intros rest; by apply firstRejects_sound|].
    eapply Forall_impl; [exact Hs|]. intros c' Hc' rest.
    by apply firstRejects_sound.
Qed.

Lemma nameChar_not_space (c : ascii) : nameChar c = true -> isSpace c = false.
Proof. unfold nameChar. by intros [H _]%negb_true_iff%orb_false_iff. Qed.

(** Inside a tidy name the pattern of the numbering matches nowhere. *)
Lemma greedyLoop_tidy (k : list ascii -> option (list ascii)) :
  (forall c rest, eqChar c "(" = false -> k (c :: rest) = None) ->
  forall n l rest,
    tidy l = true -> l <> [] ->
    greedyLoop (rmatch space) k n (l ++ rest) = None.
Proof.
  assert (forall c, isSpace c = true -> eqChar c "(" = false) as Hspace.
  { intros c. destruct c as [[] [] [] [] [] [] [] []]; vm_compute; congruence. }
  intros Hk n. induction n as [|n IH]; intros l rest Hl Hne;
    destruct l as [|c l]; try done; cbn [tidy] in Hl;
    apply andb_prop in Hl as [Hc Hl];
    assert (eqChar c "(" = false) as Hparen
      by (apply orb_prop in Hc as [Hc|[Hc _]%andb_prop];
          [unfold nameChar in Hc;
           apply negb_true_iff, orb_false_iff in Hc as [_ Hc]; exact Hc
          |by apply Hspace]);
    cbn [greedyLoop app].
  - by apply Hk.
  - rewrite (Hk c (l ++ rest) Hparen). unfold space at 1. cbn [rmatch].
    destruct (isSpace c) eqn:Ec; [|reflexivity].
    destruct (_ <? _)%nat; [|reflexivity].
    rewrite IH; [reflexivity|done|].
    apply orb_prop in Hc as [Hc|[_ Hc]%andb_prop].
    + apply nameChar_not_space in Hc. congruence.
    + by destruct l.
Qed.

Lemma replaceFirst_tidy (R2 : regex) (rep : list ascii) :
  (forall c, eqChar c "(" = false -> firstRejects R2 c = true) ->
  forall l x,
    tidy l = true ->
    replaceFirst (Cat (Star space) R2) rep (l ++ x) =
    l ++ replaceFirst (Cat (Star space) R2) rep x.
Proof.
  intros HR l x. induction l as [|c l IH]; intros Hl; [reflexivity|].
  cbn [app replaceFirst rmatch].
  change (c :: l ++ x) with ((c :: l) ++ x).
  rewrite greedyLoop_tidy; [| |done|done].
  - cbn [app]. f_equal. apply IH. cbn [tidy] in Hl.
    by apply andb_prop in Hl as [_ Hl].
  - intros c' rest Hc'. apply firstRejects_sound. by apply HR.
Qed.

(** X17.  [cleanArtistName] only trims a name that has no opening
    parenthesis.  From a name that ends in a number in parentheses, with
    any white space around it, it removes the number and that white
    space, and trims what is left: "Artist (2)" is cleaned to "Artist". *)
Theorem cleanArtistName_removes_numbering
    (name base before digits after : string) :
  (Forall (fun c => eqChar c "(" = false) (chars name) ->
   cleanArtistName name = trim name) /\
  (tidy (chars base) = true ->
   Forall (fun c => isSpace c = true) (chars before) ->
   Forall (fun c => isDigit c = true) (chars digits) -> digits <> "" ->
   Forall (fun c => isSpace c = true) (chars after) ->
   cleanArtistName (base +:+ before +:+ "(" +:+ digits +:+ ")" +:+ after) =
   trim base).
Proof.
  unfold cleanArtistName, replace1.
  change (cats [Star space; lit "("; plus digit; lit ")"; Star space; Eos])
    with (Cat (Star space)
            (Cat (Cls (eqChar "("))
               (Cat (Cat (Cls isDigit) (Star (Cls isDigit)))
                  (Cat (Cls (eqChar ")")) (Cat (Star (Cls isSpace)) Eos))))).
  assert (forall c, eqChar c "(" = false -> eqChar "(" c = false) as Hsym.
  { intros c. unfold eqChar. rewrite !N.eqb_neq. congruence. }
  split.
  - intros Hname. rewrite replaceFirst_rejected, str_chars; [done|reflexivity|].
    eapply Forall_impl; [exact Hname|]. intros c Hc. cbn [firstRejects].
    by rewrite (Hsym c Hc).
  - intros Hbase Hbefore Hdigits Hne Hafter.
    rewrite !chars_app, replaceFirst_tidy;
      [|intros c Hc; cbn [firstRejects]; by rewrite (Hsym c Hc)|done].
    assert (replaceFirst
              (Cat (Star space)
                 (Cat (Cls (eqChar "("))
                    (Cat (Cat (Cls isDigit) (Star (Cls isDigit)))
                       (Cat (Cls (eqChar ")")) (Cat (Star (Cls isSpace)) Eos)))))
              (chars "")
              (chars before ++ chars "(" ++ chars digits ++ chars ")" ++ chars after)
            = []) as ->; [|by rewrite app_nil_r, str_chars].
    destruct (chars digits) as [|d ds] eqn:Ed.
    { exfalso. apply Hne. rewrite <- (str_chars digits), Ed. reflexivity. }
    inversion Hdigits as [|? ? Hd Hds]; subst.
    assert (rmatch
              (Cat (Star space)
                 (Cat (Cls (eqChar "("))
                    (Cat (Cat (Cls isDigit) (Star (Cls isDigit)))
                       (Cat (Cls (eqChar ")")) (Cat (Star (Cls isSpace)) Eos)))))
              (chars before ++ chars "(" ++ (d :: ds) ++ chars ")" ++ chars after)
              Some = Some []) as Hmatch.
    { cbn [rmatch]. unfold space.
      assert (greedyLoop (rmatch (Cls isSpace))
                (fun s' => match s' with [] => Some s' | _ :: _ => None end)
                (S (length (chars after))) (chars after ++ []) = Some []) as Hend.
      { rewrite greedyLoop_run; [done|done|done|by eexists|].
        rewrite app_nil_r. lia. }
      rewrite app_nil_r in Hend.
      assert (greedyLoop (rmatch (Cls isDigit))
                (fun s' =>
                   match s' with
                   | c :: s'' =>
                       if eqChar ")" c
                       then greedyLoop (rmatch (Cls isSpace))
                              (fun s3 => match s3 with
                                         | [] => Some s3
                                         | _ :: _ => None
                                         end)
                              (S (length s'')) s''
                       else None
                   | [] => None
                   end)
                (S (length (ds ++ chars ")" ++ chars after)))
                (ds ++ chars ")" ++ chars after) = Some []) as Hnum.
      { rewrite greedyLoop_run; [|done|reflexivity| |lia].
        - cbn [chars list_ascii_of_string app].
          change (eqChar ")" ")") with true. cbv iota. exact Hend.
        - cbn [chars list_ascii_of_string app].
          change (eqChar ")" ")") with true. cbv iota. rewrite Hend. by eexists. }
      rewrite greedyLoop_run; [|done|reflexivity| |lia];
        cbn [chars list_ascii_of_string app];
        change (eqChar "(" "(") with true; cbv iota; rewrite Hd;
        cbn [chars list_ascii_of_string app] in Hnum;
        [exact Hnum|exists []; exact Hnum]. }
    destruct (chars before ++ chars "(" ++ (d :: ds) ++ chars ")" ++ chars after)
      as [|c rest] eqn:E; cbn [replaceFirst]; by rewrite Hmatch.
Qed.

Lemma cleanArtistName_removes_numbering_witness :
  cleanArtistName "Quincy Jones" = trim "Quincy Jones" /\
  cleanArtistName "Bob Engineer (12) " = trim "Bob Engineer".
Proof.
  destruct (cleanArtistName_removes_numbering "Quincy Jones" "Bob Engineer"
              " " "12" " ") as [Hplain Hnumbered].
  split.
  - apply Hplain. repeat constructor.
  - apply Hnumbered; [reflexivity| | |discriminate|]; repeat constructor.
Defined.

End DiscogsNames.

(** ** MusicBrainz: normal forms *)

Module NormalForms.
Import JS Music MusicBrainz JSFacts CacheKeys.

Lemma dropSpaces_head (l : list ascii) :
  match dropSpaces l with
  | c :: _ => isSpace c = false
  | [] => True
  end.
Proof.
  induction l as [|c l IH]; [done|]. cbn [dropSpaces].
  by destruct (isSpace c) eqn:E.
Qed.

Lemma dropSpaces_fixed (l : list ascii) :
  match l with c :: _ => isSpace c = false | [] => True end ->
  dropSpaces l = l.
Proof. destruct l as [|c l]; [done|]. cbn [dropSpaces]. by intros ->. Qed.

Lemma dropSpaces_split (l : list ascii) :
  exists sp, l = sp ++ dropSpaces l.
Proof.
  induction l as [|c l (sp & IH)]; [by exists []|]. cbn [dropSpaces].
  destruct (isSpace c); [|by exists []].
  exists (c :: sp). cbn [app]. by rewrite <- IH.
Qed.

(** [trim] answers a segment of its argument, and is idempotent. *)
Lemma trimChars_segment (l : list ascii) :
  exists pre post, l = pre ++ trimChars l ++ post.
Proof.
  unfold trimChars.
  destruct (dropSpaces_split l) as (pre & Hl).
  destruct (dropSpaces_split (rev (dropSpaces l))) as (sp & Hr).
  exists pre, (rev sp). rewrite <- rev_app_distr, <- Hr, rev_involutive. exact Hl.
Qed.

Lemma trimChars_idempotent (l : list ascii) :
  trimChars (trimChars l) = trimChars l.
Proof.
  unfold trimChars.
  set (a := dropSpaces l). set (b := dropSpaces (rev a)).
  assert (dropSpaces b = b) as Hb by apply dropSpaces_fixed, dropSpaces_head.
  assert (dropSpaces (rev b) = rev b) as Hrb.
  { apply dropSpaces_fixed.
    destruct (dropSpaces_split (rev a)) as (sp & Hr). fold b in Hr.
    assert (a = rev b ++ rev sp) as Ha
      by (by rewrite <- rev_app_distr, <- Hr, rev_involutive).
    pose proof (dropSpaces_head l) as Hhead. fold a in Hhead.
    destruct (rev b) as [|c rb]; [done|]. rewrite Ha in Hhead. exact Hhead. }
  by rewrite Hrb, rev_involutive, Hb.
Qed.

Lemma spacedBy_app_r (q : ascii -> bool) (x y : list ascii) :
  spacedBy q (x ++ y) = true -> spacedBy q y = true.
Proof.
  induction x as [|c x IH]; [done|]. cbn [app spacedBy].
  intros [_ H]%andb_prop. by apply IH.
Qed.

Lemma spacedBy_app_l (q : ascii -> bool) (x y : list ascii) :
  spacedBy q (x ++ y) = true -> spacedBy q x = true.
Proof.
  induction x as [|c x IH]; [done|]. cbn [app spacedBy].
  intros [Hc H]%andb_prop. rewrite (IH H), andb_true_r.
  apply orb_prop in Hc as [->|[Hs Hnext]%andb_prop]; [done|].
  rewrite Hs. destruct x; [by rewrite orb_true_r|].
  cbn [app] in Hnext. by rewrite Hnext, orb_true_r.
Qed.

Lemma spacedBy_trimChars (q : ascii -> bool) (l : list ascii) :
  spacedBy q l = true -> spacedBy q (trimChars l) = true.
Proof.
  destruct (trimChars_segment l) as (pre & post & Hl). intros H.
  rewrite Hl in H. by apply spacedBy_app_r, spacedBy_app_l in H.
Qed.

Lemma space_is_space (c : ascii) : eqChar c " " = true -> c = " "%char.
Proof. destruct c as [[] [] [] [] [] [] [] []]; vm_compute; congruence. Qed.

(** The replacement of [\s+] by one space: what comes out starts as what
    went in when that is not white space, and is spaced. *)
Lemma squash_head (n : nat) (s : list ascii) :
  (length s <= n)%nat ->
  match s with c :: _ => isSpace c = false | [] => True end ->
  match replaceAllFrom n (plus space) [" "%char] s with
  | c :: _ => isSpace c = false
  | [] => True
  end.
Proof.
  destruct s as [|c s]; intros Hn Hc.
  - destruct n; [done|]. cbn [replaceAllFrom]. by rewrite rmatch_plus_space.
  - destruct n; [simpl in Hn; lia|]. cbn [replaceAllFrom].
    by rewrite rmatch_plus_space, Hc.
Qed.

Lemma squash_spaced (q : ascii -> bool) (n : nat) :
  forall s,
    (length s <= n)%nat ->
    Forall (fun c => isSpace c = false -> q c = true) s ->
    spacedBy q (replaceAllFrom n (plus space) [" "%char] s) = true.
Proof.
  induction n as [|n IH]; intros s Hn Hs.
  { destruct s; [done|simpl in Hn; lia]. }
  cbn [replaceAllFrom]. rewrite rmatch_plus_space.
  destruct s as [|c s]; [done|].
  inversion Hs as [|? ? Hc Hs']; subst.
  pose proof (length_dropSpaces s) as Hlen.
  destruct (isSpace c) eqn:Ec.
  - destruct (Nat.ltb_spec (length (dropSpaces s)) (length (c :: s)))
      as [_|H]; [|simpl in H; lia].
    cbn [app spacedBy].
    rewrite IH by (try (simpl in Hn; lia); by apply Forall_dropSpaces).
    pose proof (squash_head n (dropSpaces s) ltac:(simpl in Hn; lia)
                  (dropSpaces_head s)) as Hhead.
    destruct (replaceAllFrom n (plus space) [" "%char] (dropSpaces s));
      [by rewrite orb_true_r|].
    by rewrite Hhead, orb_true_r.
  - cbn [spacedBy]. rewrite (Hc eq_refl). cbn [orb andb].
    apply IH; [simpl in Hn; lia|done].
Qed.

Lemma squash_fixed (q : ascii -> bool) (n : nat) :
  (forall c, q c = true -> isSpace c = false) ->
  forall s,
    (length s <= n)%nat ->
    spacedBy q s = true ->
    replaceAllFrom n (plus space) [" "%char] s = s.
Proof.
  intros Hq. induction n as [|n IH]; intros s Hn Hs.
  { destruct s; [done|simpl in Hn; lia]. }
  cbn [replaceAllFrom]. rewrite rmatch_plus_space.
  destruct s as [|c s]; [done|].
  cbn [spacedBy] in Hs. apply andb_prop in Hs as [Hc Hs].
  apply orb_prop in Hc as [Hc|[Hc Hnext]%andb_prop].
  - rewrite (Hq c Hc). f_equal. apply IH; [simpl in Hn; lia|done].
  - apply space_is_space in Hc as ->. change (isSpace " ") with true. cbv iota.
    assert (dropSpaces s = s) as ->.
    { apply dropSpaces_fixed. destruct s; [done|].
      by apply negb_true_iff in Hnext. }
    destruct (Nat.ltb_spec (length s) (length (" "%char :: s))) as [_|H];
      [|simpl in H; lia].
    cbn [app]. f_equal. apply IH; [simpl in Hn; lia|done].
Qed.

Lemma spacedBy_Forall (q : ascii -> bool) (l : list ascii) :
  spacedBy q l = true -> Forall (fun c => q c = true \/ c = " "%char) l.
Proof.
  induction l as [|c l IH]; [constructor|]. cbn [spacedBy].
  intros [Hc H]%andb_prop. constructor; [|by apply IH].
  apply orb_prop in Hc as [Hc|[Hc _]%andb_prop]; [by left|].
  right. by apply space_is_space.
Qed.

Lemma filter_all {A : Type} (f : A -> bool) (l : list A) :
  Forall (fun x => f x = true) l -> List.filter f l = l.
Proof.
  induction 1 as [|x l Hx _ IH]; [done|]. cbn [List.filter].
  by rewrite Hx, IH.
Qed.

Lemma map_fixed {A : Type} (f : A -> A) (l : list A) :
  Forall (fun x => f x = x) l -> map f l = l.
Proof. induction 1 as [|x l Hx _ IH]; [done|]. cbn [map]. by rewrite Hx, IH. Qed.

Lemma comparisonChar_facts (c : ascii) :
  comparisonChar c = true ->
  isSpace c = false /\ lowerChar c = c /\ isWord c = true.
Proof. destruct c as [[] [] [] [] [] [] [] []]; vm_compute; intuition congruence. Qed.

Lemma artistNameChar_facts (c : ascii) :
  artistNameChar c = true ->
  isSpace c = false /\ lowerChar c = c /\ existsb (eqChar c) (chars ".-_$") = false.
Proof. destruct c as [[] [] [] [] [] [] [] []]; vm_compute; intuition congruence. Qed.

Lemma lowered_comparisonChar (x : ascii) :
  negb (negb (isWord (lowerChar x) || isSpace (lowerChar x))) = true ->
  isSpace (lowerChar x) = false -> comparisonChar (lowerChar x) = true.
Proof. destruct x as [[] [] [] [] [] [] [] []]; vm_compute; congruence. Qed.

Lemma lowered_artistNameChar (x : ascii) :
  negb (existsb (eqChar (lowerChar x)) (chars ".-_$")) = true ->
  isSpace (lowerChar x) = false -> artistNameChar (lowerChar x) = true.
Proof. destruct x as [[] [] [] [] [] [] [] []]; vm_compute; congruence. Qed.

Lemma chars_inj (a b : string) : chars a = chars b -> a = b.
Proof. intros H. by rewrite <- (str_chars a), <- (str_chars b), H. Qed.

(** The two normalizations in terms of lists of characters. *)
Lemma normalizeForComparison_chars (s : string) :
  chars (normalizeForComparison s) =
  trimChars
    (replaceAllFrom
       (S (length (List.filter
                     (fun c => negb (negb (isWord c || isSpace c)))
                     (map lowerChar (chars s)))))
       (plus space) [" "%char]
       (List.filter (fun c => negb (negb (isWord c || isSpace c)))
          (map lowerChar (chars s)))).
Proof.
  unfold normalizeForComparison, trim, replaceAll at 1, punctuation, toLowerCase.
  by rewrite replaceAll_class, !chars_str.
Qed.

Lemma normalizeArtistName_chars (s : string) :
  chars (normalizeArtistName s) =
  trimChars
    (replaceAllFrom
       (S (length (List.filter
                     (fun c => negb (existsb (eqChar c) (chars ".-_$")))
                     (map lowerChar (chars s)))))
       (plus space) [" "%char]
       (List.filter (fun c => negb (existsb (eqChar c) (chars ".-_$")))
          (map lowerChar (chars s)))).
Proof.
  unfold normalizeArtistName, trim, replaceAll at 1, oneOf, toLowerCase.
  by rewrite replaceAll_class, !chars_str.
Qed.

(** X18.  [normalizeForComparison] answers a text of the characters a to
    z, 0 to 9 and underscore, with single spaces between them and none at
    either end; it does not depend on letter case, and normalizing its
    answer again changes nothing.  [normalizeArtistName] likewise answers
    single-spaced text without capital letters and without the signs
    . - _ $, and is idempotent and independent of letter case. *)
Theorem normalizations_are_idempotent (s : string) :
  let compared := normalizeForComparison s in
  let named := normalizeArtistName s in
  spacedBy comparisonChar (chars compared) = true /\
  trim compared = compared /\
  normalizeForComparison compared = compared /\
  normalizeForComparison (toLowerCase s) = compared /\
  spacedBy artistNameChar (chars named) = true /\
  trim named = named /\
  normalizeArtistName named = named /\
  normalizeArtistName (toLowerCase s) = named.
Proof.
  cbv zeta.
  assert (spacedBy comparisonChar (chars (normalizeForComparison s)) = true)
    as Hc.
  { rewrite normalizeForComparison_chars.
    apply spacedBy_trimChars, squash_spaced; [lia|].
    apply Forall_forall. intros c [Hin Hkeep]%list_elem_of_In%filter_In.
    apply in_map_iff in Hin as (x & <- & _). by apply lowered_comparisonChar. }
  assert (spacedBy artistNameChar (chars (normalizeArtistName s)) = true) as Ha.
  { rewrite normalizeArtistName_chars.
    apply spacedBy_trimChars, squash_spaced; [lia|].
    apply Forall_forall. intros c [Hin Hkeep]%list_elem_of_In%filter_In.
    apply in_map_iff in Hin as (x & <- & _). by apply lowered_artistNameChar. }
  assert (trimChars (chars (normalizeForComparison s))
          = chars (normalizeForComparison s)) as Htc.
  { rewrite normalizeForComparison_chars. apply trimChars_idempotent. }
  assert (trimChars (chars (normalizeArtistName s))
          = chars (normalizeArtistName s)) as Hta.
  { rewrite normalizeArtistName_chars. apply trimChars_idempotent. }
  split; [exact Hc|split; [|split; [|split; [|split; [exact Ha|split;
    [|split]]]]]].
  - unfold trim. by rewrite Htc, str_chars.
  - apply chars_inj.
    rewrite (normalizeForComparison_chars (normalizeForComparison s)).
    pose proof (spacedBy_Forall _ _ Hc) as Hall.
    rewrite map_fixed, filter_all, (squash_fixed comparisonChar); try done.
    + intros c Hq. by apply comparisonChar_facts in Hq as (? & _).
    + lia.
    + eapply Forall_impl; [exact Hall|]. intros c [Hq| ->]; [|reflexivity].
      apply comparisonChar_facts in Hq as (_ & _ & ->). reflexivity.
    + eapply Forall_impl; [exact Hall|]. intros c [Hq| ->]; [|reflexivity].
      by apply comparisonChar_facts in Hq as (_ & ? & _).
  - unfold normalizeForComparison. by rewrite toLowerCase_idempotent.
  - unfold trim. by rewrite Hta, str_chars.
  - apply chars_inj.
    rewrite (normalizeArtistName_chars (normalizeArtistName s)).
    pose proof (spacedBy_Forall _ _ Ha) as Hall.
    rewrite map_fixed, filter_all, (squash_fixed artistNameChar); try done.
    + intros c Hq. by apply artistNameChar_facts in Hq as (? & _).
    + lia.
    + eapply Forall_impl; [exact Hall|]. intros c [Hq| ->]; [|reflexivity].
      apply artistNameChar_facts in Hq as (_ & _ & ->). reflexivity.
    + eapply Forall_impl; [exact Hall|]. intros c [Hq| ->]; [|reflexivity].
      by apply artistNameChar_facts in Hq as (_ & ? & _).
  - unfold normalizeArtistName. by rewrite toLowerCase_idempotent.
Qed.

End NormalForms.

(** ** MusicBrainz: the entities of the graph of a track *)

Module AssemblyEntities.
Import JS Music MusicBrainz JSFacts.

(** A step that only appends entities with fresh ids keeps [idsMatch]. *)
Lemma idsMatch_push (g : graph) (e : MusicEntity) (rels : list Relationship)
    (p al names : list string) :
  idsMatch g -> has (g_entityIds g) (e_id e) = false ->
  idsMatch {| g_entities := g_entities g ++ [e];
              g_relationships := rels;
              g_entityIds := add (g_entityIds g) (e_id e);
              g_primaryArtistIds := p;
              g_albumArtistIds := al;
              g_normalizedArtistNames := names |}.
Proof.
  intros [Hids Hnd] Hnew. unfold idsMatch. cbn [g_entities g_entityIds].
  unfold add. rewrite Hnew. apply has_false in Hnew.
  split; [by rewrite map_app, Hids|].
  apply NoDup_app. split; [done|split; [|apply NoDup_singleton]].
  intros x Hx ->%list_elem_of_singleton. by apply list_elem_of_In in Hx.
Qed.

Lemma addArtistCredit_ids (trackId wanted : string) (st : graph * bool)
    (credit : ArtistCredit) :
  idsMatch st.1 -> idsMatch (addArtistCredit trackId wanted st credit).1.
Proof.
  destruct st as [g flag]. cbn [fst]. intros H. unfold addArtistCredit. cbn [fst].
  destruct (has (g_entityIds g) ("artist-" +:+ ar_id (ac_artist credit))) eqn:E;
    cbn [negb andb]; [exact H|].
  destruct (has (g_normalizedArtistNames g)
              (normalizeArtistName (ar_name (ac_artist credit))));
    cbn [negb]; [exact H|].
  by apply (idsMatch_push g (artistEntity (ac_artist credit))).
Qed.

Lemma addAlbum_ids (trackId : string) (g : graph) (release : MBRelease) :
  idsMatch g -> idsMatch (addAlbum trackId g release).
Proof.
  intros H. unfold addAlbum.
  destruct (has (g_entityIds g) ("release-" +:+ mr_id release)) eqn:E; [exact H|].
  by apply (idsMatch_push g (albumEntity release)).
Qed.

(** When the entity of a credited person is pushed, the effective id is
    the id of that person. *)
Lemma effectivePersonnelId_pushed (aliases : gmap string string) (g : graph)
    (a : MBArtist) :
  has (g_entityIds g) (effectivePersonnelId aliases g a) = false ->
  has (g_normalizedArtistNames g) (normalizeArtistName (ar_name a)) = false ->
  effectivePersonnelId aliases g a = "artist-" +:+ ar_id a.
Proof.
  unfold effectivePersonnelId. intros Hid Hname. rewrite Hname in *.
  cbn [andb] in *.
  destruct (resolveArtistAlias aliases (ar_name a)) as [canonical|]; [|done].
  destruct (truthy canonical && negb (eqs canonical (ar_id a)))%bool; [|done].
  destruct (has (g_entityIds g) ("artist-" +:+ canonical)) eqn:E; [|done].
  congruence.
Qed.

Lemma addPersonnelEntity_ids (aliases : gmap string string) (g : graph)
    (a : MBArtist) :
  idsMatch g ->
  idsMatch (addPersonnelEntity g a (effectivePersonnelId aliases g a)).
Proof.
  intros H. unfold addPersonnelEntity.
  destruct (has (g_entityIds g) (effectivePersonnelId aliases g a)) eqn:E;
    cbn [negb andb]; [exact H|].
  destruct (has (g_normalizedArtistNames g) (normalizeArtistName (ar_name a)))
    eqn:En; cbn [negb]; [exact H|].
  rewrite (effectivePersonnelId_pushed aliases g a E En) in E.
  by apply (idsMatch_push g (artistEntity a)).
Qed.

Lemma addPersonnel_ids (aliases : gmap string string) (trackId : string)
    (g : graph) (rel : MBRelation) :
  idsMatch g -> idsMatch (addPersonnel aliases trackId g rel).
Proof.
  intros H. unfold addPersonnel. destruct (rn_artist rel) as [a|]; [|exact H].
  destruct (has (g_primaryArtistIds g) _); [by destruct (eqRole _ _)|].
  apply (addPersonnelEntity_ids aliases g a H).
Qed.

Lemma addWorkCredit_ids (aliases : gmap string string) (trackId : string)
    (g : graph) (rel : MBRelation) :
  idsMatch g -> idsMatch (addWorkCredit aliases trackId g rel).
Proof.
  intros H. unfold addWorkCredit. destruct (rn_artist rel) as [a|]; [|exact H].
  destruct (hasRelId _ _); [exact H|].
  apply (addPersonnelEntity_ids aliases g a H).
Qed.

Lemma addWork_ids (aliases : gmap string string) (trackId : string)
    (works : string -> option WorkData) (g : graph) (rel : MBRelation) :
  idsMatch g -> idsMatch (addWork aliases trackId works g rel).
Proof.
  intros H. unfold addWork. destruct (rn_work rel) as [w|]; [|exact H].
  destruct (works (w_id w)) as [wd|]; [|exact H].
  destruct (wd_relations wd) as [rels|]; [|exact H].
  apply foldl_invariant; [|exact H]. intros g' r _. apply addWorkCredit_ids.
Qed.

(** The first loop of the merge, on entities whose ids are new. *)
Lemma mergeEntities_ids (aliases : gmap string string)
    (ents : list MusicEntity) :
  forall st : graph * list string,
    idsMatch st.1 ->
    NoDup (map e_id ents) ->
    (forall e, In e ents -> ~ In (e_id e) (g_entityIds st.1)) ->
    idsMatch (foldl (mergeEntity aliases) st ents).1.
Proof.
  induction ents as [|e ents IH]; intros [g names] Hg Hnd Hnew; [done|].
  cbn [foldl map] in *. apply NoDup_cons in Hnd as [He Hnd].
  apply IH; [|done|].
  - unfold mergeEntity.
    destruct (knownAlias _ _ _); [exact Hg|].
    destruct (has names _); [exact Hg|]. cbn [fst].
    apply (idsMatch_push g e); [exact Hg|].
    apply has_false, Hnew. by left.
  - intros e' Hin. unfold mergeEntity.
    destruct (knownAlias _ _ _); [apply Hnew; by right|].
    destruct (has names _); [apply Hnew; by right|].
    cbn [fst g_entityIds]. rewrite in_add. intros [H|H].
    + by apply (Hnew e'); [right|].
    + apply He. rewrite <- H. apply list_elem_of_In, in_map. exact Hin.
Qed.

Lemma mergeRelationships_ids (aliases : gmap string string) (trackId : string)
    (ents : list MusicEntity) (rels : list Relationship) (g : graph) :
  idsMatch g ->
  idsMatch (foldl (mergeRelationship aliases trackId ents) g rels).
Proof.
  intros H. apply foldl_invariant; [|exact H].
  intros g' r _ Hg'. unfold mergeRelationship.
  by destruct (isDuplicate _ _).
Qed.

(** X19.  When the recording has a list of releases, [buildGraphFromTrack]
    assembles a graph whose first entity is the track and in which no two
    entities have the same id, whatever MusicBrainz credits and whatever
    the alias table holds.  Merging Discogs credits keeps that, as long
    as the ids of the Discogs entities are distinct and none is already
    the id of an entity of the graph. *)
Theorem assemble_entity_ids_distinct (aliases : gmap string string)
    (artistName : string) (albumName : option string)
    (recordingMbid : string) (fullRecording : FullRecording)
    (works : string -> option WorkData) (releases : list MBRelease)
    (Hreleases : fr_releases fullRecording = Some releases) :
  exists g,
    assemble aliases artistName albumName recordingMbid fullRecording works
      None = Some g /\
    (e_id <$> head (g_entities g)) = Some ("track-" +:+ recordingMbid) /\
    NoDup (map e_id (g_entities g)) /\
    g_entityIds g = map e_id (g_entities g) /\
    forall credits,
      NoDup (map e_id (Discogs.entities credits)) ->
      (forall e, In e (Discogs.entities credits) ->
                 ~ In (e_id e) (map e_id (g_entities g))) ->
      exists g',
        assemble aliases artistName albumName recordingMbid fullRecording
          works (Some credits) = Some g' /\
        NoDup (map e_id (g_entities g')) /\
        (e_id <$> head (g_entities g')) = Some ("track-" +:+ recordingMbid).
Proof.
  unfold assemble. rewrite Hreleases.
  set (trackId := "track-" +:+ recordingMbid).
  set (g0 := mkGraph _ [] [trackId] [] [] []).
  set (g1 := (foldl _ (g0, false) _).1).
  set (g2 := match targetReleaseOf albumName releases with
             | Some targetRelease => addAlbum trackId g1 targetRelease
             | None => g1
             end).
  set (g3 := foldl (addPersonnel aliases trackId) g2 _).
  set (g4 := foldl (addWork aliases trackId works) g3 _).
  assert (forall g : graph,
            idsMatch g -> head (g_entityIds g) = Some trackId ->
            (e_id <$> head (g_entities g)) = Some trackId /\
            NoDup (map e_id (g_entities g))) as Hread.
  { intros g [Hids Hnd] Hhead. rewrite Hids in Hhead, Hnd. split; [|done].
    by destruct (g_entities g). }
  assert (idsMatch g4 /\ head (g_entityIds g4) = Some trackId) as [H4 Hhead4].
  { assert (forall g : graph,
              idsMatch g /\ head (g_entityIds g) = Some trackId ->
              forall g' : graph,
                idsMatch g' ->
                (exists more, g_entityIds g' = g_entityIds g ++ more) ->
                idsMatch g' /\ head (g_entityIds g') = Some trackId) as Hkeep.
    { intros g [_ Hh] g' Hg' (more & Hmore). split; [done|].
      rewrite Hmore. by destruct (g_entityIds g). }
    assert (forall xs x, exists more, add xs x = xs ++ more) as Hadd.
    { intros xs x. unfold add. destruct (has xs x); [|by eexists].
      exists []. by rewrite app_nil_r. }
    assert (forall (A B : Type) (f : A -> B -> A) (ids : A -> list string)
                   (l : list B) (a : A),
              (forall a x, exists more, ids (f a x) = ids a ++ more) ->
              exists more, ids (foldl f a l) = ids a ++ more) as Hgrow.
    { intros A B f ids l. induction l as [|x l IH]; intros a Hstep.
      - exists []. simpl. by rewrite app_nil_r.
      - cbn [foldl]. destruct (IH (f a x) Hstep) as (m2 & ->).
        destruct (Hstep a x) as (m1 & ->). exists (m1 ++ m2).
        by rewrite app_assoc. }
    assert (forall g a eff, exists more,
              g_entityIds (addPersonnelEntity g a eff) = g_entityIds g ++ more)
      as HaddP.
    { intros g a eff. unfold addPersonnelEntity.
      destruct (_ && _)%bool; [apply Hadd|]. exists []. by rewrite app_nil_r. }
    assert (idsMatch g0 /\ head (g_entityIds g0) = Some trackId) as H0.
    { split; [|reflexivity]. split; [reflexivity|]. apply NoDup_singleton. }
    assert (idsMatch g1 /\ head (g_entityIds g1) = Some trackId) as H1.
    { apply (Hkeep g0 H0).
      - unfold g1. apply (foldl_invariant (fun st => idsMatch st.1)); [|apply H0].
        intros st c _. apply addArtistCredit_ids.
      - unfold g1.
        apply (Hgrow _ _ _ (fun st : graph * bool => g_entityIds st.1)).
        intros [g flag] c. unfold addArtistCredit. cbn [fst g_entityIds].
        destruct (_ && _)%bool; [apply Hadd|]. exists []. by rewrite app_nil_r. }
    assert (idsMatch g2 /\ head (g_entityIds g2) = Some trackId) as H2.
    { unfold g2. destruct (targetReleaseOf albumName releases); [|exact H1].
      apply (Hkeep g1 H1); [apply addAlbum_ids, H1|].
      unfold addAlbum. cbn [g_entityIds].
      destruct (has _ _); [|apply Hadd]. exists []. by rewrite app_nil_r. }
    assert (idsMatch g3 /\ head (g_entityIds g3) = Some trackId) as H3.
    { apply (Hkeep g2 H2).
      - unfold g3. apply foldl_invariant; [|apply H2].
        intros g r _. apply addPersonnel_ids.
      - unfold g3. apply (Hgrow _ _ _ g_entityIds). intros g r.
        unfold addPersonnel. destruct (rn_artist r) as [a|];
          [|exists []; by rewrite app_nil_r].
        destruct (has _ _); [destruct (eqRole _ _)|];
          cbn [withRelationships g_entityIds];
          try (exists []; by rewrite app_nil_r).
        apply HaddP. }
    apply (Hkeep g3 H3).
    - unfold g4. apply foldl_invariant; [|apply H3].
      intros g r _. apply addWork_ids.
    - unfold g4. apply (Hgrow _ _ _ g_entityIds). intros g r.
      unfold addWork. destruct (rn_work r) as [w|];
        [|exists []; by rewrite app_nil_r].
      destruct (works (w_id w)) as [wd|]; [|exists []; by rewrite app_nil_r].
      destruct (wd_relations wd) as [rels|]; [|exists []; by rewrite app_nil_r].
      apply (Hgrow _ _ _ g_entityIds). intros g' r'.
      unfold addWorkCredit. destruct (rn_artist r') as [a|];
        [|exists []; by rewrite app_nil_r].
      destruct (hasRelId _ _); [exists []; by rewrite app_nil_r|].
      cbn [withRelationships g_entityIds]. apply HaddP. }
  exists g4. split; [reflexivity|].
  destruct (Hread g4 H4 Hhead4) as [Hfirst Hnd].
  split; [exact Hfirst|split; [exact Hnd|split; [apply H4|]]].
  intros credits Hcnd Hnew. eexists. split; [reflexivity|].
  unfold mergeDiscogs. destruct (Discogs.entities credits) as [|e ents] eqn:E;
    [done|].
  set (st := foldl (mergeEntity aliases) (g4, namesOf (g_entities g4)) (e :: ents)).
  assert (idsMatch st.1) as Hst.
  { apply mergeEntities_ids; [exact H4|exact Hcnd|].
    intros e' Hin. cbn [fst]. destruct H4 as [-> _]. by apply Hnew. }
  assert (head (g_entityIds st.1) = Some trackId) as Hhead.
  { assert (forall (l : list MusicEntity) (s0 : graph * list string),
              exists more,
                g_entityIds (foldl (mergeEntity aliases) s0 l).1 =
                g_entityIds s0.1 ++ more) as Hgrow.
    { induction l as [|x l IH]; intros s0.
      - exists []. simpl. by rewrite app_nil_r.
      - cbn [foldl]. destruct (IH (mergeEntity aliases s0 x)) as (m2 & ->).
        destruct s0 as [g names]. unfold mergeEntity.
        destruct (knownAlias _ _ _); [by exists m2|].
        destruct (has names _); [by exists m2|]. cbn [fst g_entityIds].
        unfold add. destruct (has (g_entityIds g) (e_id x)); [by exists m2|].
        exists ([e_id x] ++ m2). by rewrite app_assoc. }
    destruct (Hgrow (e :: ents) (g4, namesOf (g_entities g4))) as (more & Hm).
    fold st in Hm. rewrite Hm. cbn [fst]. by destruct (g_entityIds g4). }
  pose proof (mergeRelationships_ids aliases trackId (e :: ents)
                (Discogs.relationships credits) st.1 Hst) as Hfinal.
  assert (g_entityIds
            (foldl (mergeRelationship aliases trackId (e :: ents)) st.1
               (Discogs.relationships credits)) = g_entityIds st.1) as Hsame.
  { apply (foldl_invariant
             (fun g => g_entityIds g = g_entityIds st.1)); [|reflexivity].
    intros g r _ Hg. unfold mergeRelationship.
    by destruct (isDuplicate _ _). }
  destruct (Hread _ Hfinal) as [Hf Hn]; [by rewrite Hsame|]. by split.
Qed.

Lemma assemble_entity_ids_distinct_witness :
  let credits :=
    Discogs.getTrackCredits true "Blinding Lights" (Some "track-bl")
      (Some quincyRelease) in
  exists g g',
    assemble weekndAliases "The Weeknd" None "bl"
      (blindingLights [workRelation; producerCredit]) blindingLightsWorks None
      = Some g /\
    (e_id <$> head (g_entities g)) = Some "track-bl" /\
    NoDup (map e_id (g_entities g)) /\
    assemble weekndAliases "The Weeknd" None "bl"
      (blindingLights [workRelation; producerCredit]) blindingLightsWorks
      (Some credits) = Some g' /\
    length (g_entities g') = S (length (g_entities g)) /\
    NoDup (map e_id (g_entities g')).
Proof.
  intros credits.
  destruct (assemble_entity_ids_distinct weekndAliases "The Weeknd" None "bl"
              (blindingLights [workRelation; producerCredit])
              blindingLightsWorks [] eq_refl)
    as (g & Hrun & Hfirst & Hnd & _ & Hmerge).
  destruct (Hmerge credits) as (g' & Hrun' & Hnd' & _).
  - vm_compute. apply NoDup_singleton.
  - injection Hrun as <-. vm_compute. intros e [<-|[]] Hin.
    repeat (destruct Hin as [Hin|Hin]; [discriminate Hin|]). exact Hin.
  - assert (option_map (fun x => length (g_entities x))
              (assemble weekndAliases "The Weeknd" None "bl"
                 (blindingLights [workRelation; producerCredit])
                 blindingLightsWorks (Some credits)) =
            option_map (fun x => S (length (g_entities x)))
              (assemble weekndAliases "The Weeknd" None "bl"
                 (blindingLights [workRelation; producerCredit])
                 blindingLightsWorks None)) as Hlen
      by (vm_compute; reflexivity).
    rewrite Hrun, Hrun' in Hlen. injection Hlen as Hlen.
    exists g, g'. repeat (split; [assumption|]). exact Hnd'.
Defined.

End AssemblyEntities.

(** ** Track cache: a store that exceeds the quota *)

Module CacheQuota.
Import JS Music TrackCache JSFacts TrackCacheFacts CacheLifecycle.

Lemma evictCount_snoc (n : nat) (l : list string) (k : string) (ls : storage) :
  evictCount (S n) (l ++ [k]) ls = evictCount n l (removeEntry (Some k) ls).
Proof.
  cbn [evictCount]. destruct (l ++ [k]) as [|x l'] eqn:E.
  { by destruct l. }
  rewrite <- E. unfold pop. by rewrite removelast_last, last_snoc.
Qed.

(** The loop of [evictOldEntries] on a list of at most [n] keys: no key
    is left, the entries of the keys are gone and nothing else is
    touched. *)
Lemma evictCount_all (l : list string) :
  forall (n : nat) (ls : storage),
    (length l <= n)%nat ->
    (evictCount n l ls).1 = [] /\
    (forall k, In k l -> truthy k = true ->
               (evictCount n l ls).2 !! (CACHE_PREFIX +:+ k) = None) /\
    (forall x, (forall k, In k l -> truthy k = true -> x <> CACHE_PREFIX +:+ k) ->
               (evictCount n l ls).2 !! x = ls !! x).
Proof.
  induction l as [|k l IH] using rev_ind; intros n ls Hlen.
  { destruct n; repeat split; try done. }
  rewrite length_app in Hlen. cbn [length] in Hlen.
  destruct n as [|n]; [lia|]. rewrite evictCount_snoc.
  destruct (IH n (removeEntry (Some k) ls)) as (Hkeys & Hgone & Hother); [lia|].
  split; [exact Hkeys|split].
  - intros k' Hin Ht. apply in_app_or in Hin as [Hin|[<-|[]]];
      [by apply Hgone|].
    destruct (in_dec string_dec k l) as [Hl|Hl]; [by apply Hgone|].
    rewrite Hother.
    + cbn [removeEntry]. rewrite Ht. apply lookup_delete_eq.
    + intros k2 Hin2 _ Heq%prefix_inj. by subst.
  - intros x Hx. rewrite Hother.
    + cbn [removeEntry]. destruct (truthy k) eqn:Ht; [|done].
      rewrite lookup_delete_ne; [done|].
      intros <-. apply (Hx k); [apply in_or_app; right; by left|done|done].
    + intros k2 Hin2. apply Hx, in_or_app. by left.
Qed.

Lemma removeKey_keeps (key k : string) (ks : list string) :
  In k ks -> k <> key -> In k (removeKey key ks).
Proof.
  unfold removeKey. revert k. induction ks as [|x ks IH]; intros k Hin Hne; [done|].
  cbn [indexOf]. destruct (eqs x key) eqn:E.
  - apply eqs_true in E. subst x. destruct Hin as [->|Hin]; [done|exact Hin].
  - destruct (indexOf key ks) as [i|] eqn:Ei; cbn [fmap option_fmap option_map];
      [|exact Hin].
    cbn [delete list_delete]. destruct Hin as [->|Hin]; [by left|].
    right. exact (IH k Hin Hne).
Qed.

Lemma length_removeKey (key : string) (ks : list string) :
  (length (removeKey key ks) <= length ks)%nat.
Proof.
  unfold removeKey. destruct (indexOf key ks) as [i|]; [|done].
  unfold delete. revert i.
  induction ks as [|x ks IH]; intros [|i]; cbn [list_delete length]; try lia.
  specialize (IH i). change (delete i ks) with (list_delete i ks). lia.
Qed.

(** X20.  The quota path of [setCachedTrack].  When the index with the new
    key is saved but the entry does not fit, [evictOldEntries(10)] reads
    the saved index and pops ten keys from its end.  With fewer than ten
    keys before the call the new key is popped with the others: when the
    second attempt fits, the entry is stored but the index is left empty
    and lists no key, so the entries of all earlier keys are gone,
    [getCacheStats] counts no track and [clearCache] leaves the entry in
    the storage. *)
Theorem setCachedTrack_over_quota_unlisted (fits : storage -> bool) (d : nat)
    (now : Z) (t a : string) (al : option string) (ents : list MusicEntity)
    (rels : list Relationship) (ks : list string) (ls : storage)
    (Hents : ents <> [])
    (Hidx : indexed ks ls)
    (Hfew : (length ks < 10)%nat)
    (Hsaved :
       fits (withIndex (generateCacheKey t a al
                        :: removeKey (generateCacheKey t a al) ks) ls) = true)
    (Hfull :
       fits (withEntry (generateCacheKey t a al) (newEntry now ents rels)
               (withIndex (generateCacheKey t a al
                           :: removeKey (generateCacheKey t a al) ks) ls))
       = false)
    (Hindex :
       fits (afterEviction
               (generateCacheKey t a al
                :: removeKey (generateCacheKey t a al) ks)
               (withIndex (generateCacheKey t a al
                           :: removeKey (generateCacheKey t a al) ks) ls))
       = true)
    (Hretry :
       fits (withEntry (generateCacheKey t a al) (newEntry now ents rels)
               (afterEviction
                  (generateCacheKey t a al
                   :: removeKey (generateCacheKey t a al) ks)
                  (withIndex (generateCacheKey t a al
                              :: removeKey (generateCacheKey t a al) ks) ls)))
       = true) :
  exists ls',
    setCachedTrack fits (3 + d) now t a al ents rels ls = Some ls' /\
    ls' !! (CACHE_PREFIX +:+ generateCacheKey t a al) =
      Some (StoredTrack (newEntry now ents rels)) /\
    indexed [] ls' /\
    (forall k, In k ks -> truthy k = true -> k <> generateCacheKey t a al ->
               k <> "index" -> ls' !! (CACHE_PREFIX +:+ k) = None) /\
    getCacheStats (2 + d) ls' =
      Some ({| trackCount := 0; oldestEntry := None; newestEntry := None;
               totalHits := Finite 0 |}, ls') /\
    exists ls'',
      clearCache (2 + d) ls' = Some ls'' /\
      ls'' !! (CACHE_PREFIX +:+ generateCacheKey t a al) =
        Some (StoredTrack (newEntry now ents rels)).
Proof.
  destruct ents as [|e ents']; [done|].
  set (key := generateCacheKey t a al) in *.
  set (entry := newEntry now (e :: ents') rels) in *.
  set (listed := key :: removeKey key ks) in *.
  set (full := withIndex listed ls) in *.
  assert (length listed <= 10)%nat as Hlen.
  { unfold listed. cbn [length]. pose proof (length_removeKey key ks). lia. }
  destruct (evictCount_all listed 10 full Hlen) as (Hkeys & Hgone & Hother).
  assert (indexed [] (afterEviction listed full)) as Hempty.
  { unfold afterEviction, withIndex at 1, indexed. rewrite Hkeys.
    apply lookup_insert_eq. }
  assert (indexed [] (withEntry key entry (afterEviction listed full))) as Hres.
  { unfold indexed, withEntry.
    rewrite lookup_insert_ne by apply fullKey_not_index. exact Hempty. }
  exists (withEntry key entry (afterEviction listed full)).
  split; [|split; [apply lookup_insert_eq|split; [exact Hres|split; [|split]]]].
  - assert (saveIndex fits {| keys := listed; version := CACHE_VERSION |} ls
            = full) as Hs.
    { unfold saveIndex, setItem.
      change (<[INDEX_KEY:=_]> ls) with full. by rewrite Hsaved. }
    assert (setItem fits (CACHE_PREFIX +:+ key) (StoredTrack entry) full = None)
      as Hf.
    { unfold setItem.
      change (<[CACHE_PREFIX +:+ key:=_]> full) with (withEntry key entry full).
      by rewrite Hfull. }
    assert (evictOldEntries fits (S (S d)) 10 full
            = Some (afterEviction listed full)) as He.
    { unfold evictOldEntries.
      rewrite (getIndex_indexed d listed full) by apply lookup_insert_eq.
      cbn [keys version]. unfold afterEviction in Hindex |- *.
      destruct (evictCount 10 listed full) as [ks' ls2]. cbn [fst snd] in *.
      unfold saveIndex, setItem.
      change (<[INDEX_KEY:=_]> ls2) with (withIndex ks' ls2).
      by rewrite Hindex. }
    change (3 + d)%nat with (S (S (S d))). unfold setCachedTrack.
    rewrite (getIndex_indexed (S d) ks ls Hidx). cbn [keys version].
    fold key. rewrite evictWhileFull_below
      by (pose proof (length_removeKey key ks); unfold MAX_CACHE_SIZE; lia).
    fold listed. fold entry. rewrite Hs, Hf, He.
    unfold setItem.
    change (<[CACHE_PREFIX +:+ key:=_]> (afterEviction listed full))
      with (withEntry key entry (afterEviction listed full)).
    by rewrite Hretry.
  - intros k Hin Ht Hne Hni. unfold withEntry, afterEviction, withIndex.
    rewrite lookup_insert_ne by (by intros ?%prefix_inj).
    rewrite lookup_insert_ne by (apply not_eq_sym; by apply entryKey_not_index).
    apply Hgone; [|exact Ht]. right. by apply removeKey_keeps.
  - change (2 + d)%nat with (S (S d)). unfold getCacheStats.
    by rewrite (getIndex_indexed d [] _ Hres).
  - eexists. split.
    + change (2 + d)%nat with (S (S d)).
      rewrite clearCache_S, (getIndex_indexed d [] _ Hres). reflexivity.
    + cbn [keys foldl]. rewrite lookup_delete_ne
        by (apply not_eq_sym, fullKey_not_index).
      apply lookup_insert_eq.
Qed.

Lemma setCachedTrack_over_quota_unlisted_witness :
  exists ls',
    setCachedTrack twoItems 3 2000 "Smooth Criminal" "Michael Jackson"
      (Some "Bad") [sampleEntity] [] smallStorage = Some ls' /\
    ls' !! (CACHE_PREFIX +:+ "michael_jackson::smooth_criminal::bad") =
      Some (StoredTrack (newEntry 2000 [sampleEntity] [])) /\
    indexed [] ls' /\
    ls' !! (CACHE_PREFIX +:+ "artist::song") = None.
Proof.
  destruct (setCachedTrack_over_quota_unlisted twoItems 0 2000
              "Smooth Criminal" "Michael Jackson" (Some "Bad") [sampleEntity]
              [] ["artist::song"] smallStorage)
    as (ls' & Hrun & Hentry & Hidx & Hgone & _).
  - discriminate.
  - apply lookup_insert_eq.
  - simpl. lia.
  - vm_compute. reflexivity.
  - vm_compute. reflexivity.
  - vm_compute. reflexivity.
  - vm_compute. reflexivity.
  - exists ls'. split; [exact Hrun|split; [exact Hentry|split; [exact Hidx|]]].
    apply Hgone; [by left|reflexivity| |]; vm_compute; discriminate.
Defined.

End CacheQuota.

(** ** MusicBrainz: the recording of a track looked up through its release *)

Module ReleaseLookupFacts.
Import JS Music MusicBrainz ReleaseLookup JSFacts MatchingFacts.

(** The stable sort by descending score of a list with its scores puts
    in front the first of the elements with the largest score. *)
Lemma head_scored {A : Type} (f : A -> Z) (l : list A) :
  l <> [] ->
  exists pre best post,
    l = pre ++ best :: post /\
    fst <$> head (sortBy (fun a b : A * Z => b.2 - a.2)
                    (map (fun r => (r, f r)) l)) = Some best /\
    Forall (fun r => f r < f best) pre /\
    Forall (fun r => f r <= f best) post.
Proof.
  intros Hne. set (scored := map (fun r => (r, f r)) l).
  destruct (head_sortBy_descending (fun p : A * Z => p.2) scored)
    as (pre & best & post & Heq & Hhead & Hpre & Hpost).
  { unfold scored. by destruct l. }
  assert (Forall (fun p : A * Z => p.2 = f p.1) scored) as Hscored.
  { unfold scored. apply Forall_map, Forall_forall. done. }
  exists (map fst pre), best.1, (map fst post).
  rewrite Heq in Hscored.
  apply Forall_app in Hscored as [Hs1 Hs2].
  apply Forall_cons in Hs2 as [Hb Hs2]. simpl in Hb.
  split; [|split; [|split]].
  2: { by rewrite Hhead. }
  - assert (map fst scored = l) as Hmap.
    { unfold scored. rewrite map_map. simpl. apply map_id. }
    rewrite <- Hmap, Heq, map_app. done.
  - apply Forall_map. rewrite Forall_forall in *. intros p Hp.
    specialize (Hpre p Hp). specialize (Hs1 p Hp). simpl in *. lia.
  - apply Forall_map. rewrite Forall_forall in *. intros p Hp.
    specialize (Hpost p Hp). specialize (Hs2 p Hp). simpl in *. lia.
Qed.

Lemma inMedia_Some (normalizedTrack : string) (media : list Medium)
    (rec : DrillDown.MBRecording) :
  inMedia normalizedTrack media = Some rec ->
  normalizeForComparison (DrillDown.rec_title rec) = normalizedTrack.
Proof.
  induction media as [|m media IH]; [done|]. cbn [inMedia].
  destruct (List.find _ _) as [r|] eqn:E; [|exact IH].
  intros [= <-]. apply find_some in E as [_ E]. by apply eqs_true.
Qed.

(** The loop over the releases: it sends the lookups of a prefix of the
    releases, never throws, and what it finds is on the release looked
    up last and has the title asked for. *)
Lemma tryReleases_spec (normalizedTrack : string) (releases : list ReleaseHit) :
  forall s : Net.source Answer,
  exists ids,
    map snd (Net.sent (tryReleases normalizedTrack releases s).2) =
      map snd (Net.sent s) ++ map releaseRequest ids /\
    ids `prefix_of` map rh_id releases /\
    (forall e, (tryReleases normalizedTrack releases s).1 <> Net.Thrown e) /\
    (forall found,
        (tryReleases normalizedTrack releases s).1 = Net.Returned (Some found) ->
        normalizeForComparison (title found) = normalizedTrack /\
        last ids = Some (releaseId found)).
Proof.
  induction releases as [|release rest IH]; intros s.
  { exists []. cbn [tryReleases fst snd map]. rewrite app_nil_r.
    repeat split; done. }
  cbn [tryReleases]. unfold Net.fetchMB.
  set (t := Net.throttle (Net.clock s) (Net.lastRequestTime s)).
  destruct (Net.upstream s) as [|r answers].
  { exists [rh_id release]. cbn [fst snd Net.sent map].
    rewrite map_app. split; [done|split; [|split; [done|done]]].
    apply prefix_cons, prefix_nil. }
  assert (forall s1 : Net.source Answer,
            map snd (Net.sent s1) =
              map snd (Net.sent s) ++ [releaseRequest (rh_id release)] ->
            exists ids,
              map snd (Net.sent (tryReleases normalizedTrack rest s1).2) =
                map snd (Net.sent s) ++ map releaseRequest ids /\
              ids `prefix_of` map rh_id (release :: rest) /\
              (forall e,
                  (tryReleases normalizedTrack rest s1).1 <> Net.Thrown e) /\
              (forall found,
                  (tryReleases normalizedTrack rest s1).1
                  = Net.Returned (Some found) ->
                  normalizeForComparison (title found) = normalizedTrack /\
                  last ids = Some (releaseId found))) as Hnext.
  { intros s1 Hsent. destruct (IH s1) as (ids & Hlog & Hpre & Hthrow & Hfound).
    exists (rh_id release :: ids). rewrite Hlog, Hsent, <- app_assoc.
    split; [done|split; [by apply prefix_cons|split; [exact Hthrow|]]].
    intros found Hf. destruct (Hfound found Hf) as [Ht Hl]. split; [exact Ht|].
    destruct ids; [done|exact Hl]. }
  destruct (Net.ok r).
  - destruct (inMedia normalizedTrack (default [] (an_media (Net.body r))))
      as [rec|] eqn:E.
    + exists [rh_id release]. cbn [fst snd Net.sent map]. rewrite map_app.
      split; [done|split; [apply prefix_cons, prefix_nil|split; [done|]]].
      intros found [= <-]. cbn [title releaseId]. split; [|done].
      by apply (inMedia_Some _ _ _ E).
    + apply Hnext. cbn [Net.sent]. by rewrite map_app.
  - apply Hnext. cbn [Net.sent]. by rewrite map_app.
Qed.

Lemma tryReleases_step (normalizedTrack : string) (release : ReleaseHit)
    (rest : list ReleaseHit) (s : Net.source Answer) (r : Net.reply Answer)
    (answers : list (Net.reply Answer)) :
  Net.upstream s = r :: answers ->
  withoutTrack normalizedTrack r = true ->
  exists s1,
    tryReleases normalizedTrack (release :: rest) s =
      tryReleases normalizedTrack rest s1 /\
    Net.upstream s1 = answers /\
    map snd (Net.sent s1) =
      map snd (Net.sent s) ++ [releaseRequest (rh_id release)].
Proof.
  intros Hup Hr. cbn [tryReleases]. unfold Net.fetchMB. rewrite Hup.
  unfold withoutTrack in Hr.
  set (t := Net.throttle (Net.clock s) (Net.lastRequestTime s)).
  exists (Net.mkSource t t answers
            (Net.sent s ++ [(t, releaseRequest (rh_id release))])).
  split; [|split; [reflexivity|cbn [Net.sent]; by rewrite map_app]].
  destruct (Net.ok r); [|reflexivity].
  by destruct (inMedia _ _).
Qed.

(** The loop finds the recording with the lookup that is answered first
    with a release that has the track. *)
Lemma tryReleases_found (normalizedTrack : string)
    (pre : list (Net.reply Answer)) :
  forall (releases : list ReleaseHit) (s : Net.source Answer)
         (hit : Net.reply Answer) (post : list (Net.reply Answer))
         (release : ReleaseHit) (rec : DrillDown.MBRecording),
    Net.upstream s = pre ++ hit :: post ->
    forallb (withoutTrack normalizedTrack) pre = true ->
    Net.ok hit = true ->
    inMedia normalizedTrack (default [] (an_media (Net.body hit))) = Some rec ->
    nth_error releases (length pre) = Some release ->
    (tryReleases normalizedTrack releases s).1 =
      Net.Returned (Some (mkFound (DrillDown.rec_id rec) (rh_id release)
                            (DrillDown.rec_title rec))) /\
    map snd (Net.sent (tryReleases normalizedTrack releases s).2) =
      map snd (Net.sent s)
      ++ map releaseRequest (map rh_id (firstn (S (length pre)) releases)).
Proof.
  induction pre as [|p pre IH];
    intros releases s hit post release rec Hup Hpre Hok Hrec Hnth;
    destruct releases as [|r0 rest]; try discriminate Hnth.
  - cbn in Hnth. injection Hnth as ->. cbn [tryReleases]. unfold Net.fetchMB.
    rewrite Hup. cbn [app]. rewrite Hok, Hrec. cbn [fst snd Net.sent].
    rewrite map_app. by destruct rest.
  - cbn [forallb] in Hpre. apply andb_prop in Hpre as [Hp Hpre].
    destruct (tryReleases_step normalizedTrack r0 rest s p
                (pre ++ hit :: post) Hup Hp) as (s1 & -> & Hup1 & Hsent1).
    destruct (IH rest s1 hit post release rec Hup1 Hpre Hok Hrec Hnth)
      as [Hout Hlog].
    split; [exact Hout|]. rewrite Hlog, Hsent1, <- app_assoc. reflexivity.
Qed.

(** The loop answers null after the lookups of all the releases when
    none is answered with a release that has the track. *)
Lemma tryReleases_none (normalizedTrack : string)
    (pre : list (Net.reply Answer)) :
  forall (releases : list ReleaseHit) (s : Net.source Answer)
         (post : list (Net.reply Answer)),
    Net.upstream s = pre ++ post ->
    forallb (withoutTrack normalizedTrack) pre = true ->
    length pre = length releases ->
    (tryReleases normalizedTrack releases s).1 = Net.Returned None /\
    map snd (Net.sent (tryReleases normalizedTrack releases s).2) =
      map snd (Net.sent s) ++ map releaseRequest (map rh_id releases).
Proof.
  induction pre as [|p pre IH]; intros releases s post Hup Hpre Hlen;
    destruct releases as [|r0 rest]; try discriminate Hlen.
  - cbn [tryReleases fst snd map]. by rewrite app_nil_r.
  - cbn [forallb] in Hpre. apply andb_prop in Hpre as [Hp Hpre].
    destruct (tryReleases_step normalizedTrack r0 rest s p (pre ++ post)
                Hup Hp) as (s1 & -> & Hup1 & Hsent1).
    injection Hlen as Hlen.
    destruct (IH rest s1 post Hup1 Hpre Hlen) as [Hout Hlog].
    split; [exact Hout|]. rewrite Hlog, Hsent1, <- app_assoc. reflexivity.
Qed.

Lemma releaseRequest_inj (a b : list string) :
  map releaseRequest a = map releaseRequest b -> a = b.
Proof.
  revert b. induction a as [|x a IH]; intros [|y b] H; try discriminate H;
    [reflexivity|].
  cbn [map] in H. injection H as Hxy Hab. f_equal; [|by apply IH].
  unfold releaseRequest in Hxy. cbv [String.append] in Hxy. congruence.
Qed.

(** X21.  [findRecordingViaRelease] sends the release search and then at
    most three lookups, of the releases with the highest scores in the
    order of the sort, the first of them to a release whose score no
    release of the answer exceeds (the first of these in the answer).  It
    throws only when the search is answered with an error: a failed
    lookup is skipped.  With no release in the answer it answers null
    after the one request.  What it finds is a recording whose normalized
    title is that of the track asked for, on the release looked up
    last.  The lookups are sent until one is answered with a release that
    has the track: that recording is the answer, with the release of that
    lookup; when the lookups of all the releases tried are answered
    without it, the answer is null after all of them. *)
Theorem findRecordingViaRelease_lookup (trackName artistName albumName : string)
    (s : Net.source Answer) :
  exists ids,
    map snd (Net.sent (findRecordingViaRelease trackName artistName albumName s).2)
    = map snd (Net.sent s)
      ++ releaseSearch albumName artistName :: map releaseRequest ids /\
    (length ids <= 3)%nat /\
    (forall e,
        (findRecordingViaRelease trackName artistName albumName s).1
        = Net.Thrown e ->
        ids = [] /\
        exists r rest,
          Net.upstream s = r :: rest /\ Net.ok r = false /\ Net.status r = e) /\
    (forall found,
        (findRecordingViaRelease trackName artistName albumName s).1
        = Net.Returned (Some found) ->
        normalizeForComparison (title found) = normalizeForComparison trackName /\
        last ids = Some (releaseId found)) /\
    (forall r rest,
        Net.upstream s = r :: rest -> Net.ok r = true ->
        ids `prefix_of`
          map rh_id
            (map fst
               (firstn 3
                  (scoredReleases albumName
                     (default [] (an_releases (Net.body r)))))) /\
        (default [] (an_releases (Net.body r)) = [] ->
         ids = [] /\
         (findRecordingViaRelease trackName artistName albumName s).1
         = Net.Returned None) /\
        (forall first,
            head ids = Some first ->
            exists pre best post,
              default [] (an_releases (Net.body r)) = pre ++ best :: post /\
              rh_id best = first /\
              Forall (fun x => scoreRelease albumName x
                               < scoreRelease albumName best) pre /\
              Forall (fun x => scoreRelease albumName x
                               <= scoreRelease albumName best) post) /\
        let top :=
          map fst
            (firstn 3
               (scoredReleases albumName
                  (default [] (an_releases (Net.body r))))) in
        (forall pre hit post release rec,
            rest = pre ++ hit :: post ->
            forallb (withoutTrack (normalizeForComparison trackName)) pre
              = true ->
            Net.ok hit = true ->
            inMedia (normalizeForComparison trackName)
              (default [] (an_media (Net.body hit))) = Some rec ->
            nth_error top (length pre) = Some release ->
            (findRecordingViaRelease trackName artistName albumName s).1
              = Net.Returned
                  (Some (mkFound (DrillDown.rec_id rec) (rh_id release)
                           (DrillDown.rec_title rec))) /\
            ids = map rh_id (firstn (S (length pre)) top)) /\
        (forall pre post,
            rest = pre ++ post ->
            forallb (withoutTrack (normalizeForComparison trackName)) pre
              = true ->
            length pre = length top ->
            (findRecordingViaRelease trackName artistName albumName s).1
              = Net.Returned None /\
            ids = map rh_id top)).
Proof.
  unfold findRecordingViaRelease, searchRelease, Net.fetchMB.
  set (t := Net.throttle (Net.clock s) (Net.lastRequestTime s)).
  destruct (Net.upstream s) as [|r answers].
  { exists []. cbn [fst snd Net.sent map]. rewrite map_app.
    split; [done|split; [cbn; lia|repeat split; done]]. }
  destruct (Net.ok r) eqn:Hok.
  2: { exists []. cbn [fst snd Net.sent map]. rewrite map_app.
       split; [done|split; [cbn; lia|split; [|split; [done|]]]].
       - intros e [= <-]. split; [done|]. by exists r, answers.
       - intros r' rest [= <- <-]. congruence. }
  destruct (default [] (an_releases (Net.body r))) as [|hit hits] eqn:Hrel.
  { exists []. cbn [fst snd Net.sent map]. rewrite map_app.
    split; [done|split; [cbn; lia|split; [done|split; [done|]]]].
    intros r' rest [= <- <-] _. rewrite Hrel.
    split; [apply prefix_nil|split; [done|split; [done|]]].
    cbv zeta. split.
    - intros pre hit post release rec _ _ _ _ Hnth. by destruct pre.
    - intros pre post _ _ Hlen. by destruct pre. }
  set (top := map fst (firstn 3 (scoredReleases albumName (hit :: hits)))).
  destruct (tryReleases_spec (normalizeForComparison trackName) top
              (Net.mkSource t t answers
                 (Net.sent s ++ [(t, releaseSearch albumName artistName)])))
    as (ids & Hlog & Hpre & Hthrow & Hfound).
  exists ids. split; [|split; [|split; [|split]]].
  - rewrite Hlog. cbn [Net.sent]. by rewrite map_app, <- app_assoc.
  - apply prefix_length in Hpre. revert Hpre. unfold top.
    rewrite !length_map, length_firstn. lia.
  - intros e He. by destruct (Hthrow e).
  - exact Hfound.
  - intros r' rest [= <- <-] _. rewrite Hrel.
    split; [exact Hpre|split; [done|split]].
    { intros first Hfirst.
      destruct (head_scored (scoreRelease albumName) (hit :: hits))
        as (pre & best & post & Heq & Hhead & Hlt & Hle); [done|].
      exists pre, best, post. split; [exact Heq|split; [|by split]].
      destruct Hpre as [more Hmore]. unfold top, scoredReleases in Hmore.
      destruct (sortBy _ _) as [|p sorted]; [done|].
      cbn in Hhead, Hmore. injection Hhead as <-.
      destruct ids as [|i ids]; [done|]. cbn in Hfirst, Hmore. congruence. }
    cbv zeta. fold top. split.
    + intros pre reply post release rec -> Hmiss Hreply Hrec Hnth.
      destruct (tryReleases_found (normalizeForComparison trackName) pre top
                  (Net.mkSource t t (pre ++ reply :: post)
                     (Net.sent s ++ [(t, releaseSearch albumName artistName)]))
                  reply post release rec eq_refl Hmiss Hreply Hrec Hnth)
        as [Hout Hsent].
      split; [exact Hout|].
      rewrite Hlog in Hsent. apply app_inv_head in Hsent.
      by apply releaseRequest_inj.
    + intros pre post -> Hmiss Hlen.
      destruct (tryReleases_none (normalizeForComparison trackName) pre top
                  (Net.mkSource t t (pre ++ post)
                     (Net.sent s ++ [(t, releaseSearch albumName artistName)]))
                  post eq_refl Hmiss Hlen) as [Hout Hsent].
      split; [exact Hout|].
      rewrite Hlog in Hsent. apply app_inv_head in Hsent.
      by apply releaseRequest_inj.
Qed.

(** On the sample answer, which lists the anniversary edition before the
    album, the album is looked up first and the recording is found on it
    with one lookup. *)
Example findRecordingViaRelease_prefers_album :
  let run :=
    findRecordingViaRelease "Smooth Criminal" "Michael Jackson" "Bad"
      (Net.mkSource 0 0
         [Net.mkReply 200 (mkAnswer (Some badHits) None);
          Net.mkReply 200 (mkAnswer None (Some badMedia))] []) in
  run.1 = Net.Returned (Some (mkFound "r1" "bad" "Smooth Criminal")) /\
  map snd (Net.sent run.2) =
    [releaseSearch "Bad" "Michael Jackson"; releaseRequest "bad"].
Proof. vm_compute. split; reflexivity. Qed.

End ReleaseLookupFacts.

(** ** Discogs: the release of a track and its credits *)

Module DiscogsLookupFacts.
Import JS Music Discogs DiscogsLookup JSFacts.

Lemma length_settled {T : Type} (answers : list (Net.reply T)) :
  (length (settled answers) <= length answers)%nat.
Proof.
  induction answers as [|r rest IH]; [done|]. cbn [settled].
  destruct (Net.ok r); [done|]. destruct (Net.status r =? 429); [|done].
  cbn [length]. lia.
Qed.

(** [fetchDiscogs] sends its request once for each answer it takes for a
    rate limit and once more, and ends as the first other answer tells. *)
Lemma fetchDiscogsFrom_settled {T : Type} (q : Net.request)
    (answers : list (Net.reply T)) :
  forall (c l : Z) (log : list (Z * Net.request)),
    map snd (Net.sent (Net.fetchDiscogsFrom q answers c l log).2) =
      map snd log ++ repeat q (S (rateLimited answers)) /\
    match settled answers with
    | [] =>
        (Net.fetchDiscogsFrom q answers c l log).1 = Net.Waiting /\
        Net.upstream (Net.fetchDiscogsFrom q answers c l log).2 = []
    | r :: rest =>
        (Net.fetchDiscogsFrom q answers c l log).1 =
          (if Net.ok r then Net.Returned (Net.body r)
           else Net.Thrown (Net.status r)) /\
        Net.upstream (Net.fetchDiscogsFrom q answers c l log).2 = rest
    end.
Proof.
  unfold rateLimited.
  induction answers as [|r rest IH]; intros c l log.
  { cbn. by rewrite map_app. }
  cbn [Net.fetchDiscogsFrom settled].
  destruct (Net.ok r) eqn:Hok.
  { rewrite Nat.sub_diag, Hok. cbn. by rewrite map_app. }
  destruct (Net.status r =? 429) eqn:Hst.
  - destruct (IH (Net.throttle c l + Net.rateLimitBackoff) (Net.throttle c l)
                (log ++ [(Net.throttle c l, q)])) as [Hlog Hend].
    split; [|exact Hend]. rewrite Hlog, map_app, <- app_assoc.
    pose proof (length_settled rest). cbn [length map snd app].
    replace (S (length rest) - length (settled rest))%nat
      with (S (length rest - length (settled rest))) by lia.
    done.
  - rewrite Nat.sub_diag, Hok. cbn. by rewrite map_app.
Qed.

Lemma fetchDiscogs_settled {T : Type} (q : Net.request) (s : Net.source T) :
  map snd (Net.sent (Net.fetchDiscogs q s).2) =
    map snd (Net.sent s) ++ repeat q (S (rateLimited (Net.upstream s))) /\
  match settled (Net.upstream s) with
  | [] =>
      (Net.fetchDiscogs q s).1 = Net.Waiting /\
      Net.upstream (Net.fetchDiscogs q s).2 = []
  | r :: rest =>
      (Net.fetchDiscogs q s).1 =
        (if Net.ok r then Net.Returned (Net.body r)
         else Net.Thrown (Net.status r)) /\
      Net.upstream (Net.fetchDiscogs q s).2 = rest
  end.
Proof. apply fetchDiscogsFrom_settled. Qed.

(** X22.  [getTrackCredits] never throws, and without a token it answers
    no credits and sends nothing.  With a token it sends the search, once
    more for each answer that is a rate limit.  When the search is
    answered with an error or with no result, it answers no credits.
    Otherwise it asks, in the same way, for the release of the result
    with the highest score (the first of these among the results), and
    answers the credits read from that release, or no credits when this
    request is answered with an error. *)
Theorem getTrackCredits_fail_safe (token trackName artistName : string)
    (albumName existingTrackId : option string) (s : Net.source Answer) :
  (forall e,
      (getTrackCreditsVia token trackName artistName albumName existingTrackId
         s).1 <> Net.Thrown e) /\
  (isConfigured token = false ->
   getTrackCreditsVia token trackName artistName albumName existingTrackId s
   = (Net.Returned (mkCredits [] []), s)) /\
  (isConfigured token = true ->
   match settled (Net.upstream s) with
   | [] =>
       (getTrackCreditsVia token trackName artistName albumName
          existingTrackId s).1 = Net.Waiting
   | r1 :: rest1 =>
       match (if Net.ok r1 then default [] (an_results (Net.body r1)) else [])
       with
       | [] =>
           (getTrackCreditsVia token trackName artistName albumName
              existingTrackId s).1 = Net.Returned (mkCredits [] []) /\
           map snd
             (Net.sent
                (getTrackCreditsVia token trackName artistName albumName
                   existingTrackId s).2)
           = map snd (Net.sent s)
             ++ repeat (searchRequest trackName artistName albumName)
                  (S (rateLimited (Net.upstream s)))
       | result :: results =>
           exists pre best post,
             result :: results = pre ++ best :: post /\
             Forall (fun x => scoreFor artistName albumName x
                              < scoreFor artistName albumName best) pre /\
             Forall (fun x => scoreFor artistName albumName x
                              <= scoreFor artistName albumName best) post /\
             map snd
               (Net.sent
                  (getTrackCreditsVia token trackName artistName albumName
                     existingTrackId s).2)
             = map snd (Net.sent s)
               ++ repeat (searchRequest trackName artistName albumName)
                    (S (rateLimited (Net.upstream s)))
               ++ repeat (releaseRequest (res_id best))
                    (S (rateLimited rest1)) /\
             match settled rest1 with
             | [] =>
                 (getTrackCreditsVia token trackName artistName albumName
                    existingTrackId s).1 = Net.Waiting
             | r2 :: _ =>
                 (getTrackCreditsVia token trackName artistName albumName
                    existingTrackId s).1 =
                 Net.Returned
                   (if Net.ok r2
                    then getTrackCredits true trackName existingTrackId
                           (Some (an_release (Net.body r2)))
                    else mkCredits [] [])
             end
       end
   end).
Proof.
  unfold getTrackCreditsVia, findBestRelease, searchRelease, getRelease.
  destruct (isConfigured token) eqn:Hconf; cbn [negb].
  2: { split; [done|split; [done|done]]. }
  set (search := searchRequest trackName artistName albumName).
  destruct (fetchDiscogs_settled search s) as [Hlog1 Hend1].
  destruct (Net.fetchDiscogs search s) as [out1 s1]. cbn [fst snd] in *.
  destruct (settled (Net.upstream s)) as [|r1 rest1].
  { destruct Hend1 as [-> _]. split; [done|split; [done|done]]. }
  destruct Hend1 as [-> Hup1].
  destruct (Net.ok r1) eqn:Hok1.
  2: { split; [done|split; [done|]]. intros _. by split. }
  destruct (default [] (an_results (Net.body r1))) as [|result results] eqn:Hres.
  { split; [done|split; [done|]]. intros _. by split. }
  destruct (ReleaseLookupFacts.head_scored (scoreFor artistName albumName)
              (result :: results))
    as (pre & best & post & Heq & Hhead & Hlt & Hle); [done|].
  destruct (head (MusicBrainz.sortBy _ _)) as [bestMatch|] eqn:Hsorted; [|done].
  cbn in Hhead. injection Hhead as Hbest.
  set (lookup := releaseRequest (res_id bestMatch.1)).
  destruct (fetchDiscogs_settled lookup s1) as [Hlog2 Hend2].
  rewrite Hup1 in Hlog2, Hend2.
  destruct (Net.fetchDiscogs lookup s1) as [out2 s2]. cbn [fst snd] in *.
  assert (map snd (Net.sent s2) =
          map snd (Net.sent s)
          ++ repeat search (S (rateLimited (Net.upstream s)))
          ++ repeat (releaseRequest (res_id best)) (S (rateLimited rest1)))
    as Hlog.
  { rewrite Hlog2, Hlog1, <- app_assoc. unfold lookup. by rewrite Hbest. }
  destruct (settled rest1) as [|r2 rest2].
  { destruct Hend2 as [-> _]. split; [done|split; [done|]]. intros _.
    exists pre, best, post. by repeat split. }
  destruct Hend2 as [-> _].
  destruct (Net.ok r2); (split; [done|split; [done|]]); intros _;
    exists pre, best, post; by repeat split.
Qed.

(** On the sample answers, with the first answer a rate limit, the search
    is sent twice, the album is preferred to its anniversary edition
    listed before it, and the producer of the track is credited. *)
Example getTrackCredits_prefers_album :
  let run :=
    getTrackCreditsVia "token" "Smooth Criminal" "Michael Jackson" (Some "Bad")
      (Some "track-r1")
      (Net.mkSource 0 0
         [Net.mkReply 429 (mkAnswer None noRelease);
          Net.mkReply 200 (mkAnswer (Some badResults) noRelease);
          Net.mkReply 200 (mkAnswer None badRelease)] []) in
  map snd (Net.sent run.2) =
    [searchRequest "Smooth Criminal" "Michael Jackson" (Some "Bad");
     searchRequest "Smooth Criminal" "Michael Jackson" (Some "Bad");
     releaseRequest 1] /\
  (exists credits,
      run.1 = Net.Returned credits /\
      map e_name (entities credits) = ["Quincy Jones"] /\
      map r_role (relationships credits) = [producer]).
Proof.
  vm_compute. split; [reflexivity|]. eexists. split; [reflexivity|].
  split; reflexivity.
Qed.

End DiscogsLookupFacts.
